(** * End-point scaling of saturation functions

    A shallow embedding of the scaling engines of
    [opm/utility/ECLEndPointScaling.cpp]:

    - [TwoPointScaling] and [ThreePointScaling] (horizontal scaling,
      [eval] and [reverse]),
    - [PureVerticalScaling] and [CritSatVerticalScaling] ([vertScale]),

    together with the anonymous-namespace helpers they call, and of the
    factories that build them from a result set:

    - [Create::TwoPoint], [Create::ThreePoint], [Create::PureVertical]
      and [Create::CritSatVertical],
    - [CreateEPS::Horizontal] and [CreateEPS::Vertical]
      ([fromECLOutput], [unscaledEndPoints], [unscaledFunctionValues]).

    The grid and the result set are collaborators outside the
    translation unit: they enter as the record [ECLOutput] of the
    answers they give.

    The C++ type [double] is kept abstract behind the class [Double] so
    that one transcription of the source can be run

    - on IEEE 754 binary64 numbers (Rocq's primitive [float]), which is
      what the compiled code computes with, and
    - on binary64 numbers that additionally remember every divisor that
      went into them (to speak about the divisions a call performs).

    Statements on the accuracy of a result compare the rational values
    of binary64 numbers ([F2Q]); the arithmetic is always that of
    binary64, with its rounding. *)

From Stdlib Require Import String ZArith QArith Qabs Qfield Qpower Qminmax.
From Stdlib Require Import Floats.
From Stdlib Require Import Bool List.
From Stdlib Require Import Lia Lqa.
Import ListNotations.

Close Scope Q_scope.
Set Implicit Arguments.

(* ===================================================================== *)
(** * The arithmetic of [double]                                          *)
(* ===================================================================== *)

(** The operations on [double] that the translation unit uses.  Only
    [operator<] is primitive among the comparisons: the source writes
    [a > b], which is [b < a], and negations of both. *)
Class Double (D : Type) : Type := {
  fadd : D -> D -> D;          (* operator+ *)
  fsub : D -> D -> D;          (* operator- *)
  fmul : D -> D -> D;          (* operator* *)
  fdiv : D -> D -> D;          (* operator/ *)
  flt : D -> D -> bool;        (* operator< *)
  fabs : D -> D;               (* std::abs *)
  lit_0 : D;                   (* 0.0 *)
  lit_1 : D;                   (* 1.0 *)
  lit_1e20 : D;                (* 1.0e+20 *)
  fnan : D                     (* std::nan("") *)
}.

Declare Scope double_scope.
Delimit Scope double_scope with double.
Infix "+" := fadd : double_scope.
Infix "-" := fsub : double_scope.
Infix "*" := fmul : double_scope.
Infix "/" := fdiv : double_scope.
Notation "a <? b" := (flt a b) (at level 70, no associativity) : double_scope.
Notation "a >? b" := (flt b a) (at level 70, no associativity) : double_scope.

(* ===================================================================== *)
(** * Outcomes of a call                                                  *)
(* ===================================================================== *)

Inductive exception : Type :=
| invalid_argument (what : string).

(** A call returns a value, throws, stops at a failed [assert], or has
    no defined behaviour ([operator[]] outside the vector). *)
Inductive outcome (A : Type) : Type :=
| Returns (a : A)
| Throws (e : exception)
| Aborts (what : string)
| Undefined.

Arguments Returns {A} a.
Arguments Throws {A} e.
Arguments Aborts {A} what.
Arguments Undefined {A}.

Definition bind {A B : Type} (c : outcome A) (k : A -> outcome B) : outcome B :=
  match c with
  | Returns a => k a
  | Throws e => Throws e
  | Aborts w => Aborts w
  | Undefined => Undefined
  end.

Notation "x <- c ;; k" := (bind c (fun x => k))
  (at level 61, c at next level, right associativity).
Notation "c ;;; k" := (bind c (fun _ => k))
  (at level 61, right associativity).

(** [assert (cond && "what")] from <cassert>: compiled out when the
    translation unit is built with [NDEBUG] defined. *)
Definition assert (NDEBUG : bool) (cond : bool) (what : string) : outcome unit :=
  if NDEBUG then Returns tt
  else if cond then Returns tt else Aborts what.

(** [v[i]] on a [std::vector]: defined for [i < v.size()] only. *)
Definition index {A : Type} (v : list A) (i : nat) : outcome A :=
  match nth_error v i with
  | Some x => Returns x
  | None => Undefined
  end.

(** [v[i] = x]. *)
Fixpoint store {A : Type} (v : list A) (i : nat) (x : A) : outcome (list A) :=
  match v, i with
  | [], _ => Undefined
  | _ :: v', O => Returns (x :: v')
  | y :: v', S i' => w <- store v' i' x ;; Returns (y :: w)
  end.

(** [v.push_back(x)] and [v.back() = x]. *)
Definition push_back {A : Type} (v : list A) (x : A) : list A := v ++ [x].
Definition set_back {A : Type} (v : list A) (x : A) : list A := removelast v ++ [x].

(** [for (const auto& x : xs) body], threading the loop's state. *)
Fixpoint for_each {A S : Type} (body : S -> A -> outcome S) (xs : list A) (s : S)
  : outcome S :=
  match xs with
  | [] => Returns s
  | x :: xs' => s' <- body s x ;; for_each body xs' s'
  end.

(* ===================================================================== *)
(** * Value types of the interface                                        *)
(* ===================================================================== *)

(** Modelled from the spec: the declaration of
    [EPSEvalInterface::TableEndPoints] is in the header
    [ECLEndPointScaling.hpp], which is not among the sources.  The fields
    are those of the spec's data model, in the order of the aggregate
    initialisers [TEP{ min[i], disp[i], max[i] }] of the source. *)
Record TableEndPoints (D : Type) : Type := {
  low : D;
  disp : D;
  high : D
}.

(** Modelled from the spec: the declarations of
    [EPSEvalInterface::SaturationAssoc] and [SaturationPoints] are in the
    same missing header; a point is a cell index and a saturation
    ([eval_pt.cell], [eval_pt.sat] in the source), the points a vector
    of them. *)
Record SaturationAssoc (D : Type) : Type := {
  cell : nat;
  sat : D
}.

Definition SaturationPoints (D : Type) : Type := list (SaturationAssoc D).

(** Modelled from the spec: the declaration of the enumeration
    [EPSEvalInterface::InvalidEndpointBehaviour] is in the same missing
    header; the spec and the source name its two values. *)
Inductive InvalidEndpointBehaviour : Type :=
| UseUnscaled
| IgnorePoint.

(** Modelled from the spec: the declaration of
    [VerticalScalingInterface::FunctionValues] is in the same missing
    header; a saturation and a value for each of the displacing and the
    maximum node ([f.disp.sat], [f.disp.val], [f.max.sat], [f.max.val] in
    the source). *)
Module FunctionValues.

Record Point (D : Type) : Type := {
  sat : D;
  val : D
}.

Record t (D : Type) : Type := {
  disp : Point D;
  max : Point D
}.

End FunctionValues.

(* ===================================================================== *)
(** * Helpers of the anonymous namespace                                  *)
(* ===================================================================== *)

Section Helpers.

Context {D : Type} `{Double D}.
Local Open Scope double_scope.

Definition defaultedScaledSaturation (s dflt : D) : D :=
  if fabs s <? lit_1e20 then s else dflt.

Definition validSaturation (s : D) : bool :=
  negb (s <? lit_0) && negb (s >? lit_1).

(** [std::accumulate(begin, end, true, lambda)]. *)
Definition validSaturations (sats : list D) : bool :=
  fold_left (fun (result : bool) (s : D) => result && validSaturation s)
            sats true.

End Helpers.

(* ===================================================================== *)
(** * [TwoPointScaling::Impl]                                             *)
(* ===================================================================== *)

Module TwoPointScaling.

Record Impl (D : Type) : Type := {
  smin_ : list D;
  smax_ : list D;
  handle_invalid_ : InvalidEndpointBehaviour
}.

Section Methods.

Context {D : Type} `{Double D}.
Local Open Scope double_scope.

(** The constructor: member initialisers, then the size check. *)
Definition new (smin smax : list D) : outcome (Impl D) :=
  let this := {| smin_ := smin; smax_ := smax;
                 handle_invalid_ := UseUnscaled |} in
  if negb (length (smin_ this) =? length (smax_ this))%nat then
    Throws (invalid_argument
      "Size Mismatch Between Minimum and Maximum Saturation Arrays")
  else Returns this.

Definition sMin (this : Impl D) (cell : nat) (tep : TableEndPoints D)
  : outcome D :=
  s <- index (smin_ this) cell ;;
  Returns (defaultedScaledSaturation s (low tep)).

Definition sMax (this : Impl D) (cell : nat) (tep : TableEndPoints D)
  : outcome D :=
  s <- index (smax_ this) cell ;;
  Returns (defaultedScaledSaturation s (high tep)).

Definition handleInvalidEndpoint (this : Impl D) (sp : SaturationAssoc D)
    (effsat : list D) : list D :=
  match handle_invalid_ this with
  | UseUnscaled => push_back effsat (sat sp)
  | IgnorePoint => push_back effsat fnan
  end.

(** Body of the loop of [eval]. *)
Definition eval_body (this : Impl D) (tep : TableEndPoints D) (srng : D)
    (effsat : list D) (eval_pt : SaturationAssoc D) : outcome (list D) :=
  let cell := cell eval_pt in
  sLO <- sMin this cell tep ;;
  sHI <- sMax this cell tep ;;
  if negb (validSaturations [sLO; sHI]) then
    Returns (handleInvalidEndpoint this eval_pt effsat)
  else
    let effsat := push_back effsat lit_0 in
    Returns (set_back effsat
      (if negb (sat eval_pt >? sLO) then
         low tep
       else if negb (sat eval_pt <? sHI) then
         high tep
       else
         let scaled_sat := ((sat eval_pt - sLO) / (sHI - sLO)) * srng in
         low tep + scaled_sat)).

Definition eval (this : Impl D) (tep : TableEndPoints D)
    (sp : SaturationPoints D) : outcome (list D) :=
  let srng := high tep - low tep in
  for_each (eval_body this tep srng) sp [].

(** Body of the loop of [reverse]. *)
Definition reverse_body (this : Impl D) (tep : TableEndPoints D) (srng : D)
    (unscaledsat : list D) (eval_pt : SaturationAssoc D) : outcome (list D) :=
  let cell := cell eval_pt in
  sLO <- sMin this cell tep ;;
  sHI <- sMax this cell tep ;;
  if negb (validSaturations [sLO; sHI]) then
    Returns (handleInvalidEndpoint this eval_pt unscaledsat)
  else
    let unscaledsat := push_back unscaledsat lit_0 in
    Returns (set_back unscaledsat
      (if negb (sat eval_pt >? low tep) then
         sLO
       else if negb (sat eval_pt <? high tep) then
         sHI
       else
         let t := (sat eval_pt - low tep) / srng in
         sLO + t * (sHI - sLO))).

Definition reverse (this : Impl D) (tep : TableEndPoints D)
    (sp : SaturationPoints D) : outcome (list D) :=
  let srng := high tep - low tep in
  for_each (reverse_body this tep srng) sp [].

End Methods.

End TwoPointScaling.

(* ===================================================================== *)
(** * [PureVerticalScaling::Impl]                                         *)
(* ===================================================================== *)

Module PureVerticalScaling.

Record Impl (D : Type) : Type := {
  fmax_ : list D
}.

Section Methods.

Context {D : Type} `{Double D}.
Local Open Scope double_scope.

Definition new (fmax : list D) : outcome (Impl D) :=
  Returns {| fmax_ := fmax |}.

(** Body of the loop of [vertScale]: [ret[i] *= fmax_[sp[i].cell] / maxVal]. *)
Definition vertScale_body (this : Impl D) (maxVal : D)
    (sp : SaturationPoints D) (ret : list D) (i : nat) : outcome (list D) :=
  pt <- index sp i ;;
  fm <- index (fmax_ this) (cell pt) ;;
  y <- index ret i ;;
  store ret i (y * (fm / maxVal)).

Definition vertScale (NDEBUG : bool) (this : Impl D) (f : FunctionValues.t D)
    (sp : SaturationPoints D) (val : list D) : outcome (list D) :=
  assert NDEBUG (length sp =? length val)%nat
         "Internal Error in Vertical Scaling" ;;;
  let ret := val in
  let maxVal := FunctionValues.val (FunctionValues.max f) in
  let n := length sp in
  for_each (vertScale_body this maxVal sp) (seq 0 n) ret.

End Methods.

End PureVerticalScaling.

(* ===================================================================== *)
(** * [CritSatVerticalScaling::Impl]                                      *)
(* ===================================================================== *)

Module CritSatVerticalScaling.

Record Impl (D : Type) : Type := {
  sdisp_ : list D;
  fdisp_ : list D;
  fmax_ : list D
}.

Section Methods.

Context {D : Type} `{Double D}.
Local Open Scope double_scope.

Definition new (sdisp fdisp fmax : list D) : outcome (Impl D) :=
  Returns {| sdisp_ := sdisp; fdisp_ := fdisp; fmax_ := fmax |}.

(** Body of the loop of [vertScale]. *)
Definition vertScale_body (this : Impl D) (fdisp sdisp fmax smax : D)
    (sepfv sep_s : bool) (sp : SaturationPoints D)
    (ret : list D) (i : nat) : outcome (list D) :=
  y <- index ret i ;;
  pt <- index sp i ;;
  let c := cell pt in
  let s := sat pt in
  sr <- index (sdisp_ this) c ;;
  fr <- index (fdisp_ this) c ;;
  fm <- index (fmax_ this) c ;;
  store ret i
    (if negb (s >? sr) then
       y * (fr / fdisp)
     else if sepfv then
       let t := (y - fdisp) / (fmax - fdisp) in
       fr + t * (fm - fr)
     else if sep_s then
       let t := (s - sdisp) / (smax - sdisp) in
       fr + t * (fm - fr)
     else
       fm).

Definition vertScale (NDEBUG : bool) (this : Impl D) (f : FunctionValues.t D)
    (sp : SaturationPoints D) (val : list D) : outcome (list D) :=
  assert NDEBUG (length sp =? length val)%nat
         "Internal Error in Vertical Scaling" ;;;
  assert NDEBUG
         (negb (FunctionValues.val (FunctionValues.max f)
                <? FunctionValues.val (FunctionValues.disp f)))
         "Internal Error in Table Extraction" ;;;
  assert NDEBUG
         (negb (FunctionValues.sat (FunctionValues.max f)
                <? FunctionValues.sat (FunctionValues.disp f)))
         "Internal Error in Table Extraction" ;;;
  let ret := val in
  let fdisp := FunctionValues.val (FunctionValues.disp f) in
  let sdisp := FunctionValues.sat (FunctionValues.disp f) in
  let fmax := FunctionValues.val (FunctionValues.max f) in
  let smax := FunctionValues.sat (FunctionValues.max f) in
  let sepfv := fmax >? fdisp in
  let sep_s := sdisp >? smax in
  let n := length sp in
  for_each (vertScale_body this fdisp sdisp fmax smax sepfv sep_s sp)
           (seq 0 n) ret.

End Methods.

End CritSatVerticalScaling.

(* ===================================================================== *)
(** * [ThreePointScaling::Impl]                                           *)
(* ===================================================================== *)

Module ThreePointScaling.

Record Impl (D : Type) : Type := {
  smin_ : list D;
  sdisp_ : list D;
  smax_ : list D;
  handle_invalid_ : InvalidEndpointBehaviour
}.

Section Methods.

Context {D : Type} `{Double D}.
Local Open Scope double_scope.

(** The constructor: member initialisers, then the size check. *)
Definition new (smin sdisp smax : list D) : outcome (Impl D) :=
  let this := {| smin_ := smin; sdisp_ := sdisp; smax_ := smax;
                 handle_invalid_ := UseUnscaled |} in
  if negb (length (sdisp_ this) =? length (smin_ this))%nat
     || negb (length (sdisp_ this) =? length (smax_ this))%nat then
    Throws (invalid_argument
      "Size Mismatch Between Minimum, Displacing and Maximum Saturation Arrays")
  else Returns this.

Definition sMin (this : Impl D) (cell : nat) (tep : TableEndPoints D)
  : outcome D :=
  s <- index (smin_ this) cell ;;
  Returns (defaultedScaledSaturation s (low tep)).

Definition sDisp (this : Impl D) (cell : nat) (tep : TableEndPoints D)
  : outcome D :=
  s <- index (sdisp_ this) cell ;;
  Returns (defaultedScaledSaturation s (disp tep)).

Definition sMax (this : Impl D) (cell : nat) (tep : TableEndPoints D)
  : outcome D :=
  s <- index (smax_ this) cell ;;
  Returns (defaultedScaledSaturation s (high tep)).

Definition handleInvalidEndpoint (this : Impl D) (sp : SaturationAssoc D)
    (effsat : list D) : list D :=
  match handle_invalid_ this with
  | UseUnscaled => push_back effsat (sat sp)
  | IgnorePoint => push_back effsat fnan
  end.

(** Body of the loop of [eval]. *)
Definition eval_body (this : Impl D) (tep : TableEndPoints D)
    (effsat : list D) (eval_pt : SaturationAssoc D) : outcome (list D) :=
  let cell := cell eval_pt in
  sLO <- sMin this cell tep ;;
  sR <- sDisp this cell tep ;;
  sHI <- sMax this cell tep ;;
  if negb (validSaturations [sLO; sR; sHI]) then
    Returns (handleInvalidEndpoint this eval_pt effsat)
  else
    let effsat := push_back effsat lit_0 in
    Returns (set_back effsat
      (if negb (sat eval_pt >? sLO) then
         low tep
       else if negb (sat eval_pt <? sHI) then
         high tep
       else if sat eval_pt <? sR then
         let t := (sat eval_pt - sLO) / (sR - sLO) in
         low tep + t * (disp tep - low tep)
       else
         let t := (sat eval_pt - sR) / (sHI - sR) in
         disp tep + t * (high tep - disp tep))).

Definition eval (this : Impl D) (tep : TableEndPoints D)
    (sp : SaturationPoints D) : outcome (list D) :=
  for_each (eval_body this tep) sp [].

(** Body of the loop of [reverse]. *)
Definition reverse_body (this : Impl D) (tep : TableEndPoints D)
    (unscaledsat : list D) (eval_pt : SaturationAssoc D) : outcome (list D) :=
  let cell := cell eval_pt in
  sLO <- sMin this cell tep ;;
  sR <- sDisp this cell tep ;;
  sHI <- sMax this cell tep ;;
  if negb (validSaturations [sLO; sR; sHI]) then
    Returns (handleInvalidEndpoint this eval_pt unscaledsat)
  else
    let unscaledsat := push_back unscaledsat lit_0 in
    Returns (set_back unscaledsat
      (if negb (sat eval_pt >? low tep) then
         sLO
       else if negb (sat eval_pt <? high tep) then
         sHI
       else if sat eval_pt <? disp tep then
         let t := (sat eval_pt - low tep) / (disp tep - low tep) in
         sLO + t * (sR - sLO)
       else
         let t := (sat eval_pt - disp tep) / (high tep - disp tep) in
         sR + t * (sHI - sR))).

Definition reverse (this : Impl D) (tep : TableEndPoints D)
    (sp : SaturationPoints D) : outcome (list D) :=
  for_each (reverse_body this tep) sp [].

End Methods.

End ThreePointScaling.

(* ===================================================================== *)
(** * Two readings of [double]                                            *)
(* ===================================================================== *)

(** IEEE 754 binary64, round to nearest even: the arithmetic of the
    compiled code. *)
#[export] Instance binary64 : Double float := {|
  fadd := PrimFloat.add;
  fsub := PrimFloat.sub;
  fmul := PrimFloat.mul;
  fdiv := PrimFloat.div;
  flt := PrimFloat.ltb;
  fabs := PrimFloat.abs;
  lit_0 := 0%float;
  lit_1 := 1%float;
  lit_1e20 := 1e20%float;
  fnan := PrimFloat.nan
|}.

(** Binary64 numbers that carry, as ghost data, the divisors of all the
    divisions that went into computing them.  Comparisons and results
    are those of [binary64]. *)
Record traced : Type := {
  value : float;
  divisors : list float
}.

Definition untraced (x : float) : traced :=
  {| value := x; divisors := [] |}.

Definition traced_op (op : float -> float -> float) (x y : traced) : traced :=
  {| value := op (value x) (value y);
     divisors := divisors x ++ divisors y |}.

Definition traced_div (x y : traced) : traced :=
  {| value := PrimFloat.div (value x) (value y);
     divisors := divisors x ++ divisors y ++ [value y] |}.

#[export] Instance binary64_traced : Double traced := {|
  fadd := traced_op PrimFloat.add;
  fsub := traced_op PrimFloat.sub;
  fmul := traced_op PrimFloat.mul;
  fdiv := traced_div;
  flt := fun x y => PrimFloat.ltb (value x) (value y);
  fabs := fun x => {| value := PrimFloat.abs (value x);
                      divisors := divisors x |};
  lit_0 := untraced 0%float;
  lit_1 := untraced 1%float;
  lit_1e20 := untraced 1e20%float;
  fnan := untraced PrimFloat.nan
|}.

(* ===================================================================== *)
(** * Vocabulary of the statements                                        *)
(* ===================================================================== *)

(** [0 <= x <= 1] and its complement among the ordered values, on
    binary64 numbers ([operator<=] is [PrimFloat.leb]). *)
Definition in_unit_interval (x : float) : Prop :=
  (0 <=? x)%float = true /\ (x <=? 1)%float = true.

Definition outside_unit_interval (x : float) : Prop :=
  (x <? 0)%float = true \/ (1 <? x)%float = true.

(** Every point of [sp] names a cell below [n]. *)
Definition cells_below {D : Type} (n : nat) (sp : SaturationPoints D) : Prop :=
  Forall (fun pt => cell pt < n) sp.

Definition TwoPoint_in_range {D : Type} (this : TwoPointScaling.Impl D)
    (sp : SaturationPoints D) : Prop :=
  cells_below (length (TwoPointScaling.smin_ this)) sp /\
  cells_below (length (TwoPointScaling.smax_ this)) sp.

Definition ThreePoint_in_range {D : Type} (this : ThreePointScaling.Impl D)
    (sp : SaturationPoints D) : Prop :=
  cells_below (length (ThreePointScaling.smin_ this)) sp /\
  cells_below (length (ThreePointScaling.sdisp_ this)) sp /\
  cells_below (length (ThreePointScaling.smax_ this)) sp.

Definition CritSat_in_range {D : Type} (this : CritSatVerticalScaling.Impl D)
    (sp : SaturationPoints D) : Prop :=
  cells_below (length (CritSatVerticalScaling.sdisp_ this)) sp /\
  cells_below (length (CritSatVerticalScaling.fdisp_ this)) sp /\
  cells_below (length (CritSatVerticalScaling.fmax_ this)) sp.

(** [out] holds, entry by entry and in the order of [xs], what the call
    [f] returns for each element of [xs] passed alone. *)
Definition entrywise {A B : Type} (f : list A -> outcome (list B))
    (xs : list A) (out : list B) : Prop :=
  Forall2 (fun x v => f [x] = Returns [v]) xs out.

(** A call that reports a failure: a failed [assert] or an exception. *)
Definition reports_failure {A : Type} (o : outcome A) : Prop :=
  match o with
  | Aborts _ | Throws _ => True
  | Returns _ | Undefined => False
  end.

(** The piecewise description of [TwoPointScaling::eval], read with
    three independent cases: at or below [sLO], at or above [sHI], and
    neither. *)
Definition TwoPoint_eval_three_cases : Prop :=
  forall (this : TwoPointScaling.Impl float) (tep : TableEndPoints float)
         (sp : SaturationPoints float) (out : list float)
         (i : nat) (pt : SaturationAssoc float) (sLO sHI : float),
    TwoPointScaling.eval this tep sp = Returns out ->
    nth_error sp i = Some pt ->
    TwoPointScaling.sMin this (cell pt) tep = Returns sLO ->
    TwoPointScaling.sMax this (cell pt) tep = Returns sHI ->
    in_unit_interval sLO -> in_unit_interval sHI ->
    ((sat pt <=? sLO)%float = true -> nth_error out i = Some (low tep)) /\
    ((sHI <=? sat pt)%float = true -> nth_error out i = Some (high tep)) /\
    ((sat pt <=? sLO)%float = false -> (sHI <=? sat pt)%float = false ->
     nth_error out i
     = Some (low tep + ((sat pt - sLO) / (sHI - sLO)) * (high tep - low tep))%float).

(** [CritSatVerticalScaling::vertScale] as described, with [s <=
    sdisp_[cell]] selecting the first branch and its failure the
    others. *)
Definition CritSat_vertScale_as_described : Prop :=
  forall (NDEBUG : bool) (this : CritSatVerticalScaling.Impl float)
         (f : FunctionValues.t float) (sp : SaturationPoints float)
         (val out : list float)
         (i : nat) (pt : SaturationAssoc float) (y sr fr fm : float),
    let fdisp := FunctionValues.val (FunctionValues.disp f) in
    let sdisp := FunctionValues.sat (FunctionValues.disp f) in
    let fmax := FunctionValues.val (FunctionValues.max f) in
    let smax := FunctionValues.sat (FunctionValues.max f) in
    length sp = length val ->
    CritSatVerticalScaling.vertScale NDEBUG this f sp val = Returns out ->
    nth_error sp i = Some pt -> nth_error val i = Some y ->
    nth_error (CritSatVerticalScaling.sdisp_ this) (cell pt) = Some sr ->
    nth_error (CritSatVerticalScaling.fdisp_ this) (cell pt) = Some fr ->
    nth_error (CritSatVerticalScaling.fmax_ this) (cell pt) = Some fm ->
    nth_error out i
    = Some (if (sat pt <=? sr)%float then (y * (fr / fdisp))%float
            else if (fdisp <? fmax)%float then
              (fr + ((y - fdisp) / (fmax - fdisp)) * (fm - fr))%float
            else if (smax <? sdisp)%float then
              (fr + ((sat pt - sdisp) / (smax - sdisp)) * (fm - fr))%float
            else fm).

(** [a] and [b] differ by at most [tol], in binary64 arithmetic. *)
Definition within_tolerance (tol a b : float) : Prop :=
  (abs (a - b) <=? tol)%float = true.

(** [eval] followed by [reverse] gives back, within [tol], every
    saturation strictly inside [(sLO, sHI)]. *)
Definition TwoPoint_round_trip_within (tol : float) : Prop :=
  forall (this : TwoPointScaling.Impl float) (tep : TableEndPoints float)
         (c : nat) (s sLO sHI x s' : float),
    (low tep <? high tep)%float = true ->
    TwoPointScaling.sMin this c tep = Returns sLO ->
    TwoPointScaling.sMax this c tep = Returns sHI ->
    (0 <=? sLO)%float = true -> (sLO <? sHI)%float = true ->
    (sHI <=? 1)%float = true ->
    (sLO <? s)%float = true -> (s <? sHI)%float = true ->
    TwoPointScaling.eval this tep [{| cell := c; sat := s |}] = Returns [x] ->
    TwoPointScaling.reverse this tep [{| cell := c; sat := x |}] = Returns [s'] ->
    within_tolerance tol s' s.

(** The entry that the invalid-end-point policy prescribes for a point. *)
Definition policy_entry (policy : InvalidEndpointBehaviour)
    (pt : SaturationAssoc float) : float :=
  match policy with
  | UseUnscaled => sat pt
  | IgnorePoint => PrimFloat.nan
  end.

(** The entry of a regularly processed point of a two-point scaling:
    the piecewise-linear map that takes [from_lo, from_hi] onto
    [to_lo, to_hi] and is constant below and above. *)
Definition scaled_linearly (from_lo from_hi to_lo to_hi s : float) : float :=
  if negb (from_lo <? s)%float then to_lo
  else if negb (s <? from_hi)%float then to_hi
  else (to_lo + ((s - from_lo) / (from_hi - from_lo)) * (to_hi - to_lo))%float.

(** The same with a middle node: [from_lo, from_mid] onto
    [to_lo, to_mid] and [from_mid, from_hi] onto [to_mid, to_hi]. *)
Definition scaled_linearly_in_two_pieces
    (from_lo from_mid from_hi to_lo to_mid to_hi s : float) : float :=
  if negb (from_lo <? s)%float then to_lo
  else if negb (s <? from_hi)%float then to_hi
  else if (s <? from_mid)%float then
    (to_lo + ((s - from_lo) / (from_mid - from_lo)) * (to_mid - to_lo))%float
  else
    (to_mid + ((s - from_mid) / (from_hi - from_mid)) * (to_hi - to_mid))%float.

(** Regular entries of the four methods: [eval] takes the cell's range
    onto the table's, [reverse] the table's onto the cell's. *)
Definition TwoPoint_eval_regular (tep : TableEndPoints float)
    (sLO sHI s : float) : float :=
  scaled_linearly sLO sHI (low tep) (high tep) s.

Definition TwoPoint_reverse_regular (tep : TableEndPoints float)
    (sLO sHI s : float) : float :=
  scaled_linearly (low tep) (high tep) sLO sHI s.

Definition ThreePoint_eval_regular (tep : TableEndPoints float)
    (sLO sR sHI s : float) : float :=
  scaled_linearly_in_two_pieces sLO sR sHI (low tep) (disp tep) (high tep) s.

Definition ThreePoint_reverse_regular (tep : TableEndPoints float)
    (sLO sR sHI s : float) : float :=
  scaled_linearly_in_two_pieces (low tep) (disp tep) (high tep) sLO sR sHI s.

(** A call [f this tep sp] of a two-point method returns one entry per
    point; a point with a resolved end point outside [0,1] gets the
    policy's entry, and every other point its regular entry. *)
Definition TwoPoint_policy_applied
    (f : TwoPointScaling.Impl float -> TableEndPoints float ->
         SaturationPoints float -> outcome (list float))
    (regular : TableEndPoints float -> float -> float -> float -> float)
    (this : TwoPointScaling.Impl float) (tep : TableEndPoints float)
    (sp : SaturationPoints float) : Prop :=
  exists out,
    f this tep sp = Returns out /\
    length out = length sp /\
    entrywise (f this tep) sp out /\
    forall (i : nat) (pt : SaturationAssoc float) (sLO sHI : float),
      nth_error sp i = Some pt ->
      TwoPointScaling.sMin this (cell pt) tep = Returns sLO ->
      TwoPointScaling.sMax this (cell pt) tep = Returns sHI ->
      (outside_unit_interval sLO \/ outside_unit_interval sHI ->
       nth_error out i
       = Some (policy_entry (TwoPointScaling.handle_invalid_ this) pt)) /\
      (~ (outside_unit_interval sLO \/ outside_unit_interval sHI) ->
       nth_error out i = Some (regular tep sLO sHI (sat pt))).

Definition ThreePoint_policy_applied
    (f : ThreePointScaling.Impl float -> TableEndPoints float ->
         SaturationPoints float -> outcome (list float))
    (regular : TableEndPoints float -> float -> float -> float -> float -> float)
    (this : ThreePointScaling.Impl float) (tep : TableEndPoints float)
    (sp : SaturationPoints float) : Prop :=
  exists out,
    f this tep sp = Returns out /\
    length out = length sp /\
    entrywise (f this tep) sp out /\
    forall (i : nat) (pt : SaturationAssoc float) (sLO sR sHI : float),
      nth_error sp i = Some pt ->
      ThreePointScaling.sMin this (cell pt) tep = Returns sLO ->
      ThreePointScaling.sDisp this (cell pt) tep = Returns sR ->
      ThreePointScaling.sMax this (cell pt) tep = Returns sHI ->
      (outside_unit_interval sLO \/ outside_unit_interval sR \/
       outside_unit_interval sHI ->
       nth_error out i
       = Some (policy_entry (ThreePointScaling.handle_invalid_ this) pt)) /\
      (~ (outside_unit_interval sLO \/ outside_unit_interval sR \/
          outside_unit_interval sHI) ->
       nth_error out i = Some (regular tep sLO sR sHI (sat pt))).

(** A call returns exactly one entry per point, in the order of the
    points. *)
Definition one_entry_per_point {D : Type}
    (f : SaturationPoints D -> outcome (list D))
    (sp : SaturationPoints D) : Prop :=
  exists out,
    f sp = Returns out /\ length out = length sp /\ entrywise f sp out.

(** [PureVerticalScaling::vertScale] as described: every entry is
    [values[i] * (fmax_[cell] / f.max.val)], and the values come back
    unchanged when every referenced [fmax_[cell]] equals [f.max.val]. *)
Definition PureVertical_scales_and_identity : Prop :=
  forall (NDEBUG : bool) (this : PureVerticalScaling.Impl float)
         (f : FunctionValues.t float) (sp : SaturationPoints float)
         (val out : list float),
    length sp = length val ->
    PureVerticalScaling.vertScale NDEBUG this f sp val = Returns out ->
    (forall (i : nat) (pt : SaturationAssoc float) (y fm : float),
        nth_error sp i = Some pt -> nth_error val i = Some y ->
        nth_error (PureVerticalScaling.fmax_ this) (cell pt) = Some fm ->
        nth_error out i
        = Some (y * (fm / FunctionValues.val (FunctionValues.max f)))%float) /\
    ((forall (pt : SaturationAssoc float) (fm : float),
         In pt sp ->
         nth_error (PureVerticalScaling.fmax_ this) (cell pt) = Some fm ->
         (fm =? FunctionValues.val (FunctionValues.max f))%float = true) ->
     out = val).

(** A [ThreePointScaling] whose [sdisp] array is its [smin] array, or
    its [smax] array, evaluated like the [TwoPointScaling] of the same
    [smin] and [smax], at the same table end points, for points between
    the resolved end points. *)
Definition ThreePoint_degenerates_to_TwoPoint : Prop :=
  forall (smin smax : list float) (policy : InvalidEndpointBehaviour)
         (tep : TableEndPoints float) (pt : SaturationAssoc float)
         (sLO sHI : float),
    let two := {| TwoPointScaling.smin_ := smin;
                  TwoPointScaling.smax_ := smax;
                  TwoPointScaling.handle_invalid_ := policy |} in
    TwoPointScaling.sMin two (cell pt) tep = Returns sLO ->
    TwoPointScaling.sMax two (cell pt) tep = Returns sHI ->
    in_unit_interval sLO -> in_unit_interval sHI ->
    (sLO <=? sat pt)%float = true -> (sat pt <=? sHI)%float = true ->
    ThreePointScaling.eval
      {| ThreePointScaling.smin_ := smin;
         ThreePointScaling.sdisp_ := smin;
         ThreePointScaling.smax_ := smax;
         ThreePointScaling.handle_invalid_ := policy |} tep [pt]
    = TwoPointScaling.eval two tep [pt] /\
    ThreePointScaling.eval
      {| ThreePointScaling.smin_ := smin;
         ThreePointScaling.sdisp_ := smax;
         ThreePointScaling.smax_ := smax;
         ThreePointScaling.handle_invalid_ := policy |} tep [pt]
    = TwoPointScaling.eval two tep [pt].

(** [PureVerticalScaling::vertScale] reports a failure exactly when the
    sizes differ. *)
Definition PureVertical_fails_iff_size_mismatch : Prop :=
  forall (NDEBUG : bool) (this : PureVerticalScaling.Impl float)
         (f : FunctionValues.t float) (sp : SaturationPoints float)
         (val : list float),
    reports_failure (PureVerticalScaling.vertScale NDEBUG this f sp val)
    <-> length sp <> length val.

(** Inputs of a traced run: the binary64 inputs, with empty logs. *)
Definition trace_tep (tep : TableEndPoints float) : TableEndPoints traced :=
  {| low := untraced (low tep);
     disp := untraced (disp tep);
     high := untraced (high tep) |}.

Definition trace_point (pt : SaturationAssoc float) : SaturationAssoc traced :=
  {| cell := cell pt; sat := untraced (sat pt) |}.

Definition trace_two (this : TwoPointScaling.Impl float)
  : TwoPointScaling.Impl traced :=
  {| TwoPointScaling.smin_ := map untraced (TwoPointScaling.smin_ this);
     TwoPointScaling.smax_ := map untraced (TwoPointScaling.smax_ this);
     TwoPointScaling.handle_invalid_ := TwoPointScaling.handle_invalid_ this |}.

Definition trace_three (this : ThreePointScaling.Impl float)
  : ThreePointScaling.Impl traced :=
  {| ThreePointScaling.smin_ := map untraced (ThreePointScaling.smin_ this);
     ThreePointScaling.sdisp_ := map untraced (ThreePointScaling.sdisp_ this);
     ThreePointScaling.smax_ := map untraced (ThreePointScaling.smax_ this);
     ThreePointScaling.handle_invalid_ := ThreePointScaling.handle_invalid_ this |}.

Definition outcome_map {A B : Type} (g : A -> B) (o : outcome A) : outcome B :=
  match o with
  | Returns a => Returns (g a)
  | Throws e => Throws e
  | Aborts w => Aborts w
  | Undefined => Undefined
  end.

(** The traced calls of the four horizontal methods. *)
Definition TwoPoint_eval_traced (this : TwoPointScaling.Impl float)
    (tep : TableEndPoints float) (sp : SaturationPoints float)
  : outcome (list traced) :=
  TwoPointScaling.eval (trace_two this) (trace_tep tep) (map trace_point sp).

Definition TwoPoint_reverse_traced (this : TwoPointScaling.Impl float)
    (tep : TableEndPoints float) (sp : SaturationPoints float)
  : outcome (list traced) :=
  TwoPointScaling.reverse (trace_two this) (trace_tep tep) (map trace_point sp).

Definition ThreePoint_eval_traced (this : ThreePointScaling.Impl float)
    (tep : TableEndPoints float) (sp : SaturationPoints float)
  : outcome (list traced) :=
  ThreePointScaling.eval (trace_three this) (trace_tep tep) (map trace_point sp).

Definition ThreePoint_reverse_traced (this : ThreePointScaling.Impl float)
    (tep : TableEndPoints float) (sp : SaturationPoints float)
  : outcome (list traced) :=
  ThreePointScaling.reverse (trace_three this) (trace_tep tep)
                            (map trace_point sp).

(** [d] is the divisor [hi - lo] of an interpolation entered with [s]
    strictly between [lo] and [hi]; resp. with [lo <= s < hi]. *)
Definition strictly_between (s lo hi d : float) : Prop :=
  d = (hi - lo)%float /\ (lo <? s)%float = true /\ (s <? hi)%float = true.

Definition from_up_to (s lo hi d : float) : Prop :=
  d = (hi - lo)%float /\ (lo <=? s)%float = true /\ (s <? hi)%float = true.

(** Every divisor logged by a traced call is strictly positive. *)
Definition divisors_positive (o : outcome (list traced)) : Prop :=
  forall (out : list traced) (v : traced) (d : float),
    o = Returns out -> In v out -> In d (divisors v) ->
    (0 <? d)%float = true.

(** Every division of [ThreePointScaling::eval] is entered with the
    saturation strictly between the two end points of its range. *)
Definition ThreePoint_eval_divides_strictly_inside : Prop :=
  forall (this : ThreePointScaling.Impl float) (tep : TableEndPoints float)
         (pt : SaturationAssoc float) (sLO sR sHI : float) (v : traced)
         (d : float),
    ThreePointScaling.sMin this (cell pt) tep = Returns sLO ->
    ThreePointScaling.sDisp this (cell pt) tep = Returns sR ->
    ThreePointScaling.sMax this (cell pt) tep = Returns sHI ->
    ThreePoint_eval_traced this tep [pt] = Returns [v] ->
    In d (divisors v) ->
    strictly_between (sat pt) sLO sR d \/ strictly_between (sat pt) sR sHI d.

(** Where the divisions of the four methods are entered (as the code has
    it): strictly inside the range, except for the upper sub-interval of
    the three-point methods, which starts at the displacing end point. *)
Definition TwoPoint_eval_divides_inside (this : TwoPointScaling.Impl float)
    (tep : TableEndPoints float) : Prop :=
  forall (pt : SaturationAssoc float) (sLO sHI : float) (v : traced) (d : float),
    TwoPointScaling.sMin this (cell pt) tep = Returns sLO ->
    TwoPointScaling.sMax this (cell pt) tep = Returns sHI ->
    TwoPoint_eval_traced this tep [pt] = Returns [v] ->
    In d (divisors v) ->
    strictly_between (sat pt) sLO sHI d.

Definition TwoPoint_reverse_divides_inside (this : TwoPointScaling.Impl float)
    (tep : TableEndPoints float) : Prop :=
  forall (pt : SaturationAssoc float) (v : traced) (d : float),
    TwoPoint_reverse_traced this tep [pt] = Returns [v] ->
    In d (divisors v) ->
    strictly_between (sat pt) (low tep) (high tep) d.

Definition ThreePoint_eval_divides_inside (this : ThreePointScaling.Impl float)
    (tep : TableEndPoints float) : Prop :=
  forall (pt : SaturationAssoc float) (sLO sR sHI : float) (v : traced)
         (d : float),
    ThreePointScaling.sMin this (cell pt) tep = Returns sLO ->
    ThreePointScaling.sDisp this (cell pt) tep = Returns sR ->
    ThreePointScaling.sMax this (cell pt) tep = Returns sHI ->
    ThreePoint_eval_traced this tep [pt] = Returns [v] ->
    In d (divisors v) ->
    strictly_between (sat pt) sLO sR d \/ from_up_to (sat pt) sR sHI d.

Definition ThreePoint_reverse_divides_inside (this : ThreePointScaling.Impl float)
    (tep : TableEndPoints float) : Prop :=
  forall (pt : SaturationAssoc float) (v : traced) (d : float),
    ThreePoint_reverse_traced this tep [pt] = Returns [v] ->
    In d (divisors v) ->
    strictly_between (sat pt) (low tep) (disp tep) d \/
    from_up_to (sat pt) (disp tep) (high tep) d.

(** The divisions of [eval] and [reverse] have strictly positive
    divisors, with no precondition on the call. *)
Definition horizontal_divisors_always_positive : Prop :=
  forall (two : TwoPointScaling.Impl float) (three : ThreePointScaling.Impl float)
         (tep : TableEndPoints float) (sp : SaturationPoints float),
    divisors_positive (TwoPoint_eval_traced two tep sp) /\
    divisors_positive (TwoPoint_reverse_traced two tep sp) /\
    divisors_positive (ThreePoint_eval_traced three tep sp) /\
    divisors_positive (ThreePoint_reverse_traced three tep sp).

(** An order-preserving integer key for the binary64 numbers that are
    not NaN (the two zeros share key 0). *)
Definition SFkey (x : spec_float) : option Z :=
  match x with
  | S754_nan => None
  | S754_zero _ => Some 0%Z
  | S754_infinity s => Some (if s then (- 2 ^ 70)%Z else (2 ^ 70)%Z)
  | S754_finite s m e =>
      let k := ((e + 1075) * 2 ^ 53 + Zpos m)%Z in
      Some (if s then (- k)%Z else k)
  end.

Definition key (x : float) : option Z := SFkey (Prim2SF x).

(** The rational value of a binary64 number; [0] for those that have
    none (the infinities and NaN). *)
Definition SF2Q (x : spec_float) : Q :=
  match x with
  | S754_finite s m e => (inject_Z (cond_Zopp s (Zpos m)) * 2 ^ e)%Q
  | _ => 0%Q
  end.

Definition F2Q (x : float) : Q := SF2Q (Prim2SF x).

(** The unit roundoff taken for the bounds, [2^-52], and the smallest
    positive binary64 number, [2^-1074]. *)
Definition ulp_1 : Q := (2 ^ (-52))%Q.
Definition tiny : Q := (2 ^ (-1074))%Q.

(** The sign of a binary64 number as a factor. *)
Definition sign_factor (s : bool) : Q := if s then (-1)%Q else 1%Q.

(** Neither an infinity nor NaN. *)
Definition SFfinite (x : spec_float) : bool :=
  match x with
  | S754_zero _ | S754_finite _ _ _ => true
  | S754_infinity _ | S754_nan => false
  end.

(** The value of a finite binary64 number in units of [2^-1074]. *)
Definition SFnum (x : spec_float) : Z :=
  match x with
  | S754_finite s m e => cond_Zopp s (Zpos m * 2 ^ (e + 1074))
  | _ => 0%Z
  end.

(** The linear map that takes [from_lo, from_hi] onto [to_lo, to_hi], on
    rational numbers. *)
Definition linear_image (from_lo from_hi to_lo to_hi s : Q) : Q :=
  (to_lo + ((s - from_lo) / (from_hi - from_lo)) * (to_hi - to_lo))%Q.

(** [a] and [b] are finite and their values differ by at most [tol]. *)
Definition values_within (tol : Q) (a b : float) : Prop :=
  is_finite a = true /\ is_finite b = true /\ (Qabs (F2Q a - F2Q b) <= tol)%Q.

(** The tolerance met by a round trip through the range [[lo, hi]]:
    [2^-47 / (hi - lo)]. *)
Definition round_trip_tolerance (lo hi : float) : Q :=
  (2 ^ (-47) / (F2Q hi - F2Q lo))%Q.

(** The exact maps that [eval] and [reverse] round: the clamped linear
    image of [scaled_linearly], and the one of
    [scaled_linearly_in_two_pieces], on rational numbers, with the
    tests in the order of the code. *)
Definition clamped_linear_image (from_lo from_hi to_lo to_hi s : Q) : Q :=
  if Qle_bool s from_lo then to_lo
  else if Qle_bool from_hi s then to_hi
  else linear_image from_lo from_hi to_lo to_hi s.

Definition clamped_two_piece_image
    (from_lo from_mid from_hi to_lo to_mid to_hi s : Q) : Q :=
  if Qle_bool s from_lo then to_lo
  else if Qle_bool from_hi s then to_hi
  else if Qle_bool from_mid s then linear_image from_mid from_hi to_mid to_hi s
  else linear_image from_lo from_mid to_lo to_mid s.

(** [x] is finite and its value is within [tol] of [X]. *)
Definition approximates (tol : Q) (x : float) (X : Q) : Prop :=
  is_finite x = true /\ (Qabs (F2Q x - X) <= tol)%Q.

(** A number cut off at [0] and at [1]. *)
Definition clamp01 (t : Q) : Q :=
  if Qle_bool t 0 then 0%Q else if Qle_bool 1 t then 1%Q else t.

(** The tolerance met by a round trip of the three-point scaling
    through the ranges [[lo, mid]] and [[mid, hi]]:
    [2^-47 / min (mid - lo) (hi - mid)]. *)
Definition round_trip_tolerance_in_two_pieces (lo mid hi : float) : Q :=
  (2 ^ (-47) / Qmin (F2Q mid - F2Q lo) (F2Q hi - F2Q mid))%Q.

(* ===================================================================== *)
(** * Options and raw table end points of the factory interface           *)
(* ===================================================================== *)

(** [v.empty()]. *)
Definition empty {A : Type} (v : list A) : bool :=
  match v with
  | [] => true
  | _ :: _ => false
  end.

(** [operator==] on the values of an enumeration. *)
Class Equal (A : Type) : Type := equal : A -> A -> bool.

Declare Scope cxx_scope.
Delimit Scope cxx_scope with cxx.
Notation "a == b" := (equal a b) (at level 70, no associativity) : cxx_scope.

(** Modelled from the spec: the enumeration [ECLPhaseIndex] is declared
    in [ECLPhaseIndex.hpp], which is not among the sources.  The spec
    (section 4.6) has the phases water, oil and gas; the source names
    them [Aqua], [Liquid] and [Vapour], the three cases of the [switch]
    in [haveScaledRelPermAtCritSat]. *)
Inductive ECLPhaseIndex : Type :=
| Aqua
| Liquid
| Vapour.

#[export] Instance ECLPhaseIndex_equal : Equal ECLPhaseIndex :=
  fun a b =>
    match a, b with
    | Aqua, Aqua | Liquid, Liquid | Vapour, Vapour => true
    | _, _ => false
    end.

Module CreateEPS.

(** Modelled from the spec: [CreateEPS::FunctionCategory] is declared in
    the missing header [ECLEndPointScaling.hpp].  The spec (section 4.6)
    has the two curve categories, relative permeability and capillary
    pressure; the names are those the source tests [opt.curve]
    against. *)
Inductive FunctionCategory : Type :=
| Relperm
| CapPress.

(** Modelled from the spec: [CreateEPS::SubSystem] is declared in the
    same missing header.  The spec (section 4.6) has the two
    sub-systems, oil-water and oil-gas; the names are those the source
    tests [opt.subSys] against. *)
Inductive SubSystem : Type :=
| OilGas
| OilWater.

(** Modelled from the spec: [CreateEPS::EPSOptions] is declared in the
    same missing header.  The spec (section 4.6) has the four choices: a
    2-point/3-point choice, a curve category, a sub-system and a phase;
    the members are named as the source reads them ([opt.use3PtScaling],
    [opt.curve], [opt.subSys], [opt.thisPh]). *)
Record EPSOptions : Type := {
  use3PtScaling : bool;
  curve : FunctionCategory;
  subSys : SubSystem;
  thisPh : ECLPhaseIndex
}.

(** Modelled from the spec: [CreateEPS::RawTableEndPoints] is declared in
    the same missing header.  The spec's glossary has the connate,
    critical and maximum saturations; the members are those the source
    reads ([ep.conn.gas], [ep.crit.oil_in_gas], [ep.smax.oil], ...), one
    value per saturation table each. *)
Module RawTableEndPoints.

Module Connate.
Record t (D : Type) : Type := {
  gas : list D;
  water : list D
}.
End Connate.

Module Critical.
Record t (D : Type) : Type := {
  oil_in_gas : list D;
  oil_in_water : list D;
  gas : list D;
  water : list D
}.
End Critical.

Module Maximum.
Record t (D : Type) : Type := {
  gas : list D;
  oil : list D;
  water : list D
}.
End Maximum.

Record t (D : Type) : Type := {
  conn : Connate.t D;
  crit : Critical.t D;
  smax : Maximum.t D
}.

End RawTableEndPoints.

End CreateEPS.

#[export] Instance FunctionCategory_equal : Equal CreateEPS.FunctionCategory :=
  fun a b =>
    match a, b with
    | CreateEPS.Relperm, CreateEPS.Relperm
    | CreateEPS.CapPress, CreateEPS.CapPress => true
    | _, _ => false
    end.

#[export] Instance SubSystem_equal : Equal CreateEPS.SubSystem :=
  fun a b =>
    match a, b with
    | CreateEPS.OilGas, CreateEPS.OilGas
    | CreateEPS.OilWater, CreateEPS.OilWater => true
    | _, _ => false
    end.

(** Modelled from the spec: the grid [ECLGraph] and the result set
    [ECLInitFileData] are collaborators declared outside the sources.
    The spec (section 6) has per-cell arrays addressed by short mnemonic
    keys, each present with one value per active cell or absent (empty).
    A pair [(G, init)] is modelled by the values it answers to the
    queries of this translation unit:
    - [G.numCells()],
    - [G.rawLinearisedCellData<double>(init, vector)],
    - [G.activeGrids()],
    - [G.numCells(gridID)],
    - [init.haveKeywordData(vector, gridID)],
    - [G.rawLinearisedCellData<int>(init, vector, gridID)],
    - [G.rawLinearisedCellData<double>(init, vector, gridID)],
    - [init.keywordData<int>(INTEHEAD_KW)[INTEHEAD_PHASE_INDEX]],
    - [ECLUnits::createUnitSystem
         (init.keywordData<int>(INTEHEAD_KW)[INTEHEAD_UNIT_INDEX])
         ->pressure()].
    Every query is taken to return. *)
Record ECLOutput (D : Type) : Type := {
  numCells : nat;
  rawLinearisedCellData : string -> list D;
  activeGrids : list string;
  numCells_of : string -> nat;
  haveKeywordData : string -> string -> bool;
  rawLinearisedCellData_int_of : string -> string -> list Z;
  rawLinearisedCellData_of : string -> string -> list D;
  intehead_phase : Z;
  unitSystem_pressure : D
}.

(* ===================================================================== *)
(** * Unscaled table end points                                           *)
(* ===================================================================== *)

Section Unscaled.

Context {D : Type} `{Double D}.
Local Open Scope double_scope.

(** [unscaledTwoPt] of the anonymous namespace. *)
Definition unscaledTwoPt (NDEBUG : bool) (min max : list D)
  : outcome (list (TableEndPoints D)) :=
  assert NDEBUG (length min =? length max)%nat "Internal Logic Error" ;;;
  assert NDEBUG (negb (empty min)) "Internal Logic Error" ;;;
  let n := length min in
  for_each
    (fun (tep : list (TableEndPoints D)) (i : nat) =>
       smin <- index min i ;;
       (* Ignore 'sdisp' in the two-point scaling. *)
       hi <- index max i ;;
       Returns (push_back tep {| low := smin; disp := smin; high := hi |}))
    (seq 0 n) [].

(** [unscaledThreePt] of the anonymous namespace. *)
Definition unscaledThreePt (NDEBUG : bool) (min disp max : list D)
  : outcome (list (TableEndPoints D)) :=
  assert NDEBUG (length min =? length max)%nat "Internal Logic Error" ;;;
  assert NDEBUG (length min =? length disp)%nat "Internal Logic Error" ;;;
  assert NDEBUG (negb (empty min)) "Internal Logic Error" ;;;
  let n := length min in
  for_each
    (fun (tep : list (TableEndPoints D)) (i : nat) =>
       lo <- index min i ;;
       di <- index disp i ;;
       hi <- index max i ;;
       Returns (push_back tep {| low := lo; disp := di; high := hi |}))
    (seq 0 n) [].

End Unscaled.

(* ===================================================================== *)
(** * Vertical scaling: per-cell arrays with per-table defaults           *)
(* ===================================================================== *)

(** [v[i]] for an index computed in [int]: a negative index converts to
    an unsigned value beyond any vector. *)
Definition index_int {A : Type} (v : list A) (i : Z) : outcome A :=
  if (i <? 0)%Z then Undefined else index v (Z.to_nat i).

(** [std::transform(begin(a), end(a), begin(dst), op)]. *)
Definition transform {A B : Type} (a : list A) (dst : list B) (op : A -> B)
  : outcome (list B) :=
  for_each (fun (dst : list B) (i : nat) =>
              x <- index a i ;;
              store dst i (op x))
           (seq 0 (length a)) dst.

(** [std::transform(begin(a), end(a), begin(b), begin(dst), op)]. *)
Definition transform2 {A B C : Type} (a : list A) (b : list B) (dst : list C)
    (op : A -> B -> C) : outcome (list C) :=
  for_each (fun (dst : list C) (i : nat) =>
              x <- index a i ;;
              y <- index b i ;;
              store dst i (op x y))
           (seq 0 (length a)) dst.

(** [gridDefaultedVector] of the anonymous namespace, on binary64 (the
    source writes the literals [1.0e20] and [-1.0e21]).  The state of
    the loops is the array [ret] and the running index [cellID]. *)
Definition gridDefaultedVector (NDEBUG : bool) (out : ECLOutput float)
    (vector : string) (dflt : list float) (cvrt : float -> float)
  : outcome (list float) :=
  let ret := repeat 0%float (numCells out) in
  assert NDEBUG (negb (empty dflt)) "Internal Error" ;;;
  let cellID := 0 in
  st <- for_each
          (fun (st : list float * nat) (gridID : string) =>
             let nc := numCells_of out gridID in
             let snum :=
               if haveKeywordData out "SATNUM" gridID
               then rawLinearisedCellData_int_of out "SATNUM" gridID
               else repeat 1%Z nc in
             let val :=
               if haveKeywordData out vector gridID
               then rawLinearisedCellData_of out vector gridID
               else repeat (-1.0e21)%float nc in
             for_each
               (fun (st : list float * nat) (c : nat) =>
                  let ret := fst st in
                  let cellID := snd st in
                  v <- index val c ;;
                  x <- (if (abs v <? 1.0e20)%float then Returns (cvrt v)
                        else
                          r <- index snum c ;;
                          index_int dflt (r - 1)%Z) ;;
                  ret <- store ret cellID x ;;
                  Returns (ret, S cellID))
               (seq 0 nc) st)
          (activeGrids out) (ret, cellID) ;;
  Returns (fst st).

(** [haveScaledRelPermAtCritSatKeyword] and [haveScaledRelPermAtCritSat]
    of the anonymous namespace. *)
Definition haveScaledRelPermAtCritSatKeyword {D : Type} (out : ECLOutput D)
    (kw : string) : bool :=
  fold_left (fun (haveKW : bool) (grid : string) =>
               haveKW || haveKeywordData out kw grid)
            (activeGrids out) false.

Definition haveScaledRelPermAtCritSat {D : Type} (out : ECLOutput D)
    (phase : ECLPhaseIndex) (subSys : CreateEPS.SubSystem) : bool :=
  match phase with
  | Aqua => haveScaledRelPermAtCritSatKeyword out "KRWR"
  | Liquid =>
      if (subSys == CreateEPS.OilGas)%cxx
      then haveScaledRelPermAtCritSatKeyword out "KROGR"
      else haveScaledRelPermAtCritSatKeyword out "KROWR"
  | Vapour => haveScaledRelPermAtCritSatKeyword out "KRGR"
  end.


(* ===================================================================== *)
(** * EPS factory functions for the two-point and three-point options     *)
(* ===================================================================== *)

Section Arrays.

Context {D : Type} `{Double D}.
Local Open Scope double_scope.

(** [v[i] -= w[i]]. *)
Definition subtract_at (v w : list D) (i : nat) : outcome (list D) :=
  x <- index w i ;;
  y <- index v i ;;
  store v i (y - x).

(** [for (auto n = w.size(), i = 0*n; i < n; ++i) { v[i] -= w[i]; }],
    the loop by which the factories adjust a saturation array. *)
Definition subtract (v w : list D) : outcome (list D) :=
  for_each (fun (v : list D) (i : nat) => subtract_at v w i)
           (seq 0 (length w)) v.

(** The same loop with two arrays adjusted in each iteration:
    [{ u[i] -= w[i]; v[i] -= w[i]; }]. *)
Definition subtract_both (u v w : list D) : outcome (list D * list D) :=
  for_each (fun (uv : list D * list D) (i : nat) =>
              u' <- subtract_at (fst uv) w i ;;
              v' <- subtract_at (snd uv) w i ;;
              Returns (u', v'))
           (seq 0 (length w)) (u, v).

(** An array that is subtracted when present with the expected size,
    skipped when absent, and rejected otherwise:
    [if (w.size() == n) { for ... v[i] -= w[i]; }
     else if (! w.empty()) { throw std::invalid_argument { what }; }]. *)
Definition subtract_if_present (n : nat) (v w : list D) (what : string)
  : outcome (list D) :=
  if (length w =? n)%nat then subtract v w
  else if negb (empty w) then Throws (invalid_argument what)
  else Returns v.

End Arrays.

Module Create.

Module TwoPoint.

(** [EPSPtr = std::unique_ptr<TwoPointScaling>]: [None] is the null
    pointer.  The public class [TwoPointScaling] holds nothing but the
    pointer to its [Impl] and passes every call on to it. *)
Definition EPSPtr (D : Type) : Type := option (TwoPointScaling.Impl D).

Module Kr.

Section Factories.

Context {D : Type} `{Double D}.
Local Open Scope double_scope.

Definition G (out : ECLOutput D) : outcome (EPSPtr D) :=
  let sgcr := rawLinearisedCellData out "SGCR" in
  let sgu := rawLinearisedCellData out "SGU" in
  if negb (length sgcr =? length sgu)%nat
     || negb (length sgcr =? numCells out)%nat then
    Throws (invalid_argument
      "Missing or Mismatching Gas End-Point Specifications (SGCR and/or SGU)")
  else
    eps <- TwoPointScaling.new sgcr sgu ;;
    Returns (Some eps).

Definition OG (out : ECLOutput D) : outcome (EPSPtr D) :=
  let sogcr := rawLinearisedCellData out "SOGCR" in
  if negb (length sogcr =? numCells out)%nat then
    Throws (invalid_argument
      "Missing or Mismatching Critical Oil Saturation in Oil/Gas System")
  else
    let smax := repeat lit_1 (length sogcr) in
    (* Adjust maximum S_o for scaled connate gas saturations. *)
    let sgl := rawLinearisedCellData out "SGL" in
    if negb (length sgl =? length sogcr)%nat then
      Throws (invalid_argument
        "Missing or Mismatching Connate Gas Saturation in Oil/Gas System")
    else
      smax <- subtract smax sgl ;;
      (* Adjust maximum S_o for scaled connate water saturations
         (if relevant). *)
      let swl := rawLinearisedCellData out "SWL" in
      smax <- subtract_if_present (length sogcr) smax swl
                "Mismatching Connate Water Saturation in Oil/Gas System" ;;
      eps <- TwoPointScaling.new sogcr smax ;;
      Returns (Some eps).

Definition OW (out : ECLOutput D) : outcome (EPSPtr D) :=
  let sowcr := rawLinearisedCellData out "SOWCR" in
  if negb (length sowcr =? numCells out)%nat then
    Throws (invalid_argument
      "Missing or Mismatching Critical Oil Saturation in Oil/Water System")
  else
    let smax := repeat lit_1 (length sowcr) in
    (* Adjust maximum S_o for scaled connate water saturations. *)
    let swl := rawLinearisedCellData out "SWL" in
    if negb (length swl =? length sowcr)%nat then
      Throws (invalid_argument
        "Missing or Mismatching Connate Water Saturation in Oil/Water System")
    else
      smax <- subtract smax swl ;;
      (* Adjust maximum S_o for scaled connate gas saturations
         (if relevant). *)
      let sgl := rawLinearisedCellData out "SGL" in
      smax <- subtract_if_present (length sowcr) smax sgl
                "Mismatching Connate Gas Saturation in Oil/Water System" ;;
      eps <- TwoPointScaling.new sowcr smax ;;
      Returns (Some eps).

Definition W (out : ECLOutput D) : outcome (EPSPtr D) :=
  let swcr := rawLinearisedCellData out "SWCR" in
  let swu := rawLinearisedCellData out "SWU" in
  if empty swcr || empty swu then
    Throws (invalid_argument
      "Missing Water End-Point Specifications (SWCR and/or SWU)")
  else
    eps <- TwoPointScaling.new swcr swu ;;
    Returns (Some eps).

End Factories.

End Kr.

Module Pc.

Section Factories.

Context {D : Type} `{Double D}.

Definition GO (out : ECLOutput D) : outcome (EPSPtr D) :=
  (* Try dedicated scaled Sg_conn for Pc first *)
  let sgl := rawLinearisedCellData out "SGLPC" in
  (* Fall back to general scaled Sg_conn if not available. *)
  let sgl := if empty sgl then rawLinearisedCellData out "SGL" else sgl in
  let sgu := rawLinearisedCellData out "SGU" in
  if negb (length sgl =? length sgu)%nat
     || negb (length sgl =? numCells out)%nat then
    Throws (invalid_argument
      "Missing or Mismatching Connate or Maximum Gas Saturation in Pcgo EPS")
  else
    eps <- TwoPointScaling.new sgl sgu ;;
    Returns (Some eps).

Definition OW (out : ECLOutput D) : outcome (EPSPtr D) :=
  (* Try dedicated scaled Sw_conn for Pc first *)
  let swl := rawLinearisedCellData out "SWLPC" in
  (* Fall back to general scaled Sw_conn if not available. *)
  let swl := if empty swl then rawLinearisedCellData out "SWL" else swl in
  let swu := rawLinearisedCellData out "SWU" in
  if negb (length swl =? length swu)%nat
     || negb (length swl =? numCells out)%nat then
    Throws (invalid_argument
      "Missing or Mismatching Connate or Maximum Water Saturation in Pcow EPS")
  else
    eps <- TwoPointScaling.new swl swu ;;
    Returns (Some eps).

End Factories.

End Pc.

Section Selection.

Context {D : Type} `{Double D}.
Local Open Scope cxx_scope.
Import CreateEPS.

(** [Create::TwoPoint::scalingFunction].  The blocks of the source are
    entered in order; a block that neither returns nor throws falls
    through to what follows it. *)
Definition scalingFunction (NDEBUG : bool) (out : ECLOutput D)
    (opt : EPSOptions) : outcome (EPSPtr D) :=
  assert NDEBUG (negb (use3PtScaling opt) || (curve opt == CapPress))
         "Internal Error Selecting EPS Family" ;;;
  let invalid := Returns None in
  let capPress :=
    if curve opt == CapPress then
      if thisPh opt == Liquid then
        Throws (invalid_argument
          "Creating Capillary Pressure EPS as a Function of Oil Saturation is not Supported")
      else if thisPh opt == Vapour then Pc.GO out
      else if thisPh opt == Aqua then Pc.OW out
      else invalid
    else invalid in
  if curve opt == Relperm then
    if subSys opt == OilWater then
      if thisPh opt == Vapour then
        Throws (invalid_argument
          "Cannot Create an EPS for Gas Relperm in an Oil/Water System")
      else if thisPh opt == Aqua then Kr.W out
      else Kr.OW out
    else if subSys opt == OilGas then
      if thisPh opt == Aqua then
        Throws (invalid_argument
          "Cannot Create an EPS for Water Relperm in an Oil/Gas System")
      else if thisPh opt == Vapour then Kr.G out
      else Kr.OG out
    else capPress
  else capPress.

Import RawTableEndPoints.

(** [Create::TwoPoint::unscaledEndPoints]. *)
Definition unscaledEndPoints (NDEBUG : bool) (ep : RawTableEndPoints.t D)
    (opt : EPSOptions) : outcome (list (TableEndPoints D)) :=
  assert NDEBUG ((curve opt == CapPress) || negb (use3PtScaling opt))
         "Internal Logic Error" ;;;
  let invalid := Returns [] in
  let relperm :=
    if curve opt == Relperm then
      (* Left node is critical saturation, right node is max saturation. *)
      let oilWater :=
        if subSys opt == OilWater then
          if thisPh opt == Aqua then
            unscaledTwoPt NDEBUG (Critical.water (crit ep))
                          (Maximum.water (smax ep))
          else if thisPh opt == Liquid then
            unscaledTwoPt NDEBUG (Critical.oil_in_water (crit ep))
                          (Maximum.oil (smax ep))
          else if thisPh opt == Vapour then
            Throws (invalid_argument
              "Void Request for Unscaled Gas Saturation End-Points in Oil-Water System")
          else invalid
        else invalid in
      if subSys opt == OilGas then
        if thisPh opt == Aqua then
          Throws (invalid_argument
            "Void Request for Unscaled Water Saturation End-Points in Oil-Gas System")
        else if thisPh opt == Liquid then
          unscaledTwoPt NDEBUG (Critical.oil_in_gas (crit ep))
                        (Maximum.oil (smax ep))
        else if thisPh opt == Vapour then
          unscaledTwoPt NDEBUG (Critical.gas (crit ep)) (Maximum.gas (smax ep))
        else oilWater
      else oilWater
    else invalid in
  if curve opt == CapPress then
    (* Left node is connate saturation, right node is max saturation. *)
    if thisPh opt == Liquid then
      Throws (invalid_argument "No Capillary Pressure Function for Oil")
    else if thisPh opt == Aqua then
      unscaledTwoPt NDEBUG (Connate.water (conn ep)) (Maximum.water (smax ep))
    else if thisPh opt == Vapour then
      unscaledTwoPt NDEBUG (Connate.gas (conn ep)) (Maximum.gas (smax ep))
    else relperm
  else relperm.

End Selection.

End TwoPoint.

Module ThreePoint.

(** [EPSPtr = std::unique_ptr<ThreePointScaling>]. *)
Definition EPSPtr (D : Type) : Type := option (ThreePointScaling.Impl D).

Module Kr.

Section Factories.

Context {D : Type} `{Double D}.
Local Open Scope double_scope.

Definition G (out : ECLOutput D) : outcome (EPSPtr D) :=
  let sgcr := rawLinearisedCellData out "SGCR" in
  let sgu := rawLinearisedCellData out "SGU" in
  if negb (length sgcr =? length sgu)%nat
     || negb (length sgcr =? numCells out)%nat then
    Throws (invalid_argument
      "Missing or Mismatching Gas End-Point Specifications (SGCR and/or SGU)")
  else
    let sr := repeat lit_1 (numCells out) in
    (* Adjust displacing saturation for connate water. *)
    let swl := rawLinearisedCellData out "SWL" in
    sr <- subtract_if_present (length sgcr) sr swl
            "Connate Water Saturation Array Mismatch in Three-Point Scaling Option" ;;
    (* Adjust displacing saturation for critical S_o in O/G system. *)
    let sogcr := rawLinearisedCellData out "SOGCR" in
    sr <- subtract_if_present (length sgcr) sr sogcr
            "Critical Oil Saturation (O/G System) Array Size Mismatch in Three-Point Scaling Option" ;;
    eps <- ThreePointScaling.new sgcr sr sgu ;;
    Returns (Some eps).

Definition OG (out : ECLOutput D) : outcome (EPSPtr D) :=
  let sogcr := rawLinearisedCellData out "SOGCR" in
  if negb (length sogcr =? numCells out)%nat then
    Throws (invalid_argument
      "Missing or Mismatching Critical Oil Saturation in Oil/Gas System")
  else
    let smax := repeat lit_1 (length sogcr) in
    (* Adjust maximum S_o for scaled connate gas saturations. *)
    let sgl := rawLinearisedCellData out "SGL" in
    if negb (length sgl =? length sogcr)%nat then
      Throws (invalid_argument
        "Missing or Mismatching Connate Gas Saturation in Oil/Gas System")
    else
      smax <- subtract smax sgl ;;
      let sdisp := repeat lit_1 (length sogcr) in
      (* Adjust displacing S_o for scaled critical gas saturation. *)
      let sgcr := rawLinearisedCellData out "SGCR" in
      if negb (length sgcr =? length sogcr)%nat then
        Throws (invalid_argument
          "Missing or Mismatching Scaled Critical Gas Saturation in Oil/Gas System")
      else
        sdisp <- subtract sdisp sgcr ;;
        (* Adjust displacing and maximum S_o for scaled connate water
           saturations (if relevant). *)
        let swl := rawLinearisedCellData out "SWL" in
        both <- (if (length swl =? length sogcr)%nat then
                   subtract_both sdisp smax swl
                 else if negb (empty swl) then
                   Throws (invalid_argument
                     "Mismatching Scaled Connate Water Saturation in Oil/Gas System")
                 else Returns (sdisp, smax)) ;;
        eps <- ThreePointScaling.new sogcr (fst both) (snd both) ;;
        Returns (Some eps).

Definition OW (out : ECLOutput D) : outcome (EPSPtr D) :=
  let sowcr := rawLinearisedCellData out "SOWCR" in
  if negb (length sowcr =? numCells out)%nat then
    Throws (invalid_argument
      "Missing or Mismatching Critical Oil Saturation in Oil/Water System")
  else
    let smax := repeat lit_1 (length sowcr) in
    (* Adjust maximum S_o for scaled connate water saturations. *)
    let swl := rawLinearisedCellData out "SWL" in
    if negb (length swl =? length sowcr)%nat then
      Throws (invalid_argument
        "Missing or Mismatching Connate Water Saturation in Oil/Water System")
    else
      smax <- subtract smax swl ;;
      let sdisp := repeat lit_1 (length sowcr) in
      (* Adjust displacing S_o for scaled critical water saturations. *)
      let swcr := rawLinearisedCellData out "SWCR" in
      if negb (length swcr =? length sowcr)%nat then
        Throws (invalid_argument
          "Missing or Mismatching Scaled Critical Water Saturation in Oil/Water System")
      else
        sdisp <- subtract sdisp swcr ;;
        (* Adjust displacing and maximum S_o for scaled connate gas
           saturations (if relevant). *)
        let sgl := rawLinearisedCellData out "SGL" in
        both <- (if (length sgl =? length sowcr)%nat then
                   subtract_both sdisp smax sgl
                 else if negb (empty sgl) then
                   Throws (invalid_argument
                     "Mismatching Connate Gas Saturation in Oil/Water System")
                 else Returns (sdisp, smax)) ;;
        eps <- ThreePointScaling.new sowcr (fst both) (snd both) ;;
        Returns (Some eps).

Definition W (out : ECLOutput D) : outcome (EPSPtr D) :=
  let swcr := rawLinearisedCellData out "SWCR" in
  let swu := rawLinearisedCellData out "SWU" in
  if negb (length swcr =? numCells out)%nat
     || negb (length swcr =? length swu)%nat then
    Throws (invalid_argument
      "Missing Water End-Point Specifications (SWCR and/or SWU)")
  else
    let sdisp := repeat lit_1 (length swcr) in
    (* Adjust displacing S_w for scaled critical oil saturation. *)
    let sowcr := rawLinearisedCellData out "SOWCR" in
    sdisp <- subtract_if_present (length swcr) sdisp sowcr
               "Missing or Mismatching Scaled Critical Oil Saturation in Oil/Water System" ;;
    (* Adjust displacing S_w for scaled connate gas saturation. *)
    let sgl := rawLinearisedCellData out "SGL" in
    sdisp <- subtract_if_present (length swcr) sdisp sgl
               "Missing or Mismatching Scaled Connate Gas Saturation in Oil/Water System" ;;
    eps <- ThreePointScaling.new swcr sdisp swu ;;
    Returns (Some eps).

End Factories.

End Kr.

Section Selection.

Context {D : Type} `{Double D}.
Local Open Scope double_scope.
Local Open Scope cxx_scope.
Import CreateEPS.

(** [Create::ThreePoint::scalingFunction]. *)
Definition scalingFunction (NDEBUG : bool) (out : ECLOutput D)
    (opt : EPSOptions) : outcome (EPSPtr D) :=
  assert NDEBUG (use3PtScaling opt && (curve opt == Relperm))
         "Internal Error Selecting EPS Family" ;;;
  let invalid := Returns None in
  if subSys opt == OilWater then
    if thisPh opt == Vapour then
      Throws (invalid_argument
        "Cannot Create a Three-Point EPS for Gas Relperm in an Oil/Water System")
    else if thisPh opt == Aqua then Kr.W out
    else Kr.OW out
  else if subSys opt == OilGas then
    if thisPh opt == Aqua then
      Throws (invalid_argument
        "Cannot Create a Three-Point EPS for Water Relperm in an Oil/Gas System")
    else if thisPh opt == Vapour then Kr.G out
    else Kr.OG out
  else invalid.

(** The lambda [sdisp] of [Create::ThreePoint::unscaledEndPoints]:
    [sr[i] -= s1[i] + s2[i]] on an array of ones. *)
Definition sdisp (s1 s2 : list D) : outcome (list D) :=
  let sr := repeat lit_1 (length s1) in
  for_each
    (fun (sr : list D) (i : nat) =>
       a <- index s1 i ;;
       b <- index s2 i ;;
       y <- index sr i ;;
       store sr i (y - (a + b)))
    (seq 0 (length s1)) sr.

Import RawTableEndPoints.

(** [Create::ThreePoint::unscaledEndPoints]. *)
Definition unscaledEndPoints (NDEBUG : bool) (ep : RawTableEndPoints.t D)
    (opt : EPSOptions) : outcome (list (TableEndPoints D)) :=
  assert NDEBUG (use3PtScaling opt && (curve opt == Relperm))
         "Internal Error Selecting EPS Family" ;;;
  (* Left node is critical saturation, middle node is displacing critical
     saturation, and right node is maximum saturation. *)
  let invalid := Returns [] in
  let oilWater :=
    if subSys opt == OilWater then
      if thisPh opt == Aqua then
        sr <- sdisp (Critical.oil_in_water (crit ep)) (Connate.gas (conn ep)) ;;
        unscaledThreePt NDEBUG (Critical.water (crit ep)) sr
                        (Maximum.water (smax ep))
      else if thisPh opt == Liquid then
        sr <- sdisp (Critical.water (crit ep)) (Connate.gas (conn ep)) ;;
        unscaledThreePt NDEBUG (Critical.oil_in_water (crit ep)) sr
                        (Maximum.oil (smax ep))
      else if thisPh opt == Vapour then
        Throws (invalid_argument
          "Void Request for Unscaled Gas Saturation End-Points in Oil-Water System")
      else invalid
    else invalid in
  if subSys opt == OilGas then
    if thisPh opt == Aqua then
      Throws (invalid_argument
        "Void Request for Unscaled Water Saturation End-Points in Oil-Gas System")
    else if thisPh opt == Liquid then
      sr <- sdisp (Critical.gas (crit ep)) (Connate.water (conn ep)) ;;
      unscaledThreePt NDEBUG (Critical.oil_in_gas (crit ep)) sr
                      (Maximum.oil (smax ep))
    else if thisPh opt == Vapour then
      sr <- sdisp (Critical.oil_in_gas (crit ep)) (Connate.water (conn ep)) ;;
      unscaledThreePt NDEBUG (Critical.gas (crit ep)) sr
                      (Maximum.gas (smax ep))
    else oilWater
  else oilWater.

End Selection.

End ThreePoint.

Module PureVertical.

Definition ScalPtr (D : Type) : Type := option (PureVerticalScaling.Impl D).

(** [pureVerticalRelpermScaling] of the anonymous namespace. *)
Definition pureVerticalRelpermScaling (NDEBUG : bool) (out : ECLOutput float)
    (dflt : list float) (vector : string) : outcome (ScalPtr float) :=
  scaledMaxKr <- gridDefaultedVector NDEBUG out vector dflt
                   (fun kr : float => kr) ;;
  scaling <- PureVerticalScaling.new scaledMaxKr ;;
  Returns (Some scaling).

Section CapPress.

(** [ImportedOpm::unit::convert::from] of [opm/utility/imported/Units.hpp],
    which is not among the sources: a parameter of what follows. *)
Variable convert_from : float -> float -> float.

(** [pureVerticalCapPressScaling] of the anonymous namespace. *)
Definition pureVerticalCapPressScaling (NDEBUG : bool) (out : ECLOutput float)
    (dflt : list float) (vector : string) : outcome (ScalPtr float) :=
  let pscale := unitSystem_pressure out in
  scaledMaxPc <- gridDefaultedVector NDEBUG out vector dflt
                   (fun pc : float => convert_from pc pscale) ;;
  scaling <- PureVerticalScaling.new scaledMaxPc ;;
  Returns (Some scaling).

End CapPress.

Module Kr.

Definition G (NDEBUG : bool) (out : ECLOutput float) (dflt : list float)
  : outcome (ScalPtr float) :=
  pureVerticalRelpermScaling NDEBUG out dflt "KRG".

Definition O (NDEBUG : bool) (out : ECLOutput float) (dflt : list float)
  : outcome (ScalPtr float) :=
  pureVerticalRelpermScaling NDEBUG out dflt "KRO".

Definition W (NDEBUG : bool) (out : ECLOutput float) (dflt : list float)
  : outcome (ScalPtr float) :=
  pureVerticalRelpermScaling NDEBUG out dflt "KRW".

End Kr.

Module Pc.

Definition GO (convert_from : float -> float -> float) (NDEBUG : bool)
    (out : ECLOutput float) (dflt : list float) : outcome (ScalPtr float) :=
  pureVerticalCapPressScaling convert_from NDEBUG out dflt "PCG".

Definition OW (convert_from : float -> float -> float) (NDEBUG : bool)
    (out : ECLOutput float) (dflt : list float) : outcome (ScalPtr float) :=
  pureVerticalCapPressScaling convert_from NDEBUG out dflt "PCW".

End Pc.

Section Selection.

Variable convert_from : float -> float -> float.
Local Open Scope cxx_scope.
Import CreateEPS.

(** [Create::PureVertical::scalingFunction]. *)
Definition scalingFunction (NDEBUG : bool) (out : ECLOutput float)
    (opt : EPSOptions) (fvals : list (FunctionValues.t float))
  : outcome (ScalPtr float) :=
  let dfltVals := repeat 0%float (length fvals) in
  dfltVals <- transform fvals dfltVals
                (fun fv => FunctionValues.val (FunctionValues.max fv)) ;;
  let invalid := Returns None in
  let capPress :=
    if curve opt == CapPress then
      if thisPh opt == Liquid then
        Throws (invalid_argument
          "Creating Capillary Pressure Vertical Scaling as a Function of Oil Saturation is not Supported")
      else if thisPh opt == Vapour then
        Pc.GO convert_from NDEBUG out dfltVals
      else if thisPh opt == Aqua then
        Pc.OW convert_from NDEBUG out dfltVals
      else invalid
    else invalid in
  if curve opt == Relperm then
    if subSys opt == OilGas then
      if thisPh opt == Aqua then
        Throws (invalid_argument
          "Cannot Create Vertical Scaling for Water Relperm in an Oil/Gas System")
      else if thisPh opt == Vapour then Kr.G NDEBUG out dfltVals
      else Kr.O NDEBUG out dfltVals
    else if subSys opt == OilWater then
      if thisPh opt == Vapour then
        Throws (invalid_argument
          "Cannot Create Vertical Scaling for Gas Relperm in an Oil/Water System")
      else if thisPh opt == Aqua then Kr.W NDEBUG out dfltVals
      else Kr.O NDEBUG out dfltVals
    else capPress
  else capPress.

End Selection.

End PureVertical.

Module CritSatVertical.

Definition ScalPtr (D : Type) : Type :=
  option (CritSatVerticalScaling.Impl D).

Import CreateEPS.
Import RawTableEndPoints.

(** The tail shared by the four factories: the scaled function values
    at the displacing and at the maximum saturation, with the table's
    values as defaults, and the object built from the three arrays. *)
Definition scaling (NDEBUG : bool) (out : ECLOutput float)
    (sdisp : list float) (fval : list (FunctionValues.t float))
    (krr kr : string) : outcome (ScalPtr float) :=
  let dflt_fdisp := repeat 0%float (length fval) in
  dflt_fdisp <- transform fval dflt_fdisp
                  (fun fv => FunctionValues.val (FunctionValues.disp fv)) ;;
  fdisp <- gridDefaultedVector NDEBUG out krr dflt_fdisp
             (fun kr : float => kr) ;;
  let dflt_fmax := repeat 0%float (length fval) in
  dflt_fmax <- transform fval dflt_fmax
                 (fun fv => FunctionValues.val (FunctionValues.max fv)) ;;
  fmax <- gridDefaultedVector NDEBUG out kr dflt_fmax
            (fun kr : float => kr) ;;
  scaling <- CritSatVerticalScaling.new sdisp fdisp fmax ;;
  Returns (Some scaling).

(** [(iphs & (1u << 0)) != 0] for
    [iphs = static_cast<unsigned int>(ih[INTEHEAD_PHASE_INDEX])]. *)
Definition oil_active (out : ECLOutput float) : bool :=
  let iphs := (intehead_phase out mod 2 ^ 32)%Z in
  negb (Z.land iphs (Z.shiftl 1 0) =? 0)%Z.

Module Kr.

Definition G (NDEBUG : bool) (out : ECLOutput float)
    (rtep : RawTableEndPoints.t float) (fval : list (FunctionValues.t float))
  : outcome (ScalPtr float) :=
  let sdisp := repeat 0%float (numCells out) in
  sdisp <-
    (if oil_active out then
       (* Oil active *)
       sogcr <- gridDefaultedVector NDEBUG out "SOGCR"
                  (Critical.oil_in_gas (crit rtep)) (fun s : float => s) ;;
       swl <- gridDefaultedVector NDEBUG out "SWL"
                (Connate.water (conn rtep)) (fun s : float => s) ;;
       transform2 sogcr swl sdisp (fun so sw : float => 1.0 - (so + sw))%float
     else
       (* Oil not active (G/W?) *)
       swcr <- gridDefaultedVector NDEBUG out "SWCR"
                 (Critical.water (crit rtep)) (fun s : float => s) ;;
       transform swcr sdisp (fun sw : float => 1.0 - sw)%float) ;;
  scaling NDEBUG out sdisp fval "KRGR" "KRG".

Definition GO (NDEBUG : bool) (out : ECLOutput float)
    (tep : RawTableEndPoints.t float) (fval : list (FunctionValues.t float))
  : outcome (ScalPtr float) :=
  let sdisp := repeat 0%float (numCells out) in
  sgcr <- gridDefaultedVector NDEBUG out "SGCR"
            (Critical.gas (crit tep)) (fun s : float => s) ;;
  swl <- gridDefaultedVector NDEBUG out "SWL"
           (Connate.water (conn tep)) (fun s : float => s) ;;
  sdisp <- transform2 sgcr swl sdisp
             (fun sg sw : float => 1.0 - (sg + sw))%float ;;
  scaling NDEBUG out sdisp fval "KRORG" "KRO".

Definition OW (NDEBUG : bool) (out : ECLOutput float)
    (tep : RawTableEndPoints.t float) (fval : list (FunctionValues.t float))
  : outcome (ScalPtr float) :=
  let sdisp := repeat 0%float (numCells out) in
  swcr <- gridDefaultedVector NDEBUG out "SWCR"
            (Critical.water (crit tep)) (fun s : float => s) ;;
  sgl <- gridDefaultedVector NDEBUG out "SGL"
           (Connate.gas (conn tep)) (fun s : float => s) ;;
  sdisp <- transform2 swcr sgl sdisp
             (fun sw sg : float => 1.0 - (sg + sw))%float ;;
  scaling NDEBUG out sdisp fval "KRORW" "KRO".

Definition W (NDEBUG : bool) (out : ECLOutput float)
    (tep : RawTableEndPoints.t float) (fval : list (FunctionValues.t float))
  : outcome (ScalPtr float) :=
  let sdisp := repeat 0%float (numCells out) in
  sdisp <-
    (if oil_active out then
       (* Oil active *)
       sowcr <- gridDefaultedVector NDEBUG out "SOWCR"
                  (Critical.oil_in_water (crit tep)) (fun s : float => s) ;;
       sgl <- gridDefaultedVector NDEBUG out "SGL"
                (Connate.gas (conn tep)) (fun s : float => s) ;;
       transform2 sowcr sgl sdisp (fun so sg : float => 1.0 - (so + sg))%float
     else
       (* Oil not active (G/W?) *)
       sgcr <- gridDefaultedVector NDEBUG out "SGCR"
                 (Critical.gas (crit tep)) (fun s : float => s) ;;
       transform sgcr sdisp (fun sg : float => 1.0 - sg)%float) ;;
  scaling NDEBUG out sdisp fval "KRWR" "KRW".

End Kr.

(** [Create::CritSatVertical::scalingFunction]. *)
Definition scalingFunction (NDEBUG : bool) (out : ECLOutput float)
    (opt : EPSOptions) (tep : RawTableEndPoints.t float)
    (fvals : list (FunctionValues.t float)) : outcome (ScalPtr float) :=
  let invalid := Returns None in
  if (subSys opt == OilWater)%cxx then
    if (thisPh opt == Vapour)%cxx then
      Throws (invalid_argument
        "Cannot Create Critical Saturation Vertical Scaling for Gas Relperm in an Oil/Water System")
    else if (thisPh opt == Aqua)%cxx then Kr.W NDEBUG out tep fvals
    else Kr.OW NDEBUG out tep fvals
  else if (subSys opt == OilGas)%cxx then
    if (thisPh opt == Aqua)%cxx then
      Throws (invalid_argument
        "Cannot Create Critical Saturation Vertical Scaling for Water Relperm in an Oil/Gas System")
    else if (thisPh opt == Vapour)%cxx then Kr.G NDEBUG out tep fvals
    else Kr.GO NDEBUG out tep fvals
  else invalid.

End CritSatVertical.

End Create.

(* ===================================================================== *)
(** * The two interfaces and their implementations                        *)
(* ===================================================================== *)

(** Modelled from the spec: the abstract class [EPSEvalInterface] is
    declared in the missing header [ECLEndPointScaling.hpp].  The spec
    (section 9) has an evaluation capability implemented by the
    two-point and the three-point variant, a closed set; [eval] and
    [reverse] are the virtual calls, which the public classes
    [TwoPointScaling] and [ThreePointScaling] pass on to their [Impl]. *)
Module EPSEvalInterface.

Inductive t (D : Type) : Type :=
| TwoPoint (pImpl_ : TwoPointScaling.Impl D)
| ThreePoint (pImpl_ : ThreePointScaling.Impl D).

Arguments TwoPoint {D} pImpl_.
Arguments ThreePoint {D} pImpl_.

Section Calls.

Context {D : Type} `{Double D}.

Definition eval (this : t D) (tep : TableEndPoints D)
    (sp : SaturationPoints D) : outcome (list D) :=
  match this with
  | TwoPoint pImpl_ => TwoPointScaling.eval pImpl_ tep sp
  | ThreePoint pImpl_ => ThreePointScaling.eval pImpl_ tep sp
  end.

Definition reverse (this : t D) (tep : TableEndPoints D)
    (sp : SaturationPoints D) : outcome (list D) :=
  match this with
  | TwoPoint pImpl_ => TwoPointScaling.reverse pImpl_ tep sp
  | ThreePoint pImpl_ => ThreePointScaling.reverse pImpl_ tep sp
  end.

End Calls.

End EPSEvalInterface.

(** Modelled from the spec: the abstract class [VerticalScalingInterface]
    is declared in the same missing header.  The spec (section 9) has a
    second capability implemented by the pure and the
    critical-saturation vertical variant; [vertScale] is the virtual
    call, which the public classes pass on to their [Impl]. *)
Module VerticalScalingInterface.

Inductive t (D : Type) : Type :=
| PureVertical (pImpl_ : PureVerticalScaling.Impl D)
| CritSatVertical (pImpl_ : CritSatVerticalScaling.Impl D).

Arguments PureVertical {D} pImpl_.
Arguments CritSatVertical {D} pImpl_.

Section Calls.

Context {D : Type} `{Double D}.

Definition vertScale (NDEBUG : bool) (this : t D) (f : FunctionValues.t D)
    (sp : SaturationPoints D) (val : list D) : outcome (list D) :=
  match this with
  | PureVertical pImpl_ => PureVerticalScaling.vertScale NDEBUG pImpl_ f sp val
  | CritSatVertical pImpl_ =>
      CritSatVerticalScaling.vertScale NDEBUG pImpl_ f sp val
  end.

End Calls.

End VerticalScalingInterface.

(* ===================================================================== *)
(** * [CreateEPS::Horizontal]                                             *)
(* ===================================================================== *)

Module Horizontal.

Section Factories.

Context {D : Type} `{Double D}.
Local Open Scope cxx_scope.
Import CreateEPS.

(** [CreateEPS::Horizontal::fromECLOutput]; the result is a
    [std::unique_ptr<EPSEvalInterface>]. *)
Definition fromECLOutput (NDEBUG : bool) (out : ECLOutput D)
    (opt : EPSOptions) : outcome (option (EPSEvalInterface.t D)) :=
  if (curve opt == CapPress) || negb (use3PtScaling opt) then
    p <- Create.TwoPoint.scalingFunction NDEBUG out opt ;;
    Returns (option_map EPSEvalInterface.TwoPoint p)
  else if (curve opt == Relperm) && use3PtScaling opt then
    p <- Create.ThreePoint.scalingFunction NDEBUG out opt ;;
    Returns (option_map EPSEvalInterface.ThreePoint p)
  else
    (* Invalid *)
    Returns None.

(** [CreateEPS::Horizontal::unscaledEndPoints]. *)
Definition unscaledEndPoints (NDEBUG : bool) (ep : RawTableEndPoints.t D)
    (opt : EPSOptions) : outcome (list (TableEndPoints D)) :=
  if (curve opt == CapPress) || negb (use3PtScaling opt) then
    Create.TwoPoint.unscaledEndPoints NDEBUG ep opt
  else if (curve opt == Relperm) && use3PtScaling opt then
    Create.ThreePoint.unscaledEndPoints NDEBUG ep opt
  else
    (* Invalid *)
    Returns [].

End Factories.

End Horizontal.

(* ===================================================================== *)
(** * [CreateEPS::Vertical]                                               *)
(* ===================================================================== *)

(** [v.resize(n)] with value-initialised new elements [zero]. *)
Definition resize {A : Type} (v : list A) (n : nat) (zero : A) : list A :=
  firstn n v ++ repeat zero (n - length v).

(** [static_cast<int>(i)] for an index [i] of type [std::size_t]: the
    value modulo [2^32] read as a signed 32-bit integer. *)
Definition static_cast_int (i : nat) : Z :=
  let z := (Z.of_nat i mod 2 ^ 32)%Z in
  if (z <? 2 ^ 31)%Z then z else (z - 2 ^ 32)%Z.

Module Vertical.

Section Factories.

Local Open Scope cxx_scope.
Import CreateEPS.

(** [ImportedOpm::unit::convert::from], as in [Create::PureVertical]. *)
Variable convert_from : float -> float -> float.

(** [CreateEPS::Vertical::fromECLOutput]; the result is a
    [std::unique_ptr<VerticalScalingInterface>]. *)
Definition fromECLOutput (NDEBUG : bool) (out : ECLOutput float)
    (opt : EPSOptions) (tep : RawTableEndPoints.t float)
    (fvals : list (FunctionValues.t float))
  : outcome (option (VerticalScalingInterface.t float)) :=
  let haveScaleCRS :=
    haveScaledRelPermAtCritSat out (thisPh opt) (subSys opt) in
  if (curve opt == CapPress) || negb haveScaleCRS then
    p <- Create.PureVertical.scalingFunction convert_from NDEBUG out opt fvals ;;
    Returns (option_map VerticalScalingInterface.PureVertical p)
  else if (curve opt == Relperm) && haveScaleCRS then
    p <- Create.CritSatVertical.scalingFunction NDEBUG out opt tep fvals ;;
    Returns (option_map VerticalScalingInterface.CritSatVertical p)
  else
    (* Invalid *)
    Returns None.

End Factories.

Section Values.

Context {D : Type} `{Double D}.
Local Open Scope cxx_scope.
Import CreateEPS.

(** A value-initialised [FunctionValues]. *)
Definition zero_values : FunctionValues.t D :=
  {| FunctionValues.disp :=
       {| FunctionValues.sat := lit_0; FunctionValues.val := lit_0 |};
     FunctionValues.max :=
       {| FunctionValues.sat := lit_0; FunctionValues.val := lit_0 |} |}.

(** [ret[i].max.sat = sat; ret[i].max.val = evalSF(i, ret[i].max.sat)]. *)
Definition set_max (evalSF : Z -> D -> D)
    (ret : list (FunctionValues.t D)) (i : nat) (sat : D)
  : outcome (list (FunctionValues.t D)) :=
  r <- index ret i ;;
  ret <- store ret i
           {| FunctionValues.disp := FunctionValues.disp r;
              FunctionValues.max :=
                {| FunctionValues.sat := sat;
                   FunctionValues.val :=
                     FunctionValues.val (FunctionValues.max r) |} |} ;;
  r <- index ret i ;;
  store ret i
    {| FunctionValues.disp := FunctionValues.disp r;
       FunctionValues.max :=
         {| FunctionValues.sat := FunctionValues.sat (FunctionValues.max r);
            FunctionValues.val :=
              evalSF (static_cast_int i)
                     (FunctionValues.sat (FunctionValues.max r)) |} |}.

(** [ret[i].disp.sat = sat; ret[i].disp.val = evalSF(i, ret[i].disp.sat)]. *)
Definition set_disp (evalSF : Z -> D -> D)
    (ret : list (FunctionValues.t D)) (i : nat) (sat : D)
  : outcome (list (FunctionValues.t D)) :=
  r <- index ret i ;;
  ret <- store ret i
           {| FunctionValues.disp :=
                {| FunctionValues.sat := sat;
                   FunctionValues.val :=
                     FunctionValues.val (FunctionValues.disp r) |};
              FunctionValues.max := FunctionValues.max r |} ;;
  r <- index ret i ;;
  store ret i
    {| FunctionValues.disp :=
         {| FunctionValues.sat := FunctionValues.sat (FunctionValues.disp r);
            FunctionValues.val :=
              evalSF (static_cast_int i)
                     (FunctionValues.sat (FunctionValues.disp r)) |};
       FunctionValues.max := FunctionValues.max r |}.

(** [CreateEPS::Vertical::unscaledFunctionValues].  The saturation
    function evaluator [evalSF] is the caller's. *)
Definition unscaledFunctionValues (NDEBUG : bool) (out : ECLOutput D)
    (ep : RawTableEndPoints.t D) (opt : EPSOptions) (evalSF : Z -> D -> D)
  : outcome (list (FunctionValues.t D)) :=
  let ret := [] in
  let haveScaleCRS :=
    haveScaledRelPermAtCritSat out (thisPh opt) (subSys opt) in
  if (curve opt == CapPress) || negb haveScaleCRS then
    let opt_cpy := {| use3PtScaling := false; curve := curve opt;
                      subSys := subSys opt; thisPh := thisPh opt |} in
    uep <- Create.TwoPoint.unscaledEndPoints NDEBUG ep opt_cpy ;;
    let ret := resize ret (length uep) zero_values in
    for_each
      (fun (ret : list (FunctionValues.t D)) (i : nat) =>
         u <- index uep i ;;
         set_max evalSF ret i (high u))
      (seq 0 (length uep)) ret
  else
    let opt_cpy := {| use3PtScaling := true; curve := curve opt;
                      subSys := subSys opt; thisPh := thisPh opt |} in
    uep <- Create.ThreePoint.unscaledEndPoints NDEBUG ep opt_cpy ;;
    let ret := resize ret (length uep) zero_values in
    for_each
      (fun (ret : list (FunctionValues.t D)) (i : nat) =>
         u <- index uep i ;;
         ret <- set_disp evalSF ret i (disp u) ;;
         u <- index uep i ;;
         set_max evalSF ret i (high u))
      (seq 0 (length uep)) ret.

End Values.

End Vertical.

(* ===================================================================== *)
(** * Vocabulary of the statements on the factories                       *)
(* ===================================================================== *)

(** The combinations of curve, sub-system and phase that name no
    saturation function: capillary pressure as a function of the oil
    saturation, water in an oil-gas system, gas in an oil-water
    system. *)
Definition meaningless (opt : CreateEPS.EPSOptions) : Prop :=
  match CreateEPS.curve opt, CreateEPS.subSys opt, CreateEPS.thisPh opt with
  | CreateEPS.CapPress, _, Liquid => True
  | CreateEPS.Relperm, CreateEPS.OilGas, Aqua => True
  | CreateEPS.Relperm, CreateEPS.OilWater, Vapour => True
  | _, _, _ => False
  end.

(** Raw table end points with [n] saturation tables: every array has
    [n] entries. *)
Definition tables {D : Type} (n : nat) (ep : CreateEPS.RawTableEndPoints.t D)
  : Prop :=
  let conn := CreateEPS.RawTableEndPoints.conn ep in
  let crit := CreateEPS.RawTableEndPoints.crit ep in
  let smax := CreateEPS.RawTableEndPoints.smax ep in
  length (CreateEPS.RawTableEndPoints.Connate.gas conn) = n /\
  length (CreateEPS.RawTableEndPoints.Connate.water conn) = n /\
  length (CreateEPS.RawTableEndPoints.Critical.oil_in_gas crit) = n /\
  length (CreateEPS.RawTableEndPoints.Critical.oil_in_water crit) = n /\
  length (CreateEPS.RawTableEndPoints.Critical.gas crit) = n /\
  length (CreateEPS.RawTableEndPoints.Critical.water crit) = n /\
  length (CreateEPS.RawTableEndPoints.Maximum.gas smax) = n /\
  length (CreateEPS.RawTableEndPoints.Maximum.oil smax) = n /\
  length (CreateEPS.RawTableEndPoints.Maximum.water smax) = n.

(** The table end points whose low, displacing and high end points are,
    table by table, the entries of three arrays. *)
Definition end_points_of {D : Type} (lo di hi : list D)
  : list (TableEndPoints D) :=
  map (fun ldh : D * (D * D) =>
         {| low := fst ldh; disp := fst (snd ldh); high := snd (snd ldh) |})
      (combine lo (combine di hi)).

(** [1 - (a + b)], entry by entry. *)
Definition one_minus_sum {D : Type} `{Double D} (s1 s2 : list D) : list D :=
  map (fun ab : D * D => (lit_1 - (fst ab + snd ab))%double) (combine s1 s2).

(** [v[i] - w[i]], entry by entry. *)
Definition minus {D : Type} `{Double D} (v w : list D) : list D :=
  map (fun yx : D * D => (fst yx - snd yx)%double) (combine v w).

(** The same for an array [w] that may be absent (empty): an absent
    array is not subtracted. *)
Definition minus_if_present {D : Type} `{Double D} (v w : list D) : list D :=
  if empty w then v else minus v w.

(** An array of ones, [std::vector<double>(n, 1.0)]. *)
Definition ones {D : Type} `{Double D} (n : nat) : list D := repeat lit_1 n.

(** An optional per-cell array: present with [n] entries, or absent. *)
Definition optional {A : Type} (n : nat) (w : list A) : Prop :=
  length w = n \/ w = [].

(** A result set in which every per-cell array is present, with one
    value per cell of the grid. *)
Definition complete {D : Type} (out : ECLOutput D) : Prop :=
  forall vector : string,
    length (rawLinearisedCellData out vector) = numCells out.

(** The region numbers and the values of one grid as
    [gridDefaultedVector] takes them: the arrays of the result set, and
    for a grid without the keyword the region number 1, respectively the
    value [-1.0e21], in every cell. *)
Definition region_numbers {D : Type} (out : ECLOutput D) (gridID : string)
  : list Z :=
  if haveKeywordData out "SATNUM" gridID
  then rawLinearisedCellData_int_of out "SATNUM" gridID
  else repeat 1%Z (numCells_of out gridID).

Definition grid_values (out : ECLOutput float) (vector gridID : string)
  : list float :=
  if haveKeywordData out vector gridID
  then rawLinearisedCellData_of out vector gridID
  else repeat (-1.0e21)%float (numCells_of out gridID).

(** The value of a cell with value [v] in saturation region [r]: the
    converted value when [|v| < 1.0e20], the default of table [r - 1]
    otherwise. *)
Definition defaulted_value (dflt : list float) (cvrt : float -> float)
    (v : float) (r : Z) : float :=
  if (abs v <? 1.0e20)%float then cvrt v
  else nth (Z.to_nat (r - 1)) dflt 0%float.

(** The same for all cells, grid after grid in the order of
    [G.activeGrids()]. *)
Definition defaulted (out : ECLOutput float) (vector : string)
    (dflt : list float) (cvrt : float -> float) : list float :=
  flat_map (fun gridID =>
              map (fun vr => defaulted_value dflt cvrt (fst vr) (snd vr))
                  (combine (grid_values out vector gridID)
                           (region_numbers out gridID)))
           (activeGrids out).

(** A result set that is consistent with [ntab] saturation tables: the
    cells of the active grids are the cells of the model, every region
    number names a table, and an array that a grid has holds one value
    per cell of the grid. *)
Definition consistent {D : Type} (out : ECLOutput D) (ntab : nat) : Prop :=
  list_sum (map (numCells_of out) (activeGrids out)) = numCells out /\
  forall gridID : string,
    In gridID (activeGrids out) ->
    length (region_numbers out gridID) = numCells_of out gridID /\
    Forall (fun r => (1 <= r <= Z.of_nat ntab)%Z)
           (region_numbers out gridID) /\
    forall vector : string,
      haveKeywordData out vector gridID = true ->
      length (rawLinearisedCellData_of out vector gridID)
      = numCells_of out gridID.

(** The function values at the end points [uep] of the tables: the
    maximum point at the high end point and, with [with_disp], the
    displacing point at the displacing end point, each with the value
    that [evalSF] gives for the table; a point that is not evaluated is
    left at [(0, 0)]. *)
Definition function_values {D : Type} `{Double D} (evalSF : Z -> D -> D)
    (with_disp : bool) (uep : list (TableEndPoints D))
  : list (FunctionValues.t D) :=
  map (fun iu : nat * TableEndPoints D =>
         let i := static_cast_int (fst iu) in
         let u := snd iu in
         {| FunctionValues.disp :=
              if with_disp
              then {| FunctionValues.sat := disp u;
                      FunctionValues.val := evalSF i (disp u) |}
              else {| FunctionValues.sat := lit_0;
                      FunctionValues.val := lit_0 |};
            FunctionValues.max :=
              {| FunctionValues.sat := high u;
                 FunctionValues.val := evalSF i (high u) |} |})
      (combine (seq 0 (length uep)) uep).

(* ===================================================================== *)
(** * Facts about binary64 arithmetic                                     *)
(* ===================================================================== *)

Lemma digits2_pos_size (m : positive) : digits2_pos m = Pos.size m.
Proof. induction m; simpl; congruence. Qed.

Lemma digits2_pos_gt (m : positive) : (Zpos m < 2 ^ Zpos (digits2_pos m))%Z.
Proof.
  rewrite digits2_pos_size.
  pose proof (Pos.size_gt m) as Hm.
  apply Pos2Z.pos_lt_pos in Hm. rewrite Pos2Z.inj_pow in Hm. exact Hm.
Qed.

Lemma digits2_pos_le (m : positive) : (2 ^ Zpos (digits2_pos m) <= 2 * Zpos m)%Z.
Proof.
  rewrite digits2_pos_size.
  pose proof (Pos.size_le m) as Hm.
  apply Pos2Z.pos_le_pos in Hm. rewrite Pos2Z.inj_pow in Hm. exact Hm.
Qed.

Lemma valid_finite_bounds (s : bool) (m : positive) (e : Z) :
  valid_binary (S754_finite s m e) = true ->
  (-1074 <= e <= 971)%Z /\ (Zpos (digits2_pos m) <= 53)%Z /\
  (e = -1074 \/ Zpos (digits2_pos m) = 53)%Z.
Proof.
  unfold SpecFloat.valid_binary, bounded, canonical_mantissa, fexp, SpecFloat.emin, prec, emax.
  rewrite andb_true_iff, Z.eqb_eq, Z.leb_le. lia.
Qed.

Lemma valid_mantissa_lt (s : bool) (m : positive) (e : Z) :
  valid_binary (S754_finite s m e) = true -> (Zpos m < 2 ^ 53)%Z.
Proof.
  intros Hv. apply valid_finite_bounds in Hv. destruct Hv as (_ & Hd & _).
  pose proof (digits2_pos_gt m).
  assert (2 ^ Zpos (digits2_pos m) <= 2 ^ 53)%Z by (apply Z.pow_le_mono_r; lia).
  lia.
Qed.

Lemma SFcompare_key (x y : spec_float) :
  valid_binary x = true -> valid_binary y = true ->
  SFcompare x y =
  match SFkey x, SFkey y with
  | Some a, Some b => Some (a ?= b)%Z
  | _, _ => None
  end.
Proof.
  intros Hx Hy.
  destruct x as [sx|sx| |sx mx ex], y as [sy|sy| |sy my ey];
    try (pose proof (@valid_mantissa_lt _ _ _ Hx); apply valid_finite_bounds in Hx);
    try (pose proof (@valid_mantissa_lt _ _ _ Hy); apply valid_finite_bounds in Hy);
    cbn [SFcompare SFkey]; try reflexivity;
    try (destruct sx; reflexivity); try (destruct sy; reflexivity);
    try (destruct sx, sy; reflexivity).
  all: set (K := (2 ^ 53)%Z) in *; assert (HK : (0 < K)%Z) by (unfold K; lia);
       assert (HK2 : (2048 * K < 2 ^ 70)%Z) by (unfold K; lia).
  all: f_equal; symmetry.
  - destruct sy; [apply Z.compare_gt_iff | apply Z.compare_lt_iff]; nia.
  - destruct sx, sy; first [apply Z.compare_lt_iff | apply Z.compare_gt_iff]; nia.
  - destruct sx; [apply Z.compare_lt_iff | apply Z.compare_gt_iff]; nia.
  - destruct sx, sy; first [apply Z.compare_lt_iff | apply Z.compare_gt_iff]; nia.
  - change (Pos.compare_cont Eq mx my) with (Pos.compare mx my).
    rewrite Pos2Z.inj_compare.
    destruct sx, sy.
    + destruct (Z.compare_spec ex ey), (Z.compare_spec (Zpos mx) (Zpos my)); cbn [CompOpp];
        first [apply Z.compare_lt_iff | apply Z.compare_gt_iff | apply Z.compare_eq_iff]; nia.
    + apply Z.compare_lt_iff; nia.
    + apply Z.compare_gt_iff; nia.
    + destruct (Z.compare_spec ex ey), (Z.compare_spec (Zpos mx) (Zpos my));
        first [apply Z.compare_lt_iff | apply Z.compare_gt_iff | apply Z.compare_eq_iff]; nia.
Qed.

Lemma ltb_key (x y : float) :
  (x <? y)%float =
  match key x, key y with Some a, Some b => (a <? b)%Z | _, _ => false end.
Proof.
  rewrite FloatAxioms.ltb_spec. unfold SFltb, key.
  rewrite SFcompare_key by apply Prim2SF_valid.
  destruct (SFkey (Prim2SF x)), (SFkey (Prim2SF y)); try reflexivity;
    unfold Z.ltb; destruct (_ ?= _)%Z; reflexivity.
Qed.

Lemma leb_key (x y : float) :
  (x <=? y)%float =
  match key x, key y with Some a, Some b => (a <=? b)%Z | _, _ => false end.
Proof.
  rewrite FloatAxioms.leb_spec. unfold SFleb, key.
  rewrite SFcompare_key by apply Prim2SF_valid.
  destruct (SFkey (Prim2SF x)), (SFkey (Prim2SF y)); try reflexivity;
    unfold Z.leb; destruct (_ ?= _)%Z; reflexivity.
Qed.

Lemma eqb_key (x y : float) :
  (x =? y)%float =
  match key x, key y with Some a, Some b => (a =? b)%Z | _, _ => false end.
Proof.
  rewrite FloatAxioms.eqb_spec. unfold SFeqb, key.
  rewrite SFcompare_key by apply Prim2SF_valid.
  destruct (SFkey (Prim2SF x)), (SFkey (Prim2SF y)); try reflexivity;
    rewrite Z.eqb_compare; destruct (_ ?= _)%Z; reflexivity.
Qed.

Ltac float_order :=
  repeat match goal with
  | H : context [PrimFloat.ltb _ _] |- _ => rewrite ltb_key in H
  | H : context [PrimFloat.leb _ _] |- _ => rewrite leb_key in H
  | H : context [PrimFloat.eqb _ _] |- _ => rewrite eqb_key in H
  | |- context [PrimFloat.ltb _ _] => rewrite ltb_key
  | |- context [PrimFloat.leb _ _] => rewrite leb_key
  | |- context [PrimFloat.eqb _ _] => rewrite eqb_key
  end;
  repeat match goal with
  | |- context [key ?x] => destruct (key x)
  | H : context [key ?x] |- _ => destruct (key x)
  end;
  try discriminate; try reflexivity; try lia.

Lemma ltb_asym (x y : float) : (x <? y)%float = true -> (y <? x)%float = false.
Proof. intros H. float_order. Qed.

Lemma leb_not_gt (x y : float) : (x <=? y)%float = true -> (y <? x)%float = false.
Proof. intros H. float_order. Qed.

Lemma eqb_not_gt (x y : float) : (x =? y)%float = true -> (y <? x)%float = false.
Proof. intros H. float_order. Qed.

(** Rounding keeps a positive mantissa positive when the exponent is at
    least [emin]. *)

Lemma shr_m_record_of_loc (m : Z) (l : location) : shr_m (shr_record_of_loc m l) = m.
Proof. destruct l as [|[]]; reflexivity. Qed.

Lemma shr_m_shr_1 (mrs : shr_record) :
  (0 <= shr_m mrs)%Z -> shr_m (shr_1 mrs) = Z.div2 (shr_m mrs).
Proof.
  destruct mrs as [m r s]. cbn [shr_m]. intros Hm.
  destruct m as [|[p|p|]|p]; try reflexivity; lia.
Qed.

Lemma shr_m_iter_pos (p : positive) (mrs : shr_record) :
  (0 <= shr_m mrs)%Z ->
  shr_m (iter_pos shr_1 p mrs) = Z.shiftr (shr_m mrs) (Zpos p).
Proof.
  revert mrs. induction p as [p IH|p IH|]; intros mrs Hm; cbn [iter_pos].
  - assert (H1 : (0 <= shr_m (shr_1 mrs))%Z).
    { rewrite shr_m_shr_1 by assumption. apply Z.div2_nonneg. assumption. }
    assert (H2 : (0 <= shr_m (iter_pos shr_1 p (shr_1 mrs)))%Z).
    { rewrite IH by assumption. apply Z.shiftr_nonneg. assumption. }
    rewrite IH, IH, shr_m_shr_1 by assumption.
    rewrite Z.div2_spec, !Z.shiftr_shiftr by lia.
    f_equal. lia.
  - assert (H2 : (0 <= shr_m (iter_pos shr_1 p mrs))%Z).
    { rewrite IH by assumption. apply Z.shiftr_nonneg. assumption. }
    rewrite IH, IH by assumption.
    rewrite !Z.shiftr_shiftr by lia.
    f_equal. lia.
  - rewrite shr_m_shr_1 by assumption. apply Z.div2_spec.
Qed.

Lemma shr_fexp_pos (m e : Z) (l : location) :
  (0 < m)%Z -> (-1074 <= e)%Z ->
  (0 < shr_m (fst (shr_fexp prec emax m e l)))%Z /\
  (-1074 <= snd (shr_fexp prec emax m e l))%Z.
Proof.
  intros Hm He. unfold shr_fexp, shr.
  destruct m as [|p|p]; try lia. cbn [Zdigits2].
  pose proof (digits2_pos_le p) as Hd.
  set (d := Zpos (digits2_pos p)) in *.
  destruct (fexp prec emax (d + e) - e)%Z as [|n|n] eqn:Hn; cbn [fst snd];
    rewrite ?shr_m_record_of_loc; try lia.
  unfold fexp, SpecFloat.emin, prec, emax in Hn.
  rewrite shr_m_iter_pos by (rewrite shr_m_record_of_loc; lia).
  rewrite shr_m_record_of_loc, Z.shiftr_div_pow2 by lia.
  assert (Hdn : (Zpos n = d - 53)%Z) by lia.
  split; [|lia].
  apply Z.div_str_pos. split; [apply Z.pow_pos_nonneg; lia|].
  assert (2 ^ (Zpos n) * 2 ^ 53 = 2 ^ d)%Z.
  { rewrite <- Z.pow_add_r by lia. f_equal. lia. }
  assert (0 < 2 ^ Zpos n)%Z by (apply Z.pow_pos_nonneg; lia).
  nia.
Qed.

Lemma round_nearest_even_pos (m : Z) (l : location) :
  (0 < m)%Z -> (0 < round_nearest_even m l)%Z.
Proof.
  intros Hm. destruct l as [|[]]; cbn [round_nearest_even]; try lia.
  destruct (Z.even m); lia.
Qed.

Lemma binary_round_aux_pos (m e : Z) (l : location) :
  (0 < m)%Z -> (-1074 <= e)%Z ->
  SFltb (S754_zero false) (binary_round_aux prec emax false m e l) = true.
Proof.
  intros Hm He. unfold binary_round_aux.
  destruct (@shr_fexp_pos _ _ l Hm He) as [H1 H2].
  destruct (shr_fexp prec emax m e l) as [mrs' e']. cbn [fst snd] in H1, H2.
  pose proof (@round_nearest_even_pos _ (loc_of_shr_record mrs') H1) as H3.
  destruct (@shr_fexp_pos _ _ loc_Exact H3 H2) as [H4 _].
  destruct (shr_fexp prec emax _ e' loc_Exact) as [mrs'' e'']. cbn [fst] in H4.
  destruct (shr_m mrs'') as [|q|q]; try lia.
  destruct (e'' <=? emax - prec)%Z; reflexivity.
Qed.

Lemma shl_align_spec (m : positive) (e e' : Z) :
  (e' <= e)%Z ->
  snd (shl_align m e e') = e' /\
  Zpos (fst (shl_align m e e')) = (Zpos m * 2 ^ (e - e'))%Z.
Proof.
  intros He. unfold shl_align.
  destruct (e' - e)%Z as [|d|d] eqn:Hd; cbn [fst snd]; try lia.
  - assert (e = e') by lia. subst. rewrite Z.sub_diag. split; [reflexivity|]. simpl; lia.
  - split; [reflexivity|].
    replace (e - e')%Z with (Zpos d) by lia.
    change (Pos.iter xO m d) with (shift_pos d m).
    rewrite shift_pos_correct. change (Z.pow_pos 2 d) with (2 ^ Zpos d)%Z. lia.
Qed.

Lemma binary_round_pos (m : positive) (e : Z) :
  (-1074 <= e)%Z ->
  SFltb (S754_zero false) (binary_round prec emax false m e) = true.
Proof.
  intros He. unfold binary_round.
  destruct (shl_align m e (fexp prec emax (Zpos (digits2_pos m) + e))) as [mz ez] eqn:Hs.
  apply binary_round_aux_pos; [lia|].
  unfold shl_align in Hs.
  destruct (fexp prec emax (Zpos (digits2_pos m) + e) - e)%Z eqn:Hd;
    inversion Hs; subst; try lia.
  unfold fexp, SpecFloat.emin, prec, emax. lia.
Qed.

Lemma SFsub_pos (x y : spec_float) :
  valid_binary x = true -> valid_binary y = true ->
  SFltb x y = true ->
  SFltb (S754_zero false) (SF64sub y x) = true.
Proof.
  intros Hx Hy Hlt.
  destruct x as [sx|sx| |sx mx ex], y as [sy|sy| |sy my ey];
    try discriminate Hlt.
  1-7: try destruct sx; try destruct sy; first [discriminate Hlt | reflexivity].
  - (* finite < finite *)
    pose proof (@valid_mantissa_lt _ _ _ Hx) as Hmx. pose proof (@valid_mantissa_lt _ _ _ Hy) as Hmy.
    apply valid_finite_bounds in Hx, Hy.
    pose proof (digits2_pos_le mx) as Hdx. pose proof (digits2_pos_le my) as Hdy.
    unfold SF64sub, SFsub.
    destruct (@shl_align_spec my _ _ (Z.le_min_l ey ex)) as [_ Hy'].
    destruct (@shl_align_spec mx _ _ (Z.le_min_r ey ex)) as [_ Hx'].
    set (my' := fst (shl_align my ey (Z.min ey ex))) in *.
    set (mx' := fst (shl_align mx ex (Z.min ey ex))) in *.
    assert (Hpos : (0 < cond_Zopp sy (Zpos my') - cond_Zopp sx (Zpos mx'))%Z).
    { unfold SFltb in Hlt. cbn [SFcompare] in Hlt.
      change (Pos.compare_cont Eq mx my) with (Pos.compare mx my) in Hlt.
      rewrite Pos2Z.inj_compare in Hlt.
      rewrite Hx', Hy'.
      destruct sx, sy; cbn [cond_Zopp]; try discriminate Hlt.
      - (* both negative: |y| < |x| *)
        destruct (Z.compare_spec ex ey) as [He|He|He]; try discriminate Hlt.
        + subst. rewrite Z.min_id, Z.sub_diag, Z.pow_0_r.
          destruct (Z.compare_spec (Zpos mx) (Zpos my)); try discriminate Hlt. lia.
        + rewrite Z.min_l by lia. rewrite Z.sub_diag, Z.pow_0_r.
          assert (Hdx53 : (Zpos (digits2_pos mx) = 53)%Z) by lia.
          rewrite Hdx53 in Hdx.
          assert (2 <= 2 ^ (ex - ey))%Z.
          { change 2%Z with (2 ^ 1)%Z at 1. apply Z.pow_le_mono_r; lia. }
          nia.
      - (* x negative, y positive *)
        assert (0 < 2 ^ (ey - Z.min ey ex))%Z by (apply Z.pow_pos_nonneg; lia).
        assert (0 < 2 ^ (ex - Z.min ey ex))%Z by (apply Z.pow_pos_nonneg; lia).
        nia.
      - (* both positive *)
        destruct (Z.compare_spec ex ey) as [He|He|He]; try discriminate Hlt.
        + subst. rewrite Z.min_id, Z.sub_diag, Z.pow_0_r.
          destruct (Z.compare_spec (Zpos mx) (Zpos my)); try discriminate Hlt. lia.
        + rewrite Z.min_r by lia. rewrite Z.sub_diag, Z.pow_0_r.
          assert (Hdy53 : (Zpos (digits2_pos my) = 53)%Z) by lia.
          rewrite Hdy53 in Hdy.
          assert (2 <= 2 ^ (ey - ex))%Z.
          { change 2%Z with (2 ^ 1)%Z at 1. apply Z.pow_le_mono_r; lia. }
          nia. }
    destruct (cond_Zopp sy (Zpos my') - cond_Zopp sx (Zpos mx'))%Z as [|d|d]; try lia.
    cbn [binary_normalize]. apply binary_round_pos. lia.
Qed.

Lemma sub_pos (x y : float) :
  (x <? y)%float = true -> (0 <? y - x)%float = true.
Proof.
  intros H. rewrite FloatAxioms.ltb_spec in *. rewrite sub_spec.
  apply SFsub_pos; auto using Prim2SF_valid.
Qed.

(** [x / x] and [x * 1]. *)

Lemma Prim2SF_one : Prim2SF 1 = S754_finite false 4503599627370496 (-52).
Proof. reflexivity. Qed.

(** [is_finite x && negb (is_zero x)] in terms of the decoded number. *)
Lemma finite_nonzero_SF (x : float) :
  is_finite x = true -> is_zero x = false ->
  exists s m e, Prim2SF x = S754_finite s m e.
Proof.
  unfold is_finite, is_nan, is_infinity, is_zero.
  rewrite !FloatAxioms.eqb_spec, abs_spec.
  change (Prim2SF infinity) with (S754_infinity false).
  change (Prim2SF zero) with (S754_zero false).
  destruct (Prim2SF x) as [s|s| |s m e]; cbn; try discriminate.
  - destruct s; discriminate.
  - intros _ _. eauto.
Qed.

Lemma SFdiv_self (s : bool) (m : positive) (e : Z) :
  SF64div (S754_finite s m e) (S754_finite s m e)
  = S754_finite false 4503599627370496 (-52).
Proof.
  unfold SF64div, SFdiv, SFdiv_core_binary.
  rewrite xorb_nilpotent.
  replace (Zdigits2 (Zpos m) + e - (Zdigits2 (Zpos m) + e))%Z with 0%Z by lia.
  rewrite Z.sub_diag.
  change (Z.min (fexp prec emax 0) 0) with (-53)%Z.
  change (0 - -53)%Z with 53%Z. cbv iota beta.
  rewrite Z.shiftl_mul_pow2 by lia.
  assert (Hq : Z.div_eucl (Zpos m * 2 ^ 53) (Zpos m) = (2 ^ 53, 0)%Z).
  { pose proof (Z.div_eucl_eq (Zpos m * 2 ^ 53) (Zpos m)) as Heq.
    pose proof (Z.mod_pos_bound (Zpos m * 2 ^ 53) (Zpos m)) as Hb.
    unfold Z.modulo in Hb.
    destruct (Z.div_eucl (Zpos m * 2 ^ 53) (Zpos m)) as [q r].
    specialize (Heq ltac:(lia)). specialize (Hb ltac:(lia)).
    assert (q = 2 ^ 53)%Z by nia. assert (r = 0)%Z by nia. subst. reflexivity. }
  rewrite Hq.
  unfold new_location, new_location_even, new_location_odd.
  destruct (Z.even (Zpos m)); reflexivity.
Qed.

Lemma div_self (x : float) :
  is_finite x = true -> is_zero x = false -> (x / x)%float = 1%float.
Proof.
  intros Hf Hz. destruct (finite_nonzero_SF Hf Hz) as (s & m & e & Hx).
  apply Prim2SF_inj. rewrite div_spec, Hx, Prim2SF_one. apply SFdiv_self.
Qed.

Lemma SFmul_one (x : spec_float) :
  valid_binary x = true ->
  SF64mul x (S754_finite false 4503599627370496 (-52)) = x.
Proof.
  intros Hv. destruct x as [s|s| |s m e]; try (destruct s; reflexivity); try reflexivity.
  unfold SF64mul, SFmul. rewrite xorb_false_r.
  unfold SpecFloat.valid_binary, bounded, canonical_mantissa in Hv.
  apply andb_true_iff in Hv. destruct Hv as [Hc Hb]. apply Z.eqb_eq in Hc.
  rewrite Pos.mul_comm. cbn [Pos.mul].
  unfold binary_round_aux, shr_fexp at 1.
  cbn [Zdigits2 digits2_pos].
  rewrite !Pos2Z.inj_succ.
  replace (Z.succ _ + (e + -52))%Z with (Zpos (digits2_pos m) + e)%Z by lia.
  rewrite Hc.
  replace (e - (e + -52))%Z with 52%Z by lia.
  cbn [shr shr_record_of_loc iter_pos shr_1 orb].
  cbn [shr_m loc_of_shr_record round_nearest_even].
  replace (e + -52 + 52)%Z with e by lia.
  unfold shr_fexp. cbn [Zdigits2]. rewrite Hc, Z.sub_diag.
  cbn [shr shr_record_of_loc shr_m]. rewrite Hb. reflexivity.
Qed.

Lemma mul_one (x : float) : (x * 1)%float = x.
Proof.
  apply Prim2SF_inj. rewrite mul_spec, Prim2SF_one.
  apply SFmul_one, Prim2SF_valid.
Qed.

Lemma eqb_nonzero_eq (x y : float) :
  (x =? y)%float = true -> is_zero x = false -> x = y.
Proof.
  unfold is_zero. rewrite !FloatAxioms.eqb_spec.
  change (Prim2SF zero) with (S754_zero false).
  intros Heq Hz. apply Prim2SF_inj.
  pose proof (Prim2SF_valid x) as Hx. pose proof (Prim2SF_valid y) as Hy.
  unfold SFeqb in *.
  destruct (Prim2SF x) as [sx|sx| |sx mx ex], (Prim2SF y) as [sy|sy| |sy my ey];
    try discriminate Heq; try discriminate Hz;
    try (destruct sx; discriminate Heq); try (destruct sy; discriminate Heq);
    try (destruct sx, sy; first [discriminate Heq | reflexivity]).
  cbn [SFcompare] in Heq.
  change (Pos.compare_cont Eq mx my) with (Pos.compare mx my) in Heq.
  destruct sx, sy; try discriminate Heq;
    destruct (Z.compare_spec ex ey); try discriminate Heq;
    destruct (Pos.compare_spec mx my); try discriminate Heq; subst; reflexivity.
Qed.


(* ===================================================================== *)
(** * Rounding of the binary64 operations                                 *)
(* ===================================================================== *)

(** Powers of two in [Q]. *)
Lemma pow2_pos (e : Z) : (0 < 2 ^ e)%Q.
Proof. apply Qpower_0_lt. reflexivity. Qed.

Lemma pow2_add (a b : Z) : (2 ^ (a + b) == 2 ^ a * 2 ^ b)%Q.
Proof. apply Qpower_plus. discriminate. Qed.

Lemma pow2_le (a b : Z) : (a <= b)%Z -> (2 ^ a <= 2 ^ b)%Q.
Proof. intros H. apply Qpower_le_compat_l; [exact H|discriminate]. Qed.

Lemma pow2_lt (a b : Z) : (a < b)%Z -> (2 ^ a < 2 ^ b)%Q.
Proof. intros H. apply Qpower_lt_compat_l; [exact H|reflexivity]. Qed.

Lemma pow2_lt_inv (a b : Z) : (2 ^ a < 2 ^ b)%Q -> (a < b)%Z.
Proof. intros H. apply (Qpower_lt_compat_l_inv 2); [exact H|reflexivity]. Qed.

Lemma pow2_inject (n : Z) : (0 <= n)%Z -> (inject_Z (2 ^ n) == 2 ^ n)%Q.
Proof. intros H. rewrite Zpower_Qpower by exact H. reflexivity. Qed.

Lemma inject_Z_le (a b : Z) : (a <= b)%Z -> (inject_Z a <= inject_Z b)%Q.
Proof. intros H. rewrite <- Zle_Qle. exact H. Qed.

Lemma inject_Z_lt (a b : Z) : (a < b)%Z -> (inject_Z a < inject_Z b)%Q.
Proof. intros H. rewrite <- Zlt_Qlt. exact H. Qed.

(** The number of binary digits. *)
Lemma Zdigits2_nonneg (m : Z) : (0 <= Zdigits2 m)%Z.
Proof. destruct m; cbn; lia. Qed.

Lemma Zdigits2_bounds (m : Z) :
  (0 < m)%Z -> (2 ^ (Zdigits2 m - 1) <= m < 2 ^ Zdigits2 m)%Z.
Proof.
  destruct m as [|p|p]; try lia. intros _. cbn [Zdigits2].
  pose proof (digits2_pos_gt p) as Hgt. pose proof (digits2_pos_le p) as Hle.
  split; [|exact Hgt].
  assert (H2 : (2 ^ Zpos (digits2_pos p) = 2 * 2 ^ (Zpos (digits2_pos p) - 1))%Z).
  { rewrite <- Z.pow_succ_r by lia. f_equal. lia. }
  lia.
Qed.

Lemma Zdigits2_ge (m : Z) (k : Z) :
  (0 <= k)%Z -> (2 ^ k <= m)%Z -> (k + 1 <= Zdigits2 m)%Z.
Proof.
  intros Hk Hm.
  assert (Hpos : (0 < m)%Z) by (pose proof (Z.pow_pos_nonneg 2 k); lia).
  destruct (Zdigits2_bounds Hpos) as [_ Hlt].
  assert (H : (2 ^ k < 2 ^ Zdigits2 m)%Z) by lia.
  apply Z.pow_lt_mono_r_iff in H; [lia|lia|apply Zdigits2_nonneg].
Qed.

Lemma Zdigits2_le (m : Z) (k : Z) :
  (0 <= k)%Z -> (0 <= m < 2 ^ k)%Z -> (Zdigits2 m <= k)%Z.
Proof.
  intros Hk [H0 Hm].
  destruct (Z.eq_dec m 0) as [->|Hne]; [cbn; lia|].
  assert (Hpos : (0 < m)%Z) by lia.
  destruct (Zdigits2_bounds Hpos) as [Hle _].
  assert (H : (2 ^ (Zdigits2 m - 1) < 2 ^ k)%Z) by lia.
  apply Z.pow_lt_mono_r_iff in H; lia.
Qed.

(** [shr_fexp]: a shift to the right by [fexp (digits + e) - e] places,
    when that is not negative. *)
Lemma shr_fexp_spec (m e : Z) (l : location) :
  (0 <= m)%Z ->
  let n := (fexp prec emax (Zdigits2 m + e) - e)%Z in
  (0 <= n)%Z ->
  shr_m (fst (shr_fexp prec emax m e l)) = (m / 2 ^ n)%Z /\
  snd (shr_fexp prec emax m e l) = (e + n)%Z.
Proof.
  intros Hm n Hn. unfold shr_fexp, shr. fold n.
  destruct n as [|p|p] eqn:E; cbn [fst snd]; try lia.
  - rewrite shr_m_record_of_loc, Z.pow_0_r, Z.div_1_r. split; [reflexivity|lia].
  - rewrite shr_m_iter_pos by (rewrite shr_m_record_of_loc; exact Hm).
    rewrite shr_m_record_of_loc, Z.shiftr_div_pow2 by lia. split; reflexivity.
Qed.

Lemma shr_fexp_id (m e : Z) (l : location) :
  (fexp prec emax (Zdigits2 m + e) - e <= 0)%Z ->
  shr_fexp prec emax m e l = (shr_record_of_loc m l, e).
Proof.
  intros Hn. unfold shr_fexp, shr.
  destruct (fexp prec emax (Zdigits2 m + e) - e)%Z; try reflexivity; lia.
Qed.

Lemma loc_of_shr_record_of_loc (m : Z) (l : location) :
  loc_of_shr_record (shr_record_of_loc m l) = l.
Proof. destruct l as [|[]]; reflexivity. Qed.

Lemma round_nearest_even_bounds (m : Z) (l : location) :
  (m <= round_nearest_even m l <= m + 1)%Z.
Proof.
  destruct l as [|[]]; cbn [round_nearest_even]; try lia.
  destruct (Z.even m); lia.
Qed.

(** [binary_round_aux] on a mantissa that is not shifted to the left:
    the result is finite and its mantissa, at the exponent
    [fexp (digits + e)], is the truncated one or its successor. *)
Lemma binary_round_aux_spec (s : bool) (mx ex : Z) (lx : location) :
  (0 <= mx)%Z ->
  let e1 := fexp prec emax (Zdigits2 mx + ex) in
  (ex <= e1)%Z -> (e1 < 971)%Z ->
  exists m2 : Z,
    (mx / 2 ^ (e1 - ex) <= m2 <= mx / 2 ^ (e1 - ex) + 1)%Z /\
    (lx = loc_Exact -> e1 = ex -> m2 = mx) /\
    ((m2 = 0%Z /\ binary_round_aux prec emax s mx ex lx = S754_zero s) \/
     (exists (m : positive) (e : Z),
        binary_round_aux prec emax s mx ex lx = S754_finite s m e /\
        (inject_Z (Zpos m) * 2 ^ e == inject_Z m2 * 2 ^ e1)%Q)).
Proof.
  intros Hmx e1 Hn Hover.
  assert (Hemin : (-1074 <= e1)%Z).
  { unfold e1, fexp, SpecFloat.emin, prec, emax. lia. }
  destruct (@shr_fexp_spec mx ex lx Hmx) as [Hm1 He1]; [fold e1; lia|].
  fold e1 in Hm1, He1.
  replace (ex + (e1 - ex))%Z with e1 in He1 by lia.
  set (m1 := (mx / 2 ^ (e1 - ex))%Z) in *.
  assert (Hm1_0 : (0 <= m1)%Z).
  { apply Z.div_pos; [exact Hmx|apply Z.pow_pos_nonneg; lia]. }
  assert (Hm1_lt : (m1 < 2 ^ 53)%Z).
  { destruct (Z.eq_dec mx 0) as [->|Hne].
    - unfold m1. rewrite Z.div_0_l by (apply Z.pow_nonzero; lia). lia.
    - assert (Hpos : (0 < mx)%Z) by lia.
      destruct (Zdigits2_bounds Hpos) as [_ Hlt].
      assert (Hd : (Zdigits2 mx - 53 <= e1 - ex)%Z).
      { unfold e1, fexp, SpecFloat.emin, prec, emax. lia. }
      pose proof (Zdigits2_nonneg mx) as Hd0.
      apply Z.div_lt_upper_bound; [apply Z.pow_pos_nonneg; lia|].
      rewrite <- Z.pow_add_r by lia.
      assert (2 ^ Zdigits2 mx <= 2 ^ (e1 - ex + 53))%Z
        by (apply Z.pow_le_mono_r; lia).
      lia. }
  unfold binary_round_aux.
  destruct (shr_fexp prec emax mx ex lx) as [mrs' e'] eqn:Hshr.
  cbn [fst snd] in Hm1, He1. subst e'.
  set (m2 := round_nearest_even (shr_m mrs') (loc_of_shr_record mrs')).
  pose proof (round_nearest_even_bounds (shr_m mrs') (loc_of_shr_record mrs'))
    as Hm2. fold m2 in Hm2. rewrite Hm1 in Hm2.
  exists m2. split; [exact Hm2|]. split.
  { intros -> Heq. unfold m2.
    rewrite shr_fexp_id in Hshr by (fold e1; lia).
    inversion Hshr. reflexivity. }
  destruct (Z.eq_dec m2 0) as [Hz|Hnz].
  - left. split; [exact Hz|]. rewrite Hz.
    rewrite shr_fexp_id
      by (cbn [Zdigits2]; unfold fexp, SpecFloat.emin, prec, emax; lia).
    reflexivity.
  - right. destruct (Z.eq_dec m2 (2 ^ 53)) as [Hcarry|Hsmall].
    + rewrite Hcarry.
      assert (Hshift : shr_fexp prec emax (2 ^ 53) e1 loc_Exact
                       = ({| shr_m := 2 ^ 52; shr_r := false; shr_s := false |},
                          (e1 + 1)%Z)).
      { unfold shr_fexp, shr.
        replace (fexp prec emax (Zdigits2 (2 ^ 53) + e1) - e1)%Z with 1%Z
          by (change (Zdigits2 (2 ^ 53)) with 54%Z;
              unfold fexp, SpecFloat.emin, prec, emax; lia).
        reflexivity. }
      rewrite Hshift. cbn [shr_m].
      change (2 ^ 52)%Z with (Zpos 4503599627370496).
      replace (e1 + 1 <=? emax - prec)%Z with true
        by (symmetry; apply Z.leb_le; unfold emax, prec; lia).
      eexists. eexists. split; [reflexivity|].
      rewrite pow2_add.
      change (inject_Z (2 ^ 53)) with (inject_Z 4503599627370496 * 2 ^ 1)%Q.
      ring.
    + assert (Hlt : (0 < m2 < 2 ^ 53)%Z) by lia.
      rewrite shr_fexp_id.
      * cbn [shr_record_of_loc shr_m].
        destruct m2 as [|p|p]; try lia.
        replace (e1 <=? emax - prec)%Z with true
          by (symmetry; apply Z.leb_le; unfold emax, prec; lia).
        eexists. eexists. split; [reflexivity|]. reflexivity.
      * assert (Zdigits2 m2 <= 53)%Z by (apply Zdigits2_le; lia).
        unfold fexp, SpecFloat.emin, prec, emax. lia.
Qed.

Lemma inject_cond_Zopp (s : bool) (z : Z) :
  (inject_Z (cond_Zopp s z) == sign_factor s * inject_Z z)%Q.
Proof.
  destruct s; cbn [cond_Zopp sign_factor].
  - rewrite inject_Z_opp. ring.
  - ring.
Qed.

Lemma SF2Q_finite (s : bool) (m : positive) (e : Z) :
  (SF2Q (S754_finite s m e) == sign_factor s * (inject_Z (Zpos m) * 2 ^ e))%Q.
Proof. cbn [SF2Q]. rewrite inject_cond_Zopp. ring. Qed.

(** Truncating [k] low bits keeps the number between two neighbours at
    the higher exponent. *)
Lemma truncation_bracket (mx ex e1 : Z) (x : Q) :
  (0 <= mx)%Z -> (ex <= e1)%Z ->
  (inject_Z mx * 2 ^ ex <= x)%Q -> (x < inject_Z (mx + 1) * 2 ^ ex)%Q ->
  (inject_Z (mx / 2 ^ (e1 - ex)) * 2 ^ e1 <= x)%Q /\
  (x < inject_Z (mx / 2 ^ (e1 - ex) + 1) * 2 ^ e1)%Q.
Proof.
  intros Hmx He Hlo Hhi.
  set (k := (e1 - ex)%Z). set (P := (2 ^ k)%Z).
  assert (HP : (0 < P)%Z) by (apply Z.pow_pos_nonneg; lia).
  pose proof (Z.div_mod mx P ltac:(lia)) as Hdm.
  pose proof (Z.mod_pos_bound mx P HP) as Hr.
  set (m1 := (mx / P)%Z) in *.
  assert (He1 : (2 ^ e1 == inject_Z P * 2 ^ ex)%Q).
  { replace e1 with (k + ex)%Z by (unfold k; lia).
    rewrite pow2_add. unfold P. rewrite pow2_inject by (unfold k; lia).
    reflexivity. }
  pose proof (pow2_pos ex) as Hex.
  assert (H1 : (inject_Z (m1 * P) <= inject_Z mx)%Q) by (apply inject_Z_le; lia).
  assert (H2 : (inject_Z (mx + 1) <= inject_Z ((m1 + 1) * P))%Q)
    by (apply inject_Z_le; lia).
  rewrite inject_Z_mult in H1, H2.
  rewrite He1. split.
  - apply Qle_trans with (inject_Z mx * 2 ^ ex)%Q; [|exact Hlo].
    rewrite Qmult_assoc. apply Qmult_le_compat_r; [exact H1|].
    apply Qlt_le_weak, Hex.
  - apply Qlt_le_trans with (inject_Z (mx + 1) * 2 ^ ex)%Q; [exact Hhi|].
    rewrite Qmult_assoc. apply Qmult_le_compat_r; [exact H2|].
    apply Qlt_le_weak, Hex.
Qed.

(** The result of [binary_round_aux] for a number [x] that lies between
    [mx * 2^ex] and its successor: finite, of the given sign, and within
    the last place of [x]. *)
Lemma binary_round_aux_model (s : bool) (mx ex : Z) (lx : location) (x : Q) :
  (0 <= mx)%Z ->
  let e1 := fexp prec emax (Zdigits2 mx + ex) in
  (ex <= e1)%Z -> (e1 < 971)%Z ->
  (inject_Z mx * 2 ^ ex <= x)%Q -> (x < inject_Z (mx + 1) * 2 ^ ex)%Q ->
  let r := binary_round_aux prec emax s mx ex lx in
  SFfinite r = true /\
  exists v : Q,
    (SF2Q r == sign_factor s * v)%Q /\ (0 <= v)%Q /\
    (lx = loc_Exact -> e1 = ex -> x == inject_Z mx * 2 ^ ex -> v == x)%Q /\
    (e1 = (-1074)%Z -> x - tiny <= v <= x + tiny)%Q /\
    ((-1074 < e1)%Z -> x - ulp_1 * x <= v <= x + ulp_1 * x)%Q.
Proof.
  intros Hmx e1 Hn Hover Hlo Hhi r.
  destruct (@binary_round_aux_spec s mx ex lx Hmx Hn Hover)
    as (m2 & Hm2 & Hm2x & Hr).
  fold e1 in Hm2, Hm2x, Hr. fold r in Hr.
  destruct (@truncation_bracket mx ex e1 x Hmx Hn Hlo Hhi) as [Hb1 Hb2].
  set (m1 := (mx / 2 ^ (e1 - ex))%Z) in *.
  assert (Hm1_0 : (0 <= m1)%Z).
  { apply Z.div_pos; [exact Hmx|apply Z.pow_pos_nonneg; lia]. }
  pose proof (pow2_pos e1) as He1.
  set (P := (2 ^ e1)%Q) in *.
  assert (Hv1 : (inject_Z m1 * P <= inject_Z m2 * P)%Q).
  { apply Qmult_le_compat_r; [apply inject_Z_le; lia|apply Qlt_le_weak, He1]. }
  assert (Hv2 : (inject_Z m2 * P <= inject_Z (m1 + 1) * P)%Q).
  { apply Qmult_le_compat_r; [apply inject_Z_le; lia|apply Qlt_le_weak, He1]. }
  assert (Hv0 : (0 <= inject_Z m2 * P)%Q).
  { apply Qmult_le_0_compat; [|apply Qlt_le_weak, He1].
    change 0%Q with (inject_Z 0). apply inject_Z_le. lia. }
  rewrite inject_Z_plus in Hb2, Hv2. change (inject_Z 1) with 1%Q in Hb2, Hv2.
  assert (Hval : (SF2Q r == sign_factor s * (inject_Z m2 * P))%Q /\
                 SFfinite r = true).
  { destruct Hr as [[Hz Hr]|(m & e & Hr & Hme)]; rewrite Hr.
    - rewrite Hz. cbn [SF2Q SFfinite]. split; [|reflexivity].
      change (inject_Z 0) with 0%Q. ring.
    - split; [|reflexivity]. rewrite SF2Q_finite, Hme. reflexivity. }
  destruct Hval as [Hval Hfin].
  split; [exact Hfin|].
  exists (inject_Z m2 * P)%Q. split; [exact Hval|]. split; [exact Hv0|].
  split; [|split].
  - intros Hl He Hexact. rewrite (Hm2x Hl He), Hexact. unfold P. rewrite He.
    reflexivity.
  - intros He. unfold tiny. fold P in He1. unfold P in *. rewrite He in *.
    split; lra.
  - intros He.
    assert (Hd : (e1 = Zdigits2 mx + ex - 53)%Z).
    { unfold e1, fexp, SpecFloat.emin, prec, emax in *. lia. }
    assert (Hpos : (0 < mx)%Z).
    { destruct (Z.eq_dec mx 0) as [E|E]; [|lia].
      rewrite E in Hd. cbn [Zdigits2] in Hd. lia. }
    destruct (Zdigits2_bounds Hpos) as [Hdl _].
    assert (Hm1 : (2 ^ 52 <= m1)%Z).
    { unfold m1. apply Z.div_le_lower_bound; [apply Z.pow_pos_nonneg; lia|].
      rewrite <- Z.pow_add_r by lia.
      replace (e1 - ex + 52)%Z with (Zdigits2 mx - 1)%Z by lia. exact Hdl. }
    assert (Hq : (inject_Z (2 ^ 52) * P <= inject_Z m1 * P)%Q).
    { apply Qmult_le_compat_r; [apply inject_Z_le; exact Hm1|].
      apply Qlt_le_weak, He1. }
    assert (Hu : (P <= ulp_1 * x)%Q).
    { assert (Hu1 : (ulp_1 * (inject_Z (2 ^ 52) * P) == P)%Q).
      { unfold ulp_1.
        change (2 ^ (-52) * (inject_Z (2 ^ 52) * P))%Q
          with ((1 # 4503599627370496) * ((4503599627370496 # 1) * P))%Q.
        field. }
      rewrite <- Hu1 at 1.
      apply Qmult_le_l; [reflexivity|]. lra. }
    split; lra.
Qed.

Lemma Zdigits2_shift (m k : Z) :
  (0 < m)%Z -> (0 <= k)%Z -> Zdigits2 (m * 2 ^ k) = (Zdigits2 m + k)%Z.
Proof.
  intros Hm Hk. destruct (Zdigits2_bounds Hm) as [Hlo Hhi].
  pose proof (Zdigits2_nonneg m) as Hd.
  assert (Hd1 : (1 <= Zdigits2 m)%Z).
  { destruct m; try lia. cbn. lia. }
  assert (HP : (0 < 2 ^ k)%Z) by (apply Z.pow_pos_nonneg; lia).
  apply Z.le_antisymm.
  - apply Zdigits2_le; [lia|]. rewrite Z.pow_add_r by lia. nia.
  - replace (Zdigits2 m + k)%Z with ((Zdigits2 m - 1 + k) + 1)%Z by lia.
    apply Zdigits2_ge; [lia|]. rewrite Z.pow_add_r by lia. nia.
Qed.

(** A positive number below [2^B] has its digits and exponent add up to
    at most [B]. *)
Lemma digits_exponent_bound (m e B : Z) :
  (0 < m)%Z -> (inject_Z m * 2 ^ e < 2 ^ B)%Q -> (Zdigits2 m + e <= B)%Z.
Proof.
  intros Hm Hlt. destruct (Zdigits2_bounds Hm) as [Hlo _].
  assert (Hd1 : (1 <= Zdigits2 m)%Z).
  { destruct m; try lia. cbn. lia. }
  assert (H : (2 ^ (Zdigits2 m - 1 + e) < 2 ^ B)%Q).
  { apply Qle_lt_trans with (inject_Z m * 2 ^ e)%Q; [|exact Hlt].
    rewrite pow2_add, <- pow2_inject by lia.
    apply Qmult_le_compat_r; [apply inject_Z_le, Hlo|].
    apply Qlt_le_weak, pow2_pos. }
  apply pow2_lt_inv in H. lia.
Qed.

(** [binary_round]: the rounding of a sum.  The result is within the
    relative distance [2^-52] of [m * 2^e]; nothing is lost at the
    smallest exponent. *)
Lemma binary_round_model (s : bool) (m : positive) (e : Z) :
  (-1074 <= e)%Z -> (Zdigits2 (Zpos m) + e <= 1000)%Z ->
  let x := (inject_Z (Zpos m) * 2 ^ e)%Q in
  let r := binary_round prec emax s m e in
  SFfinite r = true /\
  exists v : Q,
    (SF2Q r == sign_factor s * v)%Q /\
    (x - ulp_1 * x <= v <= x + ulp_1 * x)%Q.
Proof.
  intros He Hbound x r.
  assert (Hx : (0 < x)%Q).
  { unfold x. apply Qmult_lt_0_compat; [|apply pow2_pos].
    change 0%Q with (inject_Z 0). apply inject_Z_lt. lia. }
  assert (Hu : (0 <= ulp_1 * x)%Q).
  { apply Qmult_le_0_compat; [discriminate|lra]. }
  unfold r, binary_round.
  set (d := Zdigits2 (Zpos m)) in *.
  change (Zpos (digits2_pos m)) with d.
  set (e1 := fexp prec emax (d + e)).
  assert (He1 : (-1074 <= e1 < 971)%Z).
  { unfold e1, fexp, SpecFloat.emin, prec, emax. lia. }
  destruct (Z_lt_le_dec e1 e) as [Hshl|Hshr].
  - (* aligned to the left: exact *)
    destruct (@shl_align_spec m e e1 ltac:(lia)) as [Hez Hmz].
    destruct (shl_align m e e1) as [mz ez]. cbn [fst snd] in Hez, Hmz. subst ez.
    assert (Hdz : Zdigits2 (Zpos mz) = (d + (e - e1))%Z).
    { rewrite Hmz. apply Zdigits2_shift; lia. }
    assert (Hxz : (x == inject_Z (Zpos mz) * 2 ^ e1)%Q).
    { unfold x. rewrite Hmz, inject_Z_mult, pow2_inject by lia.
      rewrite <- Qmult_assoc, <- pow2_add. replace (e - e1 + e1)%Z with e by lia.
      reflexivity. }
    destruct (@binary_round_aux_model s (Zpos mz) e1 loc_Exact x)
      as (Hfin & v & Hv & _ & Hex & _); try lia.
    + rewrite Hdz. replace (d + (e - e1) + e1)%Z with (d + e)%Z by lia.
      fold e1. lia.
    + rewrite Hdz. replace (d + (e - e1) + e1)%Z with (d + e)%Z by lia.
      fold e1. lia.
    + rewrite Hxz. apply Qle_refl.
    + rewrite Hxz, inject_Z_plus.
      pose proof (pow2_pos e1). change (inject_Z 1) with 1%Q. lra.
    + split; [exact Hfin|]. exists v. split; [exact Hv|].
      rewrite Hex; [lra|reflexivity| |exact Hxz].
      rewrite Hdz. replace (d + (e - e1) + e1)%Z with (d + e)%Z by lia.
      reflexivity.
  - (* rounded: above the smallest exponent, or untouched *)
    assert (Hal : shl_align m e e1 = (m, e)).
    { unfold shl_align. destruct (e1 - e)%Z eqn:E; try reflexivity. lia. }
    rewrite Hal.
    destruct (@binary_round_aux_model s (Zpos m) e loc_Exact x)
      as (Hfin & v & Hv & _ & Hex & _ & Hrel); try lia.
    + fold d e1. lia.
    + fold d e1. lia.
    + apply Qle_refl.
    + unfold x. rewrite inject_Z_plus.
      pose proof (pow2_pos e). change (inject_Z 1) with 1%Q. lra.
    + fold d e1 in Hex, Hrel.
      split; [exact Hfin|]. exists v. split; [exact Hv|].
      destruct (Z.eq_dec e1 e) as [Heq|Hne].
      * rewrite Hex; [lra|reflexivity|exact Heq|reflexivity].
      * apply Hrel. lia.
Qed.

(** Errors of signed values from errors of their magnitudes. *)
Lemma signed_error (s : bool) (r v X Xs t : Q) :
  (r == sign_factor s * v)%Q -> (Xs == sign_factor s * X)%Q -> (0 <= X)%Q ->
  (X - t <= v <= X + t)%Q ->
  (Qabs (r - Xs) <= t)%Q /\ (Qabs Xs == X)%Q.
Proof.
  intros Hr HX H0 Hv. split.
  - apply Qabs_Qle_condition. rewrite Hr, HX.
    destruct s; cbn [sign_factor]; split; lra.
  - rewrite HX. destruct s; cbn [sign_factor].
    + rewrite Qabs_neg by lra. ring.
    + rewrite Qabs_pos by lra. ring.
Qed.

Lemma SF2Q_shl_align (s : bool) (m : positive) (e e' : Z) :
  (e' <= e)%Z ->
  (SF2Q (S754_finite s m e)
   == inject_Z (cond_Zopp s (Zpos (fst (shl_align m e e')))) * 2 ^ e')%Q.
Proof.
  intros He. destruct (@shl_align_spec m e e' He) as [_ Hm].
  rewrite SF2Q_finite, inject_cond_Zopp, Hm, inject_Z_mult, pow2_inject by lia.
  rewrite <- !Qmult_assoc, <- pow2_add. replace (e - e' + e')%Z with e by lia.
  reflexivity.
Qed.

(** [binary_normalize]: the rounding of a signed sum. *)
Lemma binary_normalize_model (z e : Z) (X : Q) :
  (-1074 <= e)%Z -> (X == inject_Z z * 2 ^ e)%Q -> (Qabs X < 2 ^ 1000)%Q ->
  let r := binary_normalize prec emax z e false in
  SFfinite r = true /\ (Qabs (SF2Q r - X) <= ulp_1 * Qabs X)%Q.
Proof.
  intros He HX Hbound r. unfold r.
  destruct z as [|p|p]; cbn [binary_normalize].
  - split; [reflexivity|]. cbn [SF2Q].
    assert (H0 : (X == 0)%Q) by (rewrite HX; change (inject_Z 0) with 0%Q; ring).
    rewrite H0. discriminate.
  - assert (Hpos : (0 < inject_Z (Zpos p) * 2 ^ e)%Q).
    { apply Qmult_lt_0_compat; [reflexivity|apply pow2_pos]. }
    assert (Hd : (Zdigits2 (Zpos p) + e <= 1000)%Z).
    { apply digits_exponent_bound; [lia|].
      rewrite HX, Qabs_pos in Hbound by lra. exact Hbound. }
    destruct (@binary_round_model false p e He Hd) as (Hfin & v & Hv & Hb).
    split; [exact Hfin|].
    destruct (@signed_error false _ v (inject_Z (Zpos p) * 2 ^ e) X
                (ulp_1 * (inject_Z (Zpos p) * 2 ^ e)) Hv) as [H1 H2].
    + rewrite HX. cbn [sign_factor]. ring.
    + lra.
    + exact Hb.
    + rewrite H2. exact H1.
  - assert (Hpos : (0 < inject_Z (Zpos p) * 2 ^ e)%Q).
    { apply Qmult_lt_0_compat; [reflexivity|apply pow2_pos]. }
    assert (HX' : (X == - (inject_Z (Zpos p) * 2 ^ e))%Q).
    { rewrite HX. change (Zneg p) with (- Zpos p)%Z. rewrite inject_Z_opp. ring. }
    assert (Hd : (Zdigits2 (Zpos p) + e <= 1000)%Z).
    { apply digits_exponent_bound; [lia|].
      rewrite HX', Qabs_neg in Hbound by lra.
      setoid_replace (- - (inject_Z (Zpos p) * 2 ^ e))%Q
        with (inject_Z (Zpos p) * 2 ^ e)%Q in Hbound by ring.
      exact Hbound. }
    destruct (@binary_round_model true p e He Hd) as (Hfin & v & Hv & Hb).
    split; [exact Hfin|].
    destruct (@signed_error true _ v (inject_Z (Zpos p) * 2 ^ e) X
                (ulp_1 * (inject_Z (Zpos p) * 2 ^ e)) Hv) as [H1 H2].
    + rewrite HX'. cbn [sign_factor]. ring.
    + lra.
    + exact Hb.
    + rewrite H2. exact H1.
Qed.

Lemma SFadd_model (x y : spec_float) :
  valid_binary x = true -> valid_binary y = true ->
  SFfinite x = true -> SFfinite y = true ->
  (Qabs (SF2Q x + SF2Q y) < 2 ^ 1000)%Q ->
  SFfinite (SF64add x y) = true /\
  (Qabs (SF2Q (SF64add x y) - (SF2Q x + SF2Q y))
   <= ulp_1 * Qabs (SF2Q x + SF2Q y))%Q.
Proof.
  intros Vx Vy Fx Fy Hbound.
  assert (Hexact : forall r : spec_float,
            SFfinite r = true -> (SF2Q r == SF2Q x + SF2Q y)%Q ->
            SFfinite r = true /\
            (Qabs (SF2Q r - (SF2Q x + SF2Q y))
             <= ulp_1 * Qabs (SF2Q x + SF2Q y))%Q).
  { intros r Hr Heq. split; [exact Hr|]. rewrite Heq.
    setoid_replace (SF2Q x + SF2Q y - (SF2Q x + SF2Q y))%Q with 0%Q by ring.
    apply Qmult_le_0_compat; [discriminate|apply Qabs_nonneg]. }
  destruct x as [sx|sx| |sx mx ex], y as [sy|sy| |sy my ey];
    try discriminate Fx; try discriminate Fy.
  - apply Hexact; [destruct sx, sy; reflexivity|].
    destruct sx, sy; cbn; reflexivity.
  - apply Hexact; [reflexivity|]. cbn [SF64add SFadd]. cbn [SF2Q]. ring.
  - apply Hexact; [reflexivity|]. cbn [SF64add SFadd]. cbn [SF2Q]. ring.
  - apply valid_finite_bounds in Vx, Vy.
    unfold SF64add, SFadd.
    apply binary_normalize_model; [lia| |exact Hbound].
    rewrite inject_Z_plus, Qmult_plus_distr_l.
    rewrite <- (@SF2Q_shl_align sx mx ex (Z.min ex ey)) by lia.
    rewrite <- (@SF2Q_shl_align sy my ey (Z.min ex ey)) by lia.
    reflexivity.
Qed.

Lemma SFsub_add_opp (x y : spec_float) :
  SF64sub x y = SF64add x (SFopp y).
Proof.
  destruct x as [sx|sx| |sx mx ex], y as [sy|sy| |sy my ey];
    try reflexivity;
    destruct sx, sy; reflexivity.
Qed.

Lemma SF2Q_opp (y : spec_float) : (SF2Q (SFopp y) == - SF2Q y)%Q.
Proof.
  destruct y as [s|s| |s m e]; cbn [SFopp SF2Q]; try reflexivity.
  rewrite !inject_cond_Zopp. destruct s; cbn [negb sign_factor]; ring.
Qed.

Lemma SFsub_model (x y : spec_float) :
  valid_binary x = true -> valid_binary y = true ->
  SFfinite x = true -> SFfinite y = true ->
  (Qabs (SF2Q x - SF2Q y) < 2 ^ 1000)%Q ->
  SFfinite (SF64sub x y) = true /\
  (Qabs (SF2Q (SF64sub x y) - (SF2Q x - SF2Q y))
   <= ulp_1 * Qabs (SF2Q x - SF2Q y))%Q.
Proof.
  intros Vx Vy Fx Fy Hbound. rewrite SFsub_add_opp.
  assert (Heq : (SF2Q x - SF2Q y == SF2Q x + SF2Q (SFopp y))%Q).
  { rewrite SF2Q_opp. ring. }
  rewrite Heq in *.
  apply SFadd_model; try assumption.
  - destruct y; exact Vy.
  - destruct y; exact Fy.
Qed.

Lemma sign_factor_xorb (a b : bool) :
  (sign_factor (xorb a b) == sign_factor a * sign_factor b)%Q.
Proof. destruct a, b; reflexivity. Qed.

(** The two cases of [binary_round_aux_model] in one bound. *)
Lemma binary_round_aux_error (s : bool) (mx ex : Z) (lx : location) (x Xs : Q) :
  (0 <= mx)%Z ->
  (ex <= fexp prec emax (Zdigits2 mx + ex))%Z ->
  (Zdigits2 mx + ex <= 1000)%Z ->
  (inject_Z mx * 2 ^ ex <= x)%Q -> (x < inject_Z (mx + 1) * 2 ^ ex)%Q ->
  (Xs == sign_factor s * x)%Q ->
  let r := binary_round_aux prec emax s mx ex lx in
  SFfinite r = true /\
  (Qabs (SF2Q r - Xs) <= ulp_1 * Qabs Xs + tiny)%Q.
Proof.
  intros Hmx Hn Hd Hlo Hhi HXs r.
  set (e1 := fexp prec emax (Zdigits2 mx + ex)) in *.
  assert (He1 : (-1074 <= e1 < 971)%Z).
  { unfold e1, fexp, SpecFloat.emin, prec, emax. lia. }
  destruct (@binary_round_aux_model s mx ex lx x Hmx Hn (proj2 He1) Hlo Hhi)
    as (Hfin & v & Hv & Hv0 & _ & Hsub & Hnorm).
  fold e1 in Hsub, Hnorm. fold r in Hfin, Hv.
  split; [exact Hfin|].
  assert (Hx0 : (0 <= x)%Q).
  { apply Qle_trans with (inject_Z mx * 2 ^ ex)%Q; [|exact Hlo].
    apply Qmult_le_0_compat; [|apply Qlt_le_weak, pow2_pos].
    change 0%Q with (inject_Z 0). apply inject_Z_le, Hmx. }
  assert (Hux : (0 <= ulp_1 * x)%Q)
    by (apply Qmult_le_0_compat; [discriminate|exact Hx0]).
  assert (Ht : (0 < tiny)%Q) by reflexivity.
  destruct (@signed_error s (SF2Q r) v x Xs (ulp_1 * x + tiny) Hv HXs Hx0)
    as [H1 H2].
  - destruct (Z.eq_dec e1 (-1074)) as [E|E].
    + specialize (Hsub E). lra.
    + specialize (Hnorm ltac:(lia)). lra.
  - rewrite H2. exact H1.
Qed.

Lemma SFmul_model (x y : spec_float) :
  valid_binary x = true -> valid_binary y = true ->
  SFfinite x = true -> SFfinite y = true ->
  (Qabs (SF2Q x * SF2Q y) < 2 ^ 1000)%Q ->
  SFfinite (SF64mul x y) = true /\
  (Qabs (SF2Q (SF64mul x y) - SF2Q x * SF2Q y)
   <= ulp_1 * Qabs (SF2Q x * SF2Q y) + tiny)%Q.
Proof.
  intros Vx Vy Fx Fy Hbound.
  assert (Hzero : forall r : spec_float,
            SFfinite r = true -> (SF2Q r == 0)%Q -> (SF2Q x * SF2Q y == 0)%Q ->
            SFfinite r = true /\
            (Qabs (SF2Q r - SF2Q x * SF2Q y)
             <= ulp_1 * Qabs (SF2Q x * SF2Q y) + tiny)%Q).
  { intros r Hr Heq H0. split; [exact Hr|]. rewrite Heq, H0. discriminate. }
  destruct x as [sx|sx| |sx mx ex], y as [sy|sy| |sy my ey];
    try discriminate Fx; try discriminate Fy;
    try (apply Hzero; [reflexivity|reflexivity|cbn [SF2Q]; ring]).
  pose proof (@valid_mantissa_lt _ _ _ Vx) as Hmx.
  pose proof (@valid_mantissa_lt _ _ _ Vy) as Hmy.
  apply valid_finite_bounds in Vx, Vy.
  change (Zpos (digits2_pos mx)) with (Zdigits2 (Zpos mx)) in Vx.
  change (Zpos (digits2_pos my)) with (Zdigits2 (Zpos my)) in Vy.
  destruct (@Zdigits2_bounds (Zpos mx) ltac:(lia)) as [Hdx _].
  destruct (@Zdigits2_bounds (Zpos my) ltac:(lia)) as [Hdy _].
  unfold SF64mul, SFmul.
  set (X := (inject_Z (Zpos (mx * my)) * 2 ^ (ex + ey))%Q).
  assert (HX : (SF2Q (S754_finite sx mx ex) * SF2Q (S754_finite sy my ey)
                == sign_factor (xorb sx sy) * X)%Q).
  { rewrite !SF2Q_finite, sign_factor_xorb. unfold X.
    rewrite Pos2Z.inj_mul, inject_Z_mult, pow2_add. ring. }
  assert (HXpos : (0 < X)%Q).
  { unfold X. apply Qmult_lt_0_compat; [reflexivity|apply pow2_pos]. }
  assert (Hd : (Zdigits2 (Zpos (mx * my)) + (ex + ey) <= 1000)%Z).
  { apply digits_exponent_bound; [lia|]. fold X.
    rewrite HX in Hbound.
    destruct (xorb sx sy); cbn [sign_factor] in Hbound.
    - rewrite Qabs_neg in Hbound by lra. lra.
    - rewrite Qabs_pos in Hbound by lra. lra. }
  apply binary_round_aux_error with (x := X); try assumption.
  - lia.
  - assert (Hdd : ((ex = -1074 /\ ey = -1074) \/
                   53 <= Zdigits2 (Zpos (mx * my)))%Z).
    { destruct Vx as (_ & _ & [Ex|Dx]); destruct Vy as (_ & _ & [Ey|Dy]).
      - left. lia.
      - right. apply (@Zdigits2_ge _ 52); [lia|].
        rewrite Dy in Hdy. rewrite Pos2Z.inj_mul.
        change (53 - 1)%Z with 52%Z in Hdy. nia.
      - right. apply (@Zdigits2_ge _ 52); [lia|].
        rewrite Dx in Hdx. rewrite Pos2Z.inj_mul.
        change (53 - 1)%Z with 52%Z in Hdx. nia.
      - right. apply (@Zdigits2_ge _ 52); [lia|].
        rewrite Dx in Hdx. rewrite Pos2Z.inj_mul.
        change (53 - 1)%Z with 52%Z in Hdx. nia. }
    unfold fexp, SpecFloat.emin, prec, emax. lia.
  - apply Qle_refl.
  - unfold X. rewrite inject_Z_plus. change (inject_Z 1) with 1%Q.
    pose proof (pow2_pos (ex + ey)). lra.
Qed.

Lemma shiftl_cases (m s : Z) :
  (0 <= s)%Z ->
  match s with
  | Zpos _ => Z.shiftl m s
  | 0%Z => m
  | Zneg _ => 0%Z
  end = (m * 2 ^ s)%Z.
Proof.
  intros Hs. destruct s as [|p|p]; try lia.
  apply Z.shiftl_mul_pow2. lia.
Qed.

(** The quotient computed by [SFdiv_core_binary]: a mantissa that is
    not shifted to the left by the rounding, with the true quotient
    between it and its successor. *)
Lemma SFdiv_core_binary_spec (mx my : positive) (ex ey : Z) :
  (Zdigits2 (Zpos mx) <= 53)%Z ->
  let X := ((inject_Z (Zpos mx) * 2 ^ ex) / (inject_Z (Zpos my) * 2 ^ ey))%Q in
  exists (q e' : Z) (l : location),
    SFdiv_core_binary prec emax (Zpos mx) ex (Zpos my) ey = (q, e', l) /\
    (0 <= q)%Z /\
    (e' <= fexp prec emax (Zdigits2 q + e'))%Z /\
    (inject_Z q * 2 ^ e' <= X)%Q /\ (X < inject_Z (q + 1) * 2 ^ e')%Q.
Proof.
  intros Hdx53 X. unfold SFdiv_core_binary.
  set (d1 := Zdigits2 (Zpos mx)) in *. set (d2 := Zdigits2 (Zpos my)).
  set (E := (d1 + ex - (d2 + ey))%Z).
  set (e' := Z.min (fexp prec emax E) (ex - ey)).
  set (s := (ex - ey - e')%Z).
  assert (Hs : (0 <= s)%Z) by (unfold s, e'; lia).
  set (m' := match s with
             | Zpos _ => Z.shiftl (Zpos mx) s
             | 0%Z => Zpos mx
             | Zneg _ => 0%Z
             end).
  assert (Hm' : m' = (Zpos mx * 2 ^ s)%Z) by (apply shiftl_cases, Hs).
  clearbody m'.
  pose proof (Z.div_eucl_eq m' (Zpos my) ltac:(lia)) as Heq.
  pose proof (Z.mod_pos_bound m' (Zpos my) ltac:(lia)) as Hr.
  unfold Z.modulo in Hr.
  destruct (Z.div_eucl m' (Zpos my)) as [q r] eqn:Hqr.
  assert (HP : (0 < 2 ^ s)%Z) by (apply Z.pow_pos_nonneg; lia).
  assert (Hq0 : (0 <= q)%Z) by nia.
  exists q, e', (new_location (Zpos my) r).
  split; [reflexivity|]. split; [exact Hq0|].
  destruct (@Zdigits2_bounds (Zpos mx) ltac:(lia)) as [Hd1 _].
  destruct (@Zdigits2_bounds (Zpos my) ltac:(lia)) as [_ Hd2].
  fold d1 in Hd1. fold d2 in Hd2.
  assert (Hd1' : (1 <= d1)%Z) by (unfold d1; cbn; lia).
  assert (Hd2' : (1 <= d2)%Z) by (unfold d2; cbn; lia).
  split; [|].
  - (* the rounding does not shift to the left *)
    destruct (Z_le_gt_dec e' (-1074)) as [Hsub|Hnorm].
    + unfold fexp, SpecFloat.emin, prec, emax. lia.
    + assert (He' : (e' <= E - 53)%Z).
      { unfold e', fexp, SpecFloat.emin, prec, emax in *. lia. }
      assert (Hs53 : (53 - d1 + d2 <= s)%Z) by (unfold s, E in *; lia).
      assert (Hq52 : (2 ^ 52 <= q)%Z).
      { assert (Hpw : (2 ^ (52 + d2) <= Zpos mx * 2 ^ s)%Z).
        { replace (52 + d2)%Z with ((d1 - 1) + (53 - d1 + d2))%Z by lia.
          rewrite Z.pow_add_r by lia.
          assert (2 ^ (53 - d1 + d2) <= 2 ^ s)%Z by (apply Z.pow_le_mono_r; lia).
          assert (0 < 2 ^ (53 - d1 + d2))%Z by (apply Z.pow_pos_nonneg; lia).
          nia. }
        rewrite Z.pow_add_r in Hpw by lia.
        assert (0 < 2 ^ 52)%Z by lia.
        assert (Hlt : (2 ^ 52 * Zpos my < Zpos my * (q + 1))%Z) by nia.
        nia. }
      assert (53 <= Zdigits2 q)%Z by (apply (@Zdigits2_ge q 52); lia).
      unfold fexp, SpecFloat.emin, prec, emax. lia.
  - (* the true quotient lies between [q] and [q + 1] *)
    assert (HX : (X == (inject_Z m' / inject_Z (Zpos my)) * 2 ^ e')%Q).
    { unfold X. rewrite Hm', inject_Z_mult, pow2_inject by lia.
      replace ex with (s + e' + ey)%Z at 1 by (unfold s; lia).
      rewrite !pow2_add. field.
      pose proof (pow2_pos ey). split; [discriminate|lra]. }
    assert (Hmy : (0 < inject_Z (Zpos my))%Q) by reflexivity.
    pose proof (pow2_pos e') as He'.
    assert (Hm'q : (inject_Z m' == inject_Z (Zpos my) * inject_Z q + inject_Z r)%Q).
    { rewrite <- inject_Z_mult, <- inject_Z_plus, Heq. reflexivity. }
    assert (Hr0 : (0 <= inject_Z r)%Q)
      by (change 0%Q with (inject_Z 0); apply inject_Z_le; lia).
    assert (Hr1 : (inject_Z r < inject_Z (Zpos my))%Q)
      by (apply inject_Z_lt; lia).
    assert (Hquot : (inject_Z q <= inject_Z m' / inject_Z (Zpos my))%Q /\
                    (inject_Z m' / inject_Z (Zpos my) < inject_Z q + 1)%Q).
    { split.
      - apply Qle_shift_div_l; [exact Hmy|]. rewrite Hm'q. lra.
      - apply Qlt_shift_div_r; [exact Hmy|]. rewrite Hm'q. lra. }
    rewrite HX, inject_Z_plus. change (inject_Z 1) with 1%Q. split.
    + apply Qmult_le_compat_r; [apply Hquot|lra].
    + apply Qmult_lt_compat_r; [exact He'|apply Hquot].
Qed.

Lemma SFdiv_model (x y : spec_float) :
  valid_binary x = true -> valid_binary y = true ->
  SFfinite x = true -> SFfinite y = true -> ~ (SF2Q y == 0)%Q ->
  (Qabs (SF2Q x / SF2Q y) < 2 ^ 1000)%Q ->
  SFfinite (SF64div x y) = true /\
  (Qabs (SF2Q (SF64div x y) - SF2Q x / SF2Q y)
   <= ulp_1 * Qabs (SF2Q x / SF2Q y) + tiny)%Q.
Proof.
  intros Vx Vy Fx Fy Hy Hbound.
  destruct y as [sy|sy| |sy my ey]; try discriminate Fy.
  { exfalso. apply Hy. reflexivity. }
  destruct x as [sx|sx| |sx mx ex]; try discriminate Fx.
  { split; [reflexivity|]. cbn [SF64div SFdiv SF2Q].
    setoid_replace (0 / (inject_Z (cond_Zopp sy (Zpos my)) * 2 ^ ey))%Q
      with 0%Q by (unfold Qdiv; ring).
    discriminate. }
  apply valid_finite_bounds in Vx.
  change (Zpos (digits2_pos mx)) with (Zdigits2 (Zpos mx)) in Vx.
  destruct (@SFdiv_core_binary_spec mx my ex ey ltac:(lia))
    as (q & e' & l & Hcore & Hq0 & Hn & Hlo & Hhi).
  unfold SF64div, SFdiv. rewrite Hcore.
  set (X := ((inject_Z (Zpos mx) * 2 ^ ex) / (inject_Z (Zpos my) * 2 ^ ey))%Q) in *.
  assert (Hden : (0 < inject_Z (Zpos my) * 2 ^ ey)%Q).
  { apply Qmult_lt_0_compat; [reflexivity|apply pow2_pos]. }
  assert (HX : (SF2Q (S754_finite sx mx ex) / SF2Q (S754_finite sy my ey)
                == sign_factor (xorb sx sy) * X)%Q).
  { rewrite !SF2Q_finite, sign_factor_xorb. unfold X.
    pose proof (pow2_pos ey).
    destruct sx, sy; cbn [sign_factor]; field; (split; [lra|discriminate]). }
  assert (HX0 : (0 <= X)%Q).
  { apply Qle_trans with (inject_Z q * 2 ^ e')%Q; [|exact Hlo].
    apply Qmult_le_0_compat; [|apply Qlt_le_weak, pow2_pos].
    change 0%Q with (inject_Z 0). apply inject_Z_le, Hq0. }
  assert (HXb : (X < 2 ^ 1000)%Q).
  { rewrite HX in Hbound.
    destruct (xorb sx sy); cbn [sign_factor] in Hbound.
    - rewrite Qabs_neg in Hbound by lra. lra.
    - rewrite Qabs_pos in Hbound by lra. lra. }
  apply binary_round_aux_error with (x := X); try assumption.
  destruct (Z.eq_dec q 0) as [->|Hq].
  - cbn [Zdigits2] in *. unfold fexp, SpecFloat.emin, prec, emax in Hn. lia.
  - apply digits_exponent_bound; [lia|]. lra.
Qed.

(* ===================================================================== *)
(** * Binary64 numbers and their rational values                          *)
(* ===================================================================== *)

Lemma is_finite_SFfinite (x : float) : is_finite x = SFfinite (Prim2SF x).
Proof.
  unfold is_finite, is_nan, is_infinity.
  rewrite !FloatAxioms.eqb_spec, abs_spec.
  change (Prim2SF infinity) with (S754_infinity false).
  unfold SFeqb.
  destruct (Prim2SF x) as [s|s| |s m e]; cbn [SFabs SFcompare SFfinite];
    try reflexivity; try (destruct s; reflexivity).
  destruct s; rewrite Z.compare_refl, ?Pos.compare_cont_refl; reflexivity.
Qed.

Lemma SF2Q_num (x : spec_float) :
  valid_binary x = true ->
  (SF2Q x == inject_Z (SFnum x) * tiny)%Q.
Proof.
  intros Hv. destruct x as [s|s| |s m e]; cbn [SF2Q SFnum];
    try (change (inject_Z 0) with 0%Q; ring).
  apply valid_finite_bounds in Hv.
  rewrite !inject_cond_Zopp, inject_Z_mult, pow2_inject by lia.
  unfold tiny. rewrite <- !Qmult_assoc, <- pow2_add.
  replace (e + 1074 + -1074)%Z with e by lia. reflexivity.
Qed.

(** A number at a higher exponent is the larger one. *)
Lemma higher_exponent (s1 s2 : bool) (m1 m2 : positive) (e1 e2 : Z) :
  valid_binary (S754_finite s1 m1 e1) = true ->
  valid_binary (S754_finite s2 m2 e2) = true ->
  (e1 < e2)%Z ->
  (Zpos m1 * 2 ^ (e1 + 1074) < Zpos m2 * 2 ^ (e2 + 1074))%Z.
Proof.
  intros V1 V2 He.
  pose proof (@valid_mantissa_lt _ _ _ V1) as Hm1.
  apply valid_finite_bounds in V1, V2.
  pose proof (digits2_pos_le m2) as Hd2.
  assert (Hd : Zpos (digits2_pos m2) = 53%Z) by lia.
  rewrite Hd in Hd2.
  replace (e2 + 1074)%Z with ((e1 + 1074) + (e2 - e1))%Z by lia.
  rewrite (Z.pow_add_r 2 (e1 + 1074) (e2 - e1)) by lia.
  assert (HP : (0 < 2 ^ (e1 + 1074))%Z) by (apply Z.pow_pos_nonneg; lia).
  assert (HQ : (2 ^ 1 <= 2 ^ (e2 - e1))%Z) by (apply Z.pow_le_mono_r; lia).
  set (P := (2 ^ (e1 + 1074))%Z) in *. set (R := (2 ^ (e2 - e1))%Z) in *.
  change (2 ^ 1)%Z with 2%Z in HQ.
  assert (H1 : (Zpos m1 * P < 2 ^ 53 * P)%Z)
    by (apply Z.mul_lt_mono_pos_r; assumption).
  assert (H2 : (2 ^ 53 * P <= 2 * Zpos m2 * P)%Z)
    by (apply Z.mul_le_mono_nonneg_r; lia).
  assert (H3 : (Zpos m2 * P * 2 <= Zpos m2 * P * R)%Z)
    by (apply Z.mul_le_mono_nonneg_l; lia).
  lia.
Qed.

Lemma SFcompare_num (x y : spec_float) :
  valid_binary x = true -> valid_binary y = true ->
  SFfinite x = true -> SFfinite y = true ->
  SFcompare x y = Some (SFnum x ?= SFnum y)%Z.
Proof.
  intros Vx Vy Fx Fy.
  destruct x as [sx|sx| |sx mx ex], y as [sy|sy| |sy my ey];
    try discriminate Fx; try discriminate Fy; cbn [SFcompare SFnum].
  - reflexivity.
  - assert (0 < Zpos my * 2 ^ (ey + 1074))%Z.
    { apply valid_finite_bounds in Vy.
      apply Z.mul_pos_pos; [lia|apply Z.pow_pos_nonneg; lia]. }
    f_equal. symmetry.
    destruct sy; cbn [cond_Zopp];
      [apply Z.compare_gt_iff|apply Z.compare_lt_iff]; lia.
  - assert (0 < Zpos mx * 2 ^ (ex + 1074))%Z.
    { apply valid_finite_bounds in Vx.
      apply Z.mul_pos_pos; [lia|apply Z.pow_pos_nonneg; lia]. }
    f_equal. symmetry.
    destruct sx; cbn [cond_Zopp];
      [apply Z.compare_lt_iff|apply Z.compare_gt_iff]; lia.
  - assert (Hx : (0 < Zpos mx * 2 ^ (ex + 1074))%Z).
    { pose proof (@valid_finite_bounds _ _ _ Vx).
      apply Z.mul_pos_pos; [lia|apply Z.pow_pos_nonneg; lia]. }
    assert (Hy : (0 < Zpos my * 2 ^ (ey + 1074))%Z).
    { pose proof (@valid_finite_bounds _ _ _ Vy).
      apply Z.mul_pos_pos; [lia|apply Z.pow_pos_nonneg; lia]. }
    assert (Hlt : (ex < ey)%Z ->
              (Zpos mx * 2 ^ (ex + 1074) < Zpos my * 2 ^ (ey + 1074))%Z).
    { apply (@higher_exponent _ _ _ _ _ _ Vx Vy). }
    assert (Hgt : (ey < ex)%Z ->
              (Zpos my * 2 ^ (ey + 1074) < Zpos mx * 2 ^ (ex + 1074))%Z).
    { apply (@higher_exponent _ _ _ _ _ _ Vy Vx). }
    assert (Heq : ex = ey ->
              (Zpos mx * 2 ^ (ex + 1074) ?= Zpos my * 2 ^ (ey + 1074))%Z
              = (Zpos mx ?= Zpos my)%Z).
    { intros ->. pose proof (@valid_finite_bounds _ _ _ Vy).
      symmetry. apply Zmult_compare_compat_r.
      apply Z.lt_gt, Z.pow_pos_nonneg; lia. }
    change (Pos.compare_cont Eq mx my) with (Pos.compare mx my).
    rewrite Pos2Z.inj_compare.
    f_equal. symmetry.
    destruct sx, sy; cbn [cond_Zopp].
    + rewrite Z.compare_opp.
      destruct (Z.compare_spec ex ey) as [E|E|E].
      * rewrite Z.compare_antisym, (Heq E). reflexivity.
      * apply Z.compare_gt_iff. auto.
      * apply Z.compare_lt_iff. auto.
    + apply Z.compare_lt_iff. lia.
    + apply Z.compare_gt_iff. lia.
    + destruct (Z.compare_spec ex ey) as [E|E|E].
      * apply (Heq E).
      * apply Z.compare_lt_iff. auto.
      * apply Z.compare_gt_iff. auto.
Qed.

Lemma num_lt_Q (x y : spec_float) :
  valid_binary x = true -> valid_binary y = true ->
  (SFnum x < SFnum y)%Z <-> (SF2Q x < SF2Q y)%Q.
Proof.
  intros Vx Vy. rewrite (SF2Q_num _ Vx), (SF2Q_num _ Vy).
  assert (Ht : (0 < tiny)%Q) by reflexivity.
  rewrite Zlt_Qlt. split; intros H.
  - apply Qmult_lt_compat_r; assumption.
  - apply Qmult_lt_r in H; assumption.
Qed.

Lemma num_le_Q (x y : spec_float) :
  valid_binary x = true -> valid_binary y = true ->
  (SFnum x <= SFnum y)%Z <-> (SF2Q x <= SF2Q y)%Q.
Proof.
  intros Vx Vy. rewrite (SF2Q_num _ Vx), (SF2Q_num _ Vy).
  assert (Ht : (0 < tiny)%Q) by reflexivity.
  rewrite Zle_Qle. split; intros H.
  - apply Qmult_le_compat_r; [assumption|apply Qlt_le_weak, Ht].
  - apply Qmult_le_r in H; assumption.
Qed.

(** [operator<] and [operator<=] on finite numbers are the order of their
    values. *)
Lemma ltb_F2Q (x y : float) :
  is_finite x = true -> is_finite y = true ->
  (x <? y)%float = true <-> (F2Q x < F2Q y)%Q.
Proof.
  rewrite !is_finite_SFfinite. intros Fx Fy.
  unfold F2Q. rewrite <- num_lt_Q by apply Prim2SF_valid.
  rewrite FloatAxioms.ltb_spec. unfold SFltb.
  rewrite SFcompare_num by (assumption || apply Prim2SF_valid).
  unfold Z.lt. destruct (_ ?= _)%Z; split; congruence.
Qed.

Lemma leb_F2Q (x y : float) :
  is_finite x = true -> is_finite y = true ->
  (x <=? y)%float = true <-> (F2Q x <= F2Q y)%Q.
Proof.
  rewrite !is_finite_SFfinite. intros Fx Fy.
  unfold F2Q. rewrite <- num_le_Q by apply Prim2SF_valid.
  rewrite FloatAxioms.leb_spec. unfold SFleb.
  rewrite SFcompare_num by (assumption || apply Prim2SF_valid).
  unfold Z.le. destruct (_ ?= _)%Z; split; congruence.
Qed.

(** The four operations on finite binary64 numbers, away from overflow:
    the result is finite and within the relative distance [2^-52] of
    the exact one, up to [2^-1074] where a product or a quotient
    underflows. *)
Lemma add_model (x y : float) :
  is_finite x = true -> is_finite y = true ->
  (Qabs (F2Q x + F2Q y) < 2 ^ 1000)%Q ->
  is_finite (x + y) = true /\
  (Qabs (F2Q (x + y) - (F2Q x + F2Q y)) <= ulp_1 * Qabs (F2Q x + F2Q y))%Q.
Proof.
  rewrite !is_finite_SFfinite. unfold F2Q. rewrite add_spec.
  intros Fx Fy Hb. apply SFadd_model; try assumption; apply Prim2SF_valid.
Qed.

Lemma sub_model (x y : float) :
  is_finite x = true -> is_finite y = true ->
  (Qabs (F2Q x - F2Q y) < 2 ^ 1000)%Q ->
  is_finite (x - y) = true /\
  (Qabs (F2Q (x - y) - (F2Q x - F2Q y)) <= ulp_1 * Qabs (F2Q x - F2Q y))%Q.
Proof.
  rewrite !is_finite_SFfinite. unfold F2Q. rewrite sub_spec.
  intros Fx Fy Hb. apply SFsub_model; try assumption; apply Prim2SF_valid.
Qed.

Lemma mul_model (x y : float) :
  is_finite x = true -> is_finite y = true ->
  (Qabs (F2Q x * F2Q y) < 2 ^ 1000)%Q ->
  is_finite (x * y) = true /\
  (Qabs (F2Q (x * y) - F2Q x * F2Q y)
   <= ulp_1 * Qabs (F2Q x * F2Q y) + tiny)%Q.
Proof.
  rewrite !is_finite_SFfinite. unfold F2Q. rewrite mul_spec.
  intros Fx Fy Hb. apply SFmul_model; try assumption; apply Prim2SF_valid.
Qed.

Lemma div_model (x y : float) :
  is_finite x = true -> is_finite y = true -> ~ (F2Q y == 0)%Q ->
  (Qabs (F2Q x / F2Q y) < 2 ^ 1000)%Q ->
  is_finite (x / y) = true /\
  (Qabs (F2Q (x / y) - F2Q x / F2Q y)
   <= ulp_1 * Qabs (F2Q x / F2Q y) + tiny)%Q.
Proof.
  rewrite !is_finite_SFfinite. unfold F2Q. rewrite div_spec.
  intros Fx Fy Hy Hb. apply SFdiv_model; try assumption; apply Prim2SF_valid.
Qed.

(** Numbers of the unit interval, and numbers strictly between two
    others, are finite. *)
Lemma unit_interval_is_finite (x : float) :
  in_unit_interval x -> is_finite x = true.
Proof.
  intros [H0 H1]. rewrite is_finite_SFfinite.
  rewrite FloatAxioms.leb_spec in H0, H1.
  change (Prim2SF 0) with (S754_zero false) in H0.
  rewrite Prim2SF_one in H1.
  destruct (Prim2SF x) as [s|s| |s m e]; try reflexivity.
  - destruct s; discriminate.
  - discriminate.
Qed.

Lemma leb_trans (x y z : float) :
  (x <=? y)%float = true -> (y <=? z)%float = true -> (x <=? z)%float = true.
Proof. intros H1 H2. float_order. Qed.

Lemma ltb_leb (x y : float) :
  (x <? y)%float = true -> (x <=? y)%float = true.
Proof. intros H. float_order. Qed.

Lemma F2Q_0 : (F2Q 0 == 0)%Q.
Proof. reflexivity. Qed.

Lemma F2Q_1 : (F2Q 1 == 1)%Q.
Proof. reflexivity. Qed.

(** The value of a number of the unit interval. *)
Lemma unit_interval_F2Q (x : float) :
  in_unit_interval x -> (0 <= F2Q x <= 1)%Q.
Proof.
  intros Hx. pose proof (unit_interval_is_finite Hx) as Hf.
  destruct Hx as [H0 H1].
  apply leb_F2Q in H0; [|reflexivity|exact Hf].
  apply leb_F2Q in H1; [|exact Hf|reflexivity].
  rewrite F2Q_0 in H0. rewrite F2Q_1 in H1. split; assumption.
Qed.

(* ===================================================================== *)
(** * Rounding errors of an interpolation                                 *)
(* ===================================================================== *)

Lemma Qabs_bounds (v X t : Q) :
  (Qabs (v - X) <= t)%Q <-> (X - t <= v <= X + t)%Q.
Proof.
  rewrite Qabs_Qle_condition. split; intros [H1 H2]; split; lra.
Qed.

Lemma Qabs_le_of_bounds (v t : Q) :
  (- t <= v <= t)%Q -> (Qabs v <= t)%Q.
Proof. intros H. apply Qabs_Qle_condition. exact H. Qed.

(** The quotient [d1 / d2] of two rounded differences, rounded. *)
Lemma quotient_error (u eta D1 D2 d1 d2 t : Q) :
  (0 <= u <= 1 # 64)%Q -> (0 <= eta)%Q ->
  (0 <= D1)%Q -> (D1 <= D2)%Q -> (0 < D2)%Q ->
  (D1 - u * D1 <= d1 <= D1 + u * D1)%Q ->
  (D2 - u * D2 <= d2 <= D2 + u * D2)%Q ->
  (0 < d2)%Q /\ (0 <= d1 / d2 <= 2)%Q /\
  ((d1 / d2 - (u * (d1 / d2) + eta) <= t <= d1 / d2 + (u * (d1 / d2) + eta))%Q ->
   (D1 / D2 - (5 * u * (D1 / D2) + eta) <= t
    <= D1 / D2 + (5 * u * (D1 / D2) + eta))%Q).
Proof.
  intros Hu Heta HD1 HD12 HD2 Hd1 Hd2.
  assert (Hd2pos : (0 < d2)%Q) by nra.
  assert (Hd1pos : (0 <= d1)%Q) by nra.
  set (T := (D1 / D2)%Q).
  assert (HT : (T * D2 == D1)%Q) by (unfold T; field; lra).
  assert (HT0 : (0 <= T)%Q) by (unfold T; apply Qle_shift_div_l; lra).
  assert (HT1 : (T <= 1)%Q) by (unfold T; apply Qle_shift_div_r; lra).
  set (c := (d1 / d2)%Q).
  assert (Hc : (c * d2 == d1)%Q) by (unfold c; field; lra).
  assert (Hc_up : (c <= T + 3 * u * T)%Q).
  { unfold c. apply Qle_shift_div_r; [exact Hd2pos|].
    assert (H1 : (T * d2 >= T * (D2 - u * D2))%Q) by nra.
    nra. }
  assert (Hc_lo : (T - 2 * u * T <= c)%Q).
  { unfold c. apply Qle_shift_div_l; [exact Hd2pos|].
    assert (H1 : (T * d2 <= T * (D2 + u * D2))%Q) by nra.
    nra. }
  split; [exact Hd2pos|]. split; [split; nra|].
  intros Ht. fold c in Ht. split; nra.
Qed.

Lemma Qmult_le_compat_l' (x y z : Q) :
  (0 <= z)%Q -> (x <= y)%Q -> (z * x <= z * y)%Q.
Proof.
  intros Hz Hxy. rewrite !(Qmult_comm z). apply Qmult_le_compat_r; assumption.
Qed.

(** A product with a small factor. *)
Lemma small_factor (u x : Q) :
  (0 <= u <= 1 # 64)%Q -> (0 <= x)%Q -> (0 <= u * x <= (1 # 64) * x)%Q.
Proof. intros Hu Hx. split; nra. Qed.

Lemma unit_factor (x y : Q) :
  (0 <= x)%Q -> (0 <= y <= 1)%Q -> (0 <= x * y <= x)%Q.
Proof. intros Hx Hy. split; nra. Qed.

(** The product of the rounded quotient and a rounded difference,
    rounded. *)
Lemma product_error (u eta T R t r p : Q) :
  (0 <= u <= 1 # 64)%Q -> (0 <= eta)%Q ->
  (0 <= T <= 1)%Q -> (0 <= R <= 1)%Q ->
  (T - (5 * u * T + eta) <= t <= T + (5 * u * T + eta))%Q ->
  (R - u * R <= r <= R + u * R)%Q ->
  (Qabs (t * r) <= 2 + 2 * eta)%Q /\
  ((Qabs (p - t * r) <= u * Qabs (t * r) + eta)%Q ->
   (T * R - (9 * (u * (T * R)) + 4 * eta) <= p
    <= T * R + (9 * (u * (T * R)) + 4 * eta))%Q).
Proof.
  intros Hu Heta HT HR Ht Hr.
  pose proof (@unit_factor T R (proj1 HT) HR) as HW.
  set (W := (T * R)%Q) in *.
  pose proof (@small_factor u W Hu (proj1 HW)) as HuW.
  set (uW := (u * W)%Q) in *.
  pose proof (@small_factor u uW Hu (proj1 HuW)) as HuuW.
  set (uuW := (u * uW)%Q) in *.
  pose proof (@unit_factor eta R Heta HR) as HeR.
  set (eR := (eta * R)%Q) in *.
  pose proof (@small_factor u eR Hu (proj1 HeR)) as HueR.
  set (ueR := (u * eR)%Q) in *.
  pose proof (@small_factor u eta Hu Heta) as Hue.
  set (ue := (u * eta)%Q) in *.
  assert (Hr0 : (0 <= r)%Q) by nra.
  assert (Eup : ((T + (5 * u * T + eta)) * (R + u * R)
                 == W + 6 * uW + 5 * uuW + eR + ueR)%Q)
    by (unfold ueR, eR, uuW, uW, W; ring).
  assert (Elo : ((T - (5 * u * T + eta)) * (R + u * R)
                 == W - 4 * uW - 5 * uuW - eR - ueR)%Q)
    by (unfold ueR, eR, uuW, uW, W; ring).
  assert (Elo' : ((T - (5 * u * T + eta)) * (R - u * R)
                  == W - 6 * uW + 5 * uuW - eR + ueR)%Q)
    by (unfold ueR, eR, uuW, uW, W; ring).
  assert (Hup : (t * r <= W + 7 * uW + 2 * eta)%Q).
  { assert (H1 : (t * r <= (T + (5 * u * T + eta)) * r)%Q)
      by (apply Qmult_le_compat_r; lra).
    assert (H2 : ((T + (5 * u * T + eta)) * r
                  <= (T + (5 * u * T + eta)) * (R + u * R))%Q).
    { apply Qmult_le_compat_l'; [|lra]. fold W uW. nra. }
    lra. }
  assert (Hlo : (W - 7 * uW - 2 * eta <= t * r)%Q).
  { assert (H1 : ((T - (5 * u * T + eta)) * r <= t * r)%Q)
      by (apply Qmult_le_compat_r; lra).
    destruct (Qlt_le_dec (T - (5 * u * T + eta)) 0) as [Hneg|Hpos].
    - assert (H2 : ((T - (5 * u * T + eta)) * (R + u * R)
                    <= (T - (5 * u * T + eta)) * r)%Q) by nra.
      lra.
    - assert (H2 : ((T - (5 * u * T + eta)) * (R - u * R)
                    <= (T - (5 * u * T + eta)) * r)%Q)
        by (apply Qmult_le_compat_l'; lra).
      lra. }
  assert (Habs : (Qabs (t * r) <= W + 7 * uW + 2 * eta)%Q).
  { apply Qabs_le_of_bounds. split; lra. }
  split.
  - lra.
  - intros Hp. apply Qabs_bounds in Hp.
    assert (Hw : (u * Qabs (t * r) <= u * (W + 7 * uW + 2 * eta))%Q)
      by (apply Qmult_le_compat_l'; [lra|exact Habs]).
    assert (Ew : (u * (W + 7 * uW + 2 * eta) == uW + 7 * uuW + 2 * ue)%Q)
      by (unfold ue, uuW, uW; ring).
    split; lra.
Qed.

Lemma ulp_1_small : (0 <= ulp_1 <= 1 # 64)%Q.
Proof. split; discriminate. Qed.

Lemma tiny_small : (0 <= tiny)%Q /\ (8 * tiny <= ulp_1)%Q.
Proof. split; discriminate. Qed.

Lemma below_overflow (x : Q) : (Qabs x <= 4)%Q -> (Qabs x < 2 ^ 1000)%Q.
Proof. intros H. apply Qle_lt_trans with (1 := H). reflexivity. Qed.

Lemma between_is_finite (lo x hi : float) :
  (lo <? x)%float = true -> (x <? hi)%float = true -> is_finite x = true.
Proof.
  rewrite is_finite_SFfinite, !FloatAxioms.ltb_spec. unfold SFltb.
  destruct (Prim2SF x) as [s|s| |s m e], (Prim2SF lo) as [s1|s1| |s1 m1 e1],
    (Prim2SF hi) as [s2|s2| |s2 m2 e2]; cbn [SFcompare SFfinite];
    try discriminate; try reflexivity;
    destruct s; try destruct s1; try destruct s2; discriminate.
Qed.

(** The difference of two numbers of the unit interval. *)
Lemma difference_model (x y : float) :
  in_unit_interval x -> in_unit_interval y -> (F2Q y <= F2Q x)%Q ->
  is_finite (x - y) = true /\
  (let D := (F2Q x - F2Q y)%Q in
   D - ulp_1 * D <= F2Q (x - y) <= D + ulp_1 * D)%Q.
Proof.
  intros Hx Hy Hle.
  pose proof (unit_interval_F2Q Hx) as Vx.
  pose proof (unit_interval_F2Q Hy) as Vy.
  destruct (@sub_model x y) as [Hf He].
  - apply unit_interval_is_finite, Hx.
  - apply unit_interval_is_finite, Hy.
  - apply below_overflow. apply Qabs_le_of_bounds. lra.
  - split; [exact Hf|]. cbv zeta.
    rewrite (Qabs_pos (F2Q x - F2Q y)) in He by lra.
    apply Qabs_bounds in He. exact He.
Qed.

(** One interpolation of [eval] or [reverse], between numbers of the
    unit interval: the computed value is within [12 * 2^-52] of the
    exact image. *)
Lemma interpolation_model (A B L H s : float) :
  in_unit_interval A -> in_unit_interval B ->
  in_unit_interval L -> in_unit_interval H ->
  (A <? B)%float = true ->
  (A <=? s)%float = true -> (s <=? B)%float = true ->
  (F2Q L <= F2Q H)%Q ->
  let x := (L + ((s - A) / (B - A)) * (H - L))%float in
  is_finite x = true /\
  (Qabs (F2Q x - linear_image (F2Q A) (F2Q B) (F2Q L) (F2Q H) (F2Q s))
   <= 12 * ulp_1)%Q.
Proof.
  intros HA HB HL HH HAB HAs HsB HLH x.
  pose proof (unit_interval_is_finite HA) as FA.
  pose proof (unit_interval_is_finite HB) as FB.
  pose proof (unit_interval_is_finite HL) as FL.
  assert (Hs : in_unit_interval s).
  { split; [exact (@leb_trans _ _ _ (proj1 HA) HAs)
           |exact (@leb_trans _ _ _ HsB (proj2 HB))]. }
  pose proof (unit_interval_is_finite Hs) as Fs.
  pose proof (unit_interval_F2Q HA) as VA.
  pose proof (unit_interval_F2Q HB) as VB.
  pose proof (unit_interval_F2Q HL) as VL.
  pose proof (unit_interval_F2Q HH) as VH.
  apply ltb_F2Q in HAB; [|assumption|assumption].
  apply leb_F2Q in HAs; [|assumption|assumption].
  apply leb_F2Q in HsB; [|assumption|assumption].
  (* the two differences of the quotient *)
  destruct (@difference_model s A Hs HA ltac:(lra)) as [F1 E1].
  destruct (@difference_model B A HB HA ltac:(lra)) as [F2 E2].
  destruct (@difference_model H L HH HL HLH) as [F4 E4].
  cbv zeta in E1, E2, E4.
  pose proof ulp_1_small as Hu. pose proof tiny_small as [Heta0 Heta].
  destruct (@quotient_error ulp_1 tiny (F2Q s - F2Q A) (F2Q B - F2Q A)
              (F2Q (s - A)) (F2Q (B - A)) (F2Q ((s - A) / (B - A)))
              Hu Heta0 ltac:(lra) ltac:(lra) ltac:(lra) E1 E2)
    as (Hd2 & Hc & Ht).
  (* the quotient *)
  destruct (@div_model (s - A) (B - A) F1 F2) as [F3 E3].
  { lra. }
  { apply below_overflow. rewrite Qabs_pos by lra. lra. }
  rewrite (Qabs_pos (F2Q (s - A) / F2Q (B - A))) in E3 by lra.
  apply Qabs_bounds in E3.
  specialize (Ht E3). clear E3.
  set (T := ((F2Q s - F2Q A) / (F2Q B - F2Q A))%Q) in *.
  assert (HT : (0 <= T <= 1)%Q).
  { unfold T. split.
    - apply Qle_shift_div_l; lra.
    - apply Qle_shift_div_r; lra. }
  (* the product *)
  set (R := (F2Q H - F2Q L)%Q) in *.
  assert (HR : (0 <= R <= 1)%Q) by (unfold R; lra).
  destruct (@product_error ulp_1 tiny T R (F2Q ((s - A) / (B - A)))
              (F2Q (H - L)) (F2Q ((s - A) / (B - A) * (H - L)))
              Hu Heta0 HT HR Ht E4) as (Hm & Hp).
  destruct (@mul_model ((s - A) / (B - A)) (H - L) F3 F4) as [F5 E5].
  { apply below_overflow. lra. }
  specialize (Hp E5). clear E5.
  (* the sum *)
  pose proof (@unit_factor T R (proj1 HT) HR) as HW.
  set (W := (T * R)%Q) in *.
  pose proof (@small_factor ulp_1 W Hu (proj1 HW)) as HuW.
  set (uW := (ulp_1 * W)%Q) in *.
  set (p := F2Q ((s - A) / (B - A) * (H - L))) in *.
  assert (Hlp : (Qabs (F2Q L + p) <= F2Q L + W + 9 * uW + 4 * tiny)%Q).
  { apply Qabs_le_of_bounds. lra. }
  destruct (@add_model L ((s - A) / (B - A) * (H - L)) FL F5) as [F6 E6].
  { apply below_overflow. fold p. lra. }
  fold p in E6. split; [exact F6|].
  assert (Hw : (ulp_1 * Qabs (F2Q L + p)
                <= ulp_1 * (F2Q L + W + 9 * uW + 4 * tiny))%Q)
    by (apply Qmult_le_compat_l'; [lra|exact Hlp]).
  apply Qabs_bounds in E6.
  assert (Hlw : (F2Q L + W <= 1)%Q).
  { unfold W, R. 
    assert (T * (F2Q H - F2Q L) <= F2Q H - F2Q L)%Q by nra. lra. }
  assert (HuW1 : (uW <= ulp_1)%Q).
  { unfold uW. rewrite <- (Qmult_1_r ulp_1) at 2.
    apply Qmult_le_compat_l'; lra. }
  assert (Hfin : (ulp_1 * (F2Q L + W + 9 * uW + 4 * tiny) <= ulp_1 * 2)%Q)
    by (apply Qmult_le_compat_l'; lra).
  unfold linear_image. fold T R W.
  apply Qabs_bounds. unfold x. split; lra.
Qed.

Lemma scaled_bound (e t R : Q) :
  (- t <= e <= t)%Q -> (0 <= R <= 1)%Q -> (- t <= e * R <= t)%Q.
Proof. intros He HR. split; nra. Qed.

(** [scaled_linearly] there and back, between ranges of the unit
    interval: the saturation comes back within
    [24 * 2^-52 / (to_hi - to_lo)]. *)
Lemma round_trip_model (A B L H s : float) :
  in_unit_interval A -> in_unit_interval B ->
  in_unit_interval L -> in_unit_interval H ->
  (A <? s)%float = true -> (s <? B)%float = true ->
  (L <? H)%float = true ->
  let x := scaled_linearly A B L H s in
  let s' := scaled_linearly L H A B x in
  is_finite s = true /\ is_finite s' = true /\
  (Qabs (F2Q s' - F2Q s) * (F2Q H - F2Q L) <= 24 * ulp_1)%Q.
Proof.
  intros HA HB HL HH HAs HsB HLH x s'.
  pose proof (unit_interval_is_finite HA) as FA.
  pose proof (unit_interval_is_finite HB) as FB.
  pose proof (unit_interval_is_finite HL) as FL.
  pose proof (unit_interval_is_finite HH) as FH.
  pose proof (between_is_finite HAs HsB) as Fs.
  pose proof (unit_interval_F2Q HA) as VA.
  pose proof (unit_interval_F2Q HB) as VB.
  pose proof (unit_interval_F2Q HL) as VL.
  pose proof (unit_interval_F2Q HH) as VH.
  pose proof (proj1 (@ltb_F2Q _ _ FL FH) HLH) as Hlh.
  pose proof (proj1 (@ltb_F2Q _ _ FA Fs) HAs) as Has.
  pose proof (proj1 (@ltb_F2Q _ _ Fs FB) HsB) as Hsb.
  assert (HAB : (A <? B)%float = true) by (apply ltb_F2Q; [assumption..|lra]).
  destruct (@interpolation_model A B L H s HA HB HL HH HAB
              (@ltb_leb _ _ HAs) (@ltb_leb _ _ HsB) ltac:(lra))
    as [Fx Ex].
  assert (Hx : x = (L + (s - A) / (B - A) * (H - L))%float).
  { unfold x, scaled_linearly. rewrite HAs, HsB. reflexivity. }
  rewrite <- Hx in Fx, Ex.
  set (a := F2Q A) in *. set (b := F2Q B) in *.
  set (l := F2Q L) in *. set (h := F2Q H) in *.
  set (sigma := F2Q s) in *. set (xi := F2Q x) in *.
  set (T := ((sigma - a) / (b - a))%Q).
  assert (HT : (0 < T < 1)%Q).
  { unfold T. split.
    - apply Qlt_shift_div_l; lra.
    - apply Qlt_shift_div_r; lra. }
  assert (Hsig : (sigma - a == T * (b - a))%Q) by (unfold T; field; lra).
  assert (HX : (linear_image a b l h sigma == l + T * (h - l))%Q)
    by reflexivity.
  rewrite HX in Ex. apply Qabs_bounds in Ex.
  pose proof ulp_1_small as Hu.
  set (u12 := (12 * ulp_1)%Q) in *.
  assert (Hu12 : (0 <= u12)%Q) by (unfold u12; lra).
  set (R := (h - l)%Q) in *. set (w := (b - a)%Q) in *.
  assert (ER : (R == h - l)%Q) by reflexivity.
  assert (Ew : (w == b - a)%Q) by reflexivity.
  assert (HR : (0 < R <= 1)%Q) by lra.
  assert (Hw : (0 < w <= 1)%Q) by lra.
  assert (Hsuff : forall z : Q,
            (- (u12 + u12) <= z * R <= u12 + u12)%Q ->
            (Qabs z * R <= 24 * ulp_1)%Q).
  { intros z Hz.
    rewrite <- (Qabs_pos R) at 1 by lra. rewrite <- Qabs_Qmult.
    apply Qabs_le_of_bounds. unfold u12 in Hz. lra. }
  split; [exact Fs|].
  unfold s', scaled_linearly.
  destruct (L <? x)%float eqn:HLx; cbn [negb].
  2:{ (* clamped below *)
    split; [exact FA|]. fold a.
    assert (Hle : (xi <= l)%Q).
    { apply Qnot_lt_le. intros Hlt. apply (@ltb_F2Q _ _ FL Fx) in Hlt. congruence. }
    apply Hsuff.
    assert (E : ((a - sigma) * R == - (T * R) * w)%Q).
    { setoid_replace (a - sigma)%Q with (- (sigma - a))%Q by ring.
      rewrite Hsig. ring. }
    rewrite E.
    assert (HTR : (0 <= T * R <= u12)%Q) by (split; nra).
    pose proof (@scaled_bound (- (T * R)) u12 w ltac:(lra) ltac:(lra)).
    lra. }
  destruct (x <? H)%float eqn:HxH; cbn [negb].
  2:{ (* clamped above *)
    split; [exact FB|]. fold b.
    assert (Hle : (h <= xi)%Q).
    { apply Qnot_lt_le. intros Hlt. apply (@ltb_F2Q _ _ Fx FH) in Hlt. congruence. }
    apply Hsuff.
    assert (E : ((b - sigma) * R == (R - T * R) * w)%Q).
    { setoid_replace (b - sigma)%Q with (w - (sigma - a))%Q by (unfold w; ring).
      rewrite Hsig. ring. }
    rewrite E.
    assert (HTR : (0 <= R - T * R <= u12)%Q) by (split; nra).
    pose proof (@scaled_bound (R - T * R) u12 w ltac:(lra) ltac:(lra)).
    lra. }
  (* interpolated back *)
  pose proof (proj1 (@ltb_F2Q _ _ FL Fx) HLx) as Hlx.
  pose proof (proj1 (@ltb_F2Q _ _ Fx FH) HxH) as Hxh.
  fold l xi h in Hlx, Hxh.
  destruct (@interpolation_model L H A B x HL HH HA HB HLH
              (@ltb_leb _ _ HLx) (@ltb_leb _ _ HxH)) as [Fs' Es'].
  { fold a b. lra. }
  split; [exact Fs'|].
  set (s1 := F2Q (A + (x - L) / (H - L) * (B - A))) in *.
  fold l h a b xi in Es'.
  assert (Himg : (linear_image l h a b xi * R
                  == sigma * R + (xi - (l + T * R)) * w)%Q).
  { unfold linear_image. fold R w.
    setoid_replace sigma with (a + (sigma - a))%Q at 1 by ring.
    rewrite Hsig. field. lra. }
  apply Qabs_bounds in Es'. fold u12 in Es'.
  apply Hsuff.
  pose proof (@scaled_bound (s1 - linear_image l h a b xi) u12 R
                ltac:(lra) ltac:(lra)) as H1.
  pose proof (@scaled_bound (xi - (l + T * R)) u12 w ltac:(lra) ltac:(lra))
    as H2.
  assert (E : ((s1 - sigma) * R
               == (s1 - linear_image l h a b xi) * R
                  + (xi - (l + T * R)) * w)%Q).
  { setoid_replace ((s1 - linear_image l h a b xi) * R)%Q
      with (s1 * R - linear_image l h a b xi * R)%Q by ring.
    rewrite Himg. ring. }
  rewrite E. lra.
Qed.

(* ===================================================================== *)
(** * Facts about the loops, for any reading of [double]                  *)
(* ===================================================================== *)

Lemma bind_Returns_r (A : Type) (c : outcome A) : (x <- c ;; Returns x) = c.
Proof. destruct c; reflexivity. Qed.

Lemma index_below (A : Type) (v : list A) (i : nat) :
  i < length v -> exists x, index v i = Returns x.
Proof.
  intros Hi. unfold index.
  destruct (nth_error v i) as [x|] eqn:E; [eauto|].
  apply nth_error_None in E. lia.
Qed.

Lemma index_Returns (A : Type) (v : list A) (i : nat) (x : A) :
  index v i = Returns x <-> nth_error v i = Some x.
Proof.
  unfold index. destruct (nth_error v i); split; intros E; inversion E; reflexivity.
Qed.

Lemma set_back_push_back (A : Type) (v : list A) (x y : A) :
  set_back (push_back v x) y = v ++ [y].
Proof. unfold set_back, push_back. rewrite removelast_last. reflexivity. Qed.

Lemma for_each_single (A S : Type) (body : S -> A -> outcome S) (x : A) (s : S) :
  for_each body [x] s = body s x.
Proof. simpl. apply bind_Returns_r. Qed.

(** A loop whose body only appends to its state can be run from the
    empty state. *)
Lemma for_each_append (A B : Type) (body : list B -> A -> outcome (list B)) :
  (forall s x, body s x = (r <- body [] x ;; Returns (s ++ r))) ->
  forall xs s, for_each body xs s = (r <- for_each body xs [] ;; Returns (s ++ r)).
Proof.
  intros Hbody xs. induction xs as [|x xs IH]; intros s; simpl.
  - rewrite app_nil_r. reflexivity.
  - rewrite (Hbody s x). destruct (body [] x) as [r| | |]; simpl; try reflexivity.
    rewrite (IH (s ++ r)), (IH r).
    destruct (for_each body xs []) as [r'| | |]; simpl; try reflexivity.
    rewrite app_assoc. reflexivity.
Qed.

Lemma for_each_entrywise (A B : Type) (body : list B -> A -> outcome (list B))
    (xs : list A) :
  (forall s x, body s x = (r <- body [] x ;; Returns (s ++ r))) ->
  (forall x, In x xs -> exists v, body [] x = Returns [v]) ->
  exists out, for_each body xs [] = Returns out /\
              entrywise (fun l => for_each body l []) xs out.
Proof.
  intros Hbody. unfold entrywise.
  induction xs as [|x xs IH]; intros Hret.
  - exists []. split; [reflexivity | constructor].
  - destruct (Hret x (or_introl eq_refl)) as [v Hv].
    destruct IH as (out & Hout & Hall); [intros y Hy; apply Hret; right; exact Hy|].
    exists (v :: out). split.
    + simpl. rewrite Hv. simpl. rewrite (for_each_append body Hbody xs [v]), Hout.
      reflexivity.
    + constructor; [|exact Hall]. rewrite for_each_single. exact Hv.
Qed.

Lemma entrywise_length (A B : Type) (f : list A -> outcome (list B))
    (xs : list A) (out : list B) :
  entrywise f xs out -> length out = length xs.
Proof. intros H. symmetry. exact (Forall2_length H). Qed.

Lemma entrywise_nth (A B : Type) (f : list A -> outcome (list B))
    (xs : list A) (out : list B) (i : nat) (x : A) :
  entrywise f xs out -> nth_error xs i = Some x ->
  exists v, nth_error out i = Some v /\ f [x] = Returns [v].
Proof.
  unfold entrywise. intros H. revert i.
  induction H as [|y v ys vs Hyv _ IH]; intros i Hi.
  - destruct i; discriminate Hi.
  - destruct i as [|i]; simpl in Hi.
    + inversion Hi; subst. exists v. split; [reflexivity | exact Hyv].
    + apply IH. exact Hi.
Qed.

Lemma cells_below_nth (D : Type) (n : nat) (sp : SaturationPoints D)
    (i : nat) (pt : SaturationAssoc D) :
  cells_below n sp -> nth_error sp i = Some pt -> cell pt < n.
Proof.
  unfold cells_below. rewrite Forall_forall. intros H Hi.
  apply H. eapply nth_error_In. exact Hi.
Qed.

(* ===================================================================== *)
(** * The horizontal scalings, point by point                             *)
(* ===================================================================== *)

(** Unfolds a loop body down to the pushed value. *)
Ltac unfold_body :=
  unfold TwoPointScaling.eval, TwoPointScaling.reverse,
         ThreePointScaling.eval, ThreePointScaling.reverse;
  rewrite ?for_each_single;
  unfold TwoPointScaling.eval_body, TwoPointScaling.reverse_body,
         ThreePointScaling.eval_body, ThreePointScaling.reverse_body,
         TwoPointScaling.handleInvalidEndpoint,
         ThreePointScaling.handleInvalidEndpoint.

Ltac body_append :=
  intros; unfold_body;
  unfold TwoPointScaling.sMin, TwoPointScaling.sMax, ThreePointScaling.sMin,
         ThreePointScaling.sDisp, ThreePointScaling.sMax;
  repeat match goal with
  | |- context [index ?v ?i] => destruct (index v i); cbn [bind]; try reflexivity
  end;
  repeat match goal with
  | |- context [negb (validSaturations ?l)] =>
      destruct (validSaturations l); cbn [negb bind]
  end;
  rewrite ?set_back_push_back; unfold push_back;
  repeat match goal with
  | |- context [match ?p with UseUnscaled => _ | IgnorePoint => _ end] =>
      destruct p
  end;
  reflexivity.

Section HorizontalFacts.

Context {D : Type} `{Double D}.
Local Open Scope double_scope.

Lemma TwoPoint_eval_body_append (this : TwoPointScaling.Impl D)
    (tep : TableEndPoints D) (srng : D) (s : list D) (pt : SaturationAssoc D) :
  TwoPointScaling.eval_body this tep srng s pt
  = (r <- TwoPointScaling.eval_body this tep srng [] pt ;; Returns (s ++ r)).
Proof. body_append. Qed.

Lemma TwoPoint_reverse_body_append (this : TwoPointScaling.Impl D)
    (tep : TableEndPoints D) (srng : D) (s : list D) (pt : SaturationAssoc D) :
  TwoPointScaling.reverse_body this tep srng s pt
  = (r <- TwoPointScaling.reverse_body this tep srng [] pt ;; Returns (s ++ r)).
Proof. body_append. Qed.

Lemma ThreePoint_eval_body_append (this : ThreePointScaling.Impl D)
    (tep : TableEndPoints D) (s : list D) (pt : SaturationAssoc D) :
  ThreePointScaling.eval_body this tep s pt
  = (r <- ThreePointScaling.eval_body this tep [] pt ;; Returns (s ++ r)).
Proof. body_append. Qed.

Lemma ThreePoint_reverse_body_append (this : ThreePointScaling.Impl D)
    (tep : TableEndPoints D) (s : list D) (pt : SaturationAssoc D) :
  ThreePointScaling.reverse_body this tep s pt
  = (r <- ThreePointScaling.reverse_body this tep [] pt ;; Returns (s ++ r)).
Proof. body_append. Qed.

(** What a call returns for one point whose end points resolve. *)
Lemma TwoPoint_eval_point (this : TwoPointScaling.Impl D)
    (tep : TableEndPoints D) (pt : SaturationAssoc D) (sLO sHI : D) :
  TwoPointScaling.sMin this (cell pt) tep = Returns sLO ->
  TwoPointScaling.sMax this (cell pt) tep = Returns sHI ->
  TwoPointScaling.eval this tep [pt] = Returns [
    if validSaturations [sLO; sHI] then
      if negb (sat pt >? sLO) then low tep
      else if negb (sat pt <? sHI) then high tep
      else low tep + ((sat pt - sLO) / (sHI - sLO)) * (high tep - low tep)
    else
      match TwoPointScaling.handle_invalid_ this with
      | UseUnscaled => sat pt
      | IgnorePoint => fnan
      end ].
Proof.
  intros HLO HHI. unfold_body. rewrite HLO, HHI. cbn [bind].
  destruct (validSaturations [sLO; sHI]); cbn [negb];
    rewrite ?set_back_push_back; unfold push_back;
    try destruct (TwoPointScaling.handle_invalid_ this); reflexivity.
Qed.

Lemma TwoPoint_reverse_point (this : TwoPointScaling.Impl D)
    (tep : TableEndPoints D) (pt : SaturationAssoc D) (sLO sHI : D) :
  TwoPointScaling.sMin this (cell pt) tep = Returns sLO ->
  TwoPointScaling.sMax this (cell pt) tep = Returns sHI ->
  TwoPointScaling.reverse this tep [pt] = Returns [
    if validSaturations [sLO; sHI] then
      if negb (sat pt >? low tep) then sLO
      else if negb (sat pt <? high tep) then sHI
      else sLO + ((sat pt - low tep) / (high tep - low tep)) * (sHI - sLO)
    else
      match TwoPointScaling.handle_invalid_ this with
      | UseUnscaled => sat pt
      | IgnorePoint => fnan
      end ].
Proof.
  intros HLO HHI. unfold_body. rewrite HLO, HHI. cbn [bind].
  destruct (validSaturations [sLO; sHI]); cbn [negb];
    rewrite ?set_back_push_back; unfold push_back;
    try destruct (TwoPointScaling.handle_invalid_ this); reflexivity.
Qed.

Lemma ThreePoint_eval_point (this : ThreePointScaling.Impl D)
    (tep : TableEndPoints D) (pt : SaturationAssoc D) (sLO sR sHI : D) :
  ThreePointScaling.sMin this (cell pt) tep = Returns sLO ->
  ThreePointScaling.sDisp this (cell pt) tep = Returns sR ->
  ThreePointScaling.sMax this (cell pt) tep = Returns sHI ->
  ThreePointScaling.eval this tep [pt] = Returns [
    if validSaturations [sLO; sR; sHI] then
      if negb (sat pt >? sLO) then low tep
      else if negb (sat pt <? sHI) then high tep
      else if sat pt <? sR then
        low tep + ((sat pt - sLO) / (sR - sLO)) * (disp tep - low tep)
      else
        disp tep + ((sat pt - sR) / (sHI - sR)) * (high tep - disp tep)
    else
      match ThreePointScaling.handle_invalid_ this with
      | UseUnscaled => sat pt
      | IgnorePoint => fnan
      end ].
Proof.
  intros HLO HR HHI. unfold_body. rewrite HLO, HR, HHI. cbn [bind].
  destruct (validSaturations [sLO; sR; sHI]); cbn [negb];
    rewrite ?set_back_push_back; unfold push_back;
    try destruct (ThreePointScaling.handle_invalid_ this); reflexivity.
Qed.

Lemma ThreePoint_reverse_point (this : ThreePointScaling.Impl D)
    (tep : TableEndPoints D) (pt : SaturationAssoc D) (sLO sR sHI : D) :
  ThreePointScaling.sMin this (cell pt) tep = Returns sLO ->
  ThreePointScaling.sDisp this (cell pt) tep = Returns sR ->
  ThreePointScaling.sMax this (cell pt) tep = Returns sHI ->
  ThreePointScaling.reverse this tep [pt] = Returns [
    if validSaturations [sLO; sR; sHI] then
      if negb (sat pt >? low tep) then sLO
      else if negb (sat pt <? high tep) then sHI
      else if sat pt <? disp tep then
        sLO + ((sat pt - low tep) / (disp tep - low tep)) * (sR - sLO)
      else
        sR + ((sat pt - disp tep) / (high tep - disp tep)) * (sHI - sR)
    else
      match ThreePointScaling.handle_invalid_ this with
      | UseUnscaled => sat pt
      | IgnorePoint => fnan
      end ].
Proof.
  intros HLO HR HHI. unfold_body. rewrite HLO, HR, HHI. cbn [bind].
  destruct (validSaturations [sLO; sR; sHI]); cbn [negb];
    rewrite ?set_back_push_back; unfold push_back;
    try destruct (ThreePointScaling.handle_invalid_ this); reflexivity.
Qed.

(** The end points of an in-range cell resolve. *)
Lemma TwoPoint_sMin_below (this : TwoPointScaling.Impl D)
    (tep : TableEndPoints D) (c : nat) :
  c < length (TwoPointScaling.smin_ this) ->
  exists x, nth_error (TwoPointScaling.smin_ this) c = Some x /\
            TwoPointScaling.sMin this c tep
            = Returns (defaultedScaledSaturation x (low tep)).
Proof.
  intros Hc. destruct (index_below _ Hc) as [x Hx]. exists x.
  split; [apply index_Returns; exact Hx|].
  unfold TwoPointScaling.sMin. rewrite Hx. reflexivity.
Qed.

Lemma TwoPoint_sMax_below (this : TwoPointScaling.Impl D)
    (tep : TableEndPoints D) (c : nat) :
  c < length (TwoPointScaling.smax_ this) ->
  exists x, nth_error (TwoPointScaling.smax_ this) c = Some x /\
            TwoPointScaling.sMax this c tep
            = Returns (defaultedScaledSaturation x (high tep)).
Proof.
  intros Hc. destruct (index_below _ Hc) as [x Hx]. exists x.
  split; [apply index_Returns; exact Hx|].
  unfold TwoPointScaling.sMax. rewrite Hx. reflexivity.
Qed.

Lemma ThreePoint_sMin_below (this : ThreePointScaling.Impl D)
    (tep : TableEndPoints D) (c : nat) :
  c < length (ThreePointScaling.smin_ this) ->
  exists x, nth_error (ThreePointScaling.smin_ this) c = Some x /\
            ThreePointScaling.sMin this c tep
            = Returns (defaultedScaledSaturation x (low tep)).
Proof.
  intros Hc. destruct (index_below _ Hc) as [x Hx]. exists x.
  split; [apply index_Returns; exact Hx|].
  unfold ThreePointScaling.sMin. rewrite Hx. reflexivity.
Qed.

Lemma ThreePoint_sDisp_below (this : ThreePointScaling.Impl D)
    (tep : TableEndPoints D) (c : nat) :
  c < length (ThreePointScaling.sdisp_ this) ->
  exists x, nth_error (ThreePointScaling.sdisp_ this) c = Some x /\
            ThreePointScaling.sDisp this c tep
            = Returns (defaultedScaledSaturation x (disp tep)).
Proof.
  intros Hc. destruct (index_below _ Hc) as [x Hx]. exists x.
  split; [apply index_Returns; exact Hx|].
  unfold ThreePointScaling.sDisp. rewrite Hx. reflexivity.
Qed.

Lemma ThreePoint_sMax_below (this : ThreePointScaling.Impl D)
    (tep : TableEndPoints D) (c : nat) :
  c < length (ThreePointScaling.smax_ this) ->
  exists x, nth_error (ThreePointScaling.smax_ this) c = Some x /\
            ThreePointScaling.sMax this c tep
            = Returns (defaultedScaledSaturation x (high tep)).
Proof.
  intros Hc. destruct (index_below _ Hc) as [x Hx]. exists x.
  split; [apply index_Returns; exact Hx|].
  unfold ThreePointScaling.sMax. rewrite Hx. reflexivity.
Qed.

(** A call on in-range points returns one entry per point, each the one
    the point gets in a call of its own. *)
Lemma TwoPoint_eval_entrywise (this : TwoPointScaling.Impl D)
    (tep : TableEndPoints D) (sp : SaturationPoints D) :
  TwoPoint_in_range this sp ->
  exists out, TwoPointScaling.eval this tep sp = Returns out /\
              entrywise (TwoPointScaling.eval this tep) sp out.
Proof.
  intros [Hmin Hmax].
  apply for_each_entrywise; [apply TwoPoint_eval_body_append|].
  intros pt Hpt. unfold cells_below in *. rewrite Forall_forall in Hmin, Hmax.
  destruct (TwoPoint_sMin_below this tep (Hmin pt Hpt)) as (a & _ & Ha).
  destruct (TwoPoint_sMax_below this tep (Hmax pt Hpt)) as (b & _ & Hb).
  pose proof (TwoPoint_eval_point this tep pt Ha Hb) as E.
  unfold TwoPointScaling.eval in E. rewrite for_each_single in E. eauto.
Qed.

Lemma TwoPoint_reverse_entrywise (this : TwoPointScaling.Impl D)
    (tep : TableEndPoints D) (sp : SaturationPoints D) :
  TwoPoint_in_range this sp ->
  exists out, TwoPointScaling.reverse this tep sp = Returns out /\
              entrywise (TwoPointScaling.reverse this tep) sp out.
Proof.
  intros [Hmin Hmax].
  apply for_each_entrywise; [apply TwoPoint_reverse_body_append|].
  intros pt Hpt. unfold cells_below in *. rewrite Forall_forall in Hmin, Hmax.
  destruct (TwoPoint_sMin_below this tep (Hmin pt Hpt)) as (a & _ & Ha).
  destruct (TwoPoint_sMax_below this tep (Hmax pt Hpt)) as (b & _ & Hb).
  pose proof (TwoPoint_reverse_point this tep pt Ha Hb) as E.
  unfold TwoPointScaling.reverse in E. rewrite for_each_single in E. eauto.
Qed.

Lemma ThreePoint_eval_entrywise (this : ThreePointScaling.Impl D)
    (tep : TableEndPoints D) (sp : SaturationPoints D) :
  ThreePoint_in_range this sp ->
  exists out, ThreePointScaling.eval this tep sp = Returns out /\
              entrywise (ThreePointScaling.eval this tep) sp out.
Proof.
  intros (Hmin & Hdisp & Hmax).
  apply for_each_entrywise; [apply ThreePoint_eval_body_append|].
  intros pt Hpt. unfold cells_below in *.
  rewrite Forall_forall in Hmin, Hdisp, Hmax.
  destruct (ThreePoint_sMin_below this tep (Hmin pt Hpt)) as (a & _ & Ha).
  destruct (ThreePoint_sDisp_below this tep (Hdisp pt Hpt)) as (r & _ & Hr).
  destruct (ThreePoint_sMax_below this tep (Hmax pt Hpt)) as (b & _ & Hb).
  pose proof (ThreePoint_eval_point this tep pt Ha Hr Hb) as E.
  unfold ThreePointScaling.eval in E. rewrite for_each_single in E. eauto.
Qed.

Lemma ThreePoint_reverse_entrywise (this : ThreePointScaling.Impl D)
    (tep : TableEndPoints D) (sp : SaturationPoints D) :
  ThreePoint_in_range this sp ->
  exists out, ThreePointScaling.reverse this tep sp = Returns out /\
              entrywise (ThreePointScaling.reverse this tep) sp out.
Proof.
  intros (Hmin & Hdisp & Hmax).
  apply for_each_entrywise; [apply ThreePoint_reverse_body_append|].
  intros pt Hpt. unfold cells_below in *.
  rewrite Forall_forall in Hmin, Hdisp, Hmax.
  destruct (ThreePoint_sMin_below this tep (Hmin pt Hpt)) as (a & _ & Ha).
  destruct (ThreePoint_sDisp_below this tep (Hdisp pt Hpt)) as (r & _ & Hr).
  destruct (ThreePoint_sMax_below this tep (Hmax pt Hpt)) as (b & _ & Hb).
  pose proof (ThreePoint_reverse_point this tep pt Ha Hr Hb) as E.
  unfold ThreePointScaling.reverse in E. rewrite for_each_single in E. eauto.
Qed.

End HorizontalFacts.

(* ===================================================================== *)
(** * Validity of resolved end points on binary64                         *)
(* ===================================================================== *)

Lemma validSaturation_in_unit (x : float) :
  in_unit_interval x -> validSaturation x = true.
Proof.
  intros [H0 H1]. unfold validSaturation. cbn [flt lit_0 lit_1 binary64].
  rewrite (leb_not_gt H0), (leb_not_gt H1). reflexivity.
Qed.

Lemma validSaturation_outside (x : float) :
  validSaturation x = false <-> outside_unit_interval x.
Proof.
  unfold validSaturation, outside_unit_interval. cbn [flt lit_0 lit_1 binary64].
  destruct (x <? 0)%float, (1 <? x)%float; cbn; intuition congruence.
Qed.

Lemma validSaturations_2 (D : Type) `{Double D} (a b : D) :
  validSaturations [a; b] = validSaturation a && validSaturation b.
Proof. reflexivity. Qed.

Lemma validSaturations_3 (D : Type) `{Double D} (a b c : D) :
  validSaturations [a; b; c]
  = validSaturation a && validSaturation b && validSaturation c.
Proof. reflexivity. Qed.

(* ===================================================================== *)
(** * The vertical scalings: loops that update [ret] in place             *)
(* ===================================================================== *)

Lemma store_middle (A : Type) (pre suf : list A) (y x : A) :
  store (pre ++ y :: suf) (length pre) x = Returns (pre ++ x :: suf).
Proof.
  induction pre as [|a pre IH]; cbn [store app length].
  - reflexivity.
  - rewrite IH. reflexivity.
Qed.

Lemma nth_error_middle (A : Type) (pre suf : list A) (y : A) :
  nth_error (pre ++ y :: suf) (length pre) = Some y.
Proof. induction pre as [|a pre IH]; [reflexivity | exact IH]. Qed.

(** A loop over [i = k, k+1, ...] whose body replaces [ret[i]] by
    [h i ret[i]] maps [h] over the not yet visited part of [ret]. *)
Lemma for_each_seq_store (B : Type) (body : list B -> nat -> outcome (list B))
    (h : nat -> B -> B) (n : nat) :
  (forall ret i y, i < n -> length ret = n -> nth_error ret i = Some y ->
                   body ret i = store ret i (h i y)) ->
  forall suf pre,
    length pre + length suf = n ->
    exists suf',
      for_each body (seq (length pre) (length suf)) (pre ++ suf)
      = Returns (pre ++ suf') /\
      length suf' = length suf /\
      forall j y, nth_error suf j = Some y ->
                  nth_error suf' j = Some (h (length pre + j) y).
Proof.
  intros Hbody suf. induction suf as [|y suf IH]; intros pre Hn.
  - exists []. cbn [length seq for_each]. repeat split.
    intros j z Hj. destruct j; discriminate Hj.
  - cbn [length seq for_each]. cbn [length] in Hn.
    rewrite (Hbody (pre ++ y :: suf) (length pre) y);
      [ | lia | rewrite length_app; cbn [length]; lia | apply nth_error_middle ].
    rewrite store_middle. cbn [bind].
    destruct (IH (pre ++ [h (length pre) y])) as (suf' & Hrun & Hlen & Hnth).
    { rewrite length_app. cbn [length]. lia. }
    rewrite length_app in Hrun. cbn [length] in Hrun.
    rewrite Nat.add_1_r, <- !app_assoc in Hrun. cbn [app] in Hrun.
    exists (h (length pre) y :: suf'). repeat split.
    + exact Hrun.
    + cbn [length]. rewrite Hlen. reflexivity.
    + intros j z Hj. destruct j as [|j]; cbn [nth_error] in *.
      * inversion Hj; subst. rewrite Nat.add_0_r. reflexivity.
      * rewrite (Hnth j z Hj), length_app. cbn [length].
        do 2 f_equal. lia.
Qed.

Lemma for_each_seq_store_all (B : Type)
    (body : list B -> nat -> outcome (list B)) (h : nat -> B -> B)
    (val : list B) :
  (forall ret i y, i < length val -> length ret = length val ->
                   nth_error ret i = Some y ->
                   body ret i = store ret i (h i y)) ->
  exists out,
    for_each body (seq 0 (length val)) val = Returns out /\
    length out = length val /\
    forall i y, nth_error val i = Some y -> nth_error out i = Some (h i y).
Proof.
  intros Hbody.
  exact (for_each_seq_store body h Hbody val [] eq_refl).
Qed.

(** Indexing and storing never report a failure; neither does a loop
    built from them. *)
Lemma bind_quiet (A B : Type) (c : outcome A) (k : A -> outcome B) :
  ~ reports_failure c -> (forall a, ~ reports_failure (k a)) ->
  ~ reports_failure (bind c k).
Proof. intros Hc Hk. destruct c; cbn; auto. Qed.

Lemma index_quiet (A : Type) (v : list A) (i : nat) : ~ reports_failure (index v i).
Proof. unfold index. destruct (nth_error v i); cbn; auto. Qed.

Lemma store_quiet (A : Type) (v : list A) (i : nat) (x : A) :
  ~ reports_failure (store v i x).
Proof.
  revert i. induction v as [|y v IH]; intros i; [cbn; auto|].
  destruct i as [|i]; cbn [store]; [cbn; auto|].
  apply bind_quiet; [apply IH | cbn; auto].
Qed.

Lemma for_each_quiet (A S : Type) (body : S -> A -> outcome S) (xs : list A) :
  (forall s x, ~ reports_failure (body s x)) ->
  forall s, ~ reports_failure (for_each body xs s).
Proof.
  intros Hbody. induction xs as [|x xs IH]; intros s; cbn [for_each].
  - cbn. auto.
  - apply bind_quiet; [apply Hbody | exact IH].
Qed.

Lemma assert_holds (NDEBUG : bool) (what : string) :
  assert NDEBUG true what = Returns tt.
Proof. destruct NDEBUG; reflexivity. Qed.

Lemma nth_error_below (A : Type) (v : list A) (i : nat) :
  i < length v -> exists x, nth_error v i = Some x.
Proof.
  intros Hi. destruct (nth_error v i) as [x|] eqn:E; [eauto|].
  apply nth_error_None in E. lia.
Qed.

Lemma nth_error_ext_eq (A : Type) (l l' : list A) :
  length l = length l' ->
  (forall i x, nth_error l' i = Some x -> nth_error l i = Some x) ->
  l = l'.
Proof.
  revert l'. induction l as [|a l IH]; intros [|b l'] Hlen Hnth;
    try discriminate Hlen; [reflexivity|].
  f_equal.
  - specialize (Hnth 0 b eq_refl). inversion Hnth. reflexivity.
  - apply IH; [cbn in Hlen; lia|].
    intros i x Hi. exact (Hnth (S i) x Hi).
Qed.

Section PureVerticalFacts.

Context {D : Type} `{Double D}.
Local Open Scope double_scope.

Lemma PureVertical_vertScale_returns (NDEBUG : bool)
    (this : PureVerticalScaling.Impl D) (f : FunctionValues.t D)
    (sp : SaturationPoints D) (val : list D) :
  length sp = length val ->
  cells_below (length (PureVerticalScaling.fmax_ this)) sp ->
  exists out,
    PureVerticalScaling.vertScale NDEBUG this f sp val = Returns out /\
    length out = length val /\
    forall (i : nat) (pt : SaturationAssoc D) (y fm : D),
      nth_error sp i = Some pt -> nth_error val i = Some y ->
      nth_error (PureVerticalScaling.fmax_ this) (cell pt) = Some fm ->
      nth_error out i
      = Some (y * (fm / FunctionValues.val (FunctionValues.max f))).
Proof.
  intros Hlen Hcells. unfold PureVerticalScaling.vertScale.
  rewrite Hlen, Nat.eqb_refl, assert_holds. cbn [bind].
  set (maxVal := FunctionValues.val (FunctionValues.max f)).
  set (h := fun (i : nat) (y : D) =>
              match nth_error sp i with
              | Some pt =>
                  match nth_error (PureVerticalScaling.fmax_ this) (cell pt) with
                  | Some fm => y * (fm / maxVal)
                  | None => y
                  end
              | None => y
              end).
  destruct (for_each_seq_store_all
              (PureVerticalScaling.vertScale_body this maxVal sp) h val)
    as (out & Hrun & Hout & Hnth).
  { intros ret i y Hi Hret Hy. unfold PureVerticalScaling.vertScale_body, h.
    destruct (@nth_error_below _ sp i ltac:(lia)) as [pt Hpt].
    destruct (@nth_error_below _ (PureVerticalScaling.fmax_ this) (cell pt)
                (cells_below_nth i Hcells Hpt)) as [fm Hfm].
    unfold index. rewrite Hpt. cbn [bind]. rewrite Hfm. cbn [bind].
    rewrite Hy. reflexivity. }
  exists out. repeat split; try assumption.
  intros i pt y fm Hpt Hy Hfm. rewrite (Hnth i y Hy). unfold h.
  rewrite Hpt, Hfm. reflexivity.
Qed.

Lemma PureVertical_body_quiet (this : PureVerticalScaling.Impl D) (maxVal : D)
    (sp : SaturationPoints D) (ret : list D) (i : nat) :
  ~ reports_failure (PureVerticalScaling.vertScale_body this maxVal sp ret i).
Proof.
  unfold PureVerticalScaling.vertScale_body.
  repeat (apply bind_quiet; [apply index_quiet | intros ?]).
  apply store_quiet.
Qed.

End PureVerticalFacts.

(* ===================================================================== *)
(** * Traced runs: the divisions a call performs                          *)
(* ===================================================================== *)

Lemma index_map (A B : Type) (g : A -> B) (v : list A) (i : nat) :
  index (map g v) i = outcome_map g (index v i).
Proof.
  unfold index. rewrite nth_error_map. destruct (nth_error v i); reflexivity.
Qed.

Lemma defaulted_untraced (a b : float) :
  defaultedScaledSaturation (untraced a) (untraced b)
  = untraced (defaultedScaledSaturation a b).
Proof.
  unfold defaultedScaledSaturation. cbn.
  destruct (abs a <? 1e20)%float; reflexivity.
Qed.

Lemma validSaturation_untraced (a : float) :
  validSaturation (untraced a) = validSaturation a.
Proof. reflexivity. Qed.

Lemma TwoPoint_sMin_traced (this : TwoPointScaling.Impl float)
    (tep : TableEndPoints float) (c : nat) :
  TwoPointScaling.sMin (trace_two this) c (trace_tep tep)
  = outcome_map untraced (TwoPointScaling.sMin this c tep).
Proof.
  unfold TwoPointScaling.sMin, trace_two.
  cbn [TwoPointScaling.smin_ trace_tep low]. rewrite index_map.
  destruct (index (TwoPointScaling.smin_ this) c); cbn [outcome_map bind];
    try reflexivity.
  rewrite defaulted_untraced. reflexivity.
Qed.

Lemma TwoPoint_sMax_traced (this : TwoPointScaling.Impl float)
    (tep : TableEndPoints float) (c : nat) :
  TwoPointScaling.sMax (trace_two this) c (trace_tep tep)
  = outcome_map untraced (TwoPointScaling.sMax this c tep).
Proof.
  unfold TwoPointScaling.sMax, trace_two.
  cbn [TwoPointScaling.smax_ trace_tep high]. rewrite index_map.
  destruct (index (TwoPointScaling.smax_ this) c); cbn [outcome_map bind];
    try reflexivity.
  rewrite defaulted_untraced. reflexivity.
Qed.

Lemma ThreePoint_sMin_traced (this : ThreePointScaling.Impl float)
    (tep : TableEndPoints float) (c : nat) :
  ThreePointScaling.sMin (trace_three this) c (trace_tep tep)
  = outcome_map untraced (ThreePointScaling.sMin this c tep).
Proof.
  unfold ThreePointScaling.sMin, trace_three.
  cbn [ThreePointScaling.smin_ trace_tep low]. rewrite index_map.
  destruct (index (ThreePointScaling.smin_ this) c); cbn [outcome_map bind];
    try reflexivity.
  rewrite defaulted_untraced. reflexivity.
Qed.

Lemma ThreePoint_sDisp_traced (this : ThreePointScaling.Impl float)
    (tep : TableEndPoints float) (c : nat) :
  ThreePointScaling.sDisp (trace_three this) c (trace_tep tep)
  = outcome_map untraced (ThreePointScaling.sDisp this c tep).
Proof.
  unfold ThreePointScaling.sDisp, trace_three.
  cbn [ThreePointScaling.sdisp_ trace_tep disp]. rewrite index_map.
  destruct (index (ThreePointScaling.sdisp_ this) c); cbn [outcome_map bind];
    try reflexivity.
  rewrite defaulted_untraced. reflexivity.
Qed.

Lemma ThreePoint_sMax_traced (this : ThreePointScaling.Impl float)
    (tep : TableEndPoints float) (c : nat) :
  ThreePointScaling.sMax (trace_three this) c (trace_tep tep)
  = outcome_map untraced (ThreePointScaling.sMax this c tep).
Proof.
  unfold ThreePointScaling.sMax, trace_three.
  cbn [ThreePointScaling.smax_ trace_tep high]. rewrite index_map.
  destruct (index (ThreePointScaling.smax_ this) c); cbn [outcome_map bind];
    try reflexivity.
  rewrite defaulted_untraced. reflexivity.
Qed.

(** Erasing the logs of a traced loop gives the binary64 loop. *)
Lemma for_each_erase (A A' : Type)
    (bodyT : list traced -> A' -> outcome (list traced))
    (bodyF : list float -> A -> outcome (list float)) (g : A -> A')
    (xs : list A) :
  (forall s x, outcome_map (map value) (bodyT s (g x)) = bodyF (map value s) x) ->
  forall s, outcome_map (map value) (for_each bodyT (map g xs) s)
            = for_each bodyF xs (map value s).
Proof.
  intros Hbody. induction xs as [|x xs IH]; intros s; cbn [map for_each].
  - reflexivity.
  - rewrite <- Hbody. destruct (bodyT s (g x)); cbn [outcome_map bind];
      try reflexivity.
    apply IH.
Qed.

Ltac erase_body :=
  intros;
  unfold TwoPointScaling.eval_body, TwoPointScaling.reverse_body,
         ThreePointScaling.eval_body, ThreePointScaling.reverse_body,
         TwoPointScaling.handleInvalidEndpoint,
         ThreePointScaling.handleInvalidEndpoint;
  cbn [trace_point cell sat];
  rewrite ?TwoPoint_sMin_traced, ?TwoPoint_sMax_traced,
          ?ThreePoint_sMin_traced, ?ThreePoint_sDisp_traced,
          ?ThreePoint_sMax_traced;
  repeat match goal with
  | |- context [outcome_map untraced ?c] =>
      destruct c; cbn [outcome_map bind]; try reflexivity
  end;
  repeat match goal with
  | |- context [validSaturations (untraced ?a :: ?l)] =>
      change (validSaturations (untraced a :: l))
        with (validSaturations (D := float) (a :: map value l));
      cbn [map value untraced]
  end;
  repeat match goal with
  | |- context [negb (validSaturations ?l)] =>
      destruct (validSaturations l); cbn [negb outcome_map]
  end;
  unfold set_back, push_back;
  cbn [trace_two trace_three TwoPointScaling.handle_invalid_
       ThreePointScaling.handle_invalid_];
  repeat match goal with
  | |- context [match ?p with UseUnscaled => _ | IgnorePoint => _ end] =>
      destruct p
  end;
  rewrite ?removelast_last, ?map_app; cbn [map];
  try reflexivity.

Lemma TwoPoint_eval_body_erase (this : TwoPointScaling.Impl float)
    (tep : TableEndPoints float) (s : list traced) (pt : SaturationAssoc float) :
  outcome_map (map value)
    (TwoPointScaling.eval_body (trace_two this) (trace_tep tep)
       (high (trace_tep tep) - low (trace_tep tep))%double s (trace_point pt))
  = TwoPointScaling.eval_body this tep (high tep - low tep)%float
      (map value s) pt.
Proof.
  erase_body. do 2 f_equal. cbn.
  destruct (_ <? sat pt)%float; cbn; [|reflexivity].
  destruct (sat pt <? _)%float; reflexivity.
Qed.

Lemma TwoPoint_reverse_body_erase (this : TwoPointScaling.Impl float)
    (tep : TableEndPoints float) (s : list traced) (pt : SaturationAssoc float) :
  outcome_map (map value)
    (TwoPointScaling.reverse_body (trace_two this) (trace_tep tep)
       (high (trace_tep tep) - low (trace_tep tep))%double s (trace_point pt))
  = TwoPointScaling.reverse_body this tep (high tep - low tep)%float
      (map value s) pt.
Proof.
  erase_body. do 2 f_equal. cbn.
  destruct (low tep <? sat pt)%float; cbn; [|reflexivity].
  destruct (sat pt <? high tep)%float; reflexivity.
Qed.

Lemma ThreePoint_eval_body_erase (this : ThreePointScaling.Impl float)
    (tep : TableEndPoints float) (s : list traced) (pt : SaturationAssoc float) :
  outcome_map (map value)
    (ThreePointScaling.eval_body (trace_three this) (trace_tep tep) s
       (trace_point pt))
  = ThreePointScaling.eval_body this tep (map value s) pt.
Proof.
  erase_body. do 2 f_equal. cbn.
  destruct (_ <? sat pt)%float; cbn; [|reflexivity].
  destruct (sat pt <? _)%float; cbn; [|reflexivity].
  destruct (sat pt <? _)%float; reflexivity.
Qed.

Lemma ThreePoint_reverse_body_erase (this : ThreePointScaling.Impl float)
    (tep : TableEndPoints float) (s : list traced) (pt : SaturationAssoc float) :
  outcome_map (map value)
    (ThreePointScaling.reverse_body (trace_three this) (trace_tep tep) s
       (trace_point pt))
  = ThreePointScaling.reverse_body this tep (map value s) pt.
Proof.
  erase_body. do 2 f_equal. cbn.
  destruct (low tep <? sat pt)%float; cbn; [|reflexivity].
  destruct (sat pt <? high tep)%float; cbn; [|reflexivity].
  destruct (sat pt <? disp tep)%float; reflexivity.
Qed.

(** The traced calls compute what the binary64 calls compute. *)
Lemma traced_calls_erase (two : TwoPointScaling.Impl float)
    (three : ThreePointScaling.Impl float) (tep : TableEndPoints float)
    (sp : SaturationPoints float) :
  outcome_map (map value) (TwoPoint_eval_traced two tep sp)
  = TwoPointScaling.eval two tep sp /\
  outcome_map (map value) (TwoPoint_reverse_traced two tep sp)
  = TwoPointScaling.reverse two tep sp /\
  outcome_map (map value) (ThreePoint_eval_traced three tep sp)
  = ThreePointScaling.eval three tep sp /\
  outcome_map (map value) (ThreePoint_reverse_traced three tep sp)
  = ThreePointScaling.reverse three tep sp.
Proof.
  unfold TwoPoint_eval_traced, TwoPoint_reverse_traced, ThreePoint_eval_traced,
    ThreePoint_reverse_traced, TwoPointScaling.eval, TwoPointScaling.reverse,
    ThreePointScaling.eval, ThreePointScaling.reverse.
  repeat split.
  - apply (for_each_erase _ _ trace_point sp (TwoPoint_eval_body_erase two tep) []).
  - apply (for_each_erase _ _ trace_point sp (TwoPoint_reverse_body_erase two tep) []).
  - apply (for_each_erase _ _ trace_point sp (ThreePoint_eval_body_erase three tep) []).
  - apply (for_each_erase _ _ trace_point sp (ThreePoint_reverse_body_erase three tep) []).
Qed.

(** An entry of a returned loop state comes from one run of the body. *)
Lemma for_each_In (A B : Type) (body : list B -> A -> outcome (list B)) :
  (forall s x, body s x = (r <- body [] x ;; Returns (s ++ r))) ->
  forall xs out v,
    for_each body xs [] = Returns out -> In v out ->
    exists x r, In x xs /\ body [] x = Returns r /\ In v r.
Proof.
  intros Hbody xs. induction xs as [|x xs IH]; intros out v Hrun Hv.
  - cbn in Hrun. inversion Hrun; subst. destruct Hv.
  - cbn [for_each] in Hrun.
    destruct (body [] x) as [r| | |] eqn:Hx; cbn [bind] in Hrun;
      try discriminate Hrun.
    rewrite (for_each_append body Hbody xs r) in Hrun.
    destruct (for_each body xs []) as [r'| | |] eqn:Hxs; cbn [bind] in Hrun;
      try discriminate Hrun.
    inversion Hrun; subst out. apply in_app_or in Hv. destruct Hv as [Hv|Hv].
    + exists x, r. split; [left; reflexivity | split; assumption].
    + destruct (IH r' v eq_refl Hv) as (x' & r'' & Hin & Hb & Hvr).
      exists x', r''. split; [right; exact Hin | split; assumption].
Qed.

(** Positivity of the divisor from the range of the saturation. *)
Lemma strictly_between_positive (s lo hi d : float) :
  strictly_between s lo hi d -> (0 <? d)%float = true.
Proof.
  intros (-> & Hlo & Hhi). apply sub_pos. float_order.
Qed.

Lemma from_up_to_positive (s lo hi d : float) :
  from_up_to s lo hi d -> (0 <? d)%float = true.
Proof.
  intros (-> & Hlo & Hhi). apply sub_pos. float_order.
Qed.

Lemma key_abs (x : float) : key x = None -> key (abs x) = None.
Proof.
  unfold key. rewrite abs_spec. destruct (Prim2SF x); cbn; congruence.
Qed.

(** A resolved end point is a number as soon as its default is one. *)
Lemma defaulted_not_nan (x dflt : float) :
  is_nan dflt = false -> is_nan (defaultedScaledSaturation x dflt) = false.
Proof.
  intros Hd. unfold defaultedScaledSaturation. cbn [flt fabs lit_1e20 binary64].
  destruct (abs x <? 1e20)%float eqn:E; [|exact Hd].
  unfold is_nan. rewrite eqb_key. rewrite ltb_key in E.
  destruct (key x) eqn:Kx.
  - rewrite Z.eqb_refl. reflexivity.
  - rewrite (key_abs x Kx) in E. discriminate E.
Qed.

Lemma nlt_leb (s r : float) :
  (s <? r)%float = false -> is_nan r = false -> is_nan s = false ->
  (r <=? s)%float = true.
Proof. unfold is_nan. intros H1 H2 H3. float_order. Qed.

Lemma ltb_not_nan_l (x y : float) : (x <? y)%float = true -> is_nan x = false.
Proof.
  unfold is_nan. intros H. rewrite eqb_key. rewrite ltb_key in H.
  destruct (key x); [|discriminate H]. rewrite Z.eqb_refl. reflexivity.
Qed.

(** The divisors logged by one run of a traced loop body, with the
    comparisons that led to the division. *)
Ltac traced_body :=
  unfold TwoPointScaling.eval_body, TwoPointScaling.reverse_body,
         ThreePointScaling.eval_body, ThreePointScaling.reverse_body,
         TwoPointScaling.handleInvalidEndpoint,
         ThreePointScaling.handleInvalidEndpoint;
  cbn [trace_point cell sat];
  rewrite ?TwoPoint_sMin_traced, ?TwoPoint_sMax_traced,
          ?ThreePoint_sMin_traced, ?ThreePoint_sDisp_traced,
          ?ThreePoint_sMax_traced.

Lemma TwoPoint_eval_body_divisors (this : TwoPointScaling.Impl float)
    (tep : TableEndPoints float) (pt : SaturationAssoc float)
    (r : list traced) (v : traced) (d : float) :
  TwoPointScaling.eval_body (trace_two this) (trace_tep tep)
    (high (trace_tep tep) - low (trace_tep tep))%double [] (trace_point pt)
  = Returns r ->
  In v r -> In d (divisors v) ->
  exists sLO sHI,
    TwoPointScaling.sMin this (cell pt) tep = Returns sLO /\
    TwoPointScaling.sMax this (cell pt) tep = Returns sHI /\
    strictly_between (sat pt) sLO sHI d.
Proof.
  traced_body.
  destruct (TwoPointScaling.sMin this (cell pt) tep) as [sLO| | |];
    cbn [outcome_map bind]; try discriminate.
  destruct (TwoPointScaling.sMax this (cell pt) tep) as [sHI| | |];
    cbn [outcome_map bind]; try discriminate.
  intros Hr Hv Hd. exists sLO, sHI. split; [reflexivity|]. split; [reflexivity|].
  destruct (validSaturations [untraced sLO; untraced sHI]); cbn [negb] in Hr;
    inversion Hr; subst r; clear Hr.
  - rewrite set_back_push_back in Hv. destruct Hv as [<-|[]].
    cbn [flt binary64_traced untraced value] in Hd.
    destruct (sLO <? sat pt)%float eqn:Hlo; cbn [negb] in Hd; [|destruct Hd].
    destruct (sat pt <? sHI)%float eqn:Hhi; cbn [negb] in Hd; [|destruct Hd].
    cbn in Hd. destruct Hd as [<-|[]]. repeat split; assumption.
  - cbn [trace_two TwoPointScaling.handle_invalid_] in Hv.
    destruct (TwoPointScaling.handle_invalid_ this);
      destruct Hv as [<-|[]]; destruct Hd.
Qed.

Lemma TwoPoint_reverse_body_divisors (this : TwoPointScaling.Impl float)
    (tep : TableEndPoints float) (pt : SaturationAssoc float)
    (r : list traced) (v : traced) (d : float) :
  TwoPointScaling.reverse_body (trace_two this) (trace_tep tep)
    (high (trace_tep tep) - low (trace_tep tep))%double [] (trace_point pt)
  = Returns r ->
  In v r -> In d (divisors v) ->
  strictly_between (sat pt) (low tep) (high tep) d.
Proof.
  traced_body.
  destruct (TwoPointScaling.sMin this (cell pt) tep) as [sLO| | |];
    cbn [outcome_map bind]; try discriminate.
  destruct (TwoPointScaling.sMax this (cell pt) tep) as [sHI| | |];
    cbn [outcome_map bind]; try discriminate.
  intros Hr Hv Hd.
  destruct (validSaturations [untraced sLO; untraced sHI]); cbn [negb] in Hr;
    inversion Hr; subst r; clear Hr.
  - rewrite set_back_push_back in Hv. destruct Hv as [<-|[]].
    cbn [flt binary64_traced untraced value trace_tep low high] in Hd.
    destruct (low tep <? sat pt)%float eqn:Hlo; cbn [negb] in Hd; [|destruct Hd].
    destruct (sat pt <? high tep)%float eqn:Hhi; cbn [negb] in Hd; [|destruct Hd].
    cbn in Hd. destruct Hd as [<-|[]]. repeat split; assumption.
  - cbn [trace_two TwoPointScaling.handle_invalid_] in Hv.
    destruct (TwoPointScaling.handle_invalid_ this);
      destruct Hv as [<-|[]]; destruct Hd.
Qed.

Lemma ThreePoint_eval_body_divisors (this : ThreePointScaling.Impl float)
    (tep : TableEndPoints float) (pt : SaturationAssoc float)
    (r : list traced) (v : traced) (d : float) :
  ThreePointScaling.eval_body (trace_three this) (trace_tep tep) []
    (trace_point pt) = Returns r ->
  In v r -> In d (divisors v) ->
  exists sLO sR sHI,
    ThreePointScaling.sMin this (cell pt) tep = Returns sLO /\
    ThreePointScaling.sDisp this (cell pt) tep = Returns sR /\
    ThreePointScaling.sMax this (cell pt) tep = Returns sHI /\
    (strictly_between (sat pt) sLO sR d \/
     (d = (sHI - sR)%float /\ (sat pt <? sR)%float = false /\
      (sat pt <? sHI)%float = true)).
Proof.
  traced_body.
  destruct (ThreePointScaling.sMin this (cell pt) tep) as [sLO| | |];
    cbn [outcome_map bind]; try discriminate.
  destruct (ThreePointScaling.sDisp this (cell pt) tep) as [sR| | |];
    cbn [outcome_map bind]; try discriminate.
  destruct (ThreePointScaling.sMax this (cell pt) tep) as [sHI| | |];
    cbn [outcome_map bind]; try discriminate.
  intros Hr Hv Hd. exists sLO, sR, sHI. do 3 (split; [reflexivity|]).
  destruct (validSaturations [untraced sLO; untraced sR; untraced sHI]);
    cbn [negb] in Hr; inversion Hr; subst r; clear Hr.
  - rewrite set_back_push_back in Hv. destruct Hv as [<-|[]].
    cbn [flt binary64_traced untraced value] in Hd.
    destruct (sLO <? sat pt)%float eqn:Hlo; cbn [negb] in Hd; [|destruct Hd].
    destruct (sat pt <? sHI)%float eqn:Hhi; cbn [negb] in Hd; [|destruct Hd].
    destruct (sat pt <? sR)%float eqn:Hr; cbn in Hd; destruct Hd as [<-|[]].
    + left. repeat split; assumption.
    + right. repeat split; assumption.
  - cbn [trace_three ThreePointScaling.handle_invalid_] in Hv.
    destruct (ThreePointScaling.handle_invalid_ this);
      destruct Hv as [<-|[]]; destruct Hd.
Qed.

Lemma ThreePoint_reverse_body_divisors (this : ThreePointScaling.Impl float)
    (tep : TableEndPoints float) (pt : SaturationAssoc float)
    (r : list traced) (v : traced) (d : float) :
  ThreePointScaling.reverse_body (trace_three this) (trace_tep tep) []
    (trace_point pt) = Returns r ->
  In v r -> In d (divisors v) ->
  strictly_between (sat pt) (low tep) (disp tep) d \/
  (d = (high tep - disp tep)%float /\ (sat pt <? disp tep)%float = false /\
   (sat pt <? high tep)%float = true).
Proof.
  traced_body.
  destruct (ThreePointScaling.sMin this (cell pt) tep) as [sLO| | |];
    cbn [outcome_map bind]; try discriminate.
  destruct (ThreePointScaling.sDisp this (cell pt) tep) as [sR| | |];
    cbn [outcome_map bind]; try discriminate.
  destruct (ThreePointScaling.sMax this (cell pt) tep) as [sHI| | |];
    cbn [outcome_map bind]; try discriminate.
  intros Hr Hv Hd.
  destruct (validSaturations [untraced sLO; untraced sR; untraced sHI]);
    cbn [negb] in Hr; inversion Hr; subst r; clear Hr.
  - rewrite set_back_push_back in Hv. destruct Hv as [<-|[]].
    cbn [flt binary64_traced untraced value trace_tep low disp high] in Hd.
    destruct (low tep <? sat pt)%float eqn:Hlo; cbn [negb] in Hd; [|destruct Hd].
    destruct (sat pt <? high tep)%float eqn:Hhi; cbn [negb] in Hd; [|destruct Hd].
    destruct (sat pt <? disp tep)%float eqn:Hr; cbn in Hd; destruct Hd as [<-|[]].
    + left. repeat split; assumption.
    + right. repeat split; assumption.
  - cbn [trace_three ThreePointScaling.handle_invalid_] in Hv.
    destruct (ThreePointScaling.handle_invalid_ this);
      destruct Hv as [<-|[]]; destruct Hd.
Qed.

(* ===================================================================== *)
(** * C1: clamping and interpolation of [TwoPointScaling::eval]           *)
(* ===================================================================== *)

(** C1, as stated, fails: with [sLO = sHI = s] the point is both at or
    below [sLO] and at or above [sHI]; the code tests [s <= sLO] first and
    stores [tep.low], not [tep.high]. *)
Lemma TwoPoint_eval_three_cases_fails : ~ TwoPoint_eval_three_cases.
Proof.
  intros Hclaim.
  set (this := {| TwoPointScaling.smin_ := [0.5%float];
                  TwoPointScaling.smax_ := [0.5%float];
                  TwoPointScaling.handle_invalid_ := UseUnscaled |}).
  set (tep := {| low := 0%float; disp := 0%float; high := 1%float |}).
  set (pt := {| cell := 0; sat := 0.5%float |}).
  destruct (Hclaim this tep [pt] [0%float] 0 pt 0.5%float 0.5%float)
    as (_ & Hhigh & _); try reflexivity; try (split; reflexivity).
  specialize (Hhigh eq_refl). cbn in Hhigh.
  inversion Hhigh.
Qed.

(** C1 (amended): for a point whose resolved end points both lie in
    [0,1], [TwoPointScaling::eval] stores [tep.low] when [s <= sLO],
    [tep.high] when [s > sLO] and [s >= sHI], and
    [tep.low + ((s - sLO)/(sHI - sLO)) * (tep.high - tep.low)] when
    [sLO < s < sHI]. *)
Theorem TwoPoint_eval_clamps_then_interpolates
    (this : TwoPointScaling.Impl float) (tep : TableEndPoints float)
    (sp : SaturationPoints float) (i : nat) (pt : SaturationAssoc float)
    (sLO sHI : float) :
  TwoPoint_in_range this sp ->
  nth_error sp i = Some pt ->
  TwoPointScaling.sMin this (cell pt) tep = Returns sLO ->
  TwoPointScaling.sMax this (cell pt) tep = Returns sHI ->
  in_unit_interval sLO -> in_unit_interval sHI ->
  exists out,
    TwoPointScaling.eval this tep sp = Returns out /\
    ((sat pt <=? sLO)%float = true -> nth_error out i = Some (low tep)) /\
    ((sLO <? sat pt)%float = true -> (sHI <=? sat pt)%float = true ->
     nth_error out i = Some (high tep)) /\
    ((sLO <? sat pt)%float = true -> (sat pt <? sHI)%float = true ->
     nth_error out i
     = Some (low tep + ((sat pt - sLO) / (sHI - sLO)) * (high tep - low tep))%float).
Proof.
  intros Hrange Hi HLO HHI VLO VHI.
  destruct (TwoPoint_eval_entrywise tep Hrange) as (out & Hout & Hall).
  exists out. split; [exact Hout|].
  destruct (entrywise_nth i Hall Hi) as (v & Hv & Hpt).
  rewrite (TwoPoint_eval_point this tep pt HLO HHI) in Hpt.
  rewrite validSaturations_2, (validSaturation_in_unit VLO),
    (validSaturation_in_unit VHI) in Hpt.
  cbn [andb flt fadd fsub fmul fdiv binary64] in Hpt.
  inversion Hpt as [Ev]. clear Hpt. rewrite Hv. clear Hv. subst v.
  repeat split.
  - intros Hle. rewrite (leb_not_gt Hle). reflexivity.
  - intros Hgt Hge. rewrite Hgt, (leb_not_gt Hge). reflexivity.
  - intros Hgt Hlt. rewrite Hgt, Hlt. reflexivity.
Qed.

Lemma TwoPoint_eval_clamps_then_interpolates_witness :
  exists out,
    TwoPointScaling.eval
      {| TwoPointScaling.smin_ := [0.25%float];
         TwoPointScaling.smax_ := [0.75%float];
         TwoPointScaling.handle_invalid_ := UseUnscaled |}
      {| low := 0%float; disp := 0%float; high := 1%float |}
      [{| cell := 0; sat := 0.5%float |}] = Returns out /\
    ((0.5 <=? 0.25)%float = true -> nth_error out 0 = Some 0%float) /\
    ((0.25 <? 0.5)%float = true -> (0.75 <=? 0.5)%float = true ->
     nth_error out 0 = Some 1%float) /\
    ((0.25 <? 0.5)%float = true -> (0.5 <? 0.75)%float = true ->
     nth_error out 0
     = Some (0 + ((0.5 - 0.25) / (0.75 - 0.25)) * (1 - 0))%float).
Proof.
  apply (@TwoPoint_eval_clamps_then_interpolates
           {| TwoPointScaling.smin_ := [0.25%float];
              TwoPointScaling.smax_ := [0.75%float];
              TwoPointScaling.handle_invalid_ := UseUnscaled |}
           {| low := 0%float; disp := 0%float; high := 1%float |}
           [{| cell := 0; sat := 0.5%float |}] 0
           {| cell := 0; sat := 0.5%float |} 0.25%float 0.75%float).
  - split; repeat constructor.
  - reflexivity.
  - reflexivity.
  - reflexivity.
  - split; reflexivity.
  - split; reflexivity.
Defined.

(* ===================================================================== *)
(** * C2: the branches of [CritSatVerticalScaling::vertScale]             *)
(* ===================================================================== *)

Section CritSatFacts.

Context {D : Type} `{Double D}.
Local Open Scope double_scope.

Lemma CritSat_vertScale_returns (NDEBUG : bool)
    (this : CritSatVerticalScaling.Impl D) (f : FunctionValues.t D)
    (sp : SaturationPoints D) (val : list D) :
  let fdisp := FunctionValues.val (FunctionValues.disp f) in
  let sdisp := FunctionValues.sat (FunctionValues.disp f) in
  let fmax := FunctionValues.val (FunctionValues.max f) in
  let smax := FunctionValues.sat (FunctionValues.max f) in
  length sp = length val ->
  CritSat_in_range this sp ->
  NDEBUG = true \/ ((fmax <? fdisp) = false /\ (smax <? sdisp) = false) ->
  exists out,
    CritSatVerticalScaling.vertScale NDEBUG this f sp val = Returns out /\
    length out = length val /\
    forall (i : nat) (pt : SaturationAssoc D) (y sr fr fm : D),
      nth_error sp i = Some pt -> nth_error val i = Some y ->
      nth_error (CritSatVerticalScaling.sdisp_ this) (cell pt) = Some sr ->
      nth_error (CritSatVerticalScaling.fdisp_ this) (cell pt) = Some fr ->
      nth_error (CritSatVerticalScaling.fmax_ this) (cell pt) = Some fm ->
      nth_error out i
      = Some (if negb (sat pt >? sr) then y * (fr / fdisp)
              else if fmax >? fdisp then
                fr + ((y - fdisp) / (fmax - fdisp)) * (fm - fr)
              else if sdisp >? smax then
                fr + ((sat pt - sdisp) / (smax - sdisp)) * (fm - fr)
              else fm).
Proof.
  intros fdisp sdisp fmax smax Hlen (Hsd & Hfd & Hfm) Hasserts.
  unfold CritSatVerticalScaling.vertScale.
  fold fdisp sdisp fmax smax.
  rewrite Hlen, Nat.eqb_refl, assert_holds. cbn [bind].
  assert (Ha : forall what,
             assert NDEBUG (negb (fmax <? fdisp)) what = Returns tt /\
             assert NDEBUG (negb (smax <? sdisp)) what = Returns tt).
  { intros what. destruct Hasserts as [->|[-> ->]]; split; try reflexivity;
      apply assert_holds. }
  rewrite (proj1 (Ha _)), (proj2 (Ha _)). cbn [bind]. clear Ha.
  set (h := fun (i : nat) (y : D) =>
     match nth_error sp i with
     | Some pt =>
         match nth_error (CritSatVerticalScaling.sdisp_ this) (cell pt),
               nth_error (CritSatVerticalScaling.fdisp_ this) (cell pt),
               nth_error (CritSatVerticalScaling.fmax_ this) (cell pt) with
         | Some sr, Some fr, Some fm =>
             if negb (sat pt >? sr) then y * (fr / fdisp)
             else if fmax >? fdisp then
               fr + ((y - fdisp) / (fmax - fdisp)) * (fm - fr)
             else if sdisp >? smax then
               fr + ((sat pt - sdisp) / (smax - sdisp)) * (fm - fr)
             else fm
         | _, _, _ => y
         end
     | None => y
     end).
  destruct (for_each_seq_store_all
              (CritSatVerticalScaling.vertScale_body this fdisp sdisp fmax smax
                 (fmax >? fdisp) (sdisp >? smax) sp) h val)
    as (out & Hrun & Hout & Hnth).
  { intros ret i y Hi Hret Hy. unfold CritSatVerticalScaling.vertScale_body, h.
    destruct (@nth_error_below _ sp i ltac:(lia)) as [pt Hpt].
    destruct (@nth_error_below _ _ (cell pt) (cells_below_nth i Hsd Hpt)) as [sr Esr].
    destruct (@nth_error_below _ _ (cell pt) (cells_below_nth i Hfd Hpt)) as [fr Efr].
    destruct (@nth_error_below _ _ (cell pt) (cells_below_nth i Hfm Hpt)) as [fm Efm].
    unfold index. rewrite Hy. cbn [bind]. rewrite Hpt. cbn [bind].
    rewrite Esr. cbn [bind]. rewrite Efr. cbn [bind]. rewrite Efm. reflexivity. }
  exists out. repeat split; try assumption.
  intros i pt y sr fr fm Hpt Hy Esr Efr Efm. rewrite (Hnth i y Hy). unfold h.
  rewrite Hpt, Esr, Efr, Efm. reflexivity.
Qed.

End CritSatFacts.

(** The first branch is taken unless [s > sdisp_[cell]]: for
    [s <= sdisp_[cell]], and for a NaN on either side. *)
Lemma not_gt_iff_le_or_nan (s sr : float) :
  (sr <? s)%float = false
  <-> (s <=? sr)%float = true \/ is_nan s = true \/ is_nan sr = true.
Proof.
  unfold is_nan. split.
  - intros H. rewrite ltb_key in H. rewrite leb_key, !eqb_key.
    destruct (key s), (key sr); auto.
    left. lia.
  - intros [H|[H|H]]; float_order.
Qed.

(** C2, as stated, fails for a saturation that is NaN: [s <=
    sdisp_[cell]] is false, but so is [s > sdisp_[cell]], and line 409
    takes the first branch. *)
Lemma CritSat_vertScale_as_described_fails :
  ~ CritSat_vertScale_as_described.
Proof.
  intros Hclaim.
  set (this := {| CritSatVerticalScaling.sdisp_ := [0.5%float];
                  CritSatVerticalScaling.fdisp_ := [0.25%float];
                  CritSatVerticalScaling.fmax_ := [0.75%float] |}).
  set (f := {| FunctionValues.disp :=
                 {| FunctionValues.sat := 0.75%float; FunctionValues.val := 0.5%float |};
               FunctionValues.max :=
                 {| FunctionValues.sat := 1%float; FunctionValues.val := 1%float |} |}).
  set (pt := {| cell := 0; sat := PrimFloat.nan |}).
  assert (H : nth_error [0.3125%float] 0 = Some 0.375%float).
  { exact (Hclaim false this f [pt] [0.625%float] [0.3125%float] 0 pt
             0.625%float 0.5%float 0.25%float 0.75%float
             eq_refl eq_refl eq_refl eq_refl eq_refl eq_refl eq_refl). }
  cbn [nth_error] in H. inversion H.
Qed.

(** The call of the refutation. *)
Example CritSat_vertScale_NaN_run :
  CritSatVerticalScaling.vertScale false
    {| CritSatVerticalScaling.sdisp_ := [0.5%float];
       CritSatVerticalScaling.fdisp_ := [0.25%float];
       CritSatVerticalScaling.fmax_ := [0.75%float] |}
    {| FunctionValues.disp :=
         {| FunctionValues.sat := 0.75%float; FunctionValues.val := 0.5%float |};
       FunctionValues.max :=
         {| FunctionValues.sat := 1%float; FunctionValues.val := 1%float |} |}
    [{| cell := 0; sat := PrimFloat.nan |}]
    [0.625%float]
  = Returns [0.3125%float].
Proof. reflexivity. Qed.

(** C2 (amended): with [points.size() == values.size()], entry [i] of
    [CritSatVerticalScaling::vertScale] for the point [(cell, s)] and
    the input value [y] is [y * (fdisp_[cell] / f.disp.val)] unless
    [s > sdisp_[cell]]: that is, when [s <= sdisp_[cell]], and also
    when [s] or [sdisp_[cell]] is NaN.  When [s > sdisp_[cell]] it is
    [fdisp_[cell] + t*(fmax_[cell] - fdisp_[cell])] with
    [t = (y - f.disp.val)/(f.max.val - f.disp.val)] if
    [f.max.val > f.disp.val]; else the same with
    [t = (s - f.disp.sat)/(f.max.sat - f.disp.sat)] if
    [f.disp.sat > f.max.sat]; else [fmax_[cell]].  In particular
    [f.max.val == f.disp.val] and [f.disp.sat == f.max.sat] give
    [fmax_[cell]] for [s > sdisp_[cell]].  (The call returns when the
    cells are within the arrays and, in a build with assertions, the
    table has neither [f.max.val < f.disp.val] nor
    [f.max.sat < f.disp.sat].) *)
Theorem CritSat_vertScale_branches
    (NDEBUG : bool) (this : CritSatVerticalScaling.Impl float)
    (f : FunctionValues.t float) (sp : SaturationPoints float)
    (val : list float) :
  let fdisp := FunctionValues.val (FunctionValues.disp f) in
  let sdisp := FunctionValues.sat (FunctionValues.disp f) in
  let fmax := FunctionValues.val (FunctionValues.max f) in
  let smax := FunctionValues.sat (FunctionValues.max f) in
  length sp = length val ->
  CritSat_in_range this sp ->
  NDEBUG = true \/
    ((fmax <? fdisp)%float = false /\ (smax <? sdisp)%float = false) ->
  exists out,
    CritSatVerticalScaling.vertScale NDEBUG this f sp val = Returns out /\
    length out = length val /\
    forall (i : nat) (pt : SaturationAssoc float) (y sr fr fm : float),
      nth_error sp i = Some pt -> nth_error val i = Some y ->
      nth_error (CritSatVerticalScaling.sdisp_ this) (cell pt) = Some sr ->
      nth_error (CritSatVerticalScaling.fdisp_ this) (cell pt) = Some fr ->
      nth_error (CritSatVerticalScaling.fmax_ this) (cell pt) = Some fm ->
      ((sat pt <=? sr)%float = true \/ is_nan (sat pt) = true \/
       is_nan sr = true ->
       nth_error out i = Some (y * (fr / fdisp))%float) /\
      ((sr <? sat pt)%float = false ->
       nth_error out i = Some (y * (fr / fdisp))%float) /\
      ((sr <? sat pt)%float = true -> (fdisp <? fmax)%float = true ->
       nth_error out i
       = Some (fr + ((y - fdisp) / (fmax - fdisp)) * (fm - fr))%float) /\
      ((sr <? sat pt)%float = true -> (fdisp <? fmax)%float = false ->
       (smax <? sdisp)%float = true ->
       nth_error out i
       = Some (fr + ((sat pt - sdisp) / (smax - sdisp)) * (fm - fr))%float) /\
      ((sr <? sat pt)%float = true -> (fdisp <? fmax)%float = false ->
       (smax <? sdisp)%float = false ->
       nth_error out i = Some fm) /\
      ((fmax =? fdisp)%float = true -> (sdisp =? smax)%float = true ->
       (sr <? sat pt)%float = true ->
       nth_error out i = Some fm).
Proof.
  intros fdisp sdisp fmax smax Hlen Hrange Hasserts.
  destruct (@CritSat_vertScale_returns float binary64 NDEBUG this f sp val
              Hlen Hrange Hasserts) as (out & Hrun & Hout & Hnth).
  exists out. split; [exact Hrun|]. split; [exact Hout|].
  intros i pt y sr fr fm Hpt Hy Esr Efr Efm.
  specialize (Hnth i pt y sr fr fm Hpt Hy Esr Efr Efm).
  cbn [flt fadd fsub fmul fdiv binary64] in Hnth.
  fold fdisp sdisp fmax smax in Hnth. rewrite Hnth. clear Hnth.
  repeat split.
  - intros Hle. apply not_gt_iff_le_or_nan in Hle. rewrite Hle. reflexivity.
  - intros Hle. rewrite Hle. reflexivity.
  - intros Hgt Hv. rewrite Hgt, Hv. reflexivity.
  - intros Hgt Hv Hs. rewrite Hgt, Hv, Hs. reflexivity.
  - intros Hgt Hv Hs. rewrite Hgt, Hv, Hs. reflexivity.
  - intros Hv Hs Hgt.
    rewrite Hgt, (eqb_not_gt Hv), (eqb_not_gt Hs). reflexivity.
Qed.

Lemma CritSat_vertScale_branches_witness :
  let this := {| CritSatVerticalScaling.sdisp_ := [0.5%float];
                 CritSatVerticalScaling.fdisp_ := [0.25%float];
                 CritSatVerticalScaling.fmax_ := [0.75%float] |} in
  let f := {| FunctionValues.disp :=
                {| FunctionValues.sat := 0.75%float; FunctionValues.val := 0.5%float |};
              FunctionValues.max :=
                {| FunctionValues.sat := 1%float; FunctionValues.val := 1%float |} |} in
  let sp := [{| cell := 0; sat := 0.25%float |}; {| cell := 0; sat := 0.875%float |};
             {| cell := 0; sat := PrimFloat.nan |}] in
  let val := [0.125%float; 0.625%float; 0.625%float] in
  exists out,
    CritSatVerticalScaling.vertScale false this f sp val = Returns out /\
    length out = length val /\
    forall (i : nat) (pt : SaturationAssoc float) (y sr fr fm : float),
      nth_error sp i = Some pt -> nth_error val i = Some y ->
      nth_error (CritSatVerticalScaling.sdisp_ this) (cell pt) = Some sr ->
      nth_error (CritSatVerticalScaling.fdisp_ this) (cell pt) = Some fr ->
      nth_error (CritSatVerticalScaling.fmax_ this) (cell pt) = Some fm ->
      ((sat pt <=? sr)%float = true \/ is_nan (sat pt) = true \/
       is_nan sr = true ->
       nth_error out i = Some (y * (fr / 0.5))%float) /\
      ((sr <? sat pt)%float = false ->
       nth_error out i = Some (y * (fr / 0.5))%float) /\
      ((sr <? sat pt)%float = true -> (0.5 <? 1)%float = true ->
       nth_error out i
       = Some (fr + ((y - 0.5) / (1 - 0.5)) * (fm - fr))%float) /\
      ((sr <? sat pt)%float = true -> (0.5 <? 1)%float = false ->
       (1 <? 0.75)%float = true ->
       nth_error out i
       = Some (fr + ((sat pt - 0.75) / (1 - 0.75)) * (fm - fr))%float) /\
      ((sr <? sat pt)%float = true -> (0.5 <? 1)%float = false ->
       (1 <? 0.75)%float = false ->
       nth_error out i = Some fm) /\
      ((1 =? 0.5)%float = true -> (0.75 =? 1)%float = true ->
       (sr <? sat pt)%float = true ->
       nth_error out i = Some fm).
Proof.
  intros this f sp val.
  apply (@CritSat_vertScale_branches false this f sp val).
  - reflexivity.
  - repeat split; repeat constructor.
  - right. split; reflexivity.
Defined.

(** The call of the witness, and the same table with the degenerate
    right segment of the last branch. *)
Example CritSat_vertScale_run :
  CritSatVerticalScaling.vertScale false
    {| CritSatVerticalScaling.sdisp_ := [0.5%float];
       CritSatVerticalScaling.fdisp_ := [0.25%float];
       CritSatVerticalScaling.fmax_ := [0.75%float] |}
    {| FunctionValues.disp :=
         {| FunctionValues.sat := 0.75%float; FunctionValues.val := 0.5%float |};
       FunctionValues.max :=
         {| FunctionValues.sat := 1%float; FunctionValues.val := 1%float |} |}
    [{| cell := 0; sat := 0.25%float |}; {| cell := 0; sat := 0.875%float |}]
    [0.125%float; 0.625%float]
  = Returns [0.0625%float; 0.375%float].
Proof. reflexivity. Qed.

Example CritSat_vertScale_degenerate_run :
  CritSatVerticalScaling.vertScale false
    {| CritSatVerticalScaling.sdisp_ := [0.5%float];
       CritSatVerticalScaling.fdisp_ := [0.25%float];
       CritSatVerticalScaling.fmax_ := [0.75%float] |}
    {| FunctionValues.disp :=
         {| FunctionValues.sat := 1%float; FunctionValues.val := 1%float |};
       FunctionValues.max :=
         {| FunctionValues.sat := 1%float; FunctionValues.val := 1%float |} |}
    [{| cell := 0; sat := 0.25%float |}; {| cell := 0; sat := 0.875%float |}]
    [0.125%float; 0.625%float]
  = Returns [0.03125%float; 0.75%float].
Proof. reflexivity. Qed.

(* ===================================================================== *)
(** * C3: [eval] and [reverse] of [TwoPointScaling] as inverse maps       *)
(* ===================================================================== *)

(** C3, as stated, fails on binary64: when [tep.high] is the successor
    of [tep.low], [eval] rounds every interior saturation to [tep.low]
    or [tep.high], and [reverse] returns [sLO] or [sHI].  Here
    [s = 0.25] comes back as [0]: not even a tolerance of [1/8] is met. *)
Lemma TwoPoint_round_trip_within_fails :
  ~ TwoPoint_round_trip_within 0.125%float.
Proof.
  intros Hclaim.
  set (this := {| TwoPointScaling.smin_ := [0%float];
                  TwoPointScaling.smax_ := [1%float];
                  TwoPointScaling.handle_invalid_ := UseUnscaled |}).
  set (tep := {| low := 0.5%float; disp := 0.5%float;
                 high := 0x1.0000000000001p-1%float |}).
  assert (H : within_tolerance 0.125 0 0.25).
  { apply (Hclaim this tep 0 0.25%float 0%float 1%float 0.5%float 0%float);
      reflexivity. }
  unfold within_tolerance in H. vm_compute in H. discriminate H.
Qed.

(** The two calls of the refutation. *)
Example TwoPoint_eval_rounds_to_low :
  TwoPointScaling.eval
    {| TwoPointScaling.smin_ := [0%float]; TwoPointScaling.smax_ := [1%float];
       TwoPointScaling.handle_invalid_ := UseUnscaled |}
    {| low := 0.5%float; disp := 0.5%float; high := 0x1.0000000000001p-1%float |}
    [{| cell := 0; sat := 0.25%float |}]
  = Returns [0.5%float].
Proof. reflexivity. Qed.

Example TwoPoint_reverse_of_low :
  TwoPointScaling.reverse
    {| TwoPointScaling.smin_ := [0%float]; TwoPointScaling.smax_ := [1%float];
       TwoPointScaling.handle_invalid_ := UseUnscaled |}
    {| low := 0.5%float; disp := 0.5%float; high := 0x1.0000000000001p-1%float |}
    [{| cell := 0; sat := 0.5%float |}]
  = Returns [0%float].
Proof. reflexivity. Qed.

(** A smaller tolerance is not met either. *)
Lemma within_tolerance_weaken (tol tol' a b : float) :
  (tol <=? tol')%float = true ->
  within_tolerance tol a b -> within_tolerance tol' a b.
Proof. unfold within_tolerance. intros H1 H2. float_order. Qed.

Lemma TwoPoint_round_trip_fails_below (tol : float) :
  (tol <=? 0.125)%float = true -> ~ TwoPoint_round_trip_within tol.
Proof.
  intros Htol Hclaim.
  set (this := {| TwoPointScaling.smin_ := [0%float];
                  TwoPointScaling.smax_ := [1%float];
                  TwoPointScaling.handle_invalid_ := UseUnscaled |}).
  set (tep := {| low := 0.5%float; disp := 0.5%float;
                 high := 0x1.0000000000001p-1%float |}).
  assert (H : within_tolerance tol 0 0.25).
  { apply (Hclaim this tep 0 0.25%float 0%float 1%float 0.5%float 0%float);
      reflexivity. }
  apply (within_tolerance_weaken Htol) in H.
  unfold within_tolerance in H. vm_compute in H. discriminate H.
Qed.

Lemma within_round_trip_tolerance (s' s lo hi : float) :
  is_finite s = true -> is_finite s' = true ->
  (F2Q lo < F2Q hi)%Q ->
  (Qabs (F2Q s' - F2Q s) * (F2Q hi - F2Q lo) <= 24 * ulp_1)%Q ->
  values_within (round_trip_tolerance lo hi) s' s.
Proof.
  intros Fs Fs' Hlt Hb. split; [exact Fs'|]. split; [exact Fs|].
  unfold round_trip_tolerance. apply Qle_shift_div_l; [lra|].
  apply Qle_trans with (1 := Hb). discriminate.
Qed.

Lemma unit_range (lo hi : float) :
  (0 <=? lo)%float = true -> (lo <? hi)%float = true ->
  (hi <=? 1)%float = true ->
  in_unit_interval lo /\ in_unit_interval hi.
Proof.
  intros H0 Hlt H1. pose proof (@ltb_leb _ _ Hlt) as Hle.
  repeat split; try assumption.
  - exact (@leb_trans _ _ _ Hle H1).
  - exact (@leb_trans _ _ _ H0 Hle).
Qed.

(** [eval] and [reverse] at a cell with valid end points are
    [scaled_linearly], in the two directions. *)
Lemma TwoPoint_eval_scaled_linearly (this : TwoPointScaling.Impl float)
    (tep : TableEndPoints float) (c : nat) (sLO sHI s : float) :
  TwoPointScaling.sMin this c tep = Returns sLO ->
  TwoPointScaling.sMax this c tep = Returns sHI ->
  in_unit_interval sLO -> in_unit_interval sHI ->
  TwoPointScaling.eval this tep [{| cell := c; sat := s |}]
  = Returns [scaled_linearly sLO sHI (low tep) (high tep) s].
Proof.
  intros HLO HHI VLO VHI.
  rewrite (@TwoPoint_eval_point float binary64 this tep
             {| cell := c; sat := s |} sLO sHI HLO HHI).
  rewrite validSaturations_2, (validSaturation_in_unit VLO),
    (validSaturation_in_unit VHI).
  reflexivity.
Qed.

Lemma TwoPoint_reverse_scaled_linearly (this : TwoPointScaling.Impl float)
    (tep : TableEndPoints float) (c : nat) (sLO sHI s : float) :
  TwoPointScaling.sMin this c tep = Returns sLO ->
  TwoPointScaling.sMax this c tep = Returns sHI ->
  in_unit_interval sLO -> in_unit_interval sHI ->
  TwoPointScaling.reverse this tep [{| cell := c; sat := s |}]
  = Returns [scaled_linearly (low tep) (high tep) sLO sHI s].
Proof.
  intros HLO HHI VLO VHI.
  rewrite (@TwoPoint_reverse_point float binary64 this tep
             {| cell := c; sat := s |} sLO sHI HLO HHI).
  rewrite validSaturations_2, (validSaturation_in_unit VLO),
    (validSaturation_in_unit VHI).
  reflexivity.
Qed.

(** C3 (amended): for [TwoPointScaling] with table end points
    [0 <= tep.low < tep.high <= 1] and a cell whose resolved end points
    satisfy [0 <= sLO < sHI <= 1], [reverse] after [eval] returns every
    saturation [s] strictly inside [(sLO, sHI)] within
    [2^-47 / (tep.high - tep.low)], and [eval] after [reverse] returns
    every [s] strictly inside [(tep.low, tep.high)] within
    [2^-47 / (sHI - sLO)].  All four calls return, the results are
    finite, and the distances are those of the values of the binary64
    numbers. *)
Theorem TwoPoint_round_trip_conditioned
    (this : TwoPointScaling.Impl float) (tep : TableEndPoints float)
    (c : nat) (sLO sHI : float) :
  (0 <=? low tep)%float = true -> (low tep <? high tep)%float = true ->
  (high tep <=? 1)%float = true ->
  TwoPointScaling.sMin this c tep = Returns sLO ->
  TwoPointScaling.sMax this c tep = Returns sHI ->
  (0 <=? sLO)%float = true -> (sLO <? sHI)%float = true ->
  (sHI <=? 1)%float = true ->
  (forall s : float,
     (sLO <? s)%float = true -> (s <? sHI)%float = true ->
     exists x s' : float,
       TwoPointScaling.eval this tep [{| cell := c; sat := s |}]
       = Returns [x] /\
       TwoPointScaling.reverse this tep [{| cell := c; sat := x |}]
       = Returns [s'] /\
       values_within (round_trip_tolerance (low tep) (high tep)) s' s) /\
  (forall x : float,
     (low tep <? x)%float = true -> (x <? high tep)%float = true ->
     exists s x' : float,
       TwoPointScaling.reverse this tep [{| cell := c; sat := x |}]
       = Returns [s] /\
       TwoPointScaling.eval this tep [{| cell := c; sat := s |}]
       = Returns [x'] /\
       values_within (round_trip_tolerance sLO sHI) x' x).
Proof.
  intros Hl0 Hlh Hh1 HLO HHI Hs0 Hslh Hs1.
  destruct (@unit_range _ _ Hl0 Hlh Hh1) as [Vl Vh].
  destruct (@unit_range _ _ Hs0 Hslh Hs1) as [VLO VHI].
  pose proof (unit_interval_is_finite Vl) as Fl.
  pose proof (unit_interval_is_finite Vh) as Fh.
  pose proof (unit_interval_is_finite VLO) as FLO.
  pose proof (unit_interval_is_finite VHI) as FHI.
  split.
  - intros s Hs1' Hs2'.
    destruct (@round_trip_model sLO sHI (low tep) (high tep) s
                VLO VHI Vl Vh Hs1' Hs2' Hlh) as (Fs & Fs' & Hb).
    eexists. eexists.
    split; [apply (@TwoPoint_eval_scaled_linearly this tep c sLO sHI _ HLO HHI VLO VHI)|].
    split; [apply (@TwoPoint_reverse_scaled_linearly this tep c sLO sHI _ HLO HHI VLO VHI)|].
    apply within_round_trip_tolerance; try assumption.
    apply ltb_F2Q; assumption.
  - intros x Hx1 Hx2.
    destruct (@round_trip_model (low tep) (high tep) sLO sHI x
                Vl Vh VLO VHI Hx1 Hx2 Hslh) as (Fx & Fx' & Hb).
    eexists. eexists.
    split; [apply (@TwoPoint_reverse_scaled_linearly this tep c sLO sHI _ HLO HHI VLO VHI)|].
    split; [apply (@TwoPoint_eval_scaled_linearly this tep c sLO sHI _ HLO HHI VLO VHI)|].
    apply within_round_trip_tolerance; try assumption.
    apply ltb_F2Q; assumption.
Qed.

Lemma TwoPoint_round_trip_conditioned_witness :
  let this := {| TwoPointScaling.smin_ := [0.25%float];
                 TwoPointScaling.smax_ := [0.75%float];
                 TwoPointScaling.handle_invalid_ := UseUnscaled |} in
  let tep := {| low := 0.125%float; disp := 0.5%float; high := 0.875%float |} in
  (forall s : float,
     (0.25 <? s)%float = true -> (s <? 0.75)%float = true ->
     exists x s' : float,
       TwoPointScaling.eval this tep [{| cell := 0; sat := s |}]
       = Returns [x] /\
       TwoPointScaling.reverse this tep [{| cell := 0; sat := x |}]
       = Returns [s'] /\
       values_within (round_trip_tolerance 0.125 0.875) s' s) /\
  (forall x : float,
     (0.125 <? x)%float = true -> (x <? 0.875)%float = true ->
     exists s x' : float,
       TwoPointScaling.reverse this tep [{| cell := 0; sat := x |}]
       = Returns [s] /\
       TwoPointScaling.eval this tep [{| cell := 0; sat := s |}]
       = Returns [x'] /\
       values_within (round_trip_tolerance 0.25 0.75) x' x).
Proof.
  intros this tep.
  apply (@TwoPoint_round_trip_conditioned this tep 0 0.25%float 0.75%float);
    reflexivity.
Defined.

(** A round trip that is not exact: the saturation nearest to [0.45]
    comes back as its successor, [2^-54] away and well within the
    tolerance [2^-47 / 0.75]. *)
Example TwoPoint_round_trip_run :
  let this := {| TwoPointScaling.smin_ := [0.25%float];
                 TwoPointScaling.smax_ := [0.75%float];
                 TwoPointScaling.handle_invalid_ := UseUnscaled |} in
  let tep := {| low := 0.125%float; disp := 0.5%float; high := 0.875%float |} in
  let s := 0x1.ccccccccccccdp-2%float in
  TwoPointScaling.eval this tep [{| cell := 0; sat := s |}]
  = Returns [0x1.b333333333334p-2%float] /\
  TwoPointScaling.reverse this tep
    [{| cell := 0; sat := 0x1.b333333333334p-2%float |}]
  = Returns [0x1.ccccccccccccep-2%float] /\
  (Qabs (F2Q 0x1.ccccccccccccep-2 - F2Q s) == 2 ^ (-54))%Q /\
  (round_trip_tolerance 0.125 0.875 == 2 ^ (-47) / (3 # 4))%Q.
Proof.
  intros this tep s. repeat split; vm_compute; reflexivity.
Qed.

(* ===================================================================== *)
(** * C4: the invalid end-point policy                                    *)
(* ===================================================================== *)

Lemma invalid_2 (sLO sHI : float) :
  outside_unit_interval sLO \/ outside_unit_interval sHI ->
  validSaturations [sLO; sHI] = false.
Proof.
  rewrite validSaturations_2, <- !validSaturation_outside.
  intros [E|E]; rewrite E; [reflexivity | apply andb_false_r].
Qed.

Lemma invalid_3 (sLO sR sHI : float) :
  outside_unit_interval sLO \/ outside_unit_interval sR \/
  outside_unit_interval sHI ->
  validSaturations [sLO; sR; sHI] = false.
Proof.
  rewrite validSaturations_3, <- !validSaturation_outside.
  intros [E|[E|E]]; rewrite E; rewrite ?andb_false_r; reflexivity.
Qed.

Lemma valid_2 (sLO sHI : float) :
  ~ (outside_unit_interval sLO \/ outside_unit_interval sHI) ->
  validSaturations [sLO; sHI] = true.
Proof.
  intros Hok. destruct (validSaturations [sLO; sHI]) eqn:E; [reflexivity|].
  exfalso. apply Hok. rewrite validSaturations_2 in E.
  apply andb_false_iff in E. rewrite !validSaturation_outside in E. exact E.
Qed.

Lemma valid_3 (sLO sR sHI : float) :
  ~ (outside_unit_interval sLO \/ outside_unit_interval sR \/
     outside_unit_interval sHI) ->
  validSaturations [sLO; sR; sHI] = true.
Proof.
  intros Hok. destruct (validSaturations [sLO; sR; sHI]) eqn:E; [reflexivity|].
  exfalso. apply Hok. rewrite validSaturations_3 in E.
  rewrite !andb_false_iff, !validSaturation_outside in E. tauto.
Qed.

(** Entry [i] of a call whose entries are those of the points taken
    alone, from the entry [Hpt] of point [i] taken alone. *)
Ltac policy_of Hv Hpt :=
  split; intros Hend;
  [ first [rewrite (invalid_2 Hend) in Hpt | rewrite (invalid_3 Hend) in Hpt]
  | first [rewrite (valid_2 Hend) in Hpt | rewrite (valid_3 Hend) in Hpt] ];
  inversion Hpt; subst; rewrite Hv; [|reflexivity];
  unfold policy_entry;
  match goal with
  | |- context [TwoPointScaling.handle_invalid_ ?this] =>
      destruct (TwoPointScaling.handle_invalid_ this); reflexivity
  | |- context [ThreePointScaling.handle_invalid_ ?this] =>
      destruct (ThreePointScaling.handle_invalid_ this); reflexivity
  end.

Lemma TwoPoint_eval_policy (this : TwoPointScaling.Impl float)
    (tep : TableEndPoints float) (sp : SaturationPoints float) :
  TwoPoint_in_range this sp ->
  TwoPoint_policy_applied TwoPointScaling.eval TwoPoint_eval_regular
                          this tep sp.
Proof.
  intros Hrange.
  destruct (TwoPoint_eval_entrywise tep Hrange) as (out & Hout & Hall).
  exists out. split; [exact Hout|].
  split; [exact (entrywise_length Hall)|]. split; [exact Hall|].
  intros i pt sLO sHI Hi HLO HHI.
  destruct (entrywise_nth i Hall Hi) as (v & Hv & Hpt).
  rewrite (TwoPoint_eval_point this tep pt HLO HHI) in Hpt.
  policy_of Hv Hpt.
Qed.

Lemma TwoPoint_reverse_policy (this : TwoPointScaling.Impl float)
    (tep : TableEndPoints float) (sp : SaturationPoints float) :
  TwoPoint_in_range this sp ->
  TwoPoint_policy_applied TwoPointScaling.reverse TwoPoint_reverse_regular
                          this tep sp.
Proof.
  intros Hrange.
  destruct (TwoPoint_reverse_entrywise tep Hrange) as (out & Hout & Hall).
  exists out. split; [exact Hout|].
  split; [exact (entrywise_length Hall)|]. split; [exact Hall|].
  intros i pt sLO sHI Hi HLO HHI.
  destruct (entrywise_nth i Hall Hi) as (v & Hv & Hpt).
  rewrite (TwoPoint_reverse_point this tep pt HLO HHI) in Hpt.
  policy_of Hv Hpt.
Qed.

Lemma ThreePoint_eval_policy (this : ThreePointScaling.Impl float)
    (tep : TableEndPoints float) (sp : SaturationPoints float) :
  ThreePoint_in_range this sp ->
  ThreePoint_policy_applied ThreePointScaling.eval ThreePoint_eval_regular
                            this tep sp.
Proof.
  intros Hrange.
  destruct (ThreePoint_eval_entrywise tep Hrange) as (out & Hout & Hall).
  exists out. split; [exact Hout|].
  split; [exact (entrywise_length Hall)|]. split; [exact Hall|].
  intros i pt sLO sR sHI Hi HLO HR HHI.
  destruct (entrywise_nth i Hall Hi) as (v & Hv & Hpt).
  rewrite (ThreePoint_eval_point this tep pt HLO HR HHI) in Hpt.
  policy_of Hv Hpt.
Qed.

Lemma ThreePoint_reverse_policy (this : ThreePointScaling.Impl float)
    (tep : TableEndPoints float) (sp : SaturationPoints float) :
  ThreePoint_in_range this sp ->
  ThreePoint_policy_applied ThreePointScaling.reverse ThreePoint_reverse_regular
                            this tep sp.
Proof.
  intros Hrange.
  destruct (ThreePoint_reverse_entrywise tep Hrange) as (out & Hout & Hall).
  exists out. split; [exact Hout|].
  split; [exact (entrywise_length Hall)|]. split; [exact Hall|].
  intros i pt sLO sR sHI Hi HLO HR HHI.
  destruct (entrywise_nth i Hall Hi) as (v & Hv & Hpt).
  rewrite (ThreePoint_reverse_point this tep pt HLO HR HHI) in Hpt.
  policy_of Hv Hpt.
Qed.

(** C4: in [eval] and [reverse] of [TwoPointScaling] and
    [ThreePointScaling], a point one of whose resolved end points lies
    outside [0,1] gets its own saturation under [UseUnscaled] and NaN
    under [IgnorePoint]; every other point of the same call gets the
    regular entry, the clamped piecewise-linear image of its
    saturation ([eval]: from the cell's end points onto the table's,
    [reverse]: from the table's onto the cell's); the call returns,
    with one entry per point.  An end point that is NaN is not outside
    [0,1]: its point is among the regularly processed ones. *)
Theorem invalid_end_points_follow_policy
    (two : TwoPointScaling.Impl float) (three : ThreePointScaling.Impl float)
    (tep : TableEndPoints float) (sp : SaturationPoints float) :
  TwoPoint_in_range two sp ->
  ThreePoint_in_range three sp ->
  TwoPoint_policy_applied TwoPointScaling.eval TwoPoint_eval_regular
                          two tep sp /\
  TwoPoint_policy_applied TwoPointScaling.reverse TwoPoint_reverse_regular
                          two tep sp /\
  ThreePoint_policy_applied ThreePointScaling.eval ThreePoint_eval_regular
                            three tep sp /\
  ThreePoint_policy_applied ThreePointScaling.reverse ThreePoint_reverse_regular
                            three tep sp.
Proof.
  intros H2 H3. repeat split.
  - apply TwoPoint_eval_policy, H2.
  - apply TwoPoint_reverse_policy, H2.
  - apply ThreePoint_eval_policy, H3.
  - apply ThreePoint_reverse_policy, H3.
Qed.

Lemma invalid_end_points_follow_policy_witness :
  let two := {| TwoPointScaling.smin_ := [1.5%float; 0.25%float];
                TwoPointScaling.smax_ := [1%float; 0.75%float];
                TwoPointScaling.handle_invalid_ := IgnorePoint |} in
  let three := {| ThreePointScaling.smin_ := [1.5%float; 0.25%float];
                  ThreePointScaling.sdisp_ := [0.5%float; 0.5%float];
                  ThreePointScaling.smax_ := [1%float; 0.75%float];
                  ThreePointScaling.handle_invalid_ := UseUnscaled |} in
  let tep := {| low := 0%float; disp := 0.5%float; high := 1%float |} in
  let sp := [{| cell := 0; sat := 0.5%float |};
             {| cell := 1; sat := 0.5%float |}] in
  TwoPoint_policy_applied TwoPointScaling.eval TwoPoint_eval_regular
                          two tep sp /\
  TwoPoint_policy_applied TwoPointScaling.reverse TwoPoint_reverse_regular
                          two tep sp /\
  ThreePoint_policy_applied ThreePointScaling.eval ThreePoint_eval_regular
                            three tep sp /\
  ThreePoint_policy_applied ThreePointScaling.reverse ThreePoint_reverse_regular
                            three tep sp.
Proof.
  intros two three tep sp.
  apply (@invalid_end_points_follow_policy two three tep sp).
  - split; repeat constructor.
  - repeat split; repeat constructor.
Defined.

(** The policy at work: cell 0 has [smin_ = 1.5]; its point comes back
    as NaN under [IgnorePoint] and unchanged under [UseUnscaled], next
    to a regularly scaled point. *)
Example policy_IgnorePoint :
  TwoPointScaling.eval
    {| TwoPointScaling.smin_ := [1.5%float; 0.25%float];
       TwoPointScaling.smax_ := [1%float; 0.75%float];
       TwoPointScaling.handle_invalid_ := IgnorePoint |}
    {| low := 0%float; disp := 0.5%float; high := 1%float |}
    [{| cell := 0; sat := 0.625%float |}; {| cell := 1; sat := 0.5%float |}]
  = Returns [PrimFloat.nan; 0.5%float].
Proof. reflexivity. Qed.

Example policy_UseUnscaled :
  TwoPointScaling.eval
    {| TwoPointScaling.smin_ := [1.5%float; 0.25%float];
       TwoPointScaling.smax_ := [1%float; 0.75%float];
       TwoPointScaling.handle_invalid_ := UseUnscaled |}
    {| low := 0%float; disp := 0.5%float; high := 1%float |}
    [{| cell := 0; sat := 0.625%float |}; {| cell := 1; sat := 0.5%float |}]
  = Returns [0.625%float; 0.5%float].
Proof. reflexivity. Qed.

(** A resolved end point that is NaN is not outside [0,1] for the test
    of [validSaturation]: its point is processed regularly, here by the
    lower clamp, under either policy. *)
Example policy_skips_NaN_end_point :
  TwoPointScaling.eval
    {| TwoPointScaling.smin_ := [1e20%float];
       TwoPointScaling.smax_ := [0.75%float];
       TwoPointScaling.handle_invalid_ := UseUnscaled |}
    {| low := PrimFloat.nan; disp := 0.5%float; high := 1%float |}
    [{| cell := 0; sat := 0.5%float |}]
  = Returns [PrimFloat.nan].
Proof. reflexivity. Qed.

(* ===================================================================== *)
(** * C5: one entry per point                                             *)
(* ===================================================================== *)

(** C5: under either policy, [eval] and [reverse] of [TwoPointScaling]
    and [ThreePointScaling] return exactly [points.size()] entries, one
    per point and in the order of the points. *)
Theorem horizontal_scaling_one_entry_per_point
    (D : Type) `{Double D}
    (two : TwoPointScaling.Impl D) (three : ThreePointScaling.Impl D)
    (tep : TableEndPoints D) (sp : SaturationPoints D) :
  TwoPoint_in_range two sp ->
  ThreePoint_in_range three sp ->
  one_entry_per_point (TwoPointScaling.eval two tep) sp /\
  one_entry_per_point (TwoPointScaling.reverse two tep) sp /\
  one_entry_per_point (ThreePointScaling.eval three tep) sp /\
  one_entry_per_point (ThreePointScaling.reverse three tep) sp.
Proof.
  intros H2 H3. unfold one_entry_per_point. repeat split.
  - destruct (TwoPoint_eval_entrywise tep H2) as (out & Hout & Hall).
    exists out. eauto using entrywise_length.
  - destruct (TwoPoint_reverse_entrywise tep H2) as (out & Hout & Hall).
    exists out. eauto using entrywise_length.
  - destruct (ThreePoint_eval_entrywise tep H3) as (out & Hout & Hall).
    exists out. eauto using entrywise_length.
  - destruct (ThreePoint_reverse_entrywise tep H3) as (out & Hout & Hall).
    exists out. eauto using entrywise_length.
Qed.

Lemma horizontal_scaling_one_entry_per_point_witness :
  let two := {| TwoPointScaling.smin_ := [1.5%float; 0.25%float];
                TwoPointScaling.smax_ := [1%float; 0.75%float];
                TwoPointScaling.handle_invalid_ := IgnorePoint |} in
  let three := {| ThreePointScaling.smin_ := [1.5%float; 0.25%float];
                  ThreePointScaling.sdisp_ := [0.5%float; 0.5%float];
                  ThreePointScaling.smax_ := [1%float; 0.75%float];
                  ThreePointScaling.handle_invalid_ := UseUnscaled |} in
  let tep := {| low := 0%float; disp := 0.5%float; high := 1%float |} in
  let sp := [{| cell := 0; sat := 0.5%float |};
             {| cell := 1; sat := 0.5%float |};
             {| cell := 0; sat := 0.75%float |}] in
  one_entry_per_point (TwoPointScaling.eval two tep) sp /\
  one_entry_per_point (TwoPointScaling.reverse two tep) sp /\
  one_entry_per_point (ThreePointScaling.eval three tep) sp /\
  one_entry_per_point (ThreePointScaling.reverse three tep) sp.
Proof.
  intros two three tep sp.
  apply (@horizontal_scaling_one_entry_per_point float binary64 two three tep sp).
  - split; repeat constructor.
  - repeat split; repeat constructor.
Defined.

(* ===================================================================== *)
(** * C6: construction from arrays of different lengths                   *)
(* ===================================================================== *)

(** C6: constructing a [TwoPointScaling] from [smin] and [smax] of
    different lengths throws [std::invalid_argument] and yields no
    object; so does constructing a [ThreePointScaling] unless [smin],
    [sdisp] and [smax] all have the same length. *)
Theorem constructors_reject_size_mismatch (D : Type) (smin sdisp smax : list D) :
  (length smin <> length smax ->
   TwoPointScaling.new smin smax
   = Throws (invalid_argument
       "Size Mismatch Between Minimum and Maximum Saturation Arrays")) /\
  (~ (length smin = length sdisp /\ length sdisp = length smax) ->
   ThreePointScaling.new smin sdisp smax
   = Throws (invalid_argument
       "Size Mismatch Between Minimum, Displacing and Maximum Saturation Arrays")).
Proof.
  split; intros Hne.
  - unfold TwoPointScaling.new. cbn [TwoPointScaling.smin_ TwoPointScaling.smax_].
    destruct (Nat.eqb_spec (length smin) (length smax)) as [E|E];
      [contradiction | reflexivity].
  - unfold ThreePointScaling.new.
    cbn [ThreePointScaling.smin_ ThreePointScaling.sdisp_ ThreePointScaling.smax_].
    destruct (Nat.eqb_spec (length sdisp) (length smin)) as [E1|E1];
      destruct (Nat.eqb_spec (length sdisp) (length smax)) as [E2|E2];
      try reflexivity.
    exfalso. apply Hne. split; congruence.
Qed.

Lemma constructors_reject_size_mismatch_witness :
  TwoPointScaling.new (repeat 0.25%float 10) (repeat 0.75%float 9)
  = Throws (invalid_argument
      "Size Mismatch Between Minimum and Maximum Saturation Arrays") /\
  ThreePointScaling.new (repeat 0.25%float 10) (repeat 0.5%float 10)
                        (repeat 0.75%float 9)
  = Throws (invalid_argument
      "Size Mismatch Between Minimum, Displacing and Maximum Saturation Arrays").
Proof.
  destruct (@constructors_reject_size_mismatch float
              (repeat 0.25%float 10) (repeat 0.5%float 10) (repeat 0.75%float 9))
    as [H2 H3].
  split.
  - apply H2. cbn. lia.
  - apply H3. cbn. lia.
Defined.

(** With arrays of one length both constructors return the object, with
    the policy [UseUnscaled]. *)
Lemma constructors_accept_equal_sizes (D : Type) (smin sdisp smax : list D) :
  length smin = length sdisp -> length sdisp = length smax ->
  TwoPointScaling.new smin smax
  = Returns {| TwoPointScaling.smin_ := smin; TwoPointScaling.smax_ := smax;
               TwoPointScaling.handle_invalid_ := UseUnscaled |} /\
  ThreePointScaling.new smin sdisp smax
  = Returns {| ThreePointScaling.smin_ := smin;
               ThreePointScaling.sdisp_ := sdisp;
               ThreePointScaling.smax_ := smax;
               ThreePointScaling.handle_invalid_ := UseUnscaled |}.
Proof.
  intros E1 E2. unfold TwoPointScaling.new, ThreePointScaling.new.
  cbn [TwoPointScaling.smin_ TwoPointScaling.smax_
       ThreePointScaling.smin_ ThreePointScaling.sdisp_ ThreePointScaling.smax_].
  rewrite <- E2, <- E1, !Nat.eqb_refl. split; reflexivity.
Qed.

(* ===================================================================== *)
(** * C7: [PureVerticalScaling::vertScale] is a pure rescaling            *)
(* ===================================================================== *)

(** C7, as stated, fails: with [fmax_[cell] == f.max.val == 0] the ratio
    is [0/0], a NaN, and so is every scaled value. *)
Lemma PureVertical_scales_and_identity_fails : ~ PureVertical_scales_and_identity.
Proof.
  intros Hclaim.
  set (this := {| PureVerticalScaling.fmax_ := [0%float] |}).
  set (f := {| FunctionValues.disp :=
                 {| FunctionValues.sat := 0%float; FunctionValues.val := 0%float |};
               FunctionValues.max :=
                 {| FunctionValues.sat := 1%float; FunctionValues.val := 0%float |} |}).
  set (pt := {| cell := 0; sat := 0.5%float |}).
  destruct (Hclaim true this f [pt] [1%float] [PrimFloat.nan] eq_refl eq_refl)
    as [_ Hid].
  assert (E : [PrimFloat.nan] = [1%float]).
  { apply Hid. intros pt' fm [<-|[]] Hfm. cbn in Hfm. inversion Hfm. reflexivity. }
  inversion E.
Qed.

(** C7 (amended): with [points.size() == values.size()], entry [i] of
    [PureVerticalScaling::vertScale] is exactly
    [values[i] * (fmax_[points[i].cell] / f.max.val)], whatever the
    saturation; and when [f.max.val] is finite and nonzero and every
    referenced [fmax_[cell]] equals it, the input values come back
    unchanged. *)
Theorem PureVertical_vertScale_scales
    (NDEBUG : bool) (this : PureVerticalScaling.Impl float)
    (f : FunctionValues.t float) (sp : SaturationPoints float)
    (val : list float) :
  length sp = length val ->
  cells_below (length (PureVerticalScaling.fmax_ this)) sp ->
  exists out,
    PureVerticalScaling.vertScale NDEBUG this f sp val = Returns out /\
    length out = length val /\
    (forall (i : nat) (pt : SaturationAssoc float) (y fm : float),
        nth_error sp i = Some pt -> nth_error val i = Some y ->
        nth_error (PureVerticalScaling.fmax_ this) (cell pt) = Some fm ->
        nth_error out i
        = Some (y * (fm / FunctionValues.val (FunctionValues.max f)))%float) /\
    (is_finite (FunctionValues.val (FunctionValues.max f)) = true ->
     is_zero (FunctionValues.val (FunctionValues.max f)) = false ->
     (forall (pt : SaturationAssoc float) (fm : float),
         In pt sp ->
         nth_error (PureVerticalScaling.fmax_ this) (cell pt) = Some fm ->
         (fm =? FunctionValues.val (FunctionValues.max f))%float = true) ->
     out = val).
Proof.
  intros Hlen Hcells.
  destruct (@PureVertical_vertScale_returns float binary64 NDEBUG this f sp val Hlen Hcells)
    as (out & Hrun & Hout & Hnth).
  exists out. repeat split; try assumption.
  intros Hfin Hnz Hsame. apply nth_error_ext_eq; [exact Hout|].
  intros i y Hy.
  destruct (@nth_error_below _ sp i) as [pt Hpt].
  { rewrite Hlen. apply nth_error_Some. congruence. }
  destruct (@nth_error_below _ (PureVerticalScaling.fmax_ this) (cell pt)
              (cells_below_nth i Hcells Hpt)) as [fm Hfm].
  rewrite (Hnth i pt y fm Hpt Hy Hfm). cbn [fmul fdiv binary64].
  assert (Efm : FunctionValues.val (FunctionValues.max f) = fm).
  { apply eqb_nonzero_eq; [|exact Hnz].
    pose proof (Hsame pt fm (nth_error_In _ _ Hpt) Hfm) as Heq.
    revert Heq. rewrite !eqb_key.
    destruct (key fm), (key (FunctionValues.val (FunctionValues.max f)));
      try discriminate. rewrite Z.eqb_sym. trivial. }
  rewrite <- Efm, (div_self Hfin Hnz), mul_one. reflexivity.
Qed.

Lemma PureVertical_vertScale_scales_witness :
  let this := {| PureVerticalScaling.fmax_ := [0.5%float; 0.25%float] |} in
  let f := {| FunctionValues.disp :=
                {| FunctionValues.sat := 0.75%float; FunctionValues.val := 0.125%float |};
              FunctionValues.max :=
                {| FunctionValues.sat := 1%float; FunctionValues.val := 0.5%float |} |} in
  let sp := [{| cell := 0; sat := 0.5%float |}; {| cell := 0; sat := 0.875%float |}] in
  let val := [0.0625%float; 0.375%float] in
  exists out,
    PureVerticalScaling.vertScale false this f sp val = Returns out /\
    length out = length val /\
    (forall (i : nat) (pt : SaturationAssoc float) (y fm : float),
        nth_error sp i = Some pt -> nth_error val i = Some y ->
        nth_error (PureVerticalScaling.fmax_ this) (cell pt) = Some fm ->
        nth_error out i
        = Some (y * (fm / FunctionValues.val (FunctionValues.max f)))%float) /\
    (is_finite (FunctionValues.val (FunctionValues.max f)) = true ->
     is_zero (FunctionValues.val (FunctionValues.max f)) = false ->
     (forall (pt : SaturationAssoc float) (fm : float),
         In pt sp ->
         nth_error (PureVerticalScaling.fmax_ this) (cell pt) = Some fm ->
         (fm =? FunctionValues.val (FunctionValues.max f))%float = true) ->
     out = val).
Proof.
  intros this f sp val.
  apply (@PureVertical_vertScale_scales false this f sp val).
  - reflexivity.
  - repeat constructor.
Defined.

(* ===================================================================== *)
(** * C8: three-point scaling with a coinciding displacing end point      *)
(* ===================================================================== *)

Lemma for_each_ext (A S : Type) (body body' : S -> A -> outcome S) (xs : list A) :
  (forall s x, body s x = body' s x) ->
  forall s, for_each body xs s = for_each body' xs s.
Proof.
  intros Hext. induction xs as [|x xs IH]; intros s; cbn [for_each].
  - reflexivity.
  - rewrite Hext. destruct (body' s x); cbn [bind]; auto.
Qed.

(** C8, as stated, fails: with [tep.disp] strictly between [tep.low] and
    [tep.high] and [sdisp == smin], the three-point scaling maps
    [(sLO, sHI)] onto [(tep.disp, tep.high)], the two-point scaling onto
    [(tep.low, tep.high)]. *)
Lemma ThreePoint_degenerates_to_TwoPoint_fails : ~ ThreePoint_degenerates_to_TwoPoint.
Proof.
  intros Hclaim.
  destruct (Hclaim [0.25%float] [0.75%float] UseUnscaled
              {| low := 0%float; disp := 0.5%float; high := 1%float |}
              {| cell := 0; sat := 0.5%float |} 0.25%float 0.75%float)
    as [Hmin _]; try reflexivity; try (split; reflexivity).
  vm_compute in Hmin. inversion Hmin.
Qed.

(** The two calls of the refutation. *)
Example ThreePoint_sdisp_is_smin :
  ThreePointScaling.eval
    {| ThreePointScaling.smin_ := [0.25%float];
       ThreePointScaling.sdisp_ := [0.25%float];
       ThreePointScaling.smax_ := [0.75%float];
       ThreePointScaling.handle_invalid_ := UseUnscaled |}
    {| low := 0%float; disp := 0.5%float; high := 1%float |}
    [{| cell := 0; sat := 0.5%float |}]
  = Returns [0.75%float].
Proof. reflexivity. Qed.

Example TwoPoint_same_smin_smax :
  TwoPointScaling.eval
    {| TwoPointScaling.smin_ := [0.25%float];
       TwoPointScaling.smax_ := [0.75%float];
       TwoPointScaling.handle_invalid_ := UseUnscaled |}
    {| low := 0%float; disp := 0.5%float; high := 1%float |}
    [{| cell := 0; sat := 0.5%float |}]
  = Returns [0.5%float].
Proof. reflexivity. Qed.

Lemma ThreePoint_sdisp_smin_body (smin smax : list float)
    (policy : InvalidEndpointBehaviour) (tep : TableEndPoints float)
    (effsat : list float) (pt : SaturationAssoc float) :
  disp tep = low tep ->
  ThreePointScaling.eval_body
    {| ThreePointScaling.smin_ := smin; ThreePointScaling.sdisp_ := smin;
       ThreePointScaling.smax_ := smax;
       ThreePointScaling.handle_invalid_ := policy |} tep effsat pt
  = TwoPointScaling.eval_body
      {| TwoPointScaling.smin_ := smin; TwoPointScaling.smax_ := smax;
         TwoPointScaling.handle_invalid_ := policy |} tep
      (high tep - low tep)%float effsat pt.
Proof.
  intros Hdisp.
  unfold ThreePointScaling.eval_body, TwoPointScaling.eval_body,
    ThreePointScaling.sMin, ThreePointScaling.sDisp, ThreePointScaling.sMax,
    TwoPointScaling.sMin, TwoPointScaling.sMax,
    ThreePointScaling.handleInvalidEndpoint, TwoPointScaling.handleInvalidEndpoint.
  cbn [ThreePointScaling.smin_ ThreePointScaling.sdisp_ ThreePointScaling.smax_
       ThreePointScaling.handle_invalid_ TwoPointScaling.smin_
       TwoPointScaling.smax_ TwoPointScaling.handle_invalid_].
  rewrite Hdisp.
  destruct (index smin (cell pt)) as [a| | |]; cbn [bind]; try reflexivity.
  destruct (index smax (cell pt)) as [b| | |]; cbn [bind]; try reflexivity.
  rewrite validSaturations_3, validSaturations_2.
  set (sLO := defaultedScaledSaturation a (low tep)).
  set (sHI := defaultedScaledSaturation b (high tep)).
  destruct (validSaturation sLO), (validSaturation sHI); cbn [andb negb];
    try reflexivity.
  do 2 f_equal. cbn [flt fadd fsub fmul fdiv binary64].
  destruct (sLO <? sat pt)%float eqn:Hgt; cbn [negb]; [|reflexivity].
  rewrite (ltb_asym Hgt). reflexivity.
Qed.

Lemma ThreePoint_sdisp_smax_body (smin smax : list float)
    (policy : InvalidEndpointBehaviour) (tep : TableEndPoints float)
    (effsat : list float) (pt : SaturationAssoc float) :
  disp tep = high tep ->
  ThreePointScaling.eval_body
    {| ThreePointScaling.smin_ := smin; ThreePointScaling.sdisp_ := smax;
       ThreePointScaling.smax_ := smax;
       ThreePointScaling.handle_invalid_ := policy |} tep effsat pt
  = TwoPointScaling.eval_body
      {| TwoPointScaling.smin_ := smin; TwoPointScaling.smax_ := smax;
         TwoPointScaling.handle_invalid_ := policy |} tep
      (high tep - low tep)%float effsat pt.
Proof.
  intros Hdisp.
  unfold ThreePointScaling.eval_body, TwoPointScaling.eval_body,
    ThreePointScaling.sMin, ThreePointScaling.sDisp, ThreePointScaling.sMax,
    TwoPointScaling.sMin, TwoPointScaling.sMax,
    ThreePointScaling.handleInvalidEndpoint, TwoPointScaling.handleInvalidEndpoint.
  cbn [ThreePointScaling.smin_ ThreePointScaling.sdisp_ ThreePointScaling.smax_
       ThreePointScaling.handle_invalid_ TwoPointScaling.smin_
       TwoPointScaling.smax_ TwoPointScaling.handle_invalid_].
  rewrite Hdisp.
  destruct (index smin (cell pt)) as [a| | |]; cbn [bind]; try reflexivity.
  destruct (index smax (cell pt)) as [b| | |]; cbn [bind]; try reflexivity.
  rewrite validSaturations_3, validSaturations_2.
  set (sLO := defaultedScaledSaturation a (low tep)).
  set (sHI := defaultedScaledSaturation b (high tep)).
  destruct (validSaturation sLO), (validSaturation sHI); cbn [andb negb];
    try reflexivity.
  do 2 f_equal. cbn [flt fadd fsub fmul fdiv binary64].
  destruct (sLO <? sat pt)%float eqn:Hgt; cbn [negb]; [|reflexivity].
  destruct (sat pt <? sHI)%float; reflexivity.
Qed.

(** On the upper sub-interval a three-point scaling with [sdisp == smin]
    is the two-point scaling of [smin], [smax] onto [tep.disp, tep.high]. *)
Lemma ThreePoint_sdisp_smin_upper (smin smax : list float)
    (policy : InvalidEndpointBehaviour) (tep : TableEndPoints float)
    (pt : SaturationAssoc float) (sLO sR sHI : float) :
  let three := {| ThreePointScaling.smin_ := smin;
                  ThreePointScaling.sdisp_ := smin;
                  ThreePointScaling.smax_ := smax;
                  ThreePointScaling.handle_invalid_ := policy |} in
  ThreePointScaling.sMin three (cell pt) tep = Returns sLO ->
  ThreePointScaling.sDisp three (cell pt) tep = Returns sR ->
  ThreePointScaling.sMax three (cell pt) tep = Returns sHI ->
  in_unit_interval sLO -> in_unit_interval sR -> in_unit_interval sHI ->
  (sLO <? sat pt)%float = true -> (sR <? sat pt)%float = true ->
  (sat pt <? sHI)%float = true ->
  ThreePointScaling.eval three tep [pt]
  = TwoPointScaling.eval
      {| TwoPointScaling.smin_ := smin; TwoPointScaling.smax_ := smax;
         TwoPointScaling.handle_invalid_ := policy |}
      {| low := disp tep; disp := disp tep; high := high tep |} [pt].
Proof.
  intros three HLO HR HHI VLO VR VHI Hlo Hr Hhi.
  rewrite (ThreePoint_eval_point three tep pt HLO HR HHI).
  rewrite (@TwoPoint_eval_point float binary64 _ _ pt sR sHI);
    [ | exact HR | exact HHI ].
  rewrite validSaturations_3, validSaturations_2,
    (validSaturation_in_unit VLO), (validSaturation_in_unit VR),
    (validSaturation_in_unit VHI).
  cbn [andb flt fadd fsub fmul fdiv binary64 low disp high].
  rewrite Hlo, Hr, Hhi, (ltb_asym Hr). reflexivity.
Qed.

(** On the lower sub-interval a three-point scaling with [sdisp == smax]
    is the two-point scaling of [smin], [smax] onto [tep.low, tep.disp]. *)
Lemma ThreePoint_sdisp_smax_lower (smin smax : list float)
    (policy : InvalidEndpointBehaviour) (tep : TableEndPoints float)
    (pt : SaturationAssoc float) (sLO sR sHI : float) :
  let three := {| ThreePointScaling.smin_ := smin;
                  ThreePointScaling.sdisp_ := smax;
                  ThreePointScaling.smax_ := smax;
                  ThreePointScaling.handle_invalid_ := policy |} in
  ThreePointScaling.sMin three (cell pt) tep = Returns sLO ->
  ThreePointScaling.sDisp three (cell pt) tep = Returns sR ->
  ThreePointScaling.sMax three (cell pt) tep = Returns sHI ->
  in_unit_interval sLO -> in_unit_interval sR -> in_unit_interval sHI ->
  (sLO <? sat pt)%float = true -> (sat pt <? sR)%float = true ->
  (sat pt <? sHI)%float = true ->
  ThreePointScaling.eval three tep [pt]
  = TwoPointScaling.eval
      {| TwoPointScaling.smin_ := smin; TwoPointScaling.smax_ := smax;
         TwoPointScaling.handle_invalid_ := policy |}
      {| low := low tep; disp := disp tep; high := disp tep |} [pt].
Proof.
  intros three HLO HR HHI VLO VR VHI Hlo Hr Hhi.
  rewrite (ThreePoint_eval_point three tep pt HLO HR HHI).
  rewrite (@TwoPoint_eval_point float binary64 _ _ pt sLO sR);
    [ | exact HLO | exact HR ].
  rewrite validSaturations_3, validSaturations_2,
    (validSaturation_in_unit VLO), (validSaturation_in_unit VR),
    (validSaturation_in_unit VHI).
  cbn [andb flt fadd fsub fmul fdiv binary64 low disp high].
  rewrite Hlo, Hr, Hhi. reflexivity.
Qed.

(** C8 (amended): a [ThreePointScaling] whose [sdisp] array is its
    [smin] array (resp. its [smax] array) gives, at every point, the
    [eval] output of the [TwoPointScaling] of the same [smin] and [smax]
    when the table has [tep.disp == tep.low] (resp.
    [tep.disp == tep.high]); for any table, at a point strictly inside
    the remaining sub-interval [(sR, sHI)] (resp. [(sLO, sR)]) with valid
    resolved end points, it gives the output of that [TwoPointScaling]
    evaluated against the sub-interval's table end points
    [tep.disp, tep.high] (resp. [tep.low, tep.disp]). *)
Theorem ThreePoint_with_coinciding_sdisp
    (smin smax : list float) (policy : InvalidEndpointBehaviour)
    (tep : TableEndPoints float) :
  let two := {| TwoPointScaling.smin_ := smin;
                TwoPointScaling.smax_ := smax;
                TwoPointScaling.handle_invalid_ := policy |} in
  let three_min := {| ThreePointScaling.smin_ := smin;
                      ThreePointScaling.sdisp_ := smin;
                      ThreePointScaling.smax_ := smax;
                      ThreePointScaling.handle_invalid_ := policy |} in
  let three_max := {| ThreePointScaling.smin_ := smin;
                      ThreePointScaling.sdisp_ := smax;
                      ThreePointScaling.smax_ := smax;
                      ThreePointScaling.handle_invalid_ := policy |} in
  (disp tep = low tep ->
   forall sp, ThreePointScaling.eval three_min tep sp
              = TwoPointScaling.eval two tep sp) /\
  (disp tep = high tep ->
   forall sp, ThreePointScaling.eval three_max tep sp
              = TwoPointScaling.eval two tep sp) /\
  (forall (pt : SaturationAssoc float) (sLO sR sHI : float),
      ThreePointScaling.sMin three_min (cell pt) tep = Returns sLO ->
      ThreePointScaling.sDisp three_min (cell pt) tep = Returns sR ->
      ThreePointScaling.sMax three_min (cell pt) tep = Returns sHI ->
      in_unit_interval sLO -> in_unit_interval sR -> in_unit_interval sHI ->
      (sLO <? sat pt)%float = true -> (sR <? sat pt)%float = true ->
      (sat pt <? sHI)%float = true ->
      ThreePointScaling.eval three_min tep [pt]
      = TwoPointScaling.eval two
          {| low := disp tep; disp := disp tep; high := high tep |} [pt]) /\
  (forall (pt : SaturationAssoc float) (sLO sR sHI : float),
      ThreePointScaling.sMin three_max (cell pt) tep = Returns sLO ->
      ThreePointScaling.sDisp three_max (cell pt) tep = Returns sR ->
      ThreePointScaling.sMax three_max (cell pt) tep = Returns sHI ->
      in_unit_interval sLO -> in_unit_interval sR -> in_unit_interval sHI ->
      (sLO <? sat pt)%float = true -> (sat pt <? sR)%float = true ->
      (sat pt <? sHI)%float = true ->
      ThreePointScaling.eval three_max tep [pt]
      = TwoPointScaling.eval two
          {| low := low tep; disp := disp tep; high := disp tep |} [pt]).
Proof.
  intros two three_min three_max. repeat split.
  - intros Hdisp sp. unfold ThreePointScaling.eval, TwoPointScaling.eval.
    apply for_each_ext. intros s x. apply ThreePoint_sdisp_smin_body, Hdisp.
  - intros Hdisp sp. unfold ThreePointScaling.eval, TwoPointScaling.eval.
    apply for_each_ext. intros s x. apply ThreePoint_sdisp_smax_body, Hdisp.
  - intros pt sLO sR sHI. apply ThreePoint_sdisp_smin_upper.
  - intros pt sLO sR sHI. apply ThreePoint_sdisp_smax_lower.
Qed.

Lemma ThreePoint_with_coinciding_sdisp_witness :
  ThreePointScaling.eval
    {| ThreePointScaling.smin_ := [0.25%float; 1e20%float];
       ThreePointScaling.sdisp_ := [0.25%float; 1e20%float];
       ThreePointScaling.smax_ := [0.75%float; 1%float];
       ThreePointScaling.handle_invalid_ := UseUnscaled |}
    {| low := 0.125%float; disp := 0.125%float; high := 1%float |}
    [{| cell := 0; sat := 0.5%float |}; {| cell := 1; sat := 0.5%float |}]
  = TwoPointScaling.eval
      {| TwoPointScaling.smin_ := [0.25%float; 1e20%float];
         TwoPointScaling.smax_ := [0.75%float; 1%float];
         TwoPointScaling.handle_invalid_ := UseUnscaled |}
      {| low := 0.125%float; disp := 0.125%float; high := 1%float |}
      [{| cell := 0; sat := 0.5%float |}; {| cell := 1; sat := 0.5%float |}]
  /\
  ThreePointScaling.eval
    {| ThreePointScaling.smin_ := [0.25%float];
       ThreePointScaling.sdisp_ := [0.25%float];
       ThreePointScaling.smax_ := [0.75%float];
       ThreePointScaling.handle_invalid_ := UseUnscaled |}
    {| low := 0%float; disp := 0.5%float; high := 1%float |}
    [{| cell := 0; sat := 0.5%float |}]
  = TwoPointScaling.eval
      {| TwoPointScaling.smin_ := [0.25%float];
         TwoPointScaling.smax_ := [0.75%float];
         TwoPointScaling.handle_invalid_ := UseUnscaled |}
      {| low := 0.5%float; disp := 0.5%float; high := 1%float |}
      [{| cell := 0; sat := 0.5%float |}].
Proof.
  split.
  - apply (@ThreePoint_with_coinciding_sdisp
             [0.25%float; 1e20%float] [0.75%float; 1%float] UseUnscaled
             {| low := 0.125%float; disp := 0.125%float; high := 1%float |}).
    reflexivity.
  - apply (proj1 (proj2 (proj2
             (@ThreePoint_with_coinciding_sdisp
                [0.25%float] [0.75%float] UseUnscaled
                {| low := 0%float; disp := 0.5%float; high := 1%float |})))
             {| cell := 0; sat := 0.5%float |} 0.25%float 0.25%float 0.75%float);
      try reflexivity; split; reflexivity.
Defined.

(* ===================================================================== *)
(** * C9: the size check of [PureVerticalScaling::vertScale]              *)
(* ===================================================================== *)

(** C9, as stated, fails: the size check is an [assert]; built with
    [NDEBUG] the call does not fail on a size mismatch, and values
    beyond [points.size()] are returned unscaled. *)
Lemma PureVertical_fails_iff_size_mismatch_fails :
  ~ PureVertical_fails_iff_size_mismatch.
Proof.
  intros Hclaim.
  set (this := {| PureVerticalScaling.fmax_ := [0.5%float] |}).
  set (f := {| FunctionValues.disp :=
                 {| FunctionValues.sat := 0%float; FunctionValues.val := 0%float |};
               FunctionValues.max :=
                 {| FunctionValues.sat := 1%float; FunctionValues.val := 1%float |} |}).
  destruct (Hclaim true this f [{| cell := 0; sat := 0.5%float |}]
              [1%float; 1%float]) as [_ Hfail].
  assert (Hno : ~ reports_failure
                  (PureVerticalScaling.vertScale true this f
                     [{| cell := 0; sat := 0.5%float |}] [1%float; 1%float])).
  { cbn. auto. }
  apply Hno, Hfail. cbn. lia.
Qed.

(** What the call of the refutation returns: the second value is handed
    back unscaled. *)
Example PureVertical_NDEBUG_short_points :
  PureVerticalScaling.vertScale true
    {| PureVerticalScaling.fmax_ := [0.5%float] |}
    {| FunctionValues.disp :=
         {| FunctionValues.sat := 0%float; FunctionValues.val := 0%float |};
       FunctionValues.max :=
         {| FunctionValues.sat := 1%float; FunctionValues.val := 1%float |} |}
    [{| cell := 0; sat := 0.5%float |}] [1%float; 1%float]
  = Returns [0.5%float; 1%float].
Proof. reflexivity. Qed.

(** C9 (amended): built with assertions enabled ([NDEBUG] not defined),
    [PureVerticalScaling::vertScale] fails, at its size assertion,
    if and only if [points.size() != values.size()]; for equal sizes and
    cells within [fmax_] it returns in every build; built with [NDEBUG]
    it never reports a failure. *)
Theorem PureVertical_vertScale_size_check
    (this : PureVerticalScaling.Impl float) (f : FunctionValues.t float)
    (sp : SaturationPoints float) (val : list float) :
  (reports_failure (PureVerticalScaling.vertScale false this f sp val)
   <-> length sp <> length val) /\
  (length sp <> length val ->
   PureVerticalScaling.vertScale false this f sp val
   = Aborts "Internal Error in Vertical Scaling") /\
  (forall NDEBUG : bool,
      length sp = length val ->
      cells_below (length (PureVerticalScaling.fmax_ this)) sp ->
      exists out,
        PureVerticalScaling.vertScale NDEBUG this f sp val = Returns out /\
        length out = length val) /\
  ~ reports_failure (PureVerticalScaling.vertScale true this f sp val).
Proof.
  assert (Hquiet : forall ret,
             ~ reports_failure
                 (for_each (PureVerticalScaling.vertScale_body this
                              (FunctionValues.val (FunctionValues.max f)) sp)
                           (seq 0 (length sp)) ret)).
  { apply for_each_quiet. intros s i. apply PureVertical_body_quiet. }
  assert (Habort : length sp <> length val ->
                   PureVerticalScaling.vertScale false this f sp val
                   = Aborts "Internal Error in Vertical Scaling").
  { intros Hne. unfold PureVerticalScaling.vertScale, assert.
    destruct (Nat.eqb_spec (length sp) (length val)); [contradiction|reflexivity]. }
  repeat split.
  - intros Hfail Heq. revert Hfail. unfold PureVerticalScaling.vertScale.
    rewrite Heq, Nat.eqb_refl. cbn [assert bind]. rewrite <- Heq. apply Hquiet.
  - intros Hne. rewrite (Habort Hne). exact I.
  - exact Habort.
  - intros NDEBUG Hlen Hcells.
    destruct (@PureVertical_vertScale_returns float binary64 NDEBUG this f sp val Hlen Hcells)
      as (out & Hrun & Hout & _).
    exists out. split; assumption.
  - unfold PureVerticalScaling.vertScale. cbn [assert bind]. apply Hquiet.
Qed.

Lemma PureVertical_vertScale_size_check_witness :
  let this := {| PureVerticalScaling.fmax_ := [0.5%float] |} in
  let f := {| FunctionValues.disp :=
                {| FunctionValues.sat := 0%float; FunctionValues.val := 0%float |};
              FunctionValues.max :=
                {| FunctionValues.sat := 1%float; FunctionValues.val := 1%float |} |} in
  PureVerticalScaling.vertScale false this f
    [{| cell := 0; sat := 0.5%float |}] [1%float; 1%float]
  = Aborts "Internal Error in Vertical Scaling" /\
  exists out,
    PureVerticalScaling.vertScale false this f
      [{| cell := 0; sat := 0.5%float |}] [1%float] = Returns out /\
    length out = 1.
Proof.
  intros this f. split.
  - apply (@PureVertical_vertScale_size_check this f
             [{| cell := 0; sat := 0.5%float |}] [1%float; 1%float]).
    cbn. lia.
  - apply (@PureVertical_vertScale_size_check this f
             [{| cell := 0; sat := 0.5%float |}] [1%float]).
    + reflexivity.
    + repeat constructor.
Defined.

(* ===================================================================== *)
(** * C10: the divisors of the interpolations                             *)
(* ===================================================================== *)

Lemma ThreePoint_sDisp_not_nan (this : ThreePointScaling.Impl float)
    (tep : TableEndPoints float) (c : nat) (sR : float) :
  ThreePointScaling.sDisp this c tep = Returns sR ->
  is_nan (disp tep) = false -> is_nan sR = false.
Proof.
  unfold ThreePointScaling.sDisp.
  destruct (index (ThreePointScaling.sdisp_ this) c) as [x| | |];
    cbn [bind]; try discriminate.
  intros E Hd. inversion E; subst sR. apply defaulted_not_nan, Hd.
Qed.

Lemma upper_range (s lo hi d : float) :
  d = (hi - lo)%float -> (s <? lo)%float = false -> (s <? hi)%float = true ->
  is_nan lo = false -> from_up_to s lo hi d.
Proof.
  intros Hd Hlo Hhi Hnan. repeat split; try assumption.
  apply nlt_leb; [assumption | assumption | exact (ltb_not_nan_l Hhi)].
Qed.

(** C10, as stated, fails twice.  [validSaturation] accepts NaN: with
    [tep.disp] a NaN the upper sub-interval of
    [ThreePointScaling::reverse] divides by [tep.high - tep.disp], a NaN.
    And the upper sub-interval of [ThreePointScaling::eval] is entered
    with [s == sR], which is not strictly above [sR]. *)
Lemma horizontal_divisions_claim_fails :
  ~ horizontal_divisors_always_positive /\
  ~ ThreePoint_eval_divides_strictly_inside.
Proof.
  split.
  - intros Hclaim.
    set (two := {| TwoPointScaling.smin_ := [0%float];
                   TwoPointScaling.smax_ := [1%float];
                   TwoPointScaling.handle_invalid_ := UseUnscaled |}).
    set (three := {| ThreePointScaling.smin_ := [0%float];
                     ThreePointScaling.sdisp_ := [0.5%float];
                     ThreePointScaling.smax_ := [1%float];
                     ThreePointScaling.handle_invalid_ := UseUnscaled |}).
    set (tep := {| low := 0%float; disp := PrimFloat.nan; high := 1%float |}).
    destruct (Hclaim two three tep [{| cell := 0; sat := 0.5%float |}])
      as (_ & _ & _ & Hrev).
    assert (E : ThreePoint_reverse_traced three tep
                  [{| cell := 0; sat := 0.5%float |}]
                = Returns [{| value := PrimFloat.nan;
                              divisors := [PrimFloat.nan] |}])
      by (vm_compute; reflexivity).
    specialize (Hrev _ _ PrimFloat.nan E (or_introl eq_refl) (or_introl eq_refl)).
    vm_compute in Hrev. discriminate Hrev.
  - intros Hclaim.
    set (three := {| ThreePointScaling.smin_ := [0.25%float];
                     ThreePointScaling.sdisp_ := [0.5%float];
                     ThreePointScaling.smax_ := [0.75%float];
                     ThreePointScaling.handle_invalid_ := UseUnscaled |}).
    set (tep := {| low := 0%float; disp := 0.5%float; high := 1%float |}).
    assert (E : ThreePoint_eval_traced three tep [{| cell := 0; sat := 0.5%float |}]
                = Returns [{| value := 0.5%float; divisors := [0.25%float] |}])
      by (vm_compute; reflexivity).
    destruct (Hclaim three tep {| cell := 0; sat := 0.5%float |}
                0.25%float 0.5%float 0.75%float _ 0.25%float
                eq_refl eq_refl eq_refl E (or_introl eq_refl))
      as [(_ & _ & H)|(_ & H & _)]; vm_compute in H; discriminate H.
Qed.

Lemma TwoPoint_eval_divides_inside_holds (this : TwoPointScaling.Impl float)
    (tep : TableEndPoints float) :
  TwoPoint_eval_divides_inside this tep.
Proof.
  intros pt sLO sHI v d HLO HHI Hrun Hd.
  unfold TwoPoint_eval_traced, TwoPointScaling.eval in Hrun.
  cbn [map] in Hrun. rewrite for_each_single in Hrun.
  destruct (@TwoPoint_eval_body_divisors this tep pt [v] v d Hrun
              (or_introl eq_refl) Hd)
    as (a & b & Ha & Hb & Hrange).
  assert (a = sLO) by congruence. assert (b = sHI) by congruence. subst a b.
  exact Hrange.
Qed.

Lemma TwoPoint_reverse_divides_inside_holds (this : TwoPointScaling.Impl float)
    (tep : TableEndPoints float) :
  TwoPoint_reverse_divides_inside this tep.
Proof.
  intros pt v d Hrun Hd.
  unfold TwoPoint_reverse_traced, TwoPointScaling.reverse in Hrun.
  cbn [map] in Hrun. rewrite for_each_single in Hrun.
  exact (@TwoPoint_reverse_body_divisors this tep pt [v] v d Hrun
           (or_introl eq_refl) Hd).
Qed.

Lemma ThreePoint_eval_divides_inside_holds (this : ThreePointScaling.Impl float)
    (tep : TableEndPoints float) :
  is_nan (disp tep) = false -> ThreePoint_eval_divides_inside this tep.
Proof.
  intros Hnan pt sLO sR sHI v d HLO HR HHI Hrun Hd.
  unfold ThreePoint_eval_traced, ThreePointScaling.eval in Hrun.
  cbn [map] in Hrun. rewrite for_each_single in Hrun.
  destruct (@ThreePoint_eval_body_divisors this tep pt [v] v d Hrun
              (or_introl eq_refl) Hd)
    as (a & r & b & Ha & Hr & Hb & Hrange).
  assert (a = sLO) by congruence. assert (r = sR) by congruence.
  assert (b = sHI) by congruence. subst a r b.
  destruct Hrange as [Hlow|(Hdiv & Hge & Hlt)]; [left; exact Hlow | right].
  apply upper_range; try assumption.
  exact (@ThreePoint_sDisp_not_nan this tep (cell pt) sR HR Hnan).
Qed.

Lemma ThreePoint_reverse_divides_inside_holds (this : ThreePointScaling.Impl float)
    (tep : TableEndPoints float) :
  is_nan (disp tep) = false -> ThreePoint_reverse_divides_inside this tep.
Proof.
  intros Hnan pt v d Hrun Hd.
  unfold ThreePoint_reverse_traced, ThreePointScaling.reverse in Hrun.
  cbn [map] in Hrun. rewrite for_each_single in Hrun.
  destruct (@ThreePoint_reverse_body_divisors this tep pt [v] v d Hrun
              (or_introl eq_refl) Hd) as [Hlow|(Hdiv & Hge & Hlt)];
    [left; exact Hlow | right].
  apply upper_range; assumption.
Qed.

Lemma TwoPoint_eval_divisors_positive (this : TwoPointScaling.Impl float)
    (tep : TableEndPoints float) (sp : SaturationPoints float) :
  divisors_positive (TwoPoint_eval_traced this tep sp).
Proof.
  intros out v d Hrun Hv Hd.
  unfold TwoPoint_eval_traced, TwoPointScaling.eval in Hrun.
  destruct (for_each_In _ (TwoPoint_eval_body_append _ _ _) _ v Hrun Hv)
    as (x & r & Hx & Hbody & Hvr).
  apply in_map_iff in Hx. destruct Hx as (pt & <- & _).
  destruct (@TwoPoint_eval_body_divisors this tep pt r v d Hbody Hvr Hd)
    as (sLO & sHI & _ & _ & Hrange).
  exact (strictly_between_positive Hrange).
Qed.

Lemma TwoPoint_reverse_divisors_positive (this : TwoPointScaling.Impl float)
    (tep : TableEndPoints float) (sp : SaturationPoints float) :
  divisors_positive (TwoPoint_reverse_traced this tep sp).
Proof.
  intros out v d Hrun Hv Hd.
  unfold TwoPoint_reverse_traced, TwoPointScaling.reverse in Hrun.
  destruct (for_each_In _ (TwoPoint_reverse_body_append _ _ _) _ v Hrun Hv)
    as (x & r & Hx & Hbody & Hvr).
  apply in_map_iff in Hx. destruct Hx as (pt & <- & _).
  exact (strictly_between_positive
           (@TwoPoint_reverse_body_divisors this tep pt r v d Hbody Hvr Hd)).
Qed.

Lemma ThreePoint_eval_divisors_positive (this : ThreePointScaling.Impl float)
    (tep : TableEndPoints float) (sp : SaturationPoints float) :
  is_nan (disp tep) = false ->
  divisors_positive (ThreePoint_eval_traced this tep sp).
Proof.
  intros Hnan out v d Hrun Hv Hd.
  unfold ThreePoint_eval_traced, ThreePointScaling.eval in Hrun.
  destruct (for_each_In _ (ThreePoint_eval_body_append _ _) _ v Hrun Hv)
    as (x & r & Hx & Hbody & Hvr).
  apply in_map_iff in Hx. destruct Hx as (pt & <- & _).
  destruct (@ThreePoint_eval_body_divisors this tep pt r v d Hbody Hvr Hd)
    as (sLO & sR & sHI & _ & HR & _ & [Hlow|(Hdiv & Hge & Hlt)]).
  - exact (strictly_between_positive Hlow).
  - apply (@from_up_to_positive (sat pt) sR sHI).
    apply upper_range; try assumption.
    exact (@ThreePoint_sDisp_not_nan this tep (cell pt) sR HR Hnan).
Qed.

Lemma ThreePoint_reverse_divisors_positive (this : ThreePointScaling.Impl float)
    (tep : TableEndPoints float) (sp : SaturationPoints float) :
  is_nan (disp tep) = false ->
  divisors_positive (ThreePoint_reverse_traced this tep sp).
Proof.
  intros Hnan out v d Hrun Hv Hd.
  unfold ThreePoint_reverse_traced, ThreePointScaling.reverse in Hrun.
  destruct (for_each_In _ (ThreePoint_reverse_body_append _ _) _ v Hrun Hv)
    as (x & r & Hx & Hbody & Hvr).
  apply in_map_iff in Hx. destruct Hx as (pt & <- & _).
  destruct (@ThreePoint_reverse_body_divisors this tep pt r v d Hbody Hvr Hd)
    as [Hlow|(Hdiv & Hge & Hlt)].
  - exact (strictly_between_positive Hlow).
  - apply (@from_up_to_positive (sat pt) (disp tep) (high tep)).
    apply upper_range; assumption.
Qed.

(** C10 (amended): when [tep.disp] is not a NaN, every division performed
    by [eval] and [reverse] of [TwoPointScaling] and [ThreePointScaling]
    has a strictly positive divisor.  A division is entered only with the
    saturation strictly between the two end points of its range
    ([sLO], [sHI]; [tep.low], [tep.high]; [sLO], [sR]; [tep.low],
    [tep.disp]), or, for the upper sub-interval of the three-point
    methods, with [sR <= s < sHI] (resp. [tep.disp <= s < tep.high]); a
    degenerate range is always left to the clamp branches.  The divisors
    are read off runs that log them and that compute the same results as
    the binary64 calls. *)
Theorem horizontal_divisions_are_safe
    (two : TwoPointScaling.Impl float) (three : ThreePointScaling.Impl float)
    (tep : TableEndPoints float) (sp : SaturationPoints float) :
  is_nan (disp tep) = false ->
  (outcome_map (map value) (TwoPoint_eval_traced two tep sp)
   = TwoPointScaling.eval two tep sp /\
   outcome_map (map value) (TwoPoint_reverse_traced two tep sp)
   = TwoPointScaling.reverse two tep sp /\
   outcome_map (map value) (ThreePoint_eval_traced three tep sp)
   = ThreePointScaling.eval three tep sp /\
   outcome_map (map value) (ThreePoint_reverse_traced three tep sp)
   = ThreePointScaling.reverse three tep sp) /\
  (divisors_positive (TwoPoint_eval_traced two tep sp) /\
   divisors_positive (TwoPoint_reverse_traced two tep sp) /\
   divisors_positive (ThreePoint_eval_traced three tep sp) /\
   divisors_positive (ThreePoint_reverse_traced three tep sp)) /\
  (TwoPoint_eval_divides_inside two tep /\
   TwoPoint_reverse_divides_inside two tep /\
   ThreePoint_eval_divides_inside three tep /\
   ThreePoint_reverse_divides_inside three tep).
Proof.
  intros Hnan. split; [apply traced_calls_erase|]. split.
  - split; [apply TwoPoint_eval_divisors_positive|].
    split; [apply TwoPoint_reverse_divisors_positive|].
    split; [apply ThreePoint_eval_divisors_positive, Hnan|].
    apply ThreePoint_reverse_divisors_positive, Hnan.
  - split; [apply TwoPoint_eval_divides_inside_holds|].
    split; [apply TwoPoint_reverse_divides_inside_holds|].
    split; [apply ThreePoint_eval_divides_inside_holds, Hnan|].
    apply ThreePoint_reverse_divides_inside_holds, Hnan.
Qed.

Lemma horizontal_divisions_are_safe_witness :
  let two := {| TwoPointScaling.smin_ := [0.25%float; 0.5%float];
                TwoPointScaling.smax_ := [0.75%float; 0.5%float];
                TwoPointScaling.handle_invalid_ := UseUnscaled |} in
  let three := {| ThreePointScaling.smin_ := [0.25%float; 0.5%float];
                  ThreePointScaling.sdisp_ := [0.5%float; 0.5%float];
                  ThreePointScaling.smax_ := [0.75%float; 0.5%float];
                  ThreePointScaling.handle_invalid_ := UseUnscaled |} in
  let tep := {| low := 0%float; disp := 0.5%float; high := 1%float |} in
  let sp := [{| cell := 0; sat := 0.5%float |}; {| cell := 1; sat := 0.5%float |};
             {| cell := 0; sat := 0.375%float |}] in
  divisors_positive (TwoPoint_eval_traced two tep sp) /\
  divisors_positive (TwoPoint_reverse_traced two tep sp) /\
  divisors_positive (ThreePoint_eval_traced three tep sp) /\
  divisors_positive (ThreePoint_reverse_traced three tep sp).
Proof.
  intros two three tep sp.
  apply (@horizontal_divisions_are_safe two three tep sp).
  reflexivity.
Defined.

(** The logged divisors of the witness: the degenerate cell 1
    ([sLO == sR == sHI]) is clamped and divides nothing. *)
Example ThreePoint_eval_traced_run :
  ThreePoint_eval_traced
    {| ThreePointScaling.smin_ := [0.25%float; 0.5%float];
       ThreePointScaling.sdisp_ := [0.5%float; 0.5%float];
       ThreePointScaling.smax_ := [0.75%float; 0.5%float];
       ThreePointScaling.handle_invalid_ := UseUnscaled |}
    {| low := 0%float; disp := 0.5%float; high := 1%float |}
    [{| cell := 0; sat := 0.5%float |}; {| cell := 1; sat := 0.5%float |};
     {| cell := 0; sat := 0.375%float |}]
  = Returns [{| value := 0.5%float; divisors := [0.25%float] |};
             {| value := 0%float; divisors := [] |};
             {| value := 0.25%float; divisors := [0.25%float] |}].
Proof. reflexivity. Qed.

(* ===================================================================== *)
(** * The validity check and the sentinel test on binary64               *)
(* ===================================================================== *)

Lemma fold_left_andb (A : Type) (f : A -> bool) (l : list A) (b : bool) :
  fold_left (fun (r : bool) (x : A) => r && f x) l b = b && forallb f l.
Proof.
  revert b. induction l as [|x l IH]; intros b; cbn.
  - rewrite andb_true_r. reflexivity.
  - rewrite IH, andb_assoc. reflexivity.
Qed.

Lemma key_0 : key 0 = Some 0%Z.
Proof. reflexivity. Qed.

Lemma key_1 : key 1 = Some 9218868437227405312%Z.
Proof. vm_compute. reflexivity. Qed.

Lemma validSaturation_nan_or_unit (s : float) :
  validSaturation s = true <-> is_nan s = true \/ in_unit_interval s.
Proof.
  unfold validSaturation, in_unit_interval, is_nan.
  cbn [flt lit_0 lit_1 binary64].
  rewrite !ltb_key, !leb_key, eqb_key, key_0, key_1.
  destruct (key s) as [a|]; cbn [negb andb].
  - rewrite Z.eqb_refl. cbn [negb].
    rewrite andb_true_iff, !negb_true_iff. split.
    + intros [H0 H1]. right. split; lia.
    + intros [H|[H0 H1]]; [discriminate H|]. split; lia.
  - split; [left|]; reflexivity.
Qed.

(** X1: [validSaturations] accepts exactly the lists all of whose entries
    are NaN or lie in [0,1]: the validity check lets a NaN end point
    through. *)
Theorem validSaturations_accepts_nan_or_unit (sats : list float) :
  validSaturations sats = true
  <-> Forall (fun s => is_nan s = true \/ in_unit_interval s) sats.
Proof.
  unfold validSaturations. rewrite fold_left_andb. cbn [andb].
  rewrite forallb_forall, Forall_forall.
  split; intros Hall s Hs; apply validSaturation_nan_or_unit, Hall, Hs.
Qed.

Lemma key_1e20 : key 1e20 = Some 9814943504037940288%Z.
Proof. vm_compute. reflexivity. Qed.

Lemma key_opp_1e20 : key (-1e20) = Some (-9814943504037940288)%Z.
Proof. vm_compute. reflexivity. Qed.

Lemma key_abs_Some (x : float) (a : Z) :
  key x = Some a -> key (abs x) = Some (Z.abs a).
Proof.
  unfold key. rewrite abs_spec. intros Hx.
  pose proof (Prim2SF_valid x) as Hv.
  destruct (Prim2SF x) as [s|s| |s m e]; cbn in Hx |- *.
  - inversion Hx. reflexivity.
  - inversion Hx. destruct s; reflexivity.
  - discriminate Hx.
  - apply valid_finite_bounds in Hv. destruct Hv as (He & _).
    inversion Hx. f_equal. destruct s; lia.
Qed.

Lemma sentinel_test (s : float) :
  (abs s <? 1e20)%float = ((-1e20 <? s) && (s <? 1e20))%float.
Proof.
  rewrite !ltb_key, key_1e20, key_opp_1e20.
  destruct (key s) as [a|] eqn:Ks.
  - rewrite (key_abs_Some s Ks).
    destruct (Z.abs a <? 9814943504037940288)%Z eqn:E;
      destruct (-9814943504037940288 <? a)%Z eqn:E1;
      destruct (a <? 9814943504037940288)%Z eqn:E2; cbn; try reflexivity; lia.
  - rewrite (key_abs s Ks). reflexivity.
Qed.

(** X2: [defaultedScaledSaturation] keeps [s] exactly when
    [-1e20 < s < 1e20] and returns the default otherwise: for every
    [s <= -1e20], every [s >= 1e20], both infinities and NaN. *)
Theorem defaultedScaledSaturation_keeps_or_defaults (s dflt : float) :
  ((-1e20 <? s)%float = true /\ (s <? 1e20)%float = true /\
   defaultedScaledSaturation s dflt = s) \/
  (((s <=? -1e20)%float = true \/ (1e20 <=? s)%float = true \/
    is_nan s = true) /\
   defaultedScaledSaturation s dflt = dflt).
Proof.
  unfold defaultedScaledSaturation. cbn [flt fabs lit_1e20 binary64].
  rewrite sentinel_test. unfold is_nan.
  rewrite !ltb_key, !leb_key, eqb_key, key_1e20, key_opp_1e20.
  destruct (key s) as [a|]; cbn [negb andb].
  - rewrite Z.eqb_refl.
    destruct (-9814943504037940288 <? a)%Z eqn:E1;
      destruct (a <? 9814943504037940288)%Z eqn:E2; cbn [andb].
    + left. repeat split.
    + right. split; [right; left; lia|reflexivity].
    + right. split; [left; lia|reflexivity].
    + right. split; [left; lia|reflexivity].
  - right. split; [right; right|]; reflexivity.
Qed.

Example defaultedScaledSaturation_at_the_sentinel :
  defaultedScaledSaturation infinity 0.25%float = 0.25%float /\
  defaultedScaledSaturation neg_infinity 0.25%float = 0.25%float /\
  defaultedScaledSaturation nan 0.25%float = 0.25%float /\
  defaultedScaledSaturation 1e20%float 0.25%float = 0.25%float /\
  defaultedScaledSaturation 0x1.5af1d78b58c3fp+66%float 0.25%float
  = 0x1.5af1d78b58c3fp+66%float.
Proof. repeat split. Qed.

(* ===================================================================== *)
(** * Cell indices are not checked                                        *)
(* ===================================================================== *)

Lemma for_each_defined (A S : Type) (body : S -> A -> outcome S)
    (P : A -> Prop) :
  (forall s x, P x -> exists s', body s x = Returns s') ->
  (forall s x, ~ P x -> body s x = Undefined) ->
  (forall x, {P x} + {~ P x}) ->
  forall xs s,
    (Forall P xs -> exists s', for_each body xs s = Returns s') /\
    (~ Forall P xs -> for_each body xs s = Undefined).
Proof.
  intros Hin Hout Hdec xs. induction xs as [|x xs IH]; intros s.
  - split; [intros _; exists s; reflexivity|].
    intros Hn. exfalso. apply Hn. constructor.
  - cbn [for_each]. destruct (Hdec x) as [Hx|Hx].
    + destruct (Hin s x Hx) as (s' & Hs'). rewrite Hs'. cbn [bind].
      destruct (IH s') as [IH1 IH2]. split.
      * intros Hall. apply IH1. inversion Hall; assumption.
      * intros Hn. apply IH2. intros Hall. apply Hn. constructor; assumption.
    + rewrite (Hout s x Hx). cbn [bind]. split; [|reflexivity].
      intros Hall. inversion Hall; contradiction.
Qed.

Lemma index_above (A : Type) (v : list A) (i : nat) :
  ~ i < length v -> index v i = Undefined.
Proof.
  intros Hi. unfold index.
  destruct (nth_error v i) eqn:E; [|reflexivity].
  exfalso. apply Hi. apply nth_error_Some. congruence.
Qed.

Lemma Forall_and_iff (A : Type) (P Q : A -> Prop) (l : list A) :
  Forall P l /\ Forall Q l <-> Forall (fun x => P x /\ Q x) l.
Proof.
  rewrite !Forall_forall. split.
  - intros [HP HQ] x Hx. split; auto.
  - intros H. split; intros x Hx; apply H, Hx.
Qed.

Ltac body_defined :=
  unfold TwoPointScaling.eval_body, TwoPointScaling.reverse_body,
         ThreePointScaling.eval_body, ThreePointScaling.reverse_body,
         TwoPointScaling.sMin, TwoPointScaling.sMax, ThreePointScaling.sMin,
         ThreePointScaling.sDisp, ThreePointScaling.sMax;
  repeat match goal with
  | H : ?i < length ?v |- context [index ?v ?i] =>
      let x := fresh "x" in let E := fresh "E" in
      destruct (index_below v H) as (x & E); rewrite E; clear E; cbn [bind]
  | H : ~ ?i < length ?v |- context [index ?v ?i] =>
      rewrite (index_above v H); cbn [bind]
  end;
  try reflexivity;
  repeat match goal with
  | |- context [negb (validSaturations ?l)] => destruct (negb (validSaturations l))
  end;
  try (eexists; reflexivity).

Section Bounds.

Context {D : Type} `{Double D}.

Lemma TwoPoint_bodies_defined (this : TwoPointScaling.Impl D)
    (tep : TableEndPoints D) (srng : D) (s : list D) (pt : SaturationAssoc D) :
  (cell pt < length (TwoPointScaling.smin_ this) /\
   cell pt < length (TwoPointScaling.smax_ this) ->
   (exists s', TwoPointScaling.eval_body this tep srng s pt = Returns s') /\
   (exists s', TwoPointScaling.reverse_body this tep srng s pt = Returns s')) /\
  (~ (cell pt < length (TwoPointScaling.smin_ this) /\
      cell pt < length (TwoPointScaling.smax_ this)) ->
   TwoPointScaling.eval_body this tep srng s pt = Undefined /\
   TwoPointScaling.reverse_body this tep srng s pt = Undefined).
Proof.
  split.
  - intros [H1 H2]. split; body_defined.
  - intros Hn.
    destruct (lt_dec (cell pt) (length (TwoPointScaling.smin_ this))) as [H1|H1];
      destruct (lt_dec (cell pt) (length (TwoPointScaling.smax_ this))) as [H2|H2];
      try (exfalso; apply Hn; split; assumption);
      split; body_defined.
Qed.

Lemma ThreePoint_bodies_defined (this : ThreePointScaling.Impl D)
    (tep : TableEndPoints D) (s : list D) (pt : SaturationAssoc D) :
  (cell pt < length (ThreePointScaling.smin_ this) /\
   cell pt < length (ThreePointScaling.sdisp_ this) /\
   cell pt < length (ThreePointScaling.smax_ this) ->
   (exists s', ThreePointScaling.eval_body this tep s pt = Returns s') /\
   (exists s', ThreePointScaling.reverse_body this tep s pt = Returns s')) /\
  (~ (cell pt < length (ThreePointScaling.smin_ this) /\
      cell pt < length (ThreePointScaling.sdisp_ this) /\
      cell pt < length (ThreePointScaling.smax_ this)) ->
   ThreePointScaling.eval_body this tep s pt = Undefined /\
   ThreePointScaling.reverse_body this tep s pt = Undefined).
Proof.
  split.
  - intros (H1 & H2 & H3). split; body_defined.
  - intros Hn.
    destruct (lt_dec (cell pt) (length (ThreePointScaling.smin_ this))) as [H1|H1];
      destruct (lt_dec (cell pt) (length (ThreePointScaling.sdisp_ this))) as [H2|H2];
      destruct (lt_dec (cell pt) (length (ThreePointScaling.smax_ this))) as [H3|H3];
      try (exfalso; apply Hn; repeat split; assumption);
      split; body_defined.
Qed.

Lemma TwoPoint_in_range_pointwise (this : TwoPointScaling.Impl D)
    (sp : SaturationPoints D) :
  TwoPoint_in_range this sp
  <-> Forall (fun pt => cell pt < length (TwoPointScaling.smin_ this) /\
                        cell pt < length (TwoPointScaling.smax_ this)) sp.
Proof. unfold TwoPoint_in_range, cells_below. apply Forall_and_iff. Qed.

Lemma ThreePoint_in_range_pointwise (this : ThreePointScaling.Impl D)
    (sp : SaturationPoints D) :
  ThreePoint_in_range this sp
  <-> Forall (fun pt => cell pt < length (ThreePointScaling.smin_ this) /\
                        cell pt < length (ThreePointScaling.sdisp_ this) /\
                        cell pt < length (ThreePointScaling.smax_ this)) sp.
Proof.
  unfold ThreePoint_in_range, cells_below.
  rewrite <- !Forall_and_iff. reflexivity.
Qed.

Lemma and_lt_dec (a b c d : nat) : {a < b /\ c < d} + {~ (a < b /\ c < d)}.
Proof.
  destruct (lt_dec a b); destruct (lt_dec c d); try (left; split; assumption);
    right; intros [? ?]; contradiction.
Qed.

Lemma and3_lt_dec (a b c d e f : nat) :
  {a < b /\ c < d /\ e < f} + {~ (a < b /\ c < d /\ e < f)}.
Proof.
  destruct (lt_dec a b); destruct (and_lt_dec c d e f);
    try (left; split; assumption); right; intros [? ?]; contradiction.
Qed.

(** X3: the horizontal scalings do not check cell indices.  [eval] and
    [reverse] return when every point names a cell within each of the
    object's arrays; as soon as one point does not, the call reads
    outside a vector and has no defined behaviour.  No call throws or
    stops at an assertion. *)
Theorem horizontal_scaling_cells_unchecked
    (two : TwoPointScaling.Impl D) (three : ThreePointScaling.Impl D)
    (tep : TableEndPoints D) (sp : SaturationPoints D) :
  (TwoPoint_in_range two sp ->
   (exists out, TwoPointScaling.eval two tep sp = Returns out) /\
   (exists out, TwoPointScaling.reverse two tep sp = Returns out)) /\
  (~ TwoPoint_in_range two sp ->
   TwoPointScaling.eval two tep sp = Undefined /\
   TwoPointScaling.reverse two tep sp = Undefined) /\
  (ThreePoint_in_range three sp ->
   (exists out, ThreePointScaling.eval three tep sp = Returns out) /\
   (exists out, ThreePointScaling.reverse three tep sp = Returns out)) /\
  (~ ThreePoint_in_range three sp ->
   ThreePointScaling.eval three tep sp = Undefined /\
   ThreePointScaling.reverse three tep sp = Undefined).
Proof.
  rewrite TwoPoint_in_range_pointwise, ThreePoint_in_range_pointwise.
  unfold TwoPointScaling.eval, TwoPointScaling.reverse,
         ThreePointScaling.eval, ThreePointScaling.reverse.
  pose proof (fun (body : list D -> SaturationAssoc D -> outcome (list D))
                  Hin Hout Hdec =>
    @for_each_defined _ _ body
      (fun pt => cell pt < length (TwoPointScaling.smin_ two) /\
                 cell pt < length (TwoPointScaling.smax_ two))
      Hin Hout Hdec sp []) as Two.
  pose proof (fun (body : list D -> SaturationAssoc D -> outcome (list D))
                  Hin Hout Hdec =>
    @for_each_defined _ _ body
      (fun pt => cell pt < length (ThreePointScaling.smin_ three) /\
                 cell pt < length (ThreePointScaling.sdisp_ three) /\
                 cell pt < length (ThreePointScaling.smax_ three))
      Hin Hout Hdec sp []) as Three.
  assert (Hdec2 : forall pt : SaturationAssoc D,
            {cell pt < length (TwoPointScaling.smin_ two) /\
             cell pt < length (TwoPointScaling.smax_ two)} +
            {~ (cell pt < length (TwoPointScaling.smin_ two) /\
                cell pt < length (TwoPointScaling.smax_ two))})
    by (intros; apply and_lt_dec).
  assert (Hdec3 : forall pt : SaturationAssoc D,
            {cell pt < length (ThreePointScaling.smin_ three) /\
             cell pt < length (ThreePointScaling.sdisp_ three) /\
             cell pt < length (ThreePointScaling.smax_ three)} +
            {~ (cell pt < length (ThreePointScaling.smin_ three) /\
                cell pt < length (ThreePointScaling.sdisp_ three) /\
                cell pt < length (ThreePointScaling.smax_ three))})
    by (intros; apply and3_lt_dec).
  split; [|split; [|split]]; intros Hsp; split.
  1-4: eapply Two; [| |exact Hdec2|exact Hsp]; intros;
       eapply TwoPoint_bodies_defined; eassumption.
  all: eapply Three; [| |exact Hdec3|exact Hsp]; intros;
       eapply ThreePoint_bodies_defined; eassumption.
Qed.

End Bounds.

Example eval_outside_the_arrays :
  TwoPointScaling.eval
    {| TwoPointScaling.smin_ := [0.25%float];
       TwoPointScaling.smax_ := [0.75%float];
       TwoPointScaling.handle_invalid_ := UseUnscaled |}
    {| low := 0%float; disp := 0%float; high := 1%float |}
    [{| cell := 0; sat := 0.5%float |}; {| cell := 1; sat := 0.5%float |}]
  = Undefined.
Proof. reflexivity. Qed.

(* ===================================================================== *)
(** * Saturations at and beyond the clamps, on binary64                   *)
(* ===================================================================== *)

Lemma nan_not_lt_l (x y : float) : is_nan x = true -> (x <? y)%float = false.
Proof. unfold is_nan. intros Hx. float_order. Qed.

Lemma nan_not_lt_r (x y : float) : is_nan x = true -> (y <? x)%float = false.
Proof. unfold is_nan. intros Hx. float_order. Qed.

Lemma ltb_irrefl (x : float) : (x <? x)%float = false.
Proof. float_order. Qed.

(** X4: a NaN evaluation saturation is not propagated.  At a point whose
    resolved end points pass the validity check, [eval] of either
    horizontal scaling stores [tep.low] and [reverse] stores [sLO], as
    for a saturation below the range. *)
Theorem NaN_saturation_is_clamped_low
    (two : TwoPointScaling.Impl float) (three : ThreePointScaling.Impl float)
    (tep : TableEndPoints float) (c : nat) (s sLO sHI sLO' sR' sHI' : float) :
  is_nan s = true ->
  TwoPointScaling.sMin two c tep = Returns sLO ->
  TwoPointScaling.sMax two c tep = Returns sHI ->
  validSaturations [sLO; sHI] = true ->
  ThreePointScaling.sMin three c tep = Returns sLO' ->
  ThreePointScaling.sDisp three c tep = Returns sR' ->
  ThreePointScaling.sMax three c tep = Returns sHI' ->
  validSaturations [sLO'; sR'; sHI'] = true ->
  TwoPointScaling.eval two tep [{| cell := c; sat := s |}]
  = Returns [low tep] /\
  TwoPointScaling.reverse two tep [{| cell := c; sat := s |}]
  = Returns [sLO] /\
  ThreePointScaling.eval three tep [{| cell := c; sat := s |}]
  = Returns [low tep] /\
  ThreePointScaling.reverse three tep [{| cell := c; sat := s |}]
  = Returns [sLO'].
Proof.
  intros Hs HLO HHI Hv HLO' HR' HHI' Hv'.
  rewrite (TwoPoint_eval_point two tep {| cell := c; sat := s |} HLO HHI),
    (TwoPoint_reverse_point two tep {| cell := c; sat := s |} HLO HHI),
    (ThreePoint_eval_point three tep {| cell := c; sat := s |} HLO' HR' HHI'),
    (ThreePoint_reverse_point three tep {| cell := c; sat := s |} HLO' HR' HHI').
  rewrite Hv, Hv'. cbn [sat flt binary64].
  repeat rewrite (@nan_not_lt_r s _ Hs). repeat split.
Qed.

Lemma NaN_saturation_is_clamped_low_witness :
  TwoPointScaling.eval
    {| TwoPointScaling.smin_ := [0.25%float];
       TwoPointScaling.smax_ := [0.75%float];
       TwoPointScaling.handle_invalid_ := UseUnscaled |}
    {| low := 0.125%float; disp := 0.5%float; high := 1%float |}
    [{| cell := 0; sat := nan |}]
  = Returns [0.125%float] /\
  TwoPointScaling.reverse
    {| TwoPointScaling.smin_ := [0.25%float];
       TwoPointScaling.smax_ := [0.75%float];
       TwoPointScaling.handle_invalid_ := UseUnscaled |}
    {| low := 0.125%float; disp := 0.5%float; high := 1%float |}
    [{| cell := 0; sat := nan |}]
  = Returns [0.25%float] /\
  ThreePointScaling.eval
    {| ThreePointScaling.smin_ := [0.25%float];
       ThreePointScaling.sdisp_ := [0.5%float];
       ThreePointScaling.smax_ := [0.75%float];
       ThreePointScaling.handle_invalid_ := UseUnscaled |}
    {| low := 0.125%float; disp := 0.5%float; high := 1%float |}
    [{| cell := 0; sat := nan |}]
  = Returns [0.125%float] /\
  ThreePointScaling.reverse
    {| ThreePointScaling.smin_ := [0.25%float];
       ThreePointScaling.sdisp_ := [0.5%float];
       ThreePointScaling.smax_ := [0.75%float];
       ThreePointScaling.handle_invalid_ := UseUnscaled |}
    {| low := 0.125%float; disp := 0.5%float; high := 1%float |}
    [{| cell := 0; sat := nan |}]
  = Returns [0.25%float].
Proof.
  apply (@NaN_saturation_is_clamped_low
           {| TwoPointScaling.smin_ := [0.25%float];
              TwoPointScaling.smax_ := [0.75%float];
              TwoPointScaling.handle_invalid_ := UseUnscaled |}
           {| ThreePointScaling.smin_ := [0.25%float];
              ThreePointScaling.sdisp_ := [0.5%float];
              ThreePointScaling.smax_ := [0.75%float];
              ThreePointScaling.handle_invalid_ := UseUnscaled |}
           {| low := 0.125%float; disp := 0.5%float; high := 1%float |}
           0 nan 0.25%float 0.75%float 0.25%float 0.5%float 0.75%float);
    reflexivity.
Defined.

(** X5: beyond the scaled range the round trip is exact.  For table end
    points [tep.low < tep.high] and a cell whose resolved end points are
    valid with [sLO < sHI], [reverse] after [eval] sends every
    saturation at or below [sLO] (and NaN) to [sLO] and every saturation
    at or above [sHI] to [sHI]; [eval] after [reverse] sends every
    saturation at or below [tep.low] to [tep.low] and every saturation
    at or above [tep.high] to [tep.high]. *)
Theorem TwoPoint_round_trip_beyond_the_range
    (this : TwoPointScaling.Impl float) (tep : TableEndPoints float)
    (c : nat) (s sLO sHI : float) :
  TwoPointScaling.sMin this c tep = Returns sLO ->
  TwoPointScaling.sMax this c tep = Returns sHI ->
  validSaturations [sLO; sHI] = true ->
  (low tep <? high tep)%float = true ->
  (sLO <? sHI)%float = true ->
  (exists x s',
     TwoPointScaling.eval this tep [{| cell := c; sat := s |}] = Returns [x] /\
     TwoPointScaling.reverse this tep [{| cell := c; sat := x |}]
     = Returns [s'] /\
     ((s <=? sLO)%float = true \/ is_nan s = true -> s' = sLO) /\
     ((sHI <=? s)%float = true -> s' = sHI)) /\
  (exists x s',
     TwoPointScaling.reverse this tep [{| cell := c; sat := s |}]
     = Returns [x] /\
     TwoPointScaling.eval this tep [{| cell := c; sat := x |}] = Returns [s'] /\
     ((s <=? low tep)%float = true \/ is_nan s = true -> s' = low tep) /\
     ((high tep <=? s)%float = true -> s' = high tep)).
Proof.
  intros HLO HHI Hv Htep Hs.
  split; eexists; eexists.
  - rewrite (TwoPoint_eval_point this tep {| cell := c; sat := s |} HLO HHI).
    rewrite (TwoPoint_reverse_point this tep {| cell := c; sat := _ |} HLO HHI).
    rewrite Hv. cbn [sat flt binary64].
    split; [reflexivity|]. split; [reflexivity|]. split.
    + intros Hle.
      assert (E : (sLO <? s)%float = false).
      { destruct Hle as [Hle|Hn];
          [apply leb_not_gt, Hle|apply nan_not_lt_r, Hn]. }
      rewrite E. cbn [negb]. rewrite ltb_irrefl. reflexivity.
    + intros Hge.
      assert (E1 : (sLO <? s)%float = true) by (clear - Hs Hge; float_order).
      assert (E2 : (s <? sHI)%float = false) by (apply leb_not_gt, Hge).
      rewrite E1, E2. cbn [negb]. rewrite Htep, ltb_irrefl. reflexivity.
  - rewrite (TwoPoint_reverse_point this tep {| cell := c; sat := s |} HLO HHI).
    rewrite (TwoPoint_eval_point this tep {| cell := c; sat := _ |} HLO HHI).
    rewrite Hv. cbn [sat flt binary64].
    split; [reflexivity|]. split; [reflexivity|]. split.
    + intros Hle.
      assert (E : (low tep <? s)%float = false).
      { destruct Hle as [Hle|Hn];
          [apply leb_not_gt, Hle|apply nan_not_lt_r, Hn]. }
      rewrite E. cbn [negb]. rewrite ltb_irrefl. reflexivity.
    + intros Hge.
      assert (E1 : (low tep <? s)%float = true)
        by (clear - Htep Hge; float_order).
      assert (E2 : (s <? high tep)%float = false) by (apply leb_not_gt, Hge).
      rewrite E1, E2. cbn [negb]. rewrite Hs, ltb_irrefl. reflexivity.
Qed.

(** X6: the same for [ThreePointScaling], whose outer clamps do not
    depend on the displacing end point: for [tep.low < tep.high] and
    valid resolved end points with [sLO < sHI], [reverse] after [eval]
    sends saturations at or below [sLO] (and NaN) to [sLO] and
    saturations at or above [sHI] to [sHI], and [eval] after [reverse]
    sends saturations at or below [tep.low] to [tep.low] and saturations
    at or above [tep.high] to [tep.high]. *)
Theorem ThreePoint_round_trip_beyond_the_range
    (this : ThreePointScaling.Impl float) (tep : TableEndPoints float)
    (c : nat) (s sLO sR sHI : float) :
  ThreePointScaling.sMin this c tep = Returns sLO ->
  ThreePointScaling.sDisp this c tep = Returns sR ->
  ThreePointScaling.sMax this c tep = Returns sHI ->
  validSaturations [sLO; sR; sHI] = true ->
  (low tep <? high tep)%float = true ->
  (sLO <? sHI)%float = true ->
  (exists x s',
     ThreePointScaling.eval this tep [{| cell := c; sat := s |}]
     = Returns [x] /\
     ThreePointScaling.reverse this tep [{| cell := c; sat := x |}]
     = Returns [s'] /\
     ((s <=? sLO)%float = true \/ is_nan s = true -> s' = sLO) /\
     ((sHI <=? s)%float = true -> s' = sHI)) /\
  (exists x s',
     ThreePointScaling.reverse this tep [{| cell := c; sat := s |}]
     = Returns [x] /\
     ThreePointScaling.eval this tep [{| cell := c; sat := x |}]
     = Returns [s'] /\
     ((s <=? low tep)%float = true \/ is_nan s = true -> s' = low tep) /\
     ((high tep <=? s)%float = true -> s' = high tep)).
Proof.
  intros HLO HR HHI Hv Htep Hs.
  split; eexists; eexists.
  - rewrite (ThreePoint_eval_point this tep {| cell := c; sat := s |}
               HLO HR HHI).
    rewrite (ThreePoint_reverse_point this tep {| cell := c; sat := _ |}
               HLO HR HHI).
    rewrite Hv. cbn [sat flt binary64].
    split; [reflexivity|]. split; [reflexivity|]. split.
    + intros Hle.
      assert (E : (sLO <? s)%float = false).
      { destruct Hle as [Hle|Hn];
          [apply leb_not_gt, Hle|apply nan_not_lt_r, Hn]. }
      rewrite E. cbn [negb]. rewrite ltb_irrefl. reflexivity.
    + intros Hge.
      assert (E1 : (sLO <? s)%float = true) by (clear - Hs Hge; float_order).
      assert (E2 : (s <? sHI)%float = false) by (apply leb_not_gt, Hge).
      rewrite E1, E2. cbn [negb]. rewrite Htep, ltb_irrefl. reflexivity.
  - rewrite (ThreePoint_reverse_point this tep {| cell := c; sat := s |}
               HLO HR HHI).
    rewrite (ThreePoint_eval_point this tep {| cell := c; sat := _ |}
               HLO HR HHI).
    rewrite Hv. cbn [sat flt binary64].
    split; [reflexivity|]. split; [reflexivity|]. split.
    + intros Hle.
      assert (E : (low tep <? s)%float = false).
      { destruct Hle as [Hle|Hn];
          [apply leb_not_gt, Hle|apply nan_not_lt_r, Hn]. }
      rewrite E. cbn [negb]. rewrite ltb_irrefl. reflexivity.
    + intros Hge.
      assert (E1 : (low tep <? s)%float = true)
        by (clear - Htep Hge; float_order).
      assert (E2 : (s <? high tep)%float = false) by (apply leb_not_gt, Hge).
      rewrite E1, E2. cbn [negb]. rewrite Hs, ltb_irrefl. reflexivity.
Qed.

(* ===================================================================== *)
(** * The displacing node of the three-point scaling, on binary64         *)
(* ===================================================================== *)

Lemma is_finite_SF (x : float) :
  is_finite x = true ->
  (exists s, Prim2SF x = S754_zero s) \/
  (exists s m e, Prim2SF x = S754_finite s m e).
Proof.
  unfold is_finite, is_nan, is_infinity.
  rewrite !FloatAxioms.eqb_spec, abs_spec.
  change (Prim2SF infinity) with (S754_infinity false).
  destruct (Prim2SF x) as [s|s| |s m e]; cbn; try discriminate; eauto.
  destruct s; discriminate.
Qed.

Lemma is_zero_SF (x : float) :
  is_zero x = true <-> exists s, Prim2SF x = S754_zero s.
Proof.
  unfold is_zero. rewrite FloatAxioms.eqb_spec.
  change (Prim2SF zero) with (S754_zero false).
  destruct (Prim2SF x) as [s|s| |s m e]; cbn.
  - split; eauto.
  - split; [destruct s; discriminate|intros [s' Hs']; discriminate Hs'].
  - split; [discriminate|intros [s' Hs']; discriminate Hs'].
  - split; [destruct s; discriminate|intros [s' Hs']; discriminate Hs'].
Qed.

Lemma sub_self (x : float) : is_finite x = true -> (x - x)%float = 0%float.
Proof.
  intros Hx. apply Prim2SF_inj. rewrite sub_spec.
  change (Prim2SF 0) with (S754_zero false).
  destruct (is_finite_SF x Hx) as [[s E]|(s & m & e & E)]; rewrite E.
  - destruct s; reflexivity.
  - unfold SF64sub, SFsub. rewrite Z.sub_diag. reflexivity.
Qed.

Lemma zero_div_pos (y : float) :
  (0 <? y)%float = true -> (0 / y)%float = 0%float.
Proof.
  rewrite FloatAxioms.ltb_spec. intros Hy. apply Prim2SF_inj.
  rewrite div_spec. change (Prim2SF 0) with (S754_zero false) in *.
  unfold SFltb in Hy.
  destruct (Prim2SF y) as [s|s| |s m e]; try discriminate Hy;
    destruct s; try discriminate Hy; reflexivity.
Qed.

Lemma zero_mul_finite (z : float) :
  is_finite z = true -> is_zero (0 * z)%float = true.
Proof.
  intros Hz. apply is_zero_SF. rewrite mul_spec.
  change (Prim2SF 0) with (S754_zero false).
  destruct (is_finite_SF z Hz) as [[s E]|(s & m & e & E)]; rewrite E;
    cbn; eauto.
Qed.

Lemma key_add_zero (d z : float) :
  is_zero z = true -> key (d + z)%float = key d.
Proof.
  intros Hz. apply is_zero_SF in Hz. destruct Hz as [sz Ez].
  unfold key. rewrite add_spec, Ez.
  destruct (Prim2SF d) as [s|s| |s m e]; try reflexivity.
  destruct s, sz; reflexivity.
Qed.

Lemma add_zero_eqb (d z : float) :
  is_zero z = true -> is_nan d = false -> (d + z =? d)%float = true.
Proof.
  intros Hz Hd. rewrite eqb_key, (key_add_zero d Hz).
  unfold is_nan in Hd. rewrite eqb_key in Hd.
  destruct (key d); [apply Z.eqb_refl|discriminate Hd].
Qed.

Lemma finite_sub_not_nan (a b : float) :
  is_finite (a - b)%float = true -> is_nan b = false.
Proof.
  unfold is_finite, is_nan. rewrite !eqb_key. unfold key.
  rewrite sub_spec.
  destruct (Prim2SF b) as [s|s| |s m e] eqn:E; cbn [SFkey];
    rewrite ?Z.eqb_refl; try reflexivity.
  destruct (Prim2SF a); cbn; discriminate.
Qed.

(** The upper interpolation formula at the left end of its interval. *)
Lemma upper_branch_at_its_left_end (d h r hi : float) :
  is_finite r = true -> (r <? hi)%float = true ->
  is_finite (h - d)%float = true ->
  (d + ((r - r) / (hi - r)) * (h - d) =? d)%float = true.
Proof.
  intros Hr Hlt Hf.
  rewrite (sub_self r Hr), (zero_div_pos (sub_pos Hlt)).
  apply add_zero_eqb.
  - apply zero_mul_finite, Hf.
  - apply (finite_sub_not_nan _ _ Hf).
Qed.

(** X7: the three-point scaling maps the displacing node onto the
    displacing node.  For valid resolved end points [sLO < sR < sHI],
    [eval] at [s = sR] returns [tep.disp] when [tep.high - tep.disp] is
    finite; for table end points [tep.low < tep.disp < tep.high],
    [reverse] at [s = tep.disp] returns [sR] when [sHI - sR] is finite.
    The result is the node as a number ([==] of C++); it is the very
    same double unless the node is a zero. *)
Theorem ThreePoint_maps_the_displacing_node
    (this : ThreePointScaling.Impl float) (tep : TableEndPoints float)
    (c : nat) (sLO sR sHI : float) :
  ThreePointScaling.sMin this c tep = Returns sLO ->
  ThreePointScaling.sDisp this c tep = Returns sR ->
  ThreePointScaling.sMax this c tep = Returns sHI ->
  validSaturations [sLO; sR; sHI] = true ->
  (sLO <? sR)%float = true -> (sR <? sHI)%float = true ->
  (low tep <? disp tep)%float = true -> (disp tep <? high tep)%float = true ->
  is_finite (high tep - disp tep)%float = true ->
  is_finite (sHI - sR)%float = true ->
  (exists x,
     ThreePointScaling.eval this tep [{| cell := c; sat := sR |}]
     = Returns [x] /\
     (x =? disp tep)%float = true /\
     (is_zero (disp tep) = false -> x = disp tep)) /\
  (exists s,
     ThreePointScaling.reverse this tep [{| cell := c; sat := disp tep |}]
     = Returns [s] /\
     (s =? sR)%float = true /\
     (is_zero sR = false -> s = sR)).
Proof.
  intros HLO HR HHI Hv Hs1 Hs2 Ht1 Ht2 Hft Hfs.
  assert (Heq : forall x y : float,
             (x =? y)%float = true -> is_zero y = false -> x = y).
  { intros x y Hxy Hy. symmetry. apply eqb_nonzero_eq; [|exact Hy].
    clear - Hxy. float_order. }
  split; eexists.
  - rewrite (ThreePoint_eval_point this tep {| cell := c; sat := sR |}
               HLO HR HHI).
    rewrite Hv. cbn [sat flt fadd fsub fmul fdiv binary64].
    rewrite Hs1, Hs2, ltb_irrefl. cbn [negb].
    split; [reflexivity|].
    pose proof (upper_branch_at_its_left_end (disp tep) (high tep)
                  (between_is_finite Hs1 Hs2) Hs2 Hft) as E.
    split; [exact E|]. intros Hz. apply Heq; assumption.
  - rewrite (ThreePoint_reverse_point this tep
               {| cell := c; sat := disp tep |} HLO HR HHI).
    rewrite Hv. cbn [sat flt fadd fsub fmul fdiv binary64].
    rewrite Ht1, Ht2, ltb_irrefl. cbn [negb].
    split; [reflexivity|].
    pose proof (upper_branch_at_its_left_end sR sHI
                  (between_is_finite Ht1 Ht2) Ht2 Hfs) as E.
    split; [exact E|]. intros Hz. apply Heq; assumption.
Qed.

(* ===================================================================== *)
(** * The assertions of [CritSatVerticalScaling::vertScale]               *)
(* ===================================================================== *)

Lemma store_length (A : Type) (v w : list A) (i : nat) (x : A) :
  store v i x = Returns w -> length w = length v.
Proof.
  revert w i. induction v as [|y v IH]; intros w i Hs; [discriminate Hs|].
  destruct i as [|i]; cbn [store] in Hs.
  - inversion Hs. reflexivity.
  - destruct (store v i x) as [w'| | |] eqn:E; try discriminate Hs.
    cbn [bind] in Hs. inversion Hs. cbn [length]. f_equal. apply (IH w' i E).
Qed.

Lemma for_each_preserves (A S : Type) (body : S -> A -> outcome S)
    (P : S -> Prop) :
  (forall s x s', P s -> body s x = Returns s' -> P s') ->
  forall xs s out, P s -> for_each body xs s = Returns out -> P out.
Proof.
  intros Hbody xs. induction xs as [|x xs IH]; intros s out Hs Hrun.
  - inversion Hrun. subst. exact Hs.
  - cbn [for_each] in Hrun. destruct (body s x) as [s'| | |] eqn:E;
      try discriminate Hrun.
    cbn [bind] in Hrun. exact (IH s' out (Hbody s x s' Hs E) Hrun).
Qed.

Section CritSatChecks.

Context {D : Type} `{Double D}.
Local Open Scope double_scope.

Lemma CritSat_body_quiet (this : CritSatVerticalScaling.Impl D)
    (fdisp sdisp fmax smax : D) (sepfv sep_s : bool)
    (sp : SaturationPoints D) (ret : list D) (i : nat) :
  ~ reports_failure
      (CritSatVerticalScaling.vertScale_body this fdisp sdisp fmax smax
         sepfv sep_s sp ret i).
Proof.
  unfold CritSatVerticalScaling.vertScale_body.
  repeat (apply bind_quiet; [apply index_quiet|intros ?]).
  apply store_quiet.
Qed.

Lemma CritSat_body_length (this : CritSatVerticalScaling.Impl D)
    (fdisp sdisp fmax smax : D) (sepfv sep_s : bool)
    (sp : SaturationPoints D) (n : nat) (ret ret' : list D) (i : nat) :
  length ret = n ->
  CritSatVerticalScaling.vertScale_body this fdisp sdisp fmax smax
    sepfv sep_s sp ret i = Returns ret' ->
  length ret' = n.
Proof.
  unfold CritSatVerticalScaling.vertScale_body. intros Hn Hrun.
  repeat match type of Hrun with
  | context [index ?v ?j] =>
      destruct (index v j); try discriminate Hrun; cbn [bind] in Hrun
  end.
  rewrite (store_length _ _ _ Hrun). exact Hn.
Qed.

(** X10: the checks of [CritSatVerticalScaling::vertScale] are
    assertions.  Built with assertions enabled the call fails if and only
    if [points.size() != values.size()], or [f.max.val < f.disp.val], or
    [f.max.sat < f.disp.sat]; the size assertion is tested first.  Built
    with [NDEBUG] it never reports a failure.  In every build a call
    that returns gives back [values.size()] entries. *)
Theorem CritSat_vertScale_assertions
    (this : CritSatVerticalScaling.Impl D) (f : FunctionValues.t D)
    (sp : SaturationPoints D) (val : list D) :
  (reports_failure (CritSatVerticalScaling.vertScale false this f sp val)
   <-> length sp <> length val \/
       (FunctionValues.val (FunctionValues.max f)
        <? FunctionValues.val (FunctionValues.disp f)) = true \/
       (FunctionValues.sat (FunctionValues.max f)
        <? FunctionValues.sat (FunctionValues.disp f)) = true) /\
  (length sp <> length val ->
   CritSatVerticalScaling.vertScale false this f sp val
   = Aborts "Internal Error in Vertical Scaling") /\
  (length sp = length val ->
   (FunctionValues.val (FunctionValues.max f)
    <? FunctionValues.val (FunctionValues.disp f)) = true \/
   (FunctionValues.sat (FunctionValues.max f)
    <? FunctionValues.sat (FunctionValues.disp f)) = true ->
   CritSatVerticalScaling.vertScale false this f sp val
   = Aborts "Internal Error in Table Extraction") /\
  ~ reports_failure (CritSatVerticalScaling.vertScale true this f sp val) /\
  (forall (NDEBUG : bool) (out : list D),
      CritSatVerticalScaling.vertScale NDEBUG this f sp val = Returns out ->
      length out = length val).
Proof.
  set (fdisp := FunctionValues.val (FunctionValues.disp f)).
  set (sdisp := FunctionValues.sat (FunctionValues.disp f)).
  set (fmax := FunctionValues.val (FunctionValues.max f)).
  set (smax := FunctionValues.sat (FunctionValues.max f)).
  assert (Hquiet : forall ret,
             ~ reports_failure
                 (for_each (CritSatVerticalScaling.vertScale_body this
                              fdisp sdisp fmax smax (fmax >? fdisp)
                              (sdisp >? smax) sp)
                           (seq 0 (length sp)) ret)).
  { apply for_each_quiet. intros s i. apply CritSat_body_quiet. }
  assert (Hsize : length sp <> length val ->
                  CritSatVerticalScaling.vertScale false this f sp val
                  = Aborts "Internal Error in Vertical Scaling").
  { intros Hne. unfold CritSatVerticalScaling.vertScale, assert.
    destruct (Nat.eqb_spec (length sp) (length val));
      [contradiction|reflexivity]. }
  assert (Htable : length sp = length val ->
                   (fmax <? fdisp) = true \/ (smax <? sdisp) = true ->
                   CritSatVerticalScaling.vertScale false this f sp val
                   = Aborts "Internal Error in Table Extraction").
  { intros Heq Hinv. unfold CritSatVerticalScaling.vertScale, assert.
    fold fdisp sdisp fmax smax. rewrite Heq, Nat.eqb_refl. cbn [bind].
    destruct (fmax <? fdisp); [reflexivity|]. cbn [negb bind].
    destruct Hinv as [Hinv|Hinv]; [discriminate Hinv|].
    rewrite Hinv. reflexivity. }
  split; [|split; [exact Hsize|split; [exact Htable|split]]].
  - split.
    + intros Hfail.
      destruct (Nat.eq_dec (length sp) (length val)) as [Heq|Hne];
        [|left; exact Hne].
      right. revert Hfail. unfold CritSatVerticalScaling.vertScale, assert.
      fold fdisp sdisp fmax smax. rewrite Heq, Nat.eqb_refl. cbn [bind].
      destruct (fmax <? fdisp); [intros _; left; reflexivity|].
      destruct (smax <? sdisp); [intros _; right; reflexivity|].
      cbn [negb bind]. rewrite <- Heq. intros Hfail.
      exfalso. exact (Hquiet _ Hfail).
    + intros Hwhy.
      destruct (Nat.eq_dec (length sp) (length val)) as [Heq|Hne].
      * destruct Hwhy as [Hne|Hinv]; [contradiction|].
        rewrite (Htable Heq Hinv). exact I.
      * rewrite (Hsize Hne). exact I.
  - unfold CritSatVerticalScaling.vertScale. cbn [assert bind]. apply Hquiet.
  - intros NDEBUG out. unfold CritSatVerticalScaling.vertScale.
    fold fdisp sdisp fmax smax.
    repeat match goal with
    | |- context [assert ?n ?c ?w] =>
        destruct (assert n c w); try discriminate; cbn [bind]
    end.
    intros Hrun.
    refine (@for_each_preserves _ _ _ (fun ret => length ret = length val)
              _ _ _ _ eq_refl Hrun).
    intros s i s' Hs Hbody. cbv beta in Hs |- *.
    eapply CritSat_body_length; eassumption.
Qed.

End CritSatChecks.

Example CritSat_vertScale_inverted_table :
  CritSatVerticalScaling.vertScale false
    {| CritSatVerticalScaling.sdisp_ := [0.5%float];
       CritSatVerticalScaling.fdisp_ := [0.5%float];
       CritSatVerticalScaling.fmax_ := [1%float] |}
    {| FunctionValues.disp :=
         {| FunctionValues.sat := 0.5%float; FunctionValues.val := 1%float |};
       FunctionValues.max :=
         {| FunctionValues.sat := 1%float; FunctionValues.val := 0.5%float |} |}
    [{| cell := 0; sat := 0.75%float |}] [0.75%float]
  = Aborts "Internal Error in Table Extraction".
Proof. reflexivity. Qed.

(* ===================================================================== *)
(** * Single-point calls                                                  *)
(* ===================================================================== *)

Lemma singleton_of_nth (A : Type) (out : list A) (v : A) :
  length out = 1 -> nth_error out 0 = Some v -> out = [v].
Proof.
  destruct out as [|x [|y out]]; try discriminate.
  intros _ Hv. inversion Hv. reflexivity.
Qed.

Lemma defaulted_unset (D : Type) `{Double D} (x dflt : D) :
  (fabs x <? lit_1e20)%double = false ->
  defaultedScaledSaturation x dflt = dflt.
Proof. intros Hx. unfold defaultedScaledSaturation. rewrite Hx. reflexivity. Qed.

Lemma index_nth_error (A : Type) (v : list A) (i : nat) (x : A) :
  nth_error v i = Some x -> index v i = Returns x.
Proof. intros Hx. unfold index. rewrite Hx. reflexivity. Qed.

(* ===================================================================== *)
(** * The accuracy of the scaling maps on binary64                        *)
(* ===================================================================== *)

Lemma approximates_itself (tol : Q) (x : float) :
  is_finite x = true -> (0 <= tol)%Q -> approximates tol x (F2Q x).
Proof.
  intros Fx Ht. split; [exact Fx|].
  setoid_replace (F2Q x - F2Q x)%Q with 0%Q by ring. exact Ht.
Qed.

Lemma twelve_ulps : (0 <= 12 * ulp_1)%Q.
Proof. discriminate. Qed.

Lemma Qle_bool_true (a b : Q) : (a <= b)%Q -> Qle_bool a b = true.
Proof. intros H. apply Qle_bool_iff. exact H. Qed.

Lemma Qle_bool_false (a b : Q) : (b < a)%Q -> Qle_bool a b = false.
Proof.
  intros H. destruct (Qle_bool a b) eqn:E; [|reflexivity].
  apply Qle_bool_iff in E. lra.
Qed.

(** Negated comparisons of finite numbers. *)
Lemma ltb_false_F2Q (x y : float) :
  is_finite x = true -> is_finite y = true ->
  (x <? y)%float = false -> (F2Q y <= F2Q x)%Q.
Proof.
  intros Fx Fy H. apply Qnot_lt_le. intros Hlt.
  apply (@ltb_F2Q _ _ Fx Fy) in Hlt. congruence.
Qed.

(** [scaled_linearly] rounds the clamped linear image. *)
Lemma scaled_linearly_model (A B L H s : float) :
  in_unit_interval A -> in_unit_interval B ->
  in_unit_interval L -> in_unit_interval H ->
  (F2Q L <= F2Q H)%Q -> is_finite s = true ->
  approximates (12 * ulp_1) (scaled_linearly A B L H s)
    (clamped_linear_image (F2Q A) (F2Q B) (F2Q L) (F2Q H) (F2Q s)).
Proof.
  intros HA HB HL HH HLH Fs.
  pose proof (unit_interval_is_finite HA) as FA.
  pose proof (unit_interval_is_finite HB) as FB.
  pose proof (unit_interval_is_finite HL) as FL.
  pose proof (unit_interval_is_finite HH) as FH.
  unfold scaled_linearly, clamped_linear_image.
  destruct (A <? s)%float eqn:HAs; cbn [negb].
  2:{ rewrite Qle_bool_true by (apply ltb_false_F2Q; assumption).
      apply approximates_itself; [exact FL|apply twelve_ulps]. }
  pose proof (proj1 (@ltb_F2Q _ _ FA Fs) HAs) as Has.
  rewrite Qle_bool_false by exact Has.
  destruct (s <? B)%float eqn:HsB; cbn [negb].
  2:{ rewrite Qle_bool_true by (apply ltb_false_F2Q; assumption).
      apply approximates_itself; [exact FH|apply twelve_ulps]. }
  pose proof (proj1 (@ltb_F2Q _ _ Fs FB) HsB) as Hsb.
  rewrite Qle_bool_false by exact Hsb.
  apply interpolation_model; try assumption.
  - apply ltb_F2Q; [assumption..|lra].
  - apply ltb_leb, HAs.
  - apply ltb_leb, HsB.
Qed.

(** [scaled_linearly_in_two_pieces] rounds the clamped image in two
    pieces. *)
Lemma scaled_linearly_in_two_pieces_model (A M B L D H s : float) :
  in_unit_interval A -> in_unit_interval M -> in_unit_interval B ->
  in_unit_interval L -> in_unit_interval D -> in_unit_interval H ->
  (F2Q L <= F2Q D)%Q -> (F2Q D <= F2Q H)%Q -> is_finite s = true ->
  approximates (12 * ulp_1) (scaled_linearly_in_two_pieces A M B L D H s)
    (clamped_two_piece_image (F2Q A) (F2Q M) (F2Q B)
                             (F2Q L) (F2Q D) (F2Q H) (F2Q s)).
Proof.
  intros HA HM HB HL HD HH HLD HDH Fs.
  pose proof (unit_interval_is_finite HA) as FA.
  pose proof (unit_interval_is_finite HM) as FM.
  pose proof (unit_interval_is_finite HB) as FB.
  pose proof (unit_interval_is_finite HL) as FL.
  pose proof (unit_interval_is_finite HH) as FH.
  unfold scaled_linearly_in_two_pieces, clamped_two_piece_image.
  destruct (A <? s)%float eqn:HAs; cbn [negb].
  2:{ rewrite Qle_bool_true by (apply ltb_false_F2Q; assumption).
      apply approximates_itself; [exact FL|apply twelve_ulps]. }
  pose proof (proj1 (@ltb_F2Q _ _ FA Fs) HAs) as Has.
  rewrite Qle_bool_false by exact Has.
  destruct (s <? B)%float eqn:HsB; cbn [negb].
  2:{ rewrite Qle_bool_true by (apply ltb_false_F2Q; assumption).
      apply approximates_itself; [exact FH|apply twelve_ulps]. }
  pose proof (proj1 (@ltb_F2Q _ _ Fs FB) HsB) as Hsb.
  rewrite Qle_bool_false by exact Hsb.
  destruct (s <? M)%float eqn:HsM.
  - pose proof (proj1 (@ltb_F2Q _ _ Fs FM) HsM) as Hsm.
    rewrite Qle_bool_false by exact Hsm.
    apply interpolation_model; try assumption.
    + apply ltb_F2Q; [assumption..|lra].
    + apply ltb_leb, HAs.
    + apply ltb_leb, HsM.
  - pose proof (@ltb_false_F2Q _ _ Fs FM HsM) as Hms.
    rewrite Qle_bool_true by exact Hms.
    apply interpolation_model; try assumption.
    + apply ltb_F2Q; [assumption..|lra].
    + apply leb_F2Q; assumption.
    + apply ltb_leb, HsB.
Qed.

(** The exact clamped linear map stays in its target range and is
    monotone. *)
Lemma linear_image_between (a b l h s : Q) :
  (a < s)%Q -> (s < b)%Q -> (l <= h)%Q ->
  (l <= linear_image a b l h s <= h)%Q.
Proof.
  intros Has Hsb Hlh. unfold linear_image.
  set (T := ((s - a) / (b - a))%Q).
  assert (HT : (0 <= T <= 1)%Q).
  { unfold T. split.
    - apply Qle_shift_div_l; lra.
    - apply Qle_shift_div_r; lra. }
  split; nra.
Qed.

Lemma clamped_linear_image_range (a b l h s : Q) :
  (l <= h)%Q -> (l <= clamped_linear_image a b l h s <= h)%Q.
Proof.
  intros Hlh. unfold clamped_linear_image.
  destruct (Qle_bool s a) eqn:E1; [lra|].
  destruct (Qle_bool b s) eqn:E2; [lra|].
  apply linear_image_between; [| |exact Hlh].
  - apply Qnot_le_lt. intros H. apply Qle_bool_iff in H. congruence.
  - apply Qnot_le_lt. intros H. apply Qle_bool_iff in H. congruence.
Qed.

Lemma clamped_linear_image_monotone (a b l h s1 s2 : Q) :
  (l <= h)%Q -> (s1 <= s2)%Q ->
  (clamped_linear_image a b l h s1 <= clamped_linear_image a b l h s2)%Q.
Proof.
  intros Hlh Hs.
  pose proof (clamped_linear_image_range a b s2 Hlh) as R2.
  pose proof (clamped_linear_image_range a b s1 Hlh) as R1.
  unfold clamped_linear_image in *.
  destruct (Qle_bool s1 a) eqn:E1; [lra|].
  assert (H1 : (a < s1)%Q).
  { apply Qnot_le_lt. intros H. apply Qle_bool_iff in H. congruence. }
  rewrite (@Qle_bool_false s2 a) in * by lra.
  destruct (Qle_bool b s2) eqn:E2; [lra|].
  assert (H2 : (s2 < b)%Q).
  { apply Qnot_le_lt. intros H. apply Qle_bool_iff in H. congruence. }
  rewrite (@Qle_bool_false b s1) in * by lra.
  unfold linear_image.
  assert (HT : ((s1 - a) / (b - a) <= (s2 - a) / (b - a))%Q).
  { apply Qle_shift_div_l; [lra|].
    setoid_replace ((s1 - a) / (b - a) * (b - a))%Q with (s1 - a)%Q
      by (field; lra).
    lra. }
  nra.
Qed.

(** X9: on binary64, [eval] and [reverse] of [TwoPointScaling] round
    the clamped linear map.  For table end points and resolved end
    points of the cell in [0,1], with [tep.low <= tep.high] and
    [sLO <= sHI], and every finite saturation [s], both calls return a
    finite value within [12 * 2^-52] of the exact clamped linear image
    of [s]; hence within [12 * 2^-52] of the target range, and monotone
    in [s] up to [24 * 2^-52].  (Neither holds exactly: see
    [TwoPoint_eval_exceeds_the_range].) *)
Theorem TwoPoint_rounds_the_clamped_linear_map
    (this : TwoPointScaling.Impl float) (tep : TableEndPoints float)
    (c : nat) (sLO sHI : float) :
  in_unit_interval (low tep) -> in_unit_interval (high tep) ->
  (low tep <=? high tep)%float = true ->
  TwoPointScaling.sMin this c tep = Returns sLO ->
  TwoPointScaling.sMax this c tep = Returns sHI ->
  in_unit_interval sLO -> in_unit_interval sHI ->
  (sLO <=? sHI)%float = true ->
  let eval_exactly :=
    clamped_linear_image (F2Q sLO) (F2Q sHI) (F2Q (low tep)) (F2Q (high tep)) in
  let reverse_exactly :=
    clamped_linear_image (F2Q (low tep)) (F2Q (high tep)) (F2Q sLO) (F2Q sHI) in
  (forall s : float,
     is_finite s = true ->
     exists x y : float,
       TwoPointScaling.eval this tep [{| cell := c; sat := s |}]
       = Returns [x] /\
       TwoPointScaling.reverse this tep [{| cell := c; sat := s |}]
       = Returns [y] /\
       approximates (12 * ulp_1) x (eval_exactly (F2Q s)) /\
       approximates (12 * ulp_1) y (reverse_exactly (F2Q s)) /\
       (F2Q (low tep) - 12 * ulp_1 <= F2Q x <= F2Q (high tep) + 12 * ulp_1)%Q /\
       (F2Q sLO - 12 * ulp_1 <= F2Q y <= F2Q sHI + 12 * ulp_1)%Q) /\
  (forall s1 s2 x1 x2 y1 y2 : float,
     is_finite s1 = true -> is_finite s2 = true ->
     (s1 <=? s2)%float = true ->
     TwoPointScaling.eval this tep [{| cell := c; sat := s1 |}]
     = Returns [x1] ->
     TwoPointScaling.eval this tep [{| cell := c; sat := s2 |}]
     = Returns [x2] ->
     TwoPointScaling.reverse this tep [{| cell := c; sat := s1 |}]
     = Returns [y1] ->
     TwoPointScaling.reverse this tep [{| cell := c; sat := s2 |}]
     = Returns [y2] ->
     (F2Q x1 <= F2Q x2 + 24 * ulp_1)%Q /\ (F2Q y1 <= F2Q y2 + 24 * ulp_1)%Q).
Proof.
  intros Vl Vh Hlh HLO HHI VLO VHI Hslh eval_exactly reverse_exactly.
  subst eval_exactly reverse_exactly.
  pose proof (unit_interval_is_finite Vl) as Fl.
  pose proof (unit_interval_is_finite Vh) as Fh.
  pose proof (unit_interval_is_finite VLO) as FLO.
  pose proof (unit_interval_is_finite VHI) as FHI.
  apply leb_F2Q in Hlh; [|assumption..].
  apply leb_F2Q in Hslh; [|assumption..].
  assert (Heval : forall s,
            TwoPointScaling.eval this tep [{| cell := c; sat := s |}]
            = Returns [scaled_linearly sLO sHI (low tep) (high tep) s])
    by (intros s; apply TwoPoint_eval_scaled_linearly; assumption).
  assert (Hrev : forall s,
            TwoPointScaling.reverse this tep [{| cell := c; sat := s |}]
            = Returns [scaled_linearly (low tep) (high tep) sLO sHI s])
    by (intros s; apply TwoPoint_reverse_scaled_linearly; assumption).
  assert (Hx : forall s, is_finite s = true ->
            approximates (12 * ulp_1)
              (scaled_linearly sLO sHI (low tep) (high tep) s)
              (clamped_linear_image (F2Q sLO) (F2Q sHI) (F2Q (low tep))
                 (F2Q (high tep)) (F2Q s)))
    by (intros s Fs; apply scaled_linearly_model; assumption).
  assert (Hy : forall s, is_finite s = true ->
            approximates (12 * ulp_1)
              (scaled_linearly (low tep) (high tep) sLO sHI s)
              (clamped_linear_image (F2Q (low tep)) (F2Q (high tep)) (F2Q sLO)
                 (F2Q sHI) (F2Q s)))
    by (intros s Fs; apply scaled_linearly_model; assumption).
  split.
  - intros s Fs. eexists. eexists.
    split; [apply Heval|]. split; [apply Hrev|].
    split; [apply Hx, Fs|]. split; [apply Hy, Fs|].
    destruct (Hx s Fs) as [_ Ex]. destruct (Hy s Fs) as [_ Ey].
    apply Qabs_bounds in Ex, Ey.
    pose proof (clamped_linear_image_range (F2Q sLO) (F2Q sHI) (F2Q s) Hlh).
    pose proof (clamped_linear_image_range (F2Q (low tep)) (F2Q (high tep))
                  (F2Q s) Hslh).
    split; split; lra.
  - intros s1 s2 x1 x2 y1 y2 F1 F2 Hs E1 E2 R1 R2.
    rewrite Heval in E1, E2. rewrite Hrev in R1, R2.
    inversion E1. inversion E2. inversion R1. inversion R2.
    apply leb_F2Q in Hs; [|assumption..].
    destruct (Hx s1 F1) as [_ Ex1]. destruct (Hx s2 F2) as [_ Ex2].
    destruct (Hy s1 F1) as [_ Ey1]. destruct (Hy s2 F2) as [_ Ey2].
    apply Qabs_bounds in Ex1, Ex2, Ey1, Ey2.
    pose proof (clamped_linear_image_monotone (F2Q sLO) (F2Q sHI) Hlh Hs).
    pose proof (clamped_linear_image_monotone (F2Q (low tep)) (F2Q (high tep))
                  Hslh Hs).
    split; lra.
Qed.

(** The value next below [sHI = tep.high = 0.9] is sent above
    [tep.high]: range and monotonicity hold up to rounding only. *)
Example TwoPoint_eval_exceeds_the_range :
  TwoPointScaling.eval
    {| TwoPointScaling.smin_ := [0x1.999999999999ap-3%float];
       TwoPointScaling.smax_ := [0x1.ccccccccccccdp-1%float];
       TwoPointScaling.handle_invalid_ := UseUnscaled |}
    {| low := 0x1.3333333333333p-2%float; disp := 0.5%float;
       high := 0x1.ccccccccccccdp-1%float |}
    [{| cell := 0; sat := 0x1.cccccccccccccp-1%float |}]
  = Returns [0x1.ccccccccccccep-1%float].
Proof. reflexivity. Qed.

Lemma approximates_eq (tol : Q) (x : float) (X Y : Q) :
  (X == Y)%Q -> approximates tol x X -> approximates tol x Y.
Proof. intros E [Fx Hx]. split; [exact Fx|]. rewrite <- E. exact Hx. Qed.

Lemma ThreePoint_eval_scaled_linearly (this : ThreePointScaling.Impl float)
    (tep : TableEndPoints float) (c : nat) (sLO sR sHI s : float) :
  ThreePointScaling.sMin this c tep = Returns sLO ->
  ThreePointScaling.sDisp this c tep = Returns sR ->
  ThreePointScaling.sMax this c tep = Returns sHI ->
  in_unit_interval sLO -> in_unit_interval sR -> in_unit_interval sHI ->
  ThreePointScaling.eval this tep [{| cell := c; sat := s |}]
  = Returns [scaled_linearly_in_two_pieces sLO sR sHI
               (low tep) (disp tep) (high tep) s].
Proof.
  intros HLO HR HHI VLO VR VHI.
  rewrite (@ThreePoint_eval_point float binary64 this tep
             {| cell := c; sat := s |} sLO sR sHI HLO HR HHI).
  rewrite validSaturations_3, (validSaturation_in_unit VLO),
    (validSaturation_in_unit VR), (validSaturation_in_unit VHI).
  reflexivity.
Qed.

Lemma ThreePoint_reverse_scaled_linearly (this : ThreePointScaling.Impl float)
    (tep : TableEndPoints float) (c : nat) (sLO sR sHI s : float) :
  ThreePointScaling.sMin this c tep = Returns sLO ->
  ThreePointScaling.sDisp this c tep = Returns sR ->
  ThreePointScaling.sMax this c tep = Returns sHI ->
  in_unit_interval sLO -> in_unit_interval sR -> in_unit_interval sHI ->
  ThreePointScaling.reverse this tep [{| cell := c; sat := s |}]
  = Returns [scaled_linearly_in_two_pieces (low tep) (disp tep) (high tep)
               sLO sR sHI s].
Proof.
  intros HLO HR HHI VLO VR VHI.
  rewrite (@ThreePoint_reverse_point float binary64 this tep
             {| cell := c; sat := s |} sLO sR sHI HLO HR HHI).
  rewrite validSaturations_3, (validSaturation_in_unit VLO),
    (validSaturation_in_unit VR), (validSaturation_in_unit VHI).
  reflexivity.
Qed.

(** A range mapped linearly onto itself. *)
Lemma linear_image_onto_itself (a b s : Q) :
  (a < b)%Q -> (linear_image a b a b s == s)%Q.
Proof. intros Hab. unfold linear_image. field. lra. Qed.

Lemma clamped_linear_image_onto_itself (a b s : Q) :
  (a <= s <= b)%Q -> (a < b)%Q -> (clamped_linear_image a b a b s == s)%Q.
Proof.
  intros Hs Hab. unfold clamped_linear_image.
  destruct (Qle_bool s a) eqn:E1.
  { apply Qle_bool_iff in E1. lra. }
  destruct (Qle_bool b s) eqn:E2.
  { apply Qle_bool_iff in E2. lra. }
  apply linear_image_onto_itself, Hab.
Qed.

Lemma clamped_two_piece_image_onto_itself (a m b s : Q) :
  (a <= s <= b)%Q -> (a <= m <= b)%Q ->
  (clamped_two_piece_image a m b a m b s == s)%Q.
Proof.
  intros Hs Hm. unfold clamped_two_piece_image.
  destruct (Qle_bool s a) eqn:E1.
  { apply Qle_bool_iff in E1. lra. }
  destruct (Qle_bool b s) eqn:E2.
  { apply Qle_bool_iff in E2. lra. }
  assert (H1 : (a < s)%Q).
  { apply Qnot_le_lt. intros H. apply Qle_bool_iff in H. congruence. }
  assert (H2 : (s < b)%Q).
  { apply Qnot_le_lt. intros H. apply Qle_bool_iff in H. congruence. }
  destruct (Qle_bool m s) eqn:E3.
  - apply Qle_bool_iff in E3. apply linear_image_onto_itself. lra.
  - assert (H3 : (s < m)%Q).
    { apply Qnot_le_lt. intros H. apply Qle_bool_iff in H. congruence. }
    apply linear_image_onto_itself. lra.
Qed.

(** X12: on binary64 a cell whose scaled end points are all unset keeps
    its saturations up to rounding.  When the sentinel test
    [|x| < 1e20] fails for every per-cell end point of the cell, and the
    table end points satisfy [0 <= tep.low < tep.high <= 1] (and
    [tep.low <= tep.disp <= tep.high] for the three-point scaling),
    [eval] and [reverse] of both horizontal scalings return, for every
    saturation [s] of [[tep.low, tep.high]], a finite value within
    [12 * 2^-52] of [s].  (Not [s] itself in general: see
    [unset_cell_moves_a_saturation].) *)
Theorem unset_cells_keep_their_saturations
    (two : TwoPointScaling.Impl float) (three : ThreePointScaling.Impl float)
    (c : nat) (x y x' d' y' : float) (tep : TableEndPoints float) (s : float) :
  nth_error (TwoPointScaling.smin_ two) c = Some x ->
  nth_error (TwoPointScaling.smax_ two) c = Some y ->
  nth_error (ThreePointScaling.smin_ three) c = Some x' ->
  nth_error (ThreePointScaling.sdisp_ three) c = Some d' ->
  nth_error (ThreePointScaling.smax_ three) c = Some y' ->
  (abs x <? 1e20)%float = false ->
  (abs y <? 1e20)%float = false ->
  (abs x' <? 1e20)%float = false ->
  (abs d' <? 1e20)%float = false ->
  (abs y' <? 1e20)%float = false ->
  (0 <=? low tep)%float = true -> (low tep <? high tep)%float = true ->
  (high tep <=? 1)%float = true ->
  (low tep <=? disp tep)%float = true -> (disp tep <=? high tep)%float = true ->
  (low tep <=? s)%float = true -> (s <=? high tep)%float = true ->
  let pt := {| cell := c; sat := s |} in
  (exists v, TwoPointScaling.eval two tep [pt] = Returns [v] /\
             approximates (12 * ulp_1) v (F2Q s)) /\
  (exists v, TwoPointScaling.reverse two tep [pt] = Returns [v] /\
             approximates (12 * ulp_1) v (F2Q s)) /\
  (exists v, ThreePointScaling.eval three tep [pt] = Returns [v] /\
             approximates (12 * ulp_1) v (F2Q s)) /\
  (exists v, ThreePointScaling.reverse three tep [pt] = Returns [v] /\
             approximates (12 * ulp_1) v (F2Q s)).
Proof.
  intros Ex Ey Ex' Ed' Ey' Ux Uy Ux' Ud' Uy' H0 Hlt H1 Hld Hdh Hls Hsh pt.
  destruct (@unit_range _ _ H0 Hlt H1) as [Vl Vh].
  assert (Vd : in_unit_interval (disp tep)).
  { split; [exact (@leb_trans _ _ _ H0 Hld)|exact (@leb_trans _ _ _ Hdh H1)]. }
  assert (Vs : in_unit_interval s).
  { split; [exact (@leb_trans _ _ _ H0 Hls)|exact (@leb_trans _ _ _ Hsh H1)]. }
  pose proof (unit_interval_is_finite Vl) as Fl.
  pose proof (unit_interval_is_finite Vh) as Fh.
  pose proof (unit_interval_is_finite Vd) as Fd.
  pose proof (unit_interval_is_finite Vs) as Fs.
  apply ltb_F2Q in Hlt; [|assumption..].
  apply leb_F2Q in Hld; [|assumption..].
  apply leb_F2Q in Hdh; [|assumption..].
  apply leb_F2Q in Hls; [|assumption..].
  apply leb_F2Q in Hsh; [|assumption..].
  assert (HLO : TwoPointScaling.sMin two c tep = Returns (low tep)).
  { unfold TwoPointScaling.sMin. rewrite (index_nth_error _ _ Ex). cbn [bind].
    rewrite (@defaulted_unset float binary64 _ _ Ux). reflexivity. }
  assert (HHI : TwoPointScaling.sMax two c tep = Returns (high tep)).
  { unfold TwoPointScaling.sMax. rewrite (index_nth_error _ _ Ey). cbn [bind].
    rewrite (@defaulted_unset float binary64 _ _ Uy). reflexivity. }
  assert (HLO' : ThreePointScaling.sMin three c tep = Returns (low tep)).
  { unfold ThreePointScaling.sMin. rewrite (index_nth_error _ _ Ex').
    cbn [bind]. rewrite (@defaulted_unset float binary64 _ _ Ux'). reflexivity. }
  assert (HR' : ThreePointScaling.sDisp three c tep = Returns (disp tep)).
  { unfold ThreePointScaling.sDisp. rewrite (index_nth_error _ _ Ed').
    cbn [bind]. rewrite (@defaulted_unset float binary64 _ _ Ud'). reflexivity. }
  assert (HHI' : ThreePointScaling.sMax three c tep = Returns (high tep)).
  { unfold ThreePointScaling.sMax. rewrite (index_nth_error _ _ Ey').
    cbn [bind]. rewrite (@defaulted_unset float binary64 _ _ Uy'). reflexivity. }
  assert (H2 : approximates (12 * ulp_1)
                 (scaled_linearly (low tep) (high tep) (low tep) (high tep) s)
                 (F2Q s)).
  { apply approximates_eq
      with (X := clamped_linear_image (F2Q (low tep)) (F2Q (high tep))
                   (F2Q (low tep)) (F2Q (high tep)) (F2Q s)).
    - apply clamped_linear_image_onto_itself; [split; assumption|exact Hlt].
    - apply scaled_linearly_model; try assumption. lra. }
  assert (H3 : approximates (12 * ulp_1)
                 (scaled_linearly_in_two_pieces
                    (low tep) (disp tep) (high tep)
                    (low tep) (disp tep) (high tep) s)
                 (F2Q s)).
  { apply approximates_eq
      with (X := clamped_two_piece_image
                   (F2Q (low tep)) (F2Q (disp tep)) (F2Q (high tep))
                   (F2Q (low tep)) (F2Q (disp tep)) (F2Q (high tep)) (F2Q s)).
    - apply clamped_two_piece_image_onto_itself; split; assumption.
    - apply scaled_linearly_in_two_pieces_model; assumption. }
  unfold pt. repeat split.
  - eexists. split; [|exact H2].
    apply TwoPoint_eval_scaled_linearly; assumption.
  - eexists. split; [|exact H2].
    apply TwoPoint_reverse_scaled_linearly; assumption.
  - eexists. split; [|exact H3].
    apply ThreePoint_eval_scaled_linearly; assumption.
  - eexists. split; [|exact H3].
    apply ThreePoint_reverse_scaled_linearly; assumption.
Qed.

(** [clamp01] does not increase distances. *)
Lemma clamp01_bounds (t : Q) : (0 <= clamp01 t <= 1)%Q.
Proof.
  unfold clamp01.
  destruct (Qle_bool t 0) eqn:E0; [lra|].
  destruct (Qle_bool 1 t) eqn:E1; [lra|].
  assert (N0 : ~ (t <= 0)%Q)
    by (intros H; apply Qle_bool_iff in H; congruence).
  assert (N1 : ~ (1 <= t)%Q)
    by (intros H; apply Qle_bool_iff in H; congruence).
  lra.
Qed.

Lemma clamp01_below (t : Q) : (t <= 0)%Q -> (clamp01 t == 0)%Q.
Proof. intros H. unfold clamp01. rewrite Qle_bool_true by exact H. reflexivity. Qed.

Lemma clamp01_above (t : Q) : (1 <= t)%Q -> (clamp01 t == 1)%Q.
Proof.
  intros H. unfold clamp01.
  destruct (Qle_bool t 0) eqn:E0.
  - apply Qle_bool_iff in E0. lra.
  - rewrite Qle_bool_true by exact H. reflexivity.
Qed.

Lemma clamp01_inside (t : Q) : (0 <= t <= 1)%Q -> (clamp01 t == t)%Q.
Proof.
  intros H. unfold clamp01.
  destruct (Qle_bool t 0) eqn:E0.
  { apply Qle_bool_iff in E0. lra. }
  destruct (Qle_bool 1 t) eqn:E1.
  { apply Qle_bool_iff in E1. lra. }
  reflexivity.
Qed.

Lemma clamp01_lipschitz (t1 t2 E : Q) :
  (- E <= t1 - t2 <= E)%Q -> (- E <= clamp01 t1 - clamp01 t2 <= E)%Q.
Proof.
  intros H.
  destruct (Qlt_le_dec t1 0) as [A1|A1];
    [rewrite (@clamp01_below t1) by lra|];
    (destruct (Qlt_le_dec t2 0) as [A2|A2];
     [rewrite (@clamp01_below t2) by lra|]);
    try (destruct (Qlt_le_dec 1 t1) as [B1|B1];
         [rewrite (@clamp01_above t1) by lra
         |rewrite (@clamp01_inside t1) by lra]);
    try (destruct (Qlt_le_dec 1 t2) as [B2|B2];
         [rewrite (@clamp01_above t2) by lra
         |rewrite (@clamp01_inside t2) by lra]);
    lra.
Qed.

(** The clamped position of [s] in the range [[lo, hi]]. *)
Lemma position_lipschitz (lo hi s1 s2 E : Q) :
  (lo < hi)%Q -> (- E <= s1 - s2 <= E)%Q ->
  let D := (clamp01 ((s1 - lo) / (hi - lo)) - clamp01 ((s2 - lo) / (hi - lo)))%Q in
  (- E <= D * (hi - lo) <= E)%Q.
Proof.
  intros Hlh HE D.
  assert (Hw : (0 < hi - lo)%Q) by lra.
  assert (H0 : (0 <= E)%Q) by lra.
  set (w := (hi - lo)%Q) in *.
  assert (Ht : (- (E / w) <= (s1 - lo) / w - (s2 - lo) / w <= E / w)%Q).
  { setoid_replace ((s1 - lo) / w - (s2 - lo) / w)%Q with ((s1 - s2) / w)%Q
      by (field; lra).
    split.
    - setoid_replace (- (E / w))%Q with ((- E) / w)%Q by (field; lra).
      apply Qmult_le_compat_r; [lra|]. apply Qlt_le_weak, Qinv_lt_0_compat, Hw.
    - apply Qmult_le_compat_r; [lra|]. apply Qlt_le_weak, Qinv_lt_0_compat, Hw. }
  apply clamp01_lipschitz in Ht. fold D in Ht.
  assert (Ew : (E / w * w == E)%Q) by (field; lra).
  assert (L1 : (- (E / w) * w <= D * w)%Q)
    by (apply Qmult_le_compat_r; lra).
  assert (L2 : (D * w <= E / w * w)%Q)
    by (apply Qmult_le_compat_r; lra).
  split; lra.
Qed.

(** The clamped image in two pieces, as a sum of two clamped
    positions. *)
Lemma clamped_two_piece_image_sum (lo mid hi a r b s : Q) :
  (lo < mid)%Q -> (mid < hi)%Q ->
  (clamped_two_piece_image lo mid hi a r b s
   == a + (r - a) * clamp01 ((s - lo) / (mid - lo))
        + (b - r) * clamp01 ((s - mid) / (hi - mid)))%Q.
Proof.
  intros H1 H2. unfold clamped_two_piece_image.
  destruct (Qle_bool s lo) eqn:E1.
  { apply Qle_bool_iff in E1.
    rewrite (@clamp01_below ((s - lo) / (mid - lo))),
      (@clamp01_below ((s - mid) / (hi - mid))).
    - ring.
    - apply Qle_shift_div_r; lra.
    - apply Qle_shift_div_r; lra. }
  assert (Hlo : (lo < s)%Q).
  { apply Qnot_le_lt. intros H. apply Qle_bool_iff in H. congruence. }
  destruct (Qle_bool hi s) eqn:E2.
  { apply Qle_bool_iff in E2.
    rewrite (@clamp01_above ((s - lo) / (mid - lo))),
      (@clamp01_above ((s - mid) / (hi - mid))).
    - ring.
    - apply Qle_shift_div_l; lra.
    - apply Qle_shift_div_l; lra. }
  assert (Hhi : (s < hi)%Q).
  { apply Qnot_le_lt. intros H. apply Qle_bool_iff in H. congruence. }
  destruct (Qle_bool mid s) eqn:E3.
  - apply Qle_bool_iff in E3.
    rewrite (@clamp01_above ((s - lo) / (mid - lo))),
      (@clamp01_inside ((s - mid) / (hi - mid))).
    + unfold linear_image. field. lra.
    + split; [apply Qle_shift_div_l|apply Qle_shift_div_r]; lra.
    + apply Qle_shift_div_l; lra.
  - assert (Hmid : (s < mid)%Q).
    { apply Qnot_le_lt. intros H. apply Qle_bool_iff in H. congruence. }
    rewrite (@clamp01_inside ((s - lo) / (mid - lo))),
      (@clamp01_below ((s - mid) / (hi - mid))).
    + unfold linear_image. field. lra.
    + apply Qle_shift_div_r; lra.
    + split; [apply Qle_shift_div_l|apply Qle_shift_div_r]; lra.
Qed.

(** The clamped image in two pieces changes by at most
    [E / min (mid - lo) (hi - mid)] over a distance [E], when its
    target range is within the unit interval. *)
Lemma clamped_two_piece_image_lipschitz (lo mid hi a r b s1 s2 E mu : Q) :
  (lo < mid)%Q -> (mid < hi)%Q -> (0 <= a)%Q -> (a <= r)%Q -> (r <= b)%Q ->
  (b <= 1)%Q ->
  (0 < mu)%Q -> (mu <= mid - lo)%Q -> (mu <= hi - mid)%Q ->
  (- E <= s1 - s2 <= E)%Q ->
  (- E <= (clamped_two_piece_image lo mid hi a r b s1
           - clamped_two_piece_image lo mid hi a r b s2) * mu <= E)%Q.
Proof.
  intros H1 H2 Ha Har Hrb Hb Hmu Hmu1 Hmu2 HE.
  rewrite !clamped_two_piece_image_sum by assumption.
  pose proof (@position_lipschitz lo mid s1 s2 E H1 HE) as P1.
  pose proof (@position_lipschitz mid hi s1 s2 E H2 HE) as P2.
  cbv zeta in P1, P2.
  set (D1 := (clamp01 ((s1 - lo) / (mid - lo))
              - clamp01 ((s2 - lo) / (mid - lo)))%Q) in *.
  set (D2 := (clamp01 ((s1 - mid) / (hi - mid))
              - clamp01 ((s2 - mid) / (hi - mid)))%Q) in *.
  assert (H0 : (0 <= E)%Q) by lra.
  assert (Q1 : (- E <= D1 * mu <= E)%Q).
  { destruct (Qlt_le_dec D1 0) as [N|N]; split; nra. }
  assert (Q2 : (- E <= D2 * mu <= E)%Q).
  { destruct (Qlt_le_dec D2 0) as [N|N]; split; nra. }
  setoid_replace
    ((a + (r - a) * clamp01 ((s1 - lo) / (mid - lo))
        + (b - r) * clamp01 ((s1 - mid) / (hi - mid))
      - (a + (r - a) * clamp01 ((s2 - lo) / (mid - lo))
           + (b - r) * clamp01 ((s2 - mid) / (hi - mid)))) * mu)%Q
    with ((r - a) * (D1 * mu) + (b - r) * (D2 * mu))%Q
    by (unfold D1, D2; ring).
  set (z1 := (D1 * mu)%Q) in *. set (z2 := (D2 * mu)%Q) in *.
  split; nra.
Qed.

(** The two clamped images in two pieces are inverse to each other
    inside the range. *)
Lemma clamped_two_piece_image_inverse (a r b lo mid hi s : Q) :
  (a < r)%Q -> (r < b)%Q -> (lo < mid)%Q -> (mid < hi)%Q ->
  (a < s)%Q -> (s < b)%Q ->
  (clamped_two_piece_image lo mid hi a r b
     (clamped_two_piece_image a r b lo mid hi s) == s)%Q.
Proof.
  intros Har Hrb Hlm Hmh Has Hsb.
  unfold clamped_two_piece_image at 2.
  rewrite (@Qle_bool_false s a), (@Qle_bool_false b s) by lra.
  destruct (Qle_bool r s) eqn:E.
  - apply Qle_bool_iff in E.
    set (T := ((s - r) / (b - r))%Q).
    assert (HT : (0 <= T)%Q /\ (T < 1)%Q).
    { unfold T. split; [apply Qle_shift_div_l|apply Qlt_shift_div_r]; lra. }
    assert (Hx : (linear_image r b mid hi s == mid + T * (hi - mid))%Q)
      by reflexivity.
    assert (Hxr : (mid <= mid + T * (hi - mid))%Q /\
                  (mid + T * (hi - mid) < hi)%Q) by (split; nra).
    unfold clamped_two_piece_image.
    rewrite (@Qle_bool_false (linear_image r b mid hi s) lo) by (rewrite Hx; lra).
    rewrite (@Qle_bool_false hi (linear_image r b mid hi s)) by (rewrite Hx; lra).
    rewrite (@Qle_bool_true mid (linear_image r b mid hi s)) by (rewrite Hx; lra).
    unfold linear_image. field. lra.
  - assert (Hsr : (s < r)%Q).
    { apply Qnot_le_lt. intros H. apply Qle_bool_iff in H. congruence. }
    set (T := ((s - a) / (r - a))%Q).
    assert (HT : (0 < T)%Q /\ (T < 1)%Q).
    { unfold T. split; [apply Qlt_shift_div_l|apply Qlt_shift_div_r]; lra. }
    assert (Hx : (linear_image a r lo mid s == lo + T * (mid - lo))%Q)
      by reflexivity.
    assert (Hxr : (lo < lo + T * (mid - lo))%Q /\
                  (lo + T * (mid - lo) < mid)%Q) by (split; nra).
    unfold clamped_two_piece_image.
    rewrite (@Qle_bool_false (linear_image a r lo mid s) lo) by (rewrite Hx; lra).
    rewrite (@Qle_bool_false hi (linear_image a r lo mid s)) by (rewrite Hx; lra).
    rewrite (@Qle_bool_false mid (linear_image a r lo mid s)) by (rewrite Hx; lra).
    unfold linear_image. field. lra.
Qed.

Lemma ltb_trans (x y z : float) :
  (x <? y)%float = true -> (y <? z)%float = true -> (x <? z)%float = true.
Proof. intros H1 H2. float_order. Qed.

(** [scaled_linearly_in_two_pieces] there and back, between ranges of
    the unit interval. *)
Lemma two_piece_round_trip_model (A M B L D H s : float) :
  in_unit_interval A -> in_unit_interval B ->
  in_unit_interval L -> in_unit_interval H ->
  (A <? M)%float = true -> (M <? B)%float = true ->
  (L <? D)%float = true -> (D <? H)%float = true ->
  (A <? s)%float = true -> (s <? B)%float = true ->
  let x := scaled_linearly_in_two_pieces A M B L D H s in
  let s' := scaled_linearly_in_two_pieces L D H A M B x in
  values_within (round_trip_tolerance_in_two_pieces L D H) s' s.
Proof.
  intros HA HB HL HH HAM HMB HLD HDH HAs HsB x s'.
  assert (HM : in_unit_interval M).
  { split; [exact (@leb_trans _ _ _ (proj1 HA) (@ltb_leb _ _ HAM))
           |exact (@leb_trans _ _ _ (@ltb_leb _ _ HMB) (proj2 HB))]. }
  assert (HD : in_unit_interval D).
  { split; [exact (@leb_trans _ _ _ (proj1 HL) (@ltb_leb _ _ HLD))
           |exact (@leb_trans _ _ _ (@ltb_leb _ _ HDH) (proj2 HH))]. }
  pose proof (unit_interval_is_finite HA) as FA.
  pose proof (unit_interval_is_finite HM) as FM.
  pose proof (unit_interval_is_finite HB) as FB.
  pose proof (unit_interval_is_finite HL) as FL.
  pose proof (unit_interval_is_finite HD) as FD.
  pose proof (unit_interval_is_finite HH) as FH.
  pose proof (between_is_finite HAs HsB) as Fs.
  pose proof (unit_interval_F2Q HA) as VA.
  pose proof (unit_interval_F2Q HB) as VB.
  pose proof (unit_interval_F2Q HL) as VL.
  pose proof (unit_interval_F2Q HH) as VH.
  apply ltb_F2Q in HAM; [|assumption..].
  apply ltb_F2Q in HMB; [|assumption..].
  apply ltb_F2Q in HLD; [|assumption..].
  apply ltb_F2Q in HDH; [|assumption..].
  apply ltb_F2Q in HAs; [|assumption..].
  apply ltb_F2Q in HsB; [|assumption..].
  destruct (@scaled_linearly_in_two_pieces_model A M B L D H s
              HA HM HB HL HD HH ltac:(lra) ltac:(lra) Fs) as [Fx Ex].
  fold x in Fx, Ex.
  destruct (@scaled_linearly_in_two_pieces_model L D H A M B x
              HL HD HH HA HM HB ltac:(lra) ltac:(lra) Fx) as [Fs' Es'].
  fold s' in Fs', Es'.
  split; [exact Fs'|]. split; [exact Fs|].
  set (a := F2Q A) in *. set (m := F2Q M) in *. set (b := F2Q B) in *.
  set (l := F2Q L) in *. set (d := F2Q D) in *. set (h := F2Q H) in *.
  set (sigma := F2Q s) in *. set (xi := F2Q x) in *.
  unfold round_trip_tolerance_in_two_pieces. fold l d h.
  set (mu := Qmin (d - l) (h - d)).
  assert (Hmu1 : (mu <= d - l)%Q) by apply Q.le_min_l.
  assert (Hmu2 : (mu <= h - d)%Q) by apply Q.le_min_r.
  assert (Hmu : (0 < mu)%Q) by (apply Q.min_glb_lt; lra).
  apply Qabs_bounds in Ex, Es'.
  pose proof (@clamped_two_piece_image_lipschitz l d h a m b xi
                (clamped_two_piece_image a m b l d h sigma) (12 * ulp_1) mu
                HLD HDH ltac:(lra) ltac:(lra) ltac:(lra) ltac:(lra)
                Hmu Hmu1 Hmu2 ltac:(lra)) as Hlip.
  rewrite (@clamped_two_piece_image_inverse a m b l d h sigma) in Hlip
    by assumption.
  set (G := clamped_two_piece_image l d h a m b xi) in *.
  pose proof ulp_1_small as Hu.
  pose proof (@scaled_bound (F2Q s' - G) (12 * ulp_1) mu ltac:(lra) ltac:(lra))
    as Hs'.
  apply Qle_shift_div_l; [exact Hmu|].
  rewrite <- (Qabs_pos mu) at 1 by lra. rewrite <- Qabs_Qmult.
  apply Qabs_le_of_bounds.
  setoid_replace ((F2Q s' - sigma) * mu)%Q
    with ((F2Q s' - G) * mu + (G - sigma) * mu)%Q by ring.
  assert (H47 : (24 * ulp_1 <= 2 ^ (-47))%Q) by discriminate.
  split; lra.
Qed.

(** X8: on binary64, for table end points
    [0 <= tep.low < tep.disp < tep.high <= 1] and a cell with
    [0 <= sLO < sR < sHI <= 1], [reverse] after [eval] of
    [ThreePointScaling] returns every saturation [s] strictly inside
    [(sLO, sHI)] within
    [2^-47 / min (tep.disp - tep.low) (tep.high - tep.disp)], and
    [eval] after [reverse] returns every [s] strictly inside
    [(tep.low, tep.high)] within [2^-47 / min (sR - sLO) (sHI - sR)].
    All results are finite. *)
Theorem ThreePoint_round_trip_conditioned
    (this : ThreePointScaling.Impl float) (tep : TableEndPoints float)
    (c : nat) (sLO sR sHI : float) :
  (0 <=? low tep)%float = true -> (low tep <? disp tep)%float = true ->
  (disp tep <? high tep)%float = true -> (high tep <=? 1)%float = true ->
  ThreePointScaling.sMin this c tep = Returns sLO ->
  ThreePointScaling.sDisp this c tep = Returns sR ->
  ThreePointScaling.sMax this c tep = Returns sHI ->
  (0 <=? sLO)%float = true -> (sLO <? sR)%float = true ->
  (sR <? sHI)%float = true -> (sHI <=? 1)%float = true ->
  (forall s : float,
     (sLO <? s)%float = true -> (s <? sHI)%float = true ->
     exists x s' : float,
       ThreePointScaling.eval this tep [{| cell := c; sat := s |}]
       = Returns [x] /\
       ThreePointScaling.reverse this tep [{| cell := c; sat := x |}]
       = Returns [s'] /\
       values_within
         (round_trip_tolerance_in_two_pieces (low tep) (disp tep) (high tep))
         s' s) /\
  (forall x : float,
     (low tep <? x)%float = true -> (x <? high tep)%float = true ->
     exists s x' : float,
       ThreePointScaling.reverse this tep [{| cell := c; sat := x |}]
       = Returns [s] /\
       ThreePointScaling.eval this tep [{| cell := c; sat := s |}]
       = Returns [x'] /\
       values_within (round_trip_tolerance_in_two_pieces sLO sR sHI) x' x).
Proof.
  intros Hl0 Hld Hdh Hh1 HLO HR HHI Hs0 Hsr Hrh Hs1.
  destruct (@unit_range _ _ Hl0 (@ltb_trans _ _ _ Hld Hdh) Hh1) as [Vl Vh].
  destruct (@unit_range _ _ Hs0 (@ltb_trans _ _ _ Hsr Hrh) Hs1) as [VLO VHI].
  assert (Vd : in_unit_interval (disp tep)).
  { split; [exact (@leb_trans _ _ _ Hl0 (@ltb_leb _ _ Hld))
           |exact (@leb_trans _ _ _ (@ltb_leb _ _ Hdh) Hh1)]. }
  assert (VR : in_unit_interval sR).
  { split; [exact (@leb_trans _ _ _ Hs0 (@ltb_leb _ _ Hsr))
           |exact (@leb_trans _ _ _ (@ltb_leb _ _ Hrh) Hs1)]. }
  split.
  - intros s Hs1' Hs2'. eexists. eexists.
    split; [apply (@ThreePoint_eval_scaled_linearly this tep c sLO sR sHI _
                     HLO HR HHI VLO VR VHI)|].
    split; [apply (@ThreePoint_reverse_scaled_linearly this tep c sLO sR sHI _
                     HLO HR HHI VLO VR VHI)|].
    apply two_piece_round_trip_model; assumption.
  - intros x Hx1 Hx2. eexists. eexists.
    split; [apply (@ThreePoint_reverse_scaled_linearly this tep c sLO sR sHI _
                     HLO HR HHI VLO VR VHI)|].
    split; [apply (@ThreePoint_eval_scaled_linearly this tep c sLO sR sHI _
                     HLO HR HHI VLO VR VHI)|].
    apply two_piece_round_trip_model; assumption.
Qed.

(** The value [0.3] of an unset cell with [tep = {0.1, 0.8}] comes back
    as its predecessor. *)
Example unset_cell_moves_a_saturation :
  TwoPointScaling.eval
    {| TwoPointScaling.smin_ := [1e20%float];
       TwoPointScaling.smax_ := [1e20%float];
       TwoPointScaling.handle_invalid_ := UseUnscaled |}
    {| low := 0x1.999999999999ap-4%float; disp := 0.5%float;
       high := 0x1.999999999999ap-1%float |}
    [{| cell := 0; sat := 0x1.3333333333333p-2%float |}]
  = Returns [0x1.3333333333332p-2%float].
Proof. reflexivity. Qed.

Lemma ThreePoint_round_trip_conditioned_witness :
  let this := {| ThreePointScaling.smin_ := [0.25%float];
                 ThreePointScaling.sdisp_ := [0.5%float];
                 ThreePointScaling.smax_ := [0.75%float];
                 ThreePointScaling.handle_invalid_ := UseUnscaled |} in
  let tep := {| low := 0.125%float; disp := 0.25%float; high := 0.875%float |} in
  (forall s : float,
     (0.25 <? s)%float = true -> (s <? 0.75)%float = true ->
     exists x s' : float,
       ThreePointScaling.eval this tep [{| cell := 0; sat := s |}]
       = Returns [x] /\
       ThreePointScaling.reverse this tep [{| cell := 0; sat := x |}]
       = Returns [s'] /\
       values_within (round_trip_tolerance_in_two_pieces 0.125 0.25 0.875)
                     s' s) /\
  (forall x : float,
     (0.125 <? x)%float = true -> (x <? 0.875)%float = true ->
     exists s x' : float,
       ThreePointScaling.reverse this tep [{| cell := 0; sat := x |}]
       = Returns [s] /\
       ThreePointScaling.eval this tep [{| cell := 0; sat := s |}]
       = Returns [x'] /\
       values_within (round_trip_tolerance_in_two_pieces 0.25 0.5 0.75) x' x).
Proof.
  intros this tep.
  apply (@ThreePoint_round_trip_conditioned this tep 0
           0.25%float 0.5%float 0.75%float); reflexivity.
Defined.

Lemma TwoPoint_rounds_the_clamped_linear_map_witness :
  let this := {| TwoPointScaling.smin_ := [0.25%float];
                 TwoPointScaling.smax_ := [0.75%float];
                 TwoPointScaling.handle_invalid_ := UseUnscaled |} in
  let tep := {| low := 0.125%float; disp := 0.5%float; high := 0.875%float |} in
  let eval_exactly :=
    clamped_linear_image (F2Q 0.25) (F2Q 0.75) (F2Q 0.125) (F2Q 0.875) in
  let reverse_exactly :=
    clamped_linear_image (F2Q 0.125) (F2Q 0.875) (F2Q 0.25) (F2Q 0.75) in
  (forall s : float,
     is_finite s = true ->
     exists x y : float,
       TwoPointScaling.eval this tep [{| cell := 0; sat := s |}]
       = Returns [x] /\
       TwoPointScaling.reverse this tep [{| cell := 0; sat := s |}]
       = Returns [y] /\
       approximates (12 * ulp_1) x (eval_exactly (F2Q s)) /\
       approximates (12 * ulp_1) y (reverse_exactly (F2Q s)) /\
       (F2Q 0.125 - 12 * ulp_1 <= F2Q x <= F2Q 0.875 + 12 * ulp_1)%Q /\
       (F2Q 0.25 - 12 * ulp_1 <= F2Q y <= F2Q 0.75 + 12 * ulp_1)%Q) /\
  (forall s1 s2 x1 x2 y1 y2 : float,
     is_finite s1 = true -> is_finite s2 = true ->
     (s1 <=? s2)%float = true ->
     TwoPointScaling.eval this tep [{| cell := 0; sat := s1 |}]
     = Returns [x1] ->
     TwoPointScaling.eval this tep [{| cell := 0; sat := s2 |}]
     = Returns [x2] ->
     TwoPointScaling.reverse this tep [{| cell := 0; sat := s1 |}]
     = Returns [y1] ->
     TwoPointScaling.reverse this tep [{| cell := 0; sat := s2 |}]
     = Returns [y2] ->
     (F2Q x1 <= F2Q x2 + 24 * ulp_1)%Q /\ (F2Q y1 <= F2Q y2 + 24 * ulp_1)%Q).
Proof.
  intros this tep.
  apply (@TwoPoint_rounds_the_clamped_linear_map this tep 0
           0.25%float 0.75%float);
    try reflexivity; split; reflexivity.
Defined.

Lemma unset_cells_keep_their_saturations_witness :
  let two := {| TwoPointScaling.smin_ := [1e20%float];
                TwoPointScaling.smax_ := [(-1e20)%float];
                TwoPointScaling.handle_invalid_ := UseUnscaled |} in
  let three := {| ThreePointScaling.smin_ := [1e20%float];
                  ThreePointScaling.sdisp_ := [1e20%float];
                  ThreePointScaling.smax_ := [1e20%float];
                  ThreePointScaling.handle_invalid_ := UseUnscaled |} in
  let tep := {| low := 0.125%float; disp := 0.5%float; high := 0.875%float |} in
  let pt := {| cell := 0; sat := 0.25%float |} in
  (exists v, TwoPointScaling.eval two tep [pt] = Returns [v] /\
             approximates (12 * ulp_1) v (F2Q 0.25)) /\
  (exists v, TwoPointScaling.reverse two tep [pt] = Returns [v] /\
             approximates (12 * ulp_1) v (F2Q 0.25)) /\
  (exists v, ThreePointScaling.eval three tep [pt] = Returns [v] /\
             approximates (12 * ulp_1) v (F2Q 0.25)) /\
  (exists v, ThreePointScaling.reverse three tep [pt] = Returns [v] /\
             approximates (12 * ulp_1) v (F2Q 0.25)).
Proof.
  intros two three tep pt.
  apply (@unset_cells_keep_their_saturations two three 0
           1e20%float (-1e20)%float 1e20%float 1e20%float 1e20%float
           tep 0.25%float); reflexivity.
Defined.

(* ===================================================================== *)
(** * The anchor values of the vertical scalings, on binary64             *)
(* ===================================================================== *)

(** The product [y * (q / d)] of the vertical scalings, rounded twice. *)
Lemma rescale_error (u eta y X t o : Q) :
  (0 <= u <= 1 # 64)%Q -> (0 <= eta)%Q -> (8 * eta <= u)%Q ->
  (0 <= y <= 1)%Q -> (0 <= X)%Q -> (y * X <= 1)%Q ->
  (X - (u * X + eta) <= t <= X + (u * X + eta))%Q ->
  (Qabs (y * t) <= 4)%Q /\
  ((Qabs (o - y * t) <= u * Qabs (y * t) + eta)%Q ->
   (y * X - 4 * u <= o <= y * X + 4 * u)%Q).
Proof.
  intros Hu Heta Heta8 Hy HX HW Ht.
  assert (HW0 : (0 <= y * X)%Q) by nra.
  set (W := (y * X)%Q) in *.
  pose proof (@small_factor u W Hu HW0) as HuW.
  set (uW := (u * W)%Q) in *.
  pose proof (@small_factor u uW Hu (proj1 HuW)) as HuuW.
  set (uuW := (u * uW)%Q) in *.
  pose proof (@unit_factor eta y Heta Hy) as Hey.
  set (ey := (eta * y)%Q) in *.
  pose proof (@small_factor u ey Hu (proj1 Hey)) as Huey.
  set (uey := (u * ey)%Q) in *.
  pose proof (@small_factor u eta Hu Heta) as Hue.
  set (ue := (u * eta)%Q) in *.
  assert (Eup : (y * (X + (u * X + eta)) == W + uW + ey)%Q)
    by (unfold ey, uW, W; ring).
  assert (Elo : (y * (X - (u * X + eta)) == W - uW - ey)%Q)
    by (unfold ey, uW, W; ring).
  assert (Hup : (y * t <= y * (X + (u * X + eta)))%Q)
    by (apply Qmult_le_compat_l'; lra).
  assert (Hlo : (y * (X - (u * X + eta)) <= y * t)%Q)
    by (apply Qmult_le_compat_l'; lra).
  assert (Habs : (Qabs (y * t) <= W + uW + ey)%Q).
  { apply Qabs_le_of_bounds. split; lra. }
  split; [lra|].
  intros Ho. apply Qabs_bounds in Ho.
  assert (Hw : (u * Qabs (y * t) <= u * (W + uW + ey))%Q)
    by (apply Qmult_le_compat_l'; [lra|exact Habs]).
  assert (Ew : (u * (W + uW + ey) == uW + uuW + uey)%Q)
    by (unfold uey, uuW, uW; ring).
  assert (HuW1 : (uW <= u)%Q).
  { unfold uW. rewrite <- (Qmult_1_r u) at 2. apply Qmult_le_compat_l'; lra. }
  split; lra.
Qed.

Lemma rescale_model (y q d : float) :
  in_unit_interval y -> in_unit_interval q -> in_unit_interval d ->
  (y <=? d)%float = true -> (0 <? d)%float = true ->
  (F2Q q / F2Q d < 2 ^ 1000)%Q ->
  approximates (4 * ulp_1) (y * (q / d))%float (F2Q y * (F2Q q / F2Q d)).
Proof.
  intros Hy Hq Hd Hyd Hd0 Hbound.
  pose proof (unit_interval_is_finite Hy) as Fy.
  pose proof (unit_interval_is_finite Hq) as Fq.
  pose proof (unit_interval_is_finite Hd) as Fd.
  pose proof (unit_interval_F2Q Hy) as Vy.
  pose proof (unit_interval_F2Q Hq) as Vq.
  pose proof (unit_interval_F2Q Hd) as Vd.
  apply leb_F2Q in Hyd; [|assumption..].
  apply ltb_F2Q in Hd0; [|reflexivity|assumption]. rewrite F2Q_0 in Hd0.
  set (X := (F2Q q / F2Q d)%Q) in *.
  assert (HX : (0 <= X)%Q) by (unfold X; apply Qle_shift_div_l; lra).
  assert (HXd : (X * F2Q d == F2Q q)%Q) by (unfold X; field; lra).
  assert (HW : (F2Q y * X <= 1)%Q).
  { assert (F2Q y * X <= F2Q d * X)%Q by (apply Qmult_le_compat_r; lra).
    lra. }
  destruct (@div_model q d Fq Fd) as [Ft Et].
  { lra. }
  { fold X. rewrite Qabs_pos by exact HX. exact Hbound. }
  fold X in Et. rewrite (Qabs_pos X) in Et by exact HX.
  apply Qabs_bounds in Et.
  pose proof ulp_1_small as Hu. pose proof tiny_small as [Heta0 Heta].
  destruct (@rescale_error ulp_1 tiny (F2Q y) X (F2Q (q / d))
              (F2Q (y * (q / d))) Hu Heta0 Heta Vy HX HW Et) as [Hm Ho].
  destruct (@mul_model y (q / d) Fy Ft) as [Fo Eo].
  { apply below_overflow, Hm. }
  split; [exact Fo|]. apply Qabs_bounds. apply Ho, Eo.
Qed.

Lemma leb_refl_finite (x : float) : is_finite x = true -> (x <=? x)%float = true.
Proof. intros Fx. apply leb_F2Q; [assumption..|apply Qle_refl]. Qed.

Lemma linear_image_at_the_ends (a b l h : Q) :
  (a < b)%Q ->
  (linear_image a b l h a == l)%Q /\ (linear_image a b l h b == h)%Q.
Proof. intros Hab. unfold linear_image. split; field; lra. Qed.

(** X11: on binary64 the vertical scalings hit their anchor values up
    to rounding.  For function values in the unit interval, a table
    with [0 < f.disp.val < f.max.val] and [f.disp.sat <= f.max.sat], a
    cell with [fdisp_[cell] <= fmax_[cell]], and quotients
    [fdisp_[cell] / f.disp.val] and [fmax_[cell] / f.max.val] that do
    not overflow: [CritSatVerticalScaling::vertScale] sends the table's
    displacing value [f.disp.val] to within [12 * 2^-52] of
    [fdisp_[cell]] on either side of [sdisp_[cell]], and for
    [s > sdisp_[cell]] the table's maximum value [f.max.val] to within
    [12 * 2^-52] of [fmax_[cell]]; [PureVerticalScaling::vertScale]
    sends [f.max.val] to within [4 * 2^-52] of [fmax_[cell]].  (Not
    onto them in general: see [PureVertical_misses_its_anchor].) *)
Theorem vertical_scalings_approach_their_anchors
    (NDEBUG : bool) (crit : CritSatVerticalScaling.Impl float)
    (pure : PureVerticalScaling.Impl float)
    (c : nat) (s : float) (f : FunctionValues.t float) (sr fr fm pm : float) :
  nth_error (CritSatVerticalScaling.sdisp_ crit) c = Some sr ->
  nth_error (CritSatVerticalScaling.fdisp_ crit) c = Some fr ->
  nth_error (CritSatVerticalScaling.fmax_ crit) c = Some fm ->
  nth_error (PureVerticalScaling.fmax_ pure) c = Some pm ->
  let fdisp := FunctionValues.val (FunctionValues.disp f) in
  let fmax := FunctionValues.val (FunctionValues.max f) in
  in_unit_interval fdisp -> in_unit_interval fmax ->
  in_unit_interval fr -> in_unit_interval fm -> in_unit_interval pm ->
  (0 <? fdisp)%float = true -> (fdisp <? fmax)%float = true ->
  (FunctionValues.sat (FunctionValues.disp f)
   <=? FunctionValues.sat (FunctionValues.max f))%float = true ->
  (fr <=? fm)%float = true ->
  (F2Q fr / F2Q fdisp < 2 ^ 1000)%Q -> (F2Q pm / F2Q fmax < 2 ^ 1000)%Q ->
  let pt := {| cell := c; sat := s |} in
  (exists v, CritSatVerticalScaling.vertScale NDEBUG crit f [pt] [fdisp]
             = Returns [v] /\ approximates (12 * ulp_1) v (F2Q fr)) /\
  ((sr <? s)%float = true ->
   exists v, CritSatVerticalScaling.vertScale NDEBUG crit f [pt] [fmax]
             = Returns [v] /\ approximates (12 * ulp_1) v (F2Q fm)) /\
  (exists v, PureVerticalScaling.vertScale NDEBUG pure f [pt] [fmax]
             = Returns [v] /\ approximates (4 * ulp_1) v (F2Q pm)).
Proof.
  intros Esr Efr Efm Epm fdisp fmax Vfd Vfx Vfr Vfm Vpm Hfd0 Hfdx Hsat Hfrm
    Bfr Bpm pt.
  pose proof (unit_interval_is_finite Vfd) as Ffd.
  pose proof (unit_interval_is_finite Vfx) as Ffx.
  pose proof (unit_interval_is_finite Vfr) as Ffr.
  pose proof (unit_interval_is_finite Vfm) as Ffm.
  pose proof (proj1 (@ltb_F2Q _ _ Ffd Ffx) Hfdx) as Qfdx.
  pose proof (proj1 (@leb_F2Q _ _ Ffr Ffm) Hfrm) as Qfrm.
  pose proof (proj1 (@ltb_F2Q 0 _ eq_refl Ffd) Hfd0) as Qfd0.
  rewrite F2Q_0 in Qfd0.
  assert (Hc : forall (l : list float) x, nth_error l c = Some x ->
                 cells_below (length l) [pt]).
  { intros l x Hx. repeat constructor. cbn [cell pt].
    apply nth_error_Some. congruence. }
  assert (Hcrit : forall y,
    exists out,
      CritSatVerticalScaling.vertScale NDEBUG crit f [pt] [y] = Returns [out] /\
      out = (if negb (sr <? s)%float
             then (y * (fr / fdisp))%float
             else (fr + ((y - fdisp) / (fmax - fdisp)) * (fm - fr))%float)).
  { intros y.
    destruct (@CritSat_vertScale_returns float binary64 NDEBUG crit f
                [pt] [y] eq_refl)
      as (out & Hrun & Hlen & Hnth).
    - repeat split; eapply Hc; eassumption.
    - right. cbn [flt binary64]. split.
      + apply ltb_asym, Hfdx.
      + apply leb_not_gt, Hsat.
    - specialize (Hnth 0 pt y _ _ _ eq_refl eq_refl Esr Efr Efm).
      rewrite (singleton_of_nth _ Hlen Hnth) in Hrun.
      eexists. split; [exact Hrun|].
      cbn [flt fadd fsub fmul fdiv binary64 pt sat].
      fold fdisp fmax. rewrite Hfdx. reflexivity. }
  assert (Hu : (4 * ulp_1 <= 12 * ulp_1)%Q) by discriminate.
  assert (Hlower : approximates (12 * ulp_1) (fdisp * (fr / fdisp))%float
                     (F2Q fr)).
  { destruct (@rescale_model fdisp fr fdisp Vfd Vfr Vfd
                (@leb_refl_finite _ Ffd) Hfd0 Bfr) as [Fv Ev].
    assert (E : (F2Q fdisp * (F2Q fr / F2Q fdisp) == F2Q fr)%Q)
      by (field; lra).
    split; [exact Fv|]. rewrite <- E. lra. }
  assert (Himg := @linear_image_at_the_ends (F2Q fdisp) (F2Q fmax)
                    (F2Q fr) (F2Q fm) Qfdx).
  split; [|split].
  - destruct (Hcrit fdisp) as (out & Hrun & ->). eexists.
    split; [exact Hrun|].
    destruct (sr <? s)%float; cbn [negb]; [|exact Hlower].
    apply approximates_eq with (1 := proj1 Himg).
    apply interpolation_model; try assumption.
    + apply (@leb_refl_finite _ Ffd).
    + apply ltb_leb, Hfdx.
  - intros Hsr. destruct (Hcrit fmax) as (out & Hrun & ->). eexists.
    split; [exact Hrun|]. rewrite Hsr. cbn [negb].
    apply approximates_eq with (1 := proj2 Himg).
    apply interpolation_model; try assumption.
    + apply ltb_leb, Hfdx.
    + apply (@leb_refl_finite _ Ffx).
  - destruct (@PureVertical_vertScale_returns float binary64 NDEBUG pure f
                [pt] [fmax] eq_refl (Hc _ _ Epm))
      as (out & Hrun & Hlen & Hnth).
    specialize (Hnth 0 pt fmax _ eq_refl eq_refl Epm).
    rewrite (singleton_of_nth _ Hlen Hnth) in Hrun. eexists.
    split; [exact Hrun|].
    cbn [fmul fdiv binary64]. fold fmax.
    assert (Qfx0 : (0 < F2Q fmax)%Q) by lra.
    destruct (@rescale_model fmax pm fmax Vfx Vpm Vfx
                (@leb_refl_finite _ Ffx)) as [Fv Ev].
    + apply ltb_F2Q; [reflexivity|assumption|rewrite F2Q_0; exact Qfx0].
    + exact Bpm.
    + assert (E : (F2Q fmax * (F2Q pm / F2Q fmax) == F2Q pm)%Q)
        by (field; lra).
      split; [exact Fv|]. rewrite <- E. exact Ev.
Qed.

(** [0.3 * (0.7 / 0.3)] is the successor of [0.7]. *)
Example PureVertical_misses_its_anchor :
  PureVerticalScaling.vertScale false
    {| PureVerticalScaling.fmax_ := [0x1.6666666666666p-1%float] |}
    {| FunctionValues.disp :=
         {| FunctionValues.sat := 0.25%float; FunctionValues.val := 0.125%float |};
       FunctionValues.max :=
         {| FunctionValues.sat := 1%float;
            FunctionValues.val := 0x1.3333333333333p-2%float |} |}
    [{| cell := 0; sat := 0.5%float |}]
    [0x1.3333333333333p-2%float]
  = Returns [0x1.6666666666667p-1%float].
Proof. reflexivity. Qed.

Lemma vertical_scalings_approach_their_anchors_witness :
  let crit := {| CritSatVerticalScaling.sdisp_ := [0.5%float];
                 CritSatVerticalScaling.fdisp_ := [0.25%float];
                 CritSatVerticalScaling.fmax_ := [0.75%float] |} in
  let pure := {| PureVerticalScaling.fmax_ := [0.75%float] |} in
  let f := {| FunctionValues.disp :=
                {| FunctionValues.sat := 0.75%float; FunctionValues.val := 0.5%float |};
              FunctionValues.max :=
                {| FunctionValues.sat := 1%float; FunctionValues.val := 1%float |} |} in
  let pt := {| cell := 0; sat := 0.875%float |} in
  (exists v, CritSatVerticalScaling.vertScale false crit f [pt] [0.5%float]
             = Returns [v] /\ approximates (12 * ulp_1) v (F2Q 0.25)) /\
  ((0.5 <? 0.875)%float = true ->
   exists v, CritSatVerticalScaling.vertScale false crit f [pt] [1%float]
             = Returns [v] /\ approximates (12 * ulp_1) v (F2Q 0.75)) /\
  (exists v, PureVerticalScaling.vertScale false pure f [pt] [1%float]
             = Returns [v] /\ approximates (4 * ulp_1) v (F2Q 0.75)).
Proof.
  intros crit pure f pt.
  apply (@vertical_scalings_approach_their_anchors false crit pure 0
           0.875%float f 0.5%float 0.25%float 0.75%float 0.75%float);
    try reflexivity; split; reflexivity.
Defined.

(* ===================================================================== *)
(** * The statements at work on small inputs                              *)
(* ===================================================================== *)

Lemma TwoPoint_round_trip_beyond_the_range_witness :
  let this := {| TwoPointScaling.smin_ := [0.25%float];
                 TwoPointScaling.smax_ := [0.75%float];
                 TwoPointScaling.handle_invalid_ := UseUnscaled |} in
  let tep := {| low := 0.125%float; disp := 0.5%float; high := 1%float |} in
  let s := 0.125%float in
  (exists x s',
     TwoPointScaling.eval this tep [{| cell := 0; sat := s |}] = Returns [x] /\
     TwoPointScaling.reverse this tep [{| cell := 0; sat := x |}]
     = Returns [s'] /\
     ((s <=? 0.25)%float = true \/ is_nan s = true -> s' = 0.25%float) /\
     ((0.75 <=? s)%float = true -> s' = 0.75%float)) /\
  (exists x s',
     TwoPointScaling.reverse this tep [{| cell := 0; sat := s |}]
     = Returns [x] /\
     TwoPointScaling.eval this tep [{| cell := 0; sat := x |}] = Returns [s'] /\
     ((s <=? low tep)%float = true \/ is_nan s = true -> s' = low tep) /\
     ((high tep <=? s)%float = true -> s' = high tep)).
Proof.
  intros this tep s.
  apply (@TwoPoint_round_trip_beyond_the_range this tep 0 s
           0.25%float 0.75%float); reflexivity.
Defined.

Lemma ThreePoint_round_trip_beyond_the_range_witness :
  let this := {| ThreePointScaling.smin_ := [0.25%float];
                 ThreePointScaling.sdisp_ := [0.5%float];
                 ThreePointScaling.smax_ := [0.75%float];
                 ThreePointScaling.handle_invalid_ := UseUnscaled |} in
  let tep := {| low := 0.125%float; disp := 0.5%float; high := 1%float |} in
  let s := 0.875%float in
  (exists x s',
     ThreePointScaling.eval this tep [{| cell := 0; sat := s |}]
     = Returns [x] /\
     ThreePointScaling.reverse this tep [{| cell := 0; sat := x |}]
     = Returns [s'] /\
     ((s <=? 0.25)%float = true \/ is_nan s = true -> s' = 0.25%float) /\
     ((0.75 <=? s)%float = true -> s' = 0.75%float)) /\
  (exists x s',
     ThreePointScaling.reverse this tep [{| cell := 0; sat := s |}]
     = Returns [x] /\
     ThreePointScaling.eval this tep [{| cell := 0; sat := x |}]
     = Returns [s'] /\
     ((s <=? low tep)%float = true \/ is_nan s = true -> s' = low tep) /\
     ((high tep <=? s)%float = true -> s' = high tep)).
Proof.
  intros this tep s.
  apply (@ThreePoint_round_trip_beyond_the_range this tep 0 s
           0.25%float 0.5%float 0.75%float); reflexivity.
Defined.

Lemma ThreePoint_maps_the_displacing_node_witness :
  let this := {| ThreePointScaling.smin_ := [0.25%float];
                 ThreePointScaling.sdisp_ := [0.625%float];
                 ThreePointScaling.smax_ := [0.75%float];
                 ThreePointScaling.handle_invalid_ := UseUnscaled |} in
  let tep := {| low := 0.125%float; disp := 0.5%float; high := 1%float |} in
  (exists x,
     ThreePointScaling.eval this tep [{| cell := 0; sat := 0.625%float |}]
     = Returns [x] /\
     (x =? disp tep)%float = true /\
     (is_zero (disp tep) = false -> x = disp tep)) /\
  (exists s,
     ThreePointScaling.reverse this tep [{| cell := 0; sat := disp tep |}]
     = Returns [s] /\
     (s =? 0.625)%float = true /\
     (is_zero 0.625%float = false -> s = 0.625%float)).
Proof.
  intros this tep.
  apply (@ThreePoint_maps_the_displacing_node this tep 0
           0.25%float 0.625%float 0.75%float); reflexivity.
Defined.

(* ===================================================================== *)
(** * Loops that fill or update an array                                  *)
(* ===================================================================== *)

(** A loop that appends one computed element per index. *)
Lemma for_each_collect (A B : Type) (body : list B -> A -> outcome (list B))
    (g : A -> B) (xs : list A) (acc : list B) :
  (forall acc i, In i xs -> body acc i = Returns (push_back acc (g i))) ->
  for_each body xs acc = Returns (acc ++ map g xs).
Proof.
  revert acc. induction xs as [|x xs IH]; intros acc Hf.
  - cbn. rewrite app_nil_r. reflexivity.
  - cbn [for_each]. rewrite (Hf acc x (or_introl eq_refl)). cbn [bind].
    rewrite IH by (intros acc' i Hi; apply Hf; right; exact Hi).
    unfold push_back. rewrite <- app_assoc. reflexivity.
Qed.

Lemma map_seq_nth (A B : Type) (h : A -> B) (a : list A) (d : A) :
  map (fun i => h (nth i a d)) (seq 0 (length a)) = map h a.
Proof.
  induction a as [|x a IH]; [reflexivity|].
  cbn [length seq map nth]. f_equal.
  rewrite <- seq_shift, map_map. exact IH.
Qed.

Lemma index_nth (A : Type) (v : list A) (i : nat) (d : A) :
  i < length v -> index v i = Returns (nth i v d).
Proof.
  intros Hi. unfold index. rewrite (nth_error_nth' v d Hi). reflexivity.
Qed.

Lemma nth_error_map_seq (B : Type) (g : nat -> B) (n i : nat) :
  i < n -> nth_error (map g (seq 0 n)) i = Some (g i).
Proof.
  intros Hi. rewrite nth_error_map, nth_error_seq.
  destruct (Nat.ltb_spec i n); [reflexivity|lia].
Qed.

(* ===================================================================== *)
(** * Unscaled table end points                                           *)
(* ===================================================================== *)

Section UnscaledFacts.

Context {D : Type} `{Double D}.
Local Open Scope double_scope.

Lemma end_points_of_seq (lo di hi : list D) (d : D) :
  length lo = length di -> length lo = length hi ->
  map (fun i => {| low := nth i lo d; disp := nth i di d; high := nth i hi d |})
      (seq 0 (length lo))
  = end_points_of lo di hi.
Proof.
  unfold end_points_of. revert di hi.
  induction lo as [|l lo IH]; intros di hi Hd Hh; [reflexivity|].
  destruct di as [|x di]; [discriminate Hd|].
  destruct hi as [|y hi]; [discriminate Hh|].
  cbn [length seq map nth combine fst snd]. f_equal.
  rewrite <- seq_shift, map_map. cbn [nth].
  apply IH; [inversion Hd|inversion Hh]; reflexivity.
Qed.

Lemma end_points_of_length (lo di hi : list D) :
  length lo = length di -> length lo = length hi ->
  length (end_points_of lo di hi) = length lo.
Proof.
  intros Hd Hh. unfold end_points_of.
  rewrite length_map, !length_combine. lia.
Qed.

Lemma assert_passes (NDEBUG cond : bool) (what : string) :
  NDEBUG = true \/ cond = true -> assert NDEBUG cond what = Returns tt.
Proof. intros [->| ->]; [reflexivity|apply assert_holds]. Qed.

Lemma empty_length (A : Type) (v : list A) : empty v = (length v =? 0)%nat.
Proof. destruct v; reflexivity. Qed.

Lemma unscaledTwoPt_returns (NDEBUG : bool) (min max : list D) :
  length min = length max ->
  NDEBUG = true \/ 0 < length min ->
  unscaledTwoPt NDEBUG min max = Returns (end_points_of min min max).
Proof.
  intros Hlen Hne. unfold unscaledTwoPt.
  rewrite Hlen, Nat.eqb_refl, assert_holds. cbn [bind]. rewrite <- Hlen.
  rewrite assert_passes.
  2:{ destruct Hne as [->|Hpos]; [left; reflexivity|right].
      rewrite empty_length. destruct (Nat.eqb_spec (length min) 0);
        [lia|reflexivity]. }
  cbn [bind].
  rewrite (for_each_collect _
             (fun i => {| low := nth i min lit_0; disp := nth i min lit_0;
                          high := nth i max lit_0 |})).
  - cbn [app]. rewrite end_points_of_seq by auto. reflexivity.
  - intros acc i Hi. apply in_seq in Hi.
    rewrite (index_nth min lit_0), (index_nth max lit_0) by lia.
    reflexivity.
Qed.

Lemma unscaledThreePt_returns (NDEBUG : bool) (min disp max : list D) :
  length min = length disp -> length min = length max ->
  NDEBUG = true \/ 0 < length min ->
  unscaledThreePt NDEBUG min disp max = Returns (end_points_of min disp max).
Proof.
  intros Hd Hlen Hne. unfold unscaledThreePt.
  rewrite Hlen, Nat.eqb_refl, assert_holds. cbn [bind]. rewrite <- Hlen.
  rewrite Hd, Nat.eqb_refl, assert_holds. cbn [bind]. rewrite <- Hd.
  rewrite assert_passes.
  2:{ destruct Hne as [->|Hpos]; [left; reflexivity|right].
      rewrite empty_length. destruct (Nat.eqb_spec (length min) 0);
        [lia|reflexivity]. }
  cbn [bind].
  rewrite (for_each_collect _
             (fun i => {| low := nth i min lit_0; disp := nth i disp lit_0;
                          high := nth i max lit_0 |})).
  - cbn [app]. rewrite end_points_of_seq by auto. reflexivity.
  - intros acc i Hi. apply in_seq in Hi.
    rewrite (index_nth min lit_0), (index_nth disp lit_0),
      (index_nth max lit_0) by lia.
    reflexivity.
Qed.

End UnscaledFacts.

Section UnscaledFacts2.

Context {D : Type} `{Double D}.
Local Open Scope double_scope.

Lemma nth_error_repeat_Some (A : Type) (x y : A) (n i : nat) :
  nth_error (repeat x n) i = Some y -> y = x /\ i < n.
Proof.
  revert i. induction n as [|n IH]; intros i Hi.
  - destruct i; discriminate Hi.
  - destruct i as [|i]; cbn in Hi.
    + inversion Hi. split; [reflexivity|lia].
    + destruct (IH i Hi). split; [assumption|lia].
Qed.

Lemma nth_error_repeat_lt (A : Type) (x : A) (n i : nat) :
  i < n -> nth_error (repeat x n) i = Some x.
Proof.
  revert i. induction n as [|n IH]; intros i Hi; [lia|].
  destruct i as [|i]; [reflexivity|]. cbn. apply IH. lia.
Qed.

Lemma nth_error_combine (A B : Type) (a : list A) (b : list B) (i : nat)
    (x : A) (y : B) :
  nth_error a i = Some x -> nth_error b i = Some y ->
  nth_error (combine a b) i = Some (x, y).
Proof.
  revert b i. induction a as [|a0 a IH]; intros b i Hx Hy.
  - destruct i; discriminate Hx.
  - destruct b as [|b0 b]; [destruct i; discriminate Hy|].
    destruct i as [|i]; cbn in *.
    + inversion Hx. inversion Hy. reflexivity.
    + apply IH; assumption.
Qed.

Lemma nth_error_combine_Some (A B : Type) (a : list A) (b : list B) (i : nat)
    (p : A * B) :
  nth_error (combine a b) i = Some p ->
  nth_error a i = Some (fst p) /\ nth_error b i = Some (snd p).
Proof.
  revert b i. induction a as [|a0 a IH]; intros b i Hp.
  - destruct i; discriminate Hp.
  - destruct b as [|b0 b]; [destruct i; discriminate Hp|].
    destruct i as [|i]; cbn in *.
    + inversion Hp. split; reflexivity.
    + apply IH; assumption.
Qed.

Lemma one_minus_sum_length (s1 s2 : list D) :
  length s1 = length s2 -> length (one_minus_sum s1 s2) = length s1.
Proof.
  intros Hlen. unfold one_minus_sum. rewrite length_map, length_combine. lia.
Qed.

Lemma sdisp_returns (s1 s2 : list D) :
  length s1 = length s2 ->
  Create.ThreePoint.sdisp s1 s2 = Returns (one_minus_sum s1 s2).
Proof.
  intros Hlen. unfold Create.ThreePoint.sdisp.
  destruct (@for_each_seq_store_all D
              (fun (sr : list D) (i : nat) =>
                 a <- index s1 i ;; b <- index s2 i ;; y <- index sr i ;;
                 store sr i (y - (a + b)))
              (fun i y => y - (nth i s1 lit_0 + nth i s2 lit_0))
              (repeat lit_1 (length s1)))
    as (out & Hrun & Hout & Hnth).
  { intros ret i y Hi Hret Hy. rewrite repeat_length in Hi.
    rewrite (index_nth s1 lit_0), (index_nth s2 lit_0) by lia. cbn [bind].
    unfold index. rewrite Hy. reflexivity. }
  rewrite repeat_length in Hrun, Hout. rewrite Hrun. f_equal.
  apply nth_error_ext_eq.
  - rewrite one_minus_sum_length by assumption. exact Hout.
  - intros i x Hx. unfold one_minus_sum in Hx.
    rewrite nth_error_map in Hx.
    destruct (nth_error (combine s1 s2) i) as [[a b]|] eqn:E;
      [|discriminate Hx].
    cbn in Hx. inversion Hx. subst x.
    apply nth_error_combine_Some in E. cbn [fst snd] in E. destruct E as [Ea Eb].
    assert (Hi : i < length s1) by (apply nth_error_Some; congruence).
    rewrite (Hnth i lit_1 (nth_error_repeat_lt _ Hi)).
    rewrite (nth_error_nth _ _ _ Ea), (nth_error_nth _ _ _ Eb). reflexivity.
Qed.

End UnscaledFacts2.

Section Dispatch.

Context {D : Type} `{Double D}.

Lemma bind_not_Throws (A B : Type) (c : outcome A) (k : A -> outcome B) :
  (forall e, c <> Throws e) -> (forall a e, k a <> Throws e) ->
  forall e, bind c k <> Throws e.
Proof.
  intros Hc Hk e. destruct c as [a|e'| |]; cbn [bind]; try discriminate.
  - apply Hk.
  - exfalso. exact (Hc e' eq_refl).
Qed.

Lemma assert_not_Throws (NDEBUG cond : bool) (what : string) (e : exception) :
  assert NDEBUG cond what <> Throws e.
Proof. unfold assert. destruct NDEBUG, cond; discriminate. Qed.

Lemma index_not_Throws (A : Type) (v : list A) (i : nat) (e : exception) :
  index v i <> Throws e.
Proof. unfold index. destruct (nth_error v i); discriminate. Qed.

Lemma store_not_Throws (A : Type) (v : list A) (i : nat) (x : A)
    (e : exception) :
  store v i x <> Throws e.
Proof.
  revert i. induction v as [|y v IH]; intros i; [discriminate|].
  destruct i as [|i]; cbn [store]; [discriminate|].
  specialize (IH i). destruct (store v i x); cbn [bind];
    try discriminate; congruence.
Qed.

Lemma for_each_not_Throws (A S : Type) (body : S -> A -> outcome S)
    (xs : list A) :
  (forall s x e, body s x <> Throws e) ->
  forall s e, for_each body xs s <> Throws e.
Proof.
  intros Hbody. induction xs as [|x xs IH]; intros s e; cbn [for_each].
  - discriminate.
  - apply bind_not_Throws; [intros e'; apply Hbody|intros s' e'; apply IH].
Qed.

Ltac not_throws :=
  repeat first
    [ apply assert_not_Throws | apply index_not_Throws
    | apply store_not_Throws | discriminate
    | apply for_each_not_Throws; intros
    | apply bind_not_Throws; intros ].

Lemma unscaledTwoPt_not_Throws (NDEBUG : bool) (a b : list D) (e : exception) :
  unscaledTwoPt NDEBUG a b <> Throws e.
Proof. revert e. unfold unscaledTwoPt. not_throws. Qed.

Lemma unscaledThreePt_not_Throws (NDEBUG : bool) (a b c : list D)
    (e : exception) :
  unscaledThreePt NDEBUG a b c <> Throws e.
Proof. revert e. unfold unscaledThreePt. not_throws. Qed.

Lemma sdisp_not_Throws (a b : list D) (e : exception) :
  Create.ThreePoint.sdisp a b <> Throws e.
Proof. revert e. unfold Create.ThreePoint.sdisp. not_throws. Qed.

(** X13: [CreateEPS::Horizontal::unscaledEndPoints] throws exactly for
    the combinations of options that name no saturation function:
    capillary pressure of oil, water in an oil-gas system, gas in an
    oil-water system; whatever the raw end points, the build and the
    2-point/3-point choice. *)
Theorem Horizontal_unscaledEndPoints_throws_iff_meaningless
    (NDEBUG : bool) (ep : CreateEPS.RawTableEndPoints.t D)
    (opt : CreateEPS.EPSOptions) :
  (exists e, Horizontal.unscaledEndPoints NDEBUG ep opt = Throws e)
  <-> meaningless opt.
Proof.
  destruct opt as [use3 curve subSys thisPh].
  unfold meaningless, Horizontal.unscaledEndPoints,
    Create.TwoPoint.unscaledEndPoints, Create.ThreePoint.unscaledEndPoints.
  cbn [CreateEPS.use3PtScaling CreateEPS.curve CreateEPS.subSys
       CreateEPS.thisPh].
  destruct use3, curve, subSys, thisPh;
    cbv [equal FunctionCategory_equal SubSystem_equal ECLPhaseIndex_equal
         orb andb negb];
    rewrite ?assert_holds; cbn [bind].
  all: split; [intros [e He]|intros Hm].
  all: try exact I.
  all: try contradiction.
  all: try (eexists; reflexivity).
  all: exfalso; revert He.
  all: first [ apply unscaledTwoPt_not_Throws
             | apply bind_not_Throws; intros;
               [apply sdisp_not_Throws|apply unscaledThreePt_not_Throws] ].
Qed.

End Dispatch.

Section UnscaledTables.

Context {D : Type} `{Double D}.
Import CreateEPS CreateEPS.RawTableEndPoints.

Lemma end_points_of_two_point (lo hi : list D) :
  Forall (fun t => disp t = low t) (end_points_of lo lo hi).
Proof.
  unfold end_points_of. revert hi.
  induction lo as [|x lo IH]; intros hi; [constructor|].
  destruct hi as [|y hi]; [constructor|].
  cbn [combine map]. constructor; [reflexivity|apply IH].
Qed.

(** X14: the unscaled end points of the two-point family.  For raw end
    points with [n > 0] tables and a meaningful combination of options
    with [opt.curve == CapPress] or no three-point scaling,
    [CreateEPS::Horizontal::unscaledEndPoints] returns, table by table,
    the connate saturation (capillary pressure) or the critical
    saturation (relative permeability) of the phase as low end point and
    the maximum saturation of the phase as high end point, with the
    displacing end point set to the low one. *)
Theorem Horizontal_unscaledEndPoints_two_point
    (NDEBUG : bool) (ep : RawTableEndPoints.t D) (opt : EPSOptions)
    (n : nat) :
  tables n ep -> 0 < n -> ~ meaningless opt ->
  curve opt = CapPress \/ use3PtScaling opt = false ->
  exists teps,
    Horizontal.unscaledEndPoints NDEBUG ep opt = Returns teps /\
    length teps = n /\
    Forall (fun t => disp t = low t) teps /\
    teps =
    match curve opt, subSys opt, thisPh opt with
    | CapPress, _, Aqua =>
        end_points_of (Connate.water (conn ep)) (Connate.water (conn ep))
                      (Maximum.water (smax ep))
    | CapPress, _, _ =>
        end_points_of (Connate.gas (conn ep)) (Connate.gas (conn ep))
                      (Maximum.gas (smax ep))
    | Relperm, OilGas, Liquid =>
        end_points_of (Critical.oil_in_gas (crit ep))
                      (Critical.oil_in_gas (crit ep)) (Maximum.oil (smax ep))
    | Relperm, OilGas, _ =>
        end_points_of (Critical.gas (crit ep)) (Critical.gas (crit ep))
                      (Maximum.gas (smax ep))
    | Relperm, OilWater, Aqua =>
        end_points_of (Critical.water (crit ep)) (Critical.water (crit ep))
                      (Maximum.water (smax ep))
    | Relperm, OilWater, _ =>
        end_points_of (Critical.oil_in_water (crit ep))
                      (Critical.oil_in_water (crit ep)) (Maximum.oil (smax ep))
    end.
Proof.
  intros (Hcg & Hcw & Hog & How & Hg & Hw & Hmg & Hmo & Hmw) Hn Hm Hfam.
  destruct opt as [use3 curve subSys thisPh].
  unfold meaningless in Hm.
  cbn [CreateEPS.use3PtScaling CreateEPS.curve CreateEPS.subSys
       CreateEPS.thisPh] in *.
  unfold Horizontal.unscaledEndPoints, Create.TwoPoint.unscaledEndPoints.
  cbn [CreateEPS.use3PtScaling CreateEPS.curve CreateEPS.subSys
       CreateEPS.thisPh].
  destruct use3, curve, subSys, thisPh;
    try (exfalso; apply Hm; exact I);
    try (destruct Hfam as [Hfam|Hfam]; discriminate Hfam);
    cbv [equal FunctionCategory_equal SubSystem_equal ECLPhaseIndex_equal
         orb andb negb];
    rewrite ?assert_holds; cbn [bind].
  all: rewrite unscaledTwoPt_returns by (try (right; lia); congruence).
  all: eexists; split; [reflexivity|].
  all: split; [rewrite end_points_of_length; congruence|].
  all: split; [apply end_points_of_two_point|reflexivity].
Qed.

(** X15: the unscaled end points of the three-point family.  For raw end
    points with [n > 0] tables and a meaningful combination of options
    for relative permeability with three-point scaling,
    [CreateEPS::Horizontal::unscaledEndPoints] returns, table by table,
    the critical saturation of the phase as low end point, the maximum
    saturation of the phase as high end point, and as displacing end
    point [1 - (a + b)] with [a] the critical saturation of the other
    phase of the sub-system and [b] the connate saturation of the third
    phase. *)
Theorem Horizontal_unscaledEndPoints_three_point
    (NDEBUG : bool) (ep : RawTableEndPoints.t D) (opt : EPSOptions)
    (n : nat) :
  tables n ep -> 0 < n -> ~ meaningless opt ->
  curve opt = Relperm -> use3PtScaling opt = true ->
  exists teps,
    Horizontal.unscaledEndPoints NDEBUG ep opt = Returns teps /\
    length teps = n /\
    teps =
    match subSys opt, thisPh opt with
    | OilGas, Liquid =>
        end_points_of (Critical.oil_in_gas (crit ep))
          (one_minus_sum (Critical.gas (crit ep)) (Connate.water (conn ep)))
          (Maximum.oil (smax ep))
    | OilGas, _ =>
        end_points_of (Critical.gas (crit ep))
          (one_minus_sum (Critical.oil_in_gas (crit ep))
                         (Connate.water (conn ep)))
          (Maximum.gas (smax ep))
    | OilWater, Aqua =>
        end_points_of (Critical.water (crit ep))
          (one_minus_sum (Critical.oil_in_water (crit ep))
                         (Connate.gas (conn ep)))
          (Maximum.water (smax ep))
    | OilWater, _ =>
        end_points_of (Critical.oil_in_water (crit ep))
          (one_minus_sum (Critical.water (crit ep)) (Connate.gas (conn ep)))
          (Maximum.oil (smax ep))
    end.
Proof.
  intros (Hcg & Hcw & Hog & How & Hg & Hw & Hmg & Hmo & Hmw) Hn Hm Hc Hu.
  destruct opt as [use3 curve subSys thisPh].
  unfold meaningless in Hm.
  cbn [CreateEPS.use3PtScaling CreateEPS.curve CreateEPS.subSys
       CreateEPS.thisPh] in *.
  subst use3 curve.
  unfold Horizontal.unscaledEndPoints, Create.ThreePoint.unscaledEndPoints.
  cbn [CreateEPS.use3PtScaling CreateEPS.curve CreateEPS.subSys
       CreateEPS.thisPh].
  destruct subSys, thisPh;
    try (exfalso; apply Hm; exact I);
    cbv [equal FunctionCategory_equal SubSystem_equal ECLPhaseIndex_equal
         orb andb negb];
    rewrite ?assert_holds; cbn [bind].
  all: rewrite sdisp_returns by congruence; cbn [bind].
  all: rewrite unscaledThreePt_returns
    by (rewrite ?one_minus_sum_length; try (right; lia); congruence).
  all: eexists; split; [reflexivity|].
  all: split; [|reflexivity].
  all: rewrite end_points_of_length;
    rewrite ?one_minus_sum_length; congruence.
Qed.

End UnscaledTables.

(* ===================================================================== *)
(** * The checks of [unscaledTwoPt]                                       *)
(* ===================================================================== *)

Section UnscaledChecks.

Context {D : Type} `{Double D}.

Lemma end_points_of_seq_le (lo hi : list D) (d : D) :
  length lo <= length hi ->
  map (fun i => {| low := nth i lo d; disp := nth i lo d; high := nth i hi d |})
      (seq 0 (length lo))
  = end_points_of lo lo hi.
Proof.
  unfold end_points_of. revert hi.
  induction lo as [|l lo IH]; intros hi Hle; [reflexivity|].
  destruct hi as [|y hi]; [cbn in Hle; lia|].
  cbn [length seq map nth combine fst snd]. f_equal.
  rewrite <- seq_shift, map_map. cbn [nth].
  apply IH. cbn in Hle. lia.
Qed.

Lemma unscaledTwoPt_loop (min max : list D) :
  (length min <= length max ->
   for_each
     (fun (tep : list (TableEndPoints D)) (i : nat) =>
        smin <- index min i ;;
        hi <- index max i ;;
        Returns (push_back tep {| low := smin; disp := smin; high := hi |}))
     (seq 0 (length min)) []
   = Returns (end_points_of min min max)) /\
  (length max < length min ->
   for_each
     (fun (tep : list (TableEndPoints D)) (i : nat) =>
        smin <- index min i ;;
        hi <- index max i ;;
        Returns (push_back tep {| low := smin; disp := smin; high := hi |}))
     (seq 0 (length min)) []
   = Undefined).
Proof.
  split.
  - intros Hle.
    rewrite (for_each_collect _
               (fun i => {| low := nth i min lit_0; disp := nth i min lit_0;
                            high := nth i max lit_0 |})).
    + cbn [app]. rewrite end_points_of_seq_le by exact Hle. reflexivity.
    + intros acc i Hi. apply in_seq in Hi.
      rewrite (index_nth min lit_0), (index_nth max lit_0) by lia.
      reflexivity.
  - intros Hlt.
    apply (for_each_defined
             (fun (tep : list (TableEndPoints D)) (i : nat) =>
                smin <- index min i ;;
                hi <- index max i ;;
                Returns (push_back tep
                           {| low := smin; disp := smin; high := hi |}))
             (fun i => i < length min /\ i < length max)).
    + intros s i [H1 H2].
      rewrite (index_nth min lit_0), (index_nth max lit_0) by assumption.
      eexists. reflexivity.
    + intros s i Hn.
      destruct (lt_dec i (length min)) as [H1|H1].
      * rewrite (index_nth min lit_0) by exact H1. cbn [bind].
        rewrite index_above; [reflexivity|]. intros H2. apply Hn. auto.
      * rewrite index_above by exact H1. reflexivity.
    + intros i. apply and_lt_dec.
    + intros Hall. rewrite Forall_forall in Hall.
      destruct (Hall (length max)) as [_ Habs]; [|lia].
      apply in_seq. lia.
Qed.

(** X30: the checks of [unscaledTwoPt] are assertions.  Built with
    assertions the call stops exactly when the two arrays differ in size
    or are empty.  Built with [NDEBUG] nothing is checked: the call
    returns one entry per element of [min], with the displacing end
    point set to the low one, when [max] has at least as many elements
    (the elements of [max] beyond are ignored), and reads outside [max]
    when [max] is shorter. *)
Theorem unscaledTwoPt_checks_are_assertions (min max : list D) :
  (unscaledTwoPt false min max = Aborts "Internal Logic Error"
   <-> length min <> length max \/ min = []) /\
  (length min <= length max ->
   unscaledTwoPt true min max = Returns (end_points_of min min max)) /\
  (length max < length min -> unscaledTwoPt true min max = Undefined).
Proof.
  destruct (unscaledTwoPt_loop min max) as [Hle Hlt].
  split; [|split].
  - unfold unscaledTwoPt, assert.
    destruct (Nat.eqb_spec (length min) (length max)) as [Heq|Hne];
      cbn [bind].
    + destruct min as [|x min']; cbn [empty negb bind].
      * split; [right|]; reflexivity.
      * rewrite Hle by lia. split; [discriminate|].
        intros [Hne|Hnil]; [contradiction|discriminate Hnil].
    + split; [left; exact Hne|reflexivity].
  - intros Hlen. unfold unscaledTwoPt, assert. cbn [bind].
    apply Hle. exact Hlen.
  - intros Hlen. unfold unscaledTwoPt, assert. cbn [bind].
    apply Hlt. exact Hlen.
Qed.

End UnscaledChecks.

(* ===================================================================== *)
(** * The loops of the factories                                          *)
(* ===================================================================== *)

Section ArrayFacts.

Context {D : Type} `{Double D}.
Local Open Scope double_scope.

Lemma minus_length (v w : list D) :
  length v = length w -> length (minus v w) = length v.
Proof.
  intros Hlen. unfold minus. rewrite length_map, length_combine. lia.
Qed.

Lemma subtract_returns (v w : list D) :
  length v = length w -> subtract v w = Returns (minus v w).
Proof.
  intros Hlen. unfold subtract. rewrite <- Hlen.
  destruct (@for_each_seq_store_all D
              (fun (v : list D) (i : nat) => subtract_at v w i)
              (fun i y => y - nth i w lit_0) v)
    as (out & Hrun & Hout & Hnth).
  { intros ret i y Hi Hret Hy. unfold subtract_at.
    rewrite (index_nth w lit_0) by lia. cbn [bind].
    unfold index. rewrite Hy. reflexivity. }
  rewrite Hrun. f_equal. apply nth_error_ext_eq.
  - rewrite minus_length by assumption. exact Hout.
  - intros i x Hx. unfold minus in Hx. rewrite nth_error_map in Hx.
    destruct (nth_error (combine v w) i) as [[a b]|] eqn:E;
      [|discriminate Hx].
    cbn in Hx. inversion Hx. subst x.
    apply nth_error_combine_Some in E. cbn [fst snd] in E.
    destruct E as [Ea Eb].
    rewrite (Hnth i a Ea), (nth_error_nth _ _ _ Eb). reflexivity.
Qed.

Lemma for_each_pair (A S T : Type) (bu : S -> A -> outcome S)
    (bv : T -> A -> outcome T) (xs : list A) :
  forall (u u' : S) (v v' : T),
    for_each bu xs u = Returns u' -> for_each bv xs v = Returns v' ->
    for_each (fun (uv : S * T) (i : A) =>
                a <- bu (fst uv) i ;; b <- bv (snd uv) i ;; Returns (a, b))
             xs (u, v)
    = Returns (u', v').
Proof.
  induction xs as [|x xs IH]; intros u u' v v' Hu Hv; cbn [for_each] in *.
  - inversion Hu. inversion Hv. reflexivity.
  - destruct (bu u x) as [a| | |] eqn:Ea; try discriminate Hu.
    destruct (bv v x) as [b| | |] eqn:Eb; try discriminate Hv.
    cbn [bind fst snd] in *. rewrite Ea, Eb. cbn [bind].
    apply IH; assumption.
Qed.

Lemma subtract_both_returns (u v w : list D) :
  length u = length w -> length v = length w ->
  subtract_both u v w = Returns (minus u w, minus v w).
Proof.
  intros Hu Hv. unfold subtract_both.
  apply (for_each_pair (fun (u : list D) (i : nat) => subtract_at u w i)
                       (fun (v : list D) (i : nat) => subtract_at v w i)).
  - exact (subtract_returns u w Hu).
  - exact (subtract_returns v w Hv).
Qed.

Lemma minus_nil (v : list D) : length v = 0 -> minus v [] = v.
Proof. destruct v; [reflexivity|discriminate]. Qed.

Lemma subtract_if_present_returns (n : nat) (v w : list D) (what : string) :
  length v = n -> optional n w ->
  subtract_if_present n v w what = Returns (minus_if_present v w).
Proof.
  intros Hv Hw. unfold subtract_if_present, minus_if_present.
  destruct (Nat.eqb_spec (length w) n) as [E|E].
  - rewrite subtract_returns by congruence.
    destruct w as [|x w]; [|reflexivity].
    cbn [empty]. rewrite minus_nil by (cbn in E; congruence). reflexivity.
  - destruct Hw as [Hw|Hw]; [contradiction|]. subst w. reflexivity.
Qed.

Lemma subtract_if_present_throws (n : nat) (v w : list D) (what : string) :
  ~ optional n w ->
  subtract_if_present n v w what = Throws (invalid_argument what).
Proof.
  intros Hw. unfold subtract_if_present.
  destruct (Nat.eqb_spec (length w) n) as [E|E].
  - exfalso. apply Hw. left. exact E.
  - destruct w; [exfalso; apply Hw; right; reflexivity|reflexivity].
Qed.

Lemma minus_if_present_length (v w : list D) :
  optional (length v) w -> length (minus_if_present v w) = length v.
Proof.
  intros Hw. unfold minus_if_present. destruct w as [|x w]; [reflexivity|].
  cbn [empty]. destruct Hw as [Hw|Hw]; [|discriminate Hw].
  apply minus_length. congruence.
Qed.

Lemma ones_length (n : nat) : length (ones (D := D) n) = n.
Proof. apply repeat_length. Qed.

Lemma optional_dec (A : Type) (n : nat) (w : list A) :
  {optional n w} + {~ optional n w}.
Proof.
  unfold optional. destruct (Nat.eq_dec (length w) n) as [E|E];
    [left; left; exact E|].
  destruct w; [left; right; reflexivity|].
  right. intros [E'|E']; [contradiction|discriminate E'].
Qed.

End ArrayFacts.

(* ===================================================================== *)
(** * What the horizontal factories build                                 *)
(* ===================================================================== *)

Section FactoryFacts.

Context {D : Type} `{Double D}.
Local Open Scope double_scope.
Local Open Scope string_scope.

Lemma TwoPoint_new_returns (smin smax : list D) :
  length smin = length smax ->
  TwoPointScaling.new smin smax
  = Returns {| TwoPointScaling.smin_ := smin;
               TwoPointScaling.smax_ := smax;
               TwoPointScaling.handle_invalid_ := UseUnscaled |}.
Proof.
  intros Hlen. unfold TwoPointScaling.new.
  cbn [TwoPointScaling.smin_ TwoPointScaling.smax_].
  rewrite Hlen, Nat.eqb_refl. reflexivity.
Qed.

Lemma TwoPoint_new_throws (smin smax : list D) :
  length smin <> length smax ->
  exists e, TwoPointScaling.new smin smax = Throws e.
Proof.
  intros Hlen. unfold TwoPointScaling.new.
  cbn [TwoPointScaling.smin_ TwoPointScaling.smax_].
  destruct (Nat.eqb_spec (length smin) (length smax)); [contradiction|].
  eexists. reflexivity.
Qed.

Lemma ThreePoint_new_returns (smin sdisp smax : list D) :
  length sdisp = length smin -> length sdisp = length smax ->
  ThreePointScaling.new smin sdisp smax
  = Returns {| ThreePointScaling.smin_ := smin;
               ThreePointScaling.sdisp_ := sdisp;
               ThreePointScaling.smax_ := smax;
               ThreePointScaling.handle_invalid_ := UseUnscaled |}.
Proof.
  intros H1 H2. unfold ThreePointScaling.new.
  cbn [ThreePointScaling.smin_ ThreePointScaling.sdisp_
       ThreePointScaling.smax_].
  rewrite <- H1, <- H2, Nat.eqb_refl. reflexivity.
Qed.

Lemma TwoPoint_oil_factories_spec (out : ECLOutput D) :
  let n := numCells out in
  let raw := rawLinearisedCellData out in
  (length (raw "SOGCR") = n /\ length (raw "SGL") = n /\
   optional n (raw "SWL") ->
   Create.TwoPoint.Kr.OG out
   = Returns (Some
       {| TwoPointScaling.smin_ := raw "SOGCR";
          TwoPointScaling.smax_ :=
            minus_if_present (minus (ones n) (raw "SGL")) (raw "SWL");
          TwoPointScaling.handle_invalid_ := UseUnscaled |})) /\
  (~ (length (raw "SOGCR") = n /\ length (raw "SGL") = n /\
      optional n (raw "SWL")) ->
   exists e, Create.TwoPoint.Kr.OG out = Throws e) /\
  (length (raw "SOWCR") = n /\ length (raw "SWL") = n /\
   optional n (raw "SGL") ->
   Create.TwoPoint.Kr.OW out
   = Returns (Some
       {| TwoPointScaling.smin_ := raw "SOWCR";
          TwoPointScaling.smax_ :=
            minus_if_present (minus (ones n) (raw "SWL")) (raw "SGL");
          TwoPointScaling.handle_invalid_ := UseUnscaled |})) /\
  (~ (length (raw "SOWCR") = n /\ length (raw "SWL") = n /\
      optional n (raw "SGL")) ->
   exists e, Create.TwoPoint.Kr.OW out = Throws e).
Proof.
  intros n raw. unfold Create.TwoPoint.Kr.OG, Create.TwoPoint.Kr.OW.
  fold n. fold (raw "SOGCR") (raw "SGL") (raw "SWL") (raw "SOWCR").
  clearbody n raw.
  assert (Hones : forall m, repeat lit_1 m = ones (D := D) m) by reflexivity.
  assert (Lminus : forall w : list D,
             length w = n -> length (minus (ones n) w) = n).
  { intros w Hw. rewrite minus_length; rewrite ones_length; congruence. }
  split; [|split; [|split]].
  - intros (H1 & H2 & H3). rewrite H1, H2, Nat.eqb_refl. cbn [negb].
    rewrite Hones, subtract_returns by (rewrite ones_length; congruence).
    cbn [bind].
    rewrite (subtract_if_present_returns _ _ (Lminus _ H2) H3). cbn [bind].
    rewrite TwoPoint_new_returns; [reflexivity|].
    rewrite minus_if_present_length; rewrite (Lminus _ H2); congruence.
  - intros Hn.
    destruct (Nat.eqb_spec (length (raw "SOGCR")) n) as [H1|H1];
      [|eexists; reflexivity].
    cbn [negb]. rewrite H1.
    destruct (Nat.eqb_spec (length (raw "SGL")) n) as [H2|H2];
      [|eexists; reflexivity].
    cbn [negb].
    rewrite Hones, subtract_returns by (rewrite ones_length; congruence).
    cbn [bind].
    rewrite subtract_if_present_throws; [eexists; reflexivity|].
    intros H3. apply Hn. repeat split; assumption.
  - intros (H1 & H2 & H3). rewrite H1, H2, Nat.eqb_refl. cbn [negb].
    rewrite Hones, subtract_returns by (rewrite ones_length; congruence).
    cbn [bind].
    rewrite (subtract_if_present_returns _ _ (Lminus _ H2) H3). cbn [bind].
    rewrite TwoPoint_new_returns; [reflexivity|].
    rewrite minus_if_present_length; rewrite (Lminus _ H2); congruence.
  - intros Hn.
    destruct (Nat.eqb_spec (length (raw "SOWCR")) n) as [H1|H1];
      [|eexists; reflexivity].
    cbn [negb]. rewrite H1.
    destruct (Nat.eqb_spec (length (raw "SWL")) n) as [H2|H2];
      [|eexists; reflexivity].
    cbn [negb].
    rewrite Hones, subtract_returns by (rewrite ones_length; congruence).
    cbn [bind].
    rewrite subtract_if_present_throws; [eexists; reflexivity|].
    intros H3. apply Hn. repeat split; assumption.
Qed.

Lemma TwoPoint_gas_water_factories_spec (out : ECLOutput D) :
  let n := numCells out in
  let raw := rawLinearisedCellData out in
  let sgl := if empty (raw "SGLPC") then raw "SGL" else raw "SGLPC" in
  let swl := if empty (raw "SWLPC") then raw "SWL" else raw "SWLPC" in
  (length (raw "SGCR") = n /\ length (raw "SGU") = n ->
   Create.TwoPoint.Kr.G out
   = Returns (Some {| TwoPointScaling.smin_ := raw "SGCR";
                      TwoPointScaling.smax_ := raw "SGU";
                      TwoPointScaling.handle_invalid_ := UseUnscaled |})) /\
  (~ (length (raw "SGCR") = n /\ length (raw "SGU") = n) ->
   exists e, Create.TwoPoint.Kr.G out = Throws e) /\
  (0 < length (raw "SWCR") /\ length (raw "SWCR") = length (raw "SWU") ->
   Create.TwoPoint.Kr.W out
   = Returns (Some {| TwoPointScaling.smin_ := raw "SWCR";
                      TwoPointScaling.smax_ := raw "SWU";
                      TwoPointScaling.handle_invalid_ := UseUnscaled |})) /\
  (~ (0 < length (raw "SWCR") /\ length (raw "SWCR") = length (raw "SWU")) ->
   exists e, Create.TwoPoint.Kr.W out = Throws e) /\
  (length sgl = n /\ length (raw "SGU") = n ->
   Create.TwoPoint.Pc.GO out
   = Returns (Some {| TwoPointScaling.smin_ := sgl;
                      TwoPointScaling.smax_ := raw "SGU";
                      TwoPointScaling.handle_invalid_ := UseUnscaled |})) /\
  (~ (length sgl = n /\ length (raw "SGU") = n) ->
   exists e, Create.TwoPoint.Pc.GO out = Throws e) /\
  (length swl = n /\ length (raw "SWU") = n ->
   Create.TwoPoint.Pc.OW out
   = Returns (Some {| TwoPointScaling.smin_ := swl;
                      TwoPointScaling.smax_ := raw "SWU";
                      TwoPointScaling.handle_invalid_ := UseUnscaled |})) /\
  (~ (length swl = n /\ length (raw "SWU") = n) ->
   exists e, Create.TwoPoint.Pc.OW out = Throws e).
Proof.
  intros n raw sgl swl.
  unfold Create.TwoPoint.Kr.G, Create.TwoPoint.Kr.W, Create.TwoPoint.Pc.GO,
    Create.TwoPoint.Pc.OW.
  fold n. fold (raw "SGCR") (raw "SGU") (raw "SWCR") (raw "SWU")
    (raw "SGLPC") (raw "SGL") (raw "SWLPC") (raw "SWL").
  fold sgl swl. clearbody sgl swl. clearbody n raw.
  repeat split.
  - intros (H1 & H2). rewrite H1, H2, Nat.eqb_refl. cbn [negb orb].
    rewrite TwoPoint_new_returns by congruence. reflexivity.
  - intros Hn.
    destruct (Nat.eqb_spec (length (raw "SGCR")) (length (raw "SGU")))
      as [H1|H1]; [|eexists; reflexivity].
    destruct (Nat.eqb_spec (length (raw "SGCR")) n) as [H2|H2];
      [|eexists; reflexivity].
    exfalso. apply Hn. split; congruence.
  - intros (H1 & H2). rewrite !empty_length.
    destruct (Nat.eqb_spec (length (raw "SWCR")) 0) as [E|E]; [lia|].
    destruct (Nat.eqb_spec (length (raw "SWU")) 0) as [E'|E']; [lia|].
    cbn [orb]. rewrite TwoPoint_new_returns by congruence. reflexivity.
  - intros Hn. rewrite !empty_length.
    destruct (Nat.eqb_spec (length (raw "SWCR")) 0) as [E|E];
      [eexists; reflexivity|].
    destruct (Nat.eqb_spec (length (raw "SWU")) 0) as [E'|E'];
      [eexists; reflexivity|].
    cbn [orb].
    destruct (@TwoPoint_new_throws (raw "SWCR") (raw "SWU")) as [e He].
    { intros Heq. apply Hn. split; [lia|exact Heq]. }
    rewrite He. eexists. reflexivity.
  - intros (H1 & H2). rewrite H1, H2, Nat.eqb_refl. cbn [negb orb].
    rewrite TwoPoint_new_returns by congruence. reflexivity.
  - intros Hn.
    destruct (Nat.eqb_spec (length sgl) (length (raw "SGU")))
      as [H1|H1]; [|eexists; reflexivity].
    destruct (Nat.eqb_spec (length sgl) n) as [H2|H2];
      [|eexists; reflexivity].
    exfalso. apply Hn. split; congruence.
  - intros (H1 & H2). rewrite H1, H2, Nat.eqb_refl. cbn [negb orb].
    rewrite TwoPoint_new_returns by congruence. reflexivity.
  - intros Hn.
    destruct (Nat.eqb_spec (length swl) (length (raw "SWU")))
      as [H1|H1]; [|eexists; reflexivity].
    destruct (Nat.eqb_spec (length swl) n) as [H2|H2];
      [|eexists; reflexivity].
    exfalso. apply Hn. split; congruence.
Qed.

Lemma subtract_both_if_present (n : nat) (u v w : list D) (what : string) :
  length u = n -> length v = n -> optional n w ->
  (if (length w =? n)%nat then subtract_both u v w
   else if negb (empty w) then Throws (invalid_argument what)
   else Returns (u, v))
  = Returns (minus_if_present u w, minus_if_present v w).
Proof.
  intros Hu Hv Hw. unfold minus_if_present.
  destruct (Nat.eqb_spec (length w) n) as [E|E].
  - rewrite subtract_both_returns by congruence.
    destruct w as [|x w]; [|reflexivity].
    cbn [empty]. rewrite !minus_nil by (cbn in E; congruence). reflexivity.
  - destruct Hw as [Hw|Hw]; [contradiction|]. subst w. reflexivity.
Qed.

Lemma subtract_both_if_absent (n : nat) (u v w : list D) (what : string) :
  ~ optional n w ->
  (if (length w =? n)%nat then subtract_both u v w
   else if negb (empty w) then Throws (invalid_argument what)
   else Returns (u, v))
  = Throws (invalid_argument what).
Proof.
  intros Hw.
  destruct (Nat.eqb_spec (length w) n) as [E|E].
  - exfalso. apply Hw. left. exact E.
  - destruct w; [exfalso; apply Hw; right; reflexivity|reflexivity].
Qed.

Lemma ThreePoint_factories_spec (out : ECLOutput D) :
  let n := numCells out in
  let raw := rawLinearisedCellData out in
  (length (raw "SGCR") = n /\ length (raw "SGU") = n /\
   optional n (raw "SWL") /\ optional n (raw "SOGCR") ->
   Create.ThreePoint.Kr.G out
   = Returns (Some
       {| ThreePointScaling.smin_ := raw "SGCR";
          ThreePointScaling.sdisp_ :=
            minus_if_present (minus_if_present (ones n) (raw "SWL"))
                             (raw "SOGCR");
          ThreePointScaling.smax_ := raw "SGU";
          ThreePointScaling.handle_invalid_ := UseUnscaled |})) /\
  (~ (length (raw "SGCR") = n /\ length (raw "SGU") = n /\
      optional n (raw "SWL") /\ optional n (raw "SOGCR")) ->
   exists e, Create.ThreePoint.Kr.G out = Throws e) /\
  (length (raw "SOGCR") = n /\ length (raw "SGL") = n /\
   length (raw "SGCR") = n /\ optional n (raw "SWL") ->
   Create.ThreePoint.Kr.OG out
   = Returns (Some
       {| ThreePointScaling.smin_ := raw "SOGCR";
          ThreePointScaling.sdisp_ :=
            minus_if_present (minus (ones n) (raw "SGCR")) (raw "SWL");
          ThreePointScaling.smax_ :=
            minus_if_present (minus (ones n) (raw "SGL")) (raw "SWL");
          ThreePointScaling.handle_invalid_ := UseUnscaled |})) /\
  (~ (length (raw "SOGCR") = n /\ length (raw "SGL") = n /\
      length (raw "SGCR") = n /\ optional n (raw "SWL")) ->
   exists e, Create.ThreePoint.Kr.OG out = Throws e) /\
  (length (raw "SOWCR") = n /\ length (raw "SWL") = n /\
   length (raw "SWCR") = n /\ optional n (raw "SGL") ->
   Create.ThreePoint.Kr.OW out
   = Returns (Some
       {| ThreePointScaling.smin_ := raw "SOWCR";
          ThreePointScaling.sdisp_ :=
            minus_if_present (minus (ones n) (raw "SWCR")) (raw "SGL");
          ThreePointScaling.smax_ :=
            minus_if_present (minus (ones n) (raw "SWL")) (raw "SGL");
          ThreePointScaling.handle_invalid_ := UseUnscaled |})) /\
  (~ (length (raw "SOWCR") = n /\ length (raw "SWL") = n /\
      length (raw "SWCR") = n /\ optional n (raw "SGL")) ->
   exists e, Create.ThreePoint.Kr.OW out = Throws e) /\
  (length (raw "SWCR") = n /\ length (raw "SWU") = n /\
   optional n (raw "SOWCR") /\ optional n (raw "SGL") ->
   Create.ThreePoint.Kr.W out
   = Returns (Some
       {| ThreePointScaling.smin_ := raw "SWCR";
          ThreePointScaling.sdisp_ :=
            minus_if_present (minus_if_present (ones n) (raw "SOWCR"))
                             (raw "SGL");
          ThreePointScaling.smax_ := raw "SWU";
          ThreePointScaling.handle_invalid_ := UseUnscaled |})) /\
  (~ (length (raw "SWCR") = n /\ length (raw "SWU") = n /\
      optional n (raw "SOWCR") /\ optional n (raw "SGL")) ->
   exists e, Create.ThreePoint.Kr.W out = Throws e).
Proof.
  intros n raw.
  unfold Create.ThreePoint.Kr.G, Create.ThreePoint.Kr.OG,
    Create.ThreePoint.Kr.OW, Create.ThreePoint.Kr.W.
  fold n. fold (raw "SGCR") (raw "SGU") (raw "SWCR") (raw "SWU")
    (raw "SOGCR") (raw "SOWCR") (raw "SGL") (raw "SWL").
  clearbody n raw.
  assert (Hones : forall m, repeat lit_1 m = ones (D := D) m) by reflexivity.
  assert (Lminus : forall w : list D,
             length w = n -> length (minus (ones n) w) = n).
  { intros w Hw. rewrite minus_length; rewrite ones_length; congruence. }
  assert (Lopt : forall v w : list D,
             length v = n -> optional n w ->
             length (minus_if_present v w) = n).
  { intros v w Hv Hw. rewrite minus_if_present_length; congruence. }
  rewrite !Hones.
  split; [|split; [|split; [|split; [|split; [|split; [|split]]]]]].
  - (* Kr::G *)
    intros (H1 & H2 & H3 & H4). rewrite H1, H2, Nat.eqb_refl. cbn [negb orb].
    rewrite (subtract_if_present_returns _ _ (ones_length n) H3). cbn [bind].
    rewrite (subtract_if_present_returns _ _
               (Lopt _ _ (ones_length n) H3) H4). cbn [bind].
    rewrite ThreePoint_new_returns; [reflexivity| |];
      rewrite (Lopt _ _ (Lopt _ _ (ones_length n) H3) H4); congruence.
  - intros Hn.
    destruct (Nat.eqb_spec (length (raw "SGCR")) (length (raw "SGU")))
      as [H1|H1]; [|eexists; reflexivity].
    destruct (Nat.eqb_spec (length (raw "SGCR")) n) as [H2|H2];
      [|eexists; reflexivity].
    cbn [negb orb]. rewrite H2.
    destruct (optional_dec n (raw "SWL")) as [H3|H3].
    + rewrite (subtract_if_present_returns _ _ (ones_length n) H3).
      cbn [bind].
      rewrite subtract_if_present_throws; [eexists; reflexivity|].
      intros H4. apply Hn. repeat split; congruence.
    + rewrite (subtract_if_present_throws _ _ H3). eexists. reflexivity.
  - (* Kr::OG *)
    intros (H1 & H2 & H3 & H4). rewrite H1, H2, H3, Nat.eqb_refl.
    cbn [negb].
    rewrite !subtract_returns by (rewrite ones_length; congruence).
    cbn [bind].
    rewrite (subtract_both_if_present _ _ _ (Lminus _ H3) (Lminus _ H2) H4).
    cbn [bind fst snd].
    rewrite ThreePoint_new_returns; [reflexivity| |];
      rewrite ?(Lopt _ _ (Lminus _ H3) H4), ?(Lopt _ _ (Lminus _ H2) H4);
      congruence.
  - intros Hn.
    destruct (Nat.eqb_spec (length (raw "SOGCR")) n) as [H1|H1];
      [|eexists; reflexivity].
    cbn [negb]. rewrite H1.
    destruct (Nat.eqb_spec (length (raw "SGL")) n) as [H2|H2];
      [|eexists; reflexivity].
    cbn [negb].
    rewrite subtract_returns by (rewrite ones_length; congruence).
    cbn [bind].
    destruct (Nat.eqb_spec (length (raw "SGCR")) n) as [H3|H3];
      [|eexists; reflexivity].
    cbn [negb].
    rewrite subtract_returns by (rewrite ones_length; congruence).
    cbn [bind].
    rewrite subtract_both_if_absent; [eexists; reflexivity|].
    intros H4. apply Hn. repeat split; assumption.
  - (* Kr::OW *)
    intros (H1 & H2 & H3 & H4). rewrite H1, H2, H3, Nat.eqb_refl.
    cbn [negb].
    rewrite !subtract_returns by (rewrite ones_length; congruence).
    cbn [bind].
    rewrite (subtract_both_if_present _ _ _ (Lminus _ H3) (Lminus _ H2) H4).
    cbn [bind fst snd].
    rewrite ThreePoint_new_returns; [reflexivity| |];
      rewrite ?(Lopt _ _ (Lminus _ H3) H4), ?(Lopt _ _ (Lminus _ H2) H4);
      congruence.
  - intros Hn.
    destruct (Nat.eqb_spec (length (raw "SOWCR")) n) as [H1|H1];
      [|eexists; reflexivity].
    cbn [negb]. rewrite H1.
    destruct (Nat.eqb_spec (length (raw "SWL")) n) as [H2|H2];
      [|eexists; reflexivity].
    cbn [negb].
    rewrite subtract_returns by (rewrite ones_length; congruence).
    cbn [bind].
    destruct (Nat.eqb_spec (length (raw "SWCR")) n) as [H3|H3];
      [|eexists; reflexivity].
    cbn [negb].
    rewrite subtract_returns by (rewrite ones_length; congruence).
    cbn [bind].
    rewrite subtract_both_if_absent; [eexists; reflexivity|].
    intros H4. apply Hn. repeat split; assumption.
  - (* Kr::W *)
    intros (H1 & H2 & H3 & H4). rewrite H1, H2, Nat.eqb_refl. cbn [negb orb].
    rewrite (subtract_if_present_returns _ _ (ones_length n) H3). cbn [bind].
    rewrite (subtract_if_present_returns _ _
               (Lopt _ _ (ones_length n) H3) H4). cbn [bind].
    rewrite ThreePoint_new_returns; [reflexivity| |];
      rewrite (Lopt _ _ (Lopt _ _ (ones_length n) H3) H4); congruence.
  - intros Hn.
    destruct (Nat.eqb_spec (length (raw "SWCR")) n) as [H1|H1];
      [|eexists; reflexivity].
    destruct (Nat.eqb_spec (length (raw "SWCR")) (length (raw "SWU")))
      as [H2|H2]; [|eexists; reflexivity].
    cbn [negb orb]. rewrite H1.
    destruct (optional_dec n (raw "SOWCR")) as [H3|H3].
    + rewrite (subtract_if_present_returns _ _ (ones_length n) H3).
      cbn [bind].
      rewrite subtract_if_present_throws; [eexists; reflexivity|].
      intros H4. apply Hn. repeat split; congruence.
    + rewrite (subtract_if_present_throws _ _ H3). eexists. reflexivity.
Qed.

End FactoryFacts.

Section FactoryTheorems.

Context {D : Type} `{Double D}.
Local Open Scope double_scope.
Local Open Scope string_scope.

(** X16: the two-point factories for the oil relative permeability.
    With [n = G.numCells()]: [Create::TwoPoint::Kr::OG] returns when
    SOGCR and SGL have [n] entries and SWL has [n] entries or is absent,
    and throws [std::invalid_argument] otherwise; the object it returns
    has [smin_ = SOGCR] and [smax_[i] = (1 - SGL[i]) - SWL[i]], without
    the last subtraction when SWL is absent.  [Kr::OW] is the same with
    SOWCR, SWL and SGL in their places.  No loop leaves its arrays. *)
Theorem TwoPoint_oil_factories_build (out : ECLOutput D) :
  let n := numCells out in
  let raw := rawLinearisedCellData out in
  (length (raw "SOGCR") = n /\ length (raw "SGL") = n /\
   optional n (raw "SWL") ->
   Create.TwoPoint.Kr.OG out
   = Returns (Some
       {| TwoPointScaling.smin_ := raw "SOGCR";
          TwoPointScaling.smax_ :=
            minus_if_present (minus (ones n) (raw "SGL")) (raw "SWL");
          TwoPointScaling.handle_invalid_ := UseUnscaled |})) /\
  (~ (length (raw "SOGCR") = n /\ length (raw "SGL") = n /\
      optional n (raw "SWL")) ->
   exists e, Create.TwoPoint.Kr.OG out = Throws e) /\
  (length (raw "SOWCR") = n /\ length (raw "SWL") = n /\
   optional n (raw "SGL") ->
   Create.TwoPoint.Kr.OW out
   = Returns (Some
       {| TwoPointScaling.smin_ := raw "SOWCR";
          TwoPointScaling.smax_ :=
            minus_if_present (minus (ones n) (raw "SWL")) (raw "SGL");
          TwoPointScaling.handle_invalid_ := UseUnscaled |})) /\
  (~ (length (raw "SOWCR") = n /\ length (raw "SWL") = n /\
      optional n (raw "SGL")) ->
   exists e, Create.TwoPoint.Kr.OW out = Throws e).
Proof. exact (TwoPoint_oil_factories_spec out). Qed.

(** X17: the two-point factories for gas and water.  With
    [n = G.numCells()]: [Create::TwoPoint::Kr::G] returns the object
    with [smin_ = SGCR] and [smax_ = SGU] when both arrays have [n]
    entries.  [Kr::W] does not compare with [n]: it returns the object
    with [smin_ = SWCR] and [smax_ = SWU] for arrays of any common
    non-zero length, the constructor rejecting arrays of different
    lengths.  [Pc::GO] and [Pc::OW] take the dedicated connate
    saturation SGLPC (SWLPC) when it is present and SGL (SWL) otherwise,
    and return when that array and SGU (SWU) have [n] entries.  Every
    other call throws [std::invalid_argument]. *)
Theorem TwoPoint_gas_water_factories_build (out : ECLOutput D) :
  let n := numCells out in
  let raw := rawLinearisedCellData out in
  let sgl := if empty (raw "SGLPC") then raw "SGL" else raw "SGLPC" in
  let swl := if empty (raw "SWLPC") then raw "SWL" else raw "SWLPC" in
  (length (raw "SGCR") = n /\ length (raw "SGU") = n ->
   Create.TwoPoint.Kr.G out
   = Returns (Some {| TwoPointScaling.smin_ := raw "SGCR";
                      TwoPointScaling.smax_ := raw "SGU";
                      TwoPointScaling.handle_invalid_ := UseUnscaled |})) /\
  (~ (length (raw "SGCR") = n /\ length (raw "SGU") = n) ->
   exists e, Create.TwoPoint.Kr.G out = Throws e) /\
  (0 < length (raw "SWCR") /\ length (raw "SWCR") = length (raw "SWU") ->
   Create.TwoPoint.Kr.W out
   = Returns (Some {| TwoPointScaling.smin_ := raw "SWCR";
                      TwoPointScaling.smax_ := raw "SWU";
                      TwoPointScaling.handle_invalid_ := UseUnscaled |})) /\
  (~ (0 < length (raw "SWCR") /\ length (raw "SWCR") = length (raw "SWU")) ->
   exists e, Create.TwoPoint.Kr.W out = Throws e) /\
  (length sgl = n /\ length (raw "SGU") = n ->
   Create.TwoPoint.Pc.GO out
   = Returns (Some {| TwoPointScaling.smin_ := sgl;
                      TwoPointScaling.smax_ := raw "SGU";
                      TwoPointScaling.handle_invalid_ := UseUnscaled |})) /\
  (~ (length sgl = n /\ length (raw "SGU") = n) ->
   exists e, Create.TwoPoint.Pc.GO out = Throws e) /\
  (length swl = n /\ length (raw "SWU") = n ->
   Create.TwoPoint.Pc.OW out
   = Returns (Some {| TwoPointScaling.smin_ := swl;
                      TwoPointScaling.smax_ := raw "SWU";
                      TwoPointScaling.handle_invalid_ := UseUnscaled |})) /\
  (~ (length swl = n /\ length (raw "SWU") = n) ->
   exists e, Create.TwoPoint.Pc.OW out = Throws e).
Proof. exact (TwoPoint_gas_water_factories_spec out). Qed.

(** X18: the three-point factories.  With [n = G.numCells()] and an
    array of ones as start, the displacing saturation is built by
    subtracting, cell by cell, the arrays of the other saturations: an
    array that must be present has [n] entries, an optional one has [n]
    entries or is absent and is then not subtracted.
    - [Kr::G]: [smin_ = SGCR], [sdisp_ = (1 - SWL) - SOGCR] with SWL and
      SOGCR optional, [smax_ = SGU];
    - [Kr::OG]: [smin_ = SOGCR], [sdisp_ = (1 - SGCR) - SWL] and
      [smax_ = (1 - SGL) - SWL] with SWL optional;
    - [Kr::OW]: [smin_ = SOWCR], [sdisp_ = (1 - SWCR) - SGL] and
      [smax_ = (1 - SWL) - SGL] with SGL optional;
    - [Kr::W]: [smin_ = SWCR], [sdisp_ = (1 - SOWCR) - SGL] with SOWCR
      and SGL optional, [smax_ = SWU].
    Every other call throws [std::invalid_argument]; no loop leaves its
    arrays. *)
Theorem ThreePoint_factories_build (out : ECLOutput D) :
  let n := numCells out in
  let raw := rawLinearisedCellData out in
  (length (raw "SGCR") = n /\ length (raw "SGU") = n /\
   optional n (raw "SWL") /\ optional n (raw "SOGCR") ->
   Create.ThreePoint.Kr.G out
   = Returns (Some
       {| ThreePointScaling.smin_ := raw "SGCR";
          ThreePointScaling.sdisp_ :=
            minus_if_present (minus_if_present (ones n) (raw "SWL"))
                             (raw "SOGCR");
          ThreePointScaling.smax_ := raw "SGU";
          ThreePointScaling.handle_invalid_ := UseUnscaled |})) /\
  (~ (length (raw "SGCR") = n /\ length (raw "SGU") = n /\
      optional n (raw "SWL") /\ optional n (raw "SOGCR")) ->
   exists e, Create.ThreePoint.Kr.G out = Throws e) /\
  (length (raw "SOGCR") = n /\ length (raw "SGL") = n /\
   length (raw "SGCR") = n /\ optional n (raw "SWL") ->
   Create.ThreePoint.Kr.OG out
   = Returns (Some
       {| ThreePointScaling.smin_ := raw "SOGCR";
          ThreePointScaling.sdisp_ :=
            minus_if_present (minus (ones n) (raw "SGCR")) (raw "SWL");
          ThreePointScaling.smax_ :=
            minus_if_present (minus (ones n) (raw "SGL")) (raw "SWL");
          ThreePointScaling.handle_invalid_ := UseUnscaled |})) /\
  (~ (length (raw "SOGCR") = n /\ length (raw "SGL") = n /\
      length (raw "SGCR") = n /\ optional n (raw "SWL")) ->
   exists e, Create.ThreePoint.Kr.OG out = Throws e) /\
  (length (raw "SOWCR") = n /\ length (raw "SWL") = n /\
   length (raw "SWCR") = n /\ optional n (raw "SGL") ->
   Create.ThreePoint.Kr.OW out
   = Returns (Some
       {| ThreePointScaling.smin_ := raw "SOWCR";
          ThreePointScaling.sdisp_ :=
            minus_if_present (minus (ones n) (raw "SWCR")) (raw "SGL");
          ThreePointScaling.smax_ :=
            minus_if_present (minus (ones n) (raw "SWL")) (raw "SGL");
          ThreePointScaling.handle_invalid_ := UseUnscaled |})) /\
  (~ (length (raw "SOWCR") = n /\ length (raw "SWL") = n /\
      length (raw "SWCR") = n /\ optional n (raw "SGL")) ->
   exists e, Create.ThreePoint.Kr.OW out = Throws e) /\
  (length (raw "SWCR") = n /\ length (raw "SWU") = n /\
   optional n (raw "SOWCR") /\ optional n (raw "SGL") ->
   Create.ThreePoint.Kr.W out
   = Returns (Some
       {| ThreePointScaling.smin_ := raw "SWCR";
          ThreePointScaling.sdisp_ :=
            minus_if_present (minus_if_present (ones n) (raw "SOWCR"))
                             (raw "SGL");
          ThreePointScaling.smax_ := raw "SWU";
          ThreePointScaling.handle_invalid_ := UseUnscaled |})) /\
  (~ (length (raw "SWCR") = n /\ length (raw "SWU") = n /\
      optional n (raw "SOWCR") /\ optional n (raw "SGL")) ->
   exists e, Create.ThreePoint.Kr.W out = Throws e).
Proof. exact (ThreePoint_factories_spec out). Qed.

End FactoryTheorems.

(* ===================================================================== *)
(** * [CreateEPS::Horizontal::fromECLOutput]                              *)
(* ===================================================================== *)

Lemma decide_and (P Q : Prop) : P \/ ~ P -> Q \/ ~ Q -> (P /\ Q) \/ ~ (P /\ Q).
Proof. tauto. Qed.

Lemma decide_length (A : Type) (v : list A) (n : nat) :
  length v = n \/ ~ length v = n.
Proof. destruct (Nat.eq_dec (length v) n); [left|right]; assumption. Qed.

Lemma decide_optional (A : Type) (n : nat) (w : list A) :
  optional n w \/ ~ optional n w.
Proof. destruct (optional_dec n w); [left|right]; assumption. Qed.

Lemma decide_lt (a b : nat) : a < b \/ ~ a < b.
Proof. lia. Qed.

Ltac decide_condition :=
  repeat first [ apply decide_and | apply decide_length
               | apply decide_optional | apply decide_lt ].

Lemma upcast_total (A B : Type) (up : A -> B) (r : outcome (option A)) :
  (exists a, r = Returns (Some a)) \/ (exists e, r = Throws e) ->
  (exists b, (p <- r ;; Returns (option_map up p)) = Returns (Some b)) \/
  (exists e, (p <- r ;; Returns (option_map up p)) = Throws e).
Proof.
  intros [[a ->]|[e ->]]; cbn; [left|right]; eexists; reflexivity.
Qed.

Lemma upcast_returns (A B : Type) (up : A -> B) (r : outcome (option A)) :
  (exists a, r = Returns (Some a)) ->
  exists b, (p <- r ;; Returns (option_map up p)) = Returns (Some b).
Proof. intros [a ->]. cbn. eexists. reflexivity. Qed.

Ltac dispatch opt :=
  destruct opt as [use3 curve subSys thisPh];
  unfold meaningless, Horizontal.fromECLOutput,
    Create.TwoPoint.scalingFunction, Create.ThreePoint.scalingFunction;
  cbn [CreateEPS.use3PtScaling CreateEPS.curve CreateEPS.subSys
       CreateEPS.thisPh];
  destruct use3, curve, subSys, thisPh;
  cbv [equal FunctionCategory_equal SubSystem_equal ECLPhaseIndex_equal
       orb andb negb];
  rewrite ?assert_holds; cbn [bind].

Section HorizontalFactory.

Context {D : Type} `{Double D}.
Local Open Scope string_scope.

(** Each factory returns an object or throws. *)
Lemma TwoPoint_factories_total (out : ECLOutput D) :
  let total := fun r : outcome (Create.TwoPoint.EPSPtr D) =>
    (exists eps, r = Returns (Some eps)) \/ (exists e, r = Throws e) in
  total (Create.TwoPoint.Kr.G out) /\ total (Create.TwoPoint.Kr.OG out) /\
  total (Create.TwoPoint.Kr.OW out) /\ total (Create.TwoPoint.Kr.W out) /\
  total (Create.TwoPoint.Pc.GO out) /\ total (Create.TwoPoint.Pc.OW out).
Proof.
  intros total.
  destruct (TwoPoint_oil_factories_spec out) as (OG1 & OG2 & OW1 & OW2).
  destruct (TwoPoint_gas_water_factories_spec out)
    as (G1 & G2 & W1 & W2 & GO1 & GO2 & PW1 & PW2).
  cbv zeta in *. unfold total.
  repeat split.
  - match type of G2 with ~ ?c -> _ =>
      assert (Hc : c \/ ~ c) by decide_condition end.
    destruct Hc as [Hc|Hc]; [left; eexists; exact (G1 Hc)|right; exact (G2 Hc)].
  - match type of OG2 with ~ ?c -> _ =>
      assert (Hc : c \/ ~ c) by decide_condition end.
    destruct Hc as [Hc|Hc];
      [left; eexists; exact (OG1 Hc)|right; exact (OG2 Hc)].
  - match type of OW2 with ~ ?c -> _ =>
      assert (Hc : c \/ ~ c) by decide_condition end.
    destruct Hc as [Hc|Hc];
      [left; eexists; exact (OW1 Hc)|right; exact (OW2 Hc)].
  - match type of W2 with ~ ?c -> _ =>
      assert (Hc : c \/ ~ c) by decide_condition end.
    destruct Hc as [Hc|Hc]; [left; eexists; exact (W1 Hc)|right; exact (W2 Hc)].
  - match type of GO2 with ~ ?c -> _ =>
      assert (Hc : c \/ ~ c) by decide_condition end.
    destruct Hc as [Hc|Hc];
      [left; eexists; exact (GO1 Hc)|right; exact (GO2 Hc)].
  - match type of PW2 with ~ ?c -> _ =>
      assert (Hc : c \/ ~ c) by decide_condition end.
    destruct Hc as [Hc|Hc];
      [left; eexists; exact (PW1 Hc)|right; exact (PW2 Hc)].
Qed.

Lemma ThreePoint_factories_total (out : ECLOutput D) :
  let total := fun r : outcome (Create.ThreePoint.EPSPtr D) =>
    (exists eps, r = Returns (Some eps)) \/ (exists e, r = Throws e) in
  total (Create.ThreePoint.Kr.G out) /\ total (Create.ThreePoint.Kr.OG out) /\
  total (Create.ThreePoint.Kr.OW out) /\ total (Create.ThreePoint.Kr.W out).
Proof.
  intros total.
  destruct (ThreePoint_factories_spec out)
    as (G1 & G2 & OG1 & OG2 & OW1 & OW2 & W1 & W2).
  cbv zeta in *. unfold total.
  repeat split.
  - match type of G2 with ~ ?c -> _ =>
      assert (Hc : c \/ ~ c) by decide_condition end.
    destruct Hc as [Hc|Hc]; [left; eexists; exact (G1 Hc)|right; exact (G2 Hc)].
  - match type of OG2 with ~ ?c -> _ =>
      assert (Hc : c \/ ~ c) by decide_condition end.
    destruct Hc as [Hc|Hc];
      [left; eexists; exact (OG1 Hc)|right; exact (OG2 Hc)].
  - match type of OW2 with ~ ?c -> _ =>
      assert (Hc : c \/ ~ c) by decide_condition end.
    destruct Hc as [Hc|Hc];
      [left; eexists; exact (OW1 Hc)|right; exact (OW2 Hc)].
  - match type of W2 with ~ ?c -> _ =>
      assert (Hc : c \/ ~ c) by decide_condition end.
    destruct Hc as [Hc|Hc]; [left; eexists; exact (W1 Hc)|right; exact (W2 Hc)].
Qed.

Lemma complete_optional (out : ECLOutput D) (vector : string) :
  complete out -> optional (numCells out) (rawLinearisedCellData out vector).
Proof. intros Hc. left. apply Hc. Qed.

Lemma Horizontal_fromECLOutput_total (NDEBUG : bool) (out : ECLOutput D)
    (opt : CreateEPS.EPSOptions) :
  (exists eps, Horizontal.fromECLOutput NDEBUG out opt = Returns (Some eps)) \/
  (exists e, Horizontal.fromECLOutput NDEBUG out opt = Throws e).
Proof.
  destruct (TwoPoint_factories_total out) as (T1 & T2 & T3 & T4 & T5 & T6).
  destruct (ThreePoint_factories_total out) as (R1 & R2 & R3 & R4).
  cbv zeta in *.
  dispatch opt.
  all: try (right; eexists; reflexivity).
  all: apply upcast_total; assumption.
Qed.

(** X19: [CreateEPS::Horizontal::fromECLOutput] returns a scaling object
    or throws [std::invalid_argument]: it never returns a null pointer,
    never stops at the assertion of the family it selects, and never
    reads outside an array.  It throws for every combination of options
    that names no saturation function, whatever the result set; for a
    result set in which every array is present with one value per cell
    of a non-empty grid it throws for no other combination. *)
Theorem Horizontal_fromECLOutput_returns_or_throws
    (NDEBUG : bool) (out : ECLOutput D) (opt : CreateEPS.EPSOptions) :
  ((exists eps, Horizontal.fromECLOutput NDEBUG out opt = Returns (Some eps)) \/
   (exists e, Horizontal.fromECLOutput NDEBUG out opt = Throws e)) /\
  (meaningless opt ->
   exists e, Horizontal.fromECLOutput NDEBUG out opt = Throws e) /\
  (complete out -> 0 < numCells out -> ~ meaningless opt ->
   exists eps, Horizontal.fromECLOutput NDEBUG out opt = Returns (Some eps)).
Proof.
  split; [apply Horizontal_fromECLOutput_total|]. split.
  - dispatch opt; intros Hm; try contradiction; eexists; reflexivity.
  - intros Hc Hn.
    destruct (TwoPoint_oil_factories_spec out) as (OG1 & _ & OW1 & _).
    destruct (TwoPoint_gas_water_factories_spec out)
      as (G1 & _ & W1 & _ & GO1 & _ & PW1 & _).
    destruct (ThreePoint_factories_spec out)
      as (G3 & _ & OG3 & _ & OW3 & _ & W3 & _).
    cbv zeta in *.
    assert (Hopt := fun v => complete_optional v Hc).
    unfold complete in Hc.
    dispatch opt; intros Hm; try (exfalso; apply Hm; exact I).
    all: apply upcast_returns; eexists.
    all: first [ apply G1 | apply OG1 | apply OW1 | apply W1 | apply GO1
               | apply PW1 | apply G3 | apply OG3 | apply OW3 | apply W3 ].
    all: repeat split; try apply Hopt; try apply Hc.
    all: try (rewrite Hc; exact Hn).
    all: try (rewrite !Hc; reflexivity).
    all: match goal with
         | |- context [empty ?v] => destruct (empty v)
         end; apply Hc.
Qed.

End HorizontalFactory.

(* ===================================================================== *)
(** * The object of [CreateEPS::Horizontal::fromECLOutput] at work        *)
(* ===================================================================== *)

Section HorizontalObject.

Context {D : Type} `{Double D}.
Local Open Scope string_scope.

Lemma optional_self (n : nat) (v w : list D) :
  length v = n -> optional n w -> optional (length v) w.
Proof. intros ->. auto. Qed.

Lemma TwoPoint_factories_sizes (out : ECLOutput D) :
  let sized := fun (m : nat) (r : outcome (Create.TwoPoint.EPSPtr D)) =>
    forall p, r = Returns (Some p) ->
              length (TwoPointScaling.smin_ p) = m /\
              length (TwoPointScaling.smax_ p) = m in
  let n := numCells out in
  sized n (Create.TwoPoint.Kr.G out) /\
  sized n (Create.TwoPoint.Kr.OG out) /\
  sized n (Create.TwoPoint.Kr.OW out) /\
  sized (length (rawLinearisedCellData out "SWCR"))
        (Create.TwoPoint.Kr.W out) /\
  sized n (Create.TwoPoint.Pc.GO out) /\
  sized n (Create.TwoPoint.Pc.OW out).
Proof.
  intros sized n.
  destruct (TwoPoint_oil_factories_spec out) as (OG1 & OG2 & OW1 & OW2).
  destruct (TwoPoint_gas_water_factories_spec out)
    as (G1 & G2 & W1 & W2 & GO1 & GO2 & PW1 & PW2).
  cbv zeta in *. fold n in OG1, OG2, OW1, OW2, G1, G2, GO1, GO2, PW1, PW2.
  unfold sized. clear sized.
  repeat split.
  all: match goal with
       | Hr : ?r = Returns (Some ?p), H1 : ?c -> ?r = Returns _,
         H2 : ~ ?c -> exists e, ?r = Throws e |- _ =>
           let Hc := fresh "Hc" in
           assert (Hc : c \/ ~ c) by decide_condition;
           destruct Hc as [Hc|Hc];
           [ rewrite (H1 Hc) in Hr; inversion Hr; subst p;
             cbn [TwoPointScaling.smin_ TwoPointScaling.smax_]
           | destruct (H2 Hc) as [e He]; congruence ]
       end.
  all: try tauto.
  all: try lia.
  all: destruct Hc as (Ha & Hb & Hw).
  all: rewrite minus_if_present_length;
    rewrite ?minus_length; rewrite ?ones_length; try congruence.
  all: left; assumption || (destruct Hw as [Hw|Hw]; [left; exact Hw|]).
Qed.

Lemma ThreePoint_factories_sizes (out : ECLOutput D) :
  let sized := fun (r : outcome (Create.ThreePoint.EPSPtr D)) =>
    forall p, r = Returns (Some p) ->
              length (ThreePointScaling.smin_ p) = numCells out /\
              length (ThreePointScaling.sdisp_ p) = numCells out /\
              length (ThreePointScaling.smax_ p) = numCells out in
  sized (Create.ThreePoint.Kr.G out) /\
  sized (Create.ThreePoint.Kr.OG out) /\
  sized (Create.ThreePoint.Kr.OW out) /\
  sized (Create.ThreePoint.Kr.W out).
Proof.
  intros sized.
  destruct (ThreePoint_factories_spec out)
    as (G1 & G2 & OG1 & OG2 & OW1 & OW2 & W1 & W2).
  cbv zeta in *.
  unfold sized. clear sized.
  repeat split.
  all: match goal with
       | Hr : ?r = Returns (Some ?p), H1 : ?c -> ?r = Returns _,
         H2 : ~ ?c -> exists e, ?r = Throws e |- _ =>
           let Hc := fresh "Hc" in
           assert (Hc : c \/ ~ c) by decide_condition;
           destruct Hc as [Hc|Hc];
           [ rewrite (H1 Hc) in Hr; inversion Hr; subst p;
             cbn [ThreePointScaling.smin_ ThreePointScaling.sdisp_
                  ThreePointScaling.smax_]
           | destruct (H2 Hc) as [e He]; congruence ]
       end.
  all: try tauto.
  all: destruct Hc as (Ha & Hb & Hc & Hd).
  all: repeat (rewrite minus_if_present_length);
    rewrite ?minus_length; rewrite ?ones_length; try congruence.
  all: try (left; assumption).
  all: try (rewrite ones_length; assumption).
  all: try (rewrite minus_length; rewrite ones_length; congruence).
Qed.

(** X20: the object that [CreateEPS::Horizontal::fromECLOutput] returns
    serves every cell of the grid.  For points whose cells are below
    [G.numCells()], [eval] and [reverse] of the object return one value
    per point and read no array outside its bounds.  The two-point
    scaling of the water relative permeability is the exception: its
    factory does not compare the arrays with the grid, and the bound is
    the size of SWCR. *)
Theorem Horizontal_fromECLOutput_serves_every_cell
    (NDEBUG : bool) (out : ECLOutput D) (opt : CreateEPS.EPSOptions)
    (eps : EPSEvalInterface.t D) (tep : TableEndPoints D)
    (sp : SaturationPoints D) :
  Horizontal.fromECLOutput NDEBUG out opt = Returns (Some eps) ->
  cells_below
    match CreateEPS.use3PtScaling opt, CreateEPS.curve opt,
          CreateEPS.subSys opt, CreateEPS.thisPh opt with
    | false, CreateEPS.Relperm, CreateEPS.OilWater, Aqua =>
        length (rawLinearisedCellData out "SWCR")
    | _, _, _, _ => numCells out
    end sp ->
  one_entry_per_point (EPSEvalInterface.eval eps tep) sp /\
  one_entry_per_point (EPSEvalInterface.reverse eps tep) sp.
Proof.
  destruct (TwoPoint_factories_sizes out) as (T1 & T2 & T3 & T4 & T5 & T6).
  destruct (ThreePoint_factories_sizes out) as (R1 & R2 & R3 & R4).
  cbv zeta in *.
  assert (Htwo : forall (m : nat) (p : TwoPointScaling.Impl D),
            length (TwoPointScaling.smin_ p) = m /\
            length (TwoPointScaling.smax_ p) = m ->
            cells_below m sp ->
            one_entry_per_point
              (EPSEvalInterface.eval (EPSEvalInterface.TwoPoint p) tep) sp /\
            one_entry_per_point
              (EPSEvalInterface.reverse (EPSEvalInterface.TwoPoint p) tep) sp).
  { intros m p [Hmin Hmax] Hsp.
    assert (Hrange : TwoPoint_in_range p sp)
      by (unfold TwoPoint_in_range; rewrite Hmin, Hmax; auto).
    unfold one_entry_per_point. cbn [EPSEvalInterface.eval
                                     EPSEvalInterface.reverse].
    split.
    - destruct (TwoPoint_eval_entrywise tep Hrange) as (res & Hres & Hall).
      exists res. eauto using entrywise_length.
    - destruct (TwoPoint_reverse_entrywise tep Hrange) as (res & Hres & Hall).
      exists res. eauto using entrywise_length. }
  assert (Hthree : forall (p : ThreePointScaling.Impl D),
            length (ThreePointScaling.smin_ p) = numCells out /\
            length (ThreePointScaling.sdisp_ p) = numCells out /\
            length (ThreePointScaling.smax_ p) = numCells out ->
            cells_below (numCells out) sp ->
            one_entry_per_point
              (EPSEvalInterface.eval (EPSEvalInterface.ThreePoint p) tep) sp /\
            one_entry_per_point
              (EPSEvalInterface.reverse (EPSEvalInterface.ThreePoint p) tep)
              sp).
  { intros p (Hmin & Hdisp & Hmax) Hsp.
    assert (Hrange : ThreePoint_in_range p sp)
      by (unfold ThreePoint_in_range; rewrite Hmin, Hdisp, Hmax; auto).
    unfold one_entry_per_point. cbn [EPSEvalInterface.eval
                                     EPSEvalInterface.reverse].
    split.
    - destruct (ThreePoint_eval_entrywise tep Hrange) as (res & Hres & Hall).
      exists res. eauto using entrywise_length.
    - destruct (ThreePoint_reverse_entrywise tep Hrange)
        as (res & Hres & Hall).
      exists res. eauto using entrywise_length. }
  dispatch opt; intros Hret Hsp; try discriminate Hret.
  all: match type of Hret with
       | (p <- ?r ;; _) = _ =>
           destruct r as [[p|]| | |] eqn:Er; cbn [bind option_map] in Hret;
           try discriminate Hret; inversion Hret; subst eps
       end.
  all: first [ eapply Htwo; [|exact Hsp]; eauto
             | eapply Hthree; [|exact Hsp]; eauto ].
Qed.

End HorizontalObject.

(* ===================================================================== *)
(** * [gridDefaultedVector]                                               *)
(* ===================================================================== *)

(** A loop that fills an array from a running index on. *)
Lemma for_each_fill (B : Type)
    (body : list B * nat -> nat -> outcome (list B * nat)) (g : nat -> B)
    (n : nat) :
  (forall ret cellID c, c < n ->
     body (ret, cellID) c
     = (ret' <- store ret cellID (g c) ;; Returns (ret', S cellID))) ->
  forall m k pre suf,
    k + m <= n -> m <= length suf ->
    for_each body (seq k m) (pre ++ suf, length pre)
    = Returns (pre ++ map g (seq k m) ++ skipn m suf, length pre + m).
Proof.
  intros Hbody m. induction m as [|m IH]; intros k pre suf Hk Hm.
  - cbn. rewrite Nat.add_0_r. reflexivity.
  - destruct suf as [|y suf]; [cbn in Hm; lia|].
    cbn [seq for_each]. rewrite Hbody by lia.
    rewrite store_middle. cbn [bind].
    replace (pre ++ g k :: suf) with ((pre ++ [g k]) ++ suf)
      by (rewrite <- app_assoc; reflexivity).
    replace (S (length pre)) with (length (pre ++ [g k]))
      by (rewrite length_app; cbn; lia).
    rewrite IH by (cbn in Hm; lia).
    rewrite length_app, <- app_assoc. cbn [length map skipn app].
    do 2 f_equal. lia.
Qed.

Lemma map_seq_combine (A B C : Type) (f : A -> B -> C) (a : list A)
    (b : list B) (da : A) (db : B) :
  length a = length b ->
  map (fun i => f (nth i a da) (nth i b db)) (seq 0 (length a))
  = map (fun p => f (fst p) (snd p)) (combine a b).
Proof.
  revert b. induction a as [|x a IH]; intros b Hlen; [reflexivity|].
  destruct b as [|y b]; [discriminate Hlen|].
  cbn [length seq map nth combine fst snd]. f_equal.
  rewrite <- seq_shift, map_map. cbn [nth].
  apply IH. inversion Hlen. reflexivity.
Qed.

Lemma sentinel_is_unset : (abs (-1.0e21) <? 1.0e20)%float = false.
Proof. vm_compute. reflexivity. Qed.

Section GridDefaultedVector.

Variable out : ECLOutput float.
Variable vector : string.
Variable dflt : list float.
Variable cvrt : float -> float.

Hypothesis Hcons : consistent out (length dflt).

Lemma grid_values_length (gridID : string) :
  In gridID (activeGrids out) ->
  length (grid_values out vector gridID) = numCells_of out gridID.
Proof.
  intros Hin. destruct Hcons as (_ & Hg).
  destruct (Hg gridID Hin) as (_ & _ & Hv).
  unfold grid_values.
  destruct (haveKeywordData out vector gridID) eqn:E.
  - apply Hv. exact E.
  - apply repeat_length.
Qed.

Lemma region_default (r : Z) :
  (1 <= r <= Z.of_nat (length dflt))%Z ->
  index_int dflt (r - 1) = Returns (nth (Z.to_nat (r - 1)) dflt 0%float).
Proof.
  intros Hr. unfold index_int.
  destruct (Z.ltb_spec (r - 1) 0); [lia|].
  apply index_nth. lia.
Qed.

(** The loop over the cells of one grid. *)
Lemma gridDefaultedVector_cells (val : list float) (snum : list Z)
    (nc : nat) (pre suf : list float) :
  length val = nc -> length snum = nc ->
  Forall (fun r => (1 <= r <= Z.of_nat (length dflt))%Z) snum ->
  nc <= length suf ->
  for_each
    (fun (st : list float * nat) (c : nat) =>
       let ret := fst st in
       let cellID := snd st in
       v <- index val c ;;
       x <- (if (abs v <? 1.0e20)%float then Returns (cvrt v)
             else
               r <- index snum c ;;
               index_int dflt (r - 1)%Z) ;;
       ret <- store ret cellID x ;;
       Returns (ret, S cellID))
    (seq 0 nc) (pre ++ suf, length pre)
  = Returns (pre ++ map (fun vr => defaulted_value dflt cvrt (fst vr) (snd vr))
                        (combine val snum)
                 ++ skipn nc suf,
             length pre + nc).
Proof.
  intros Hval Hsnum Hrange Hsuf.
  rewrite <- (map_seq_combine (defaulted_value dflt cvrt) val snum
                0%float 0%Z) by congruence.
  rewrite Hval.
  apply (for_each_fill _
           (fun c => defaulted_value dflt cvrt (nth c val 0%float)
                                     (nth c snum 0%Z)) (n := nc));
    [|lia|exact Hsuf].
  intros ret cellID c Hc. cbn [fst snd].
  rewrite (index_nth val 0%float) by lia. cbn [bind].
  unfold defaulted_value.
  destruct (abs (nth c val 0%float) <? 1.0e20)%float; [reflexivity|].
  rewrite (index_nth snum 0%Z) by lia. cbn [bind].
  rewrite region_default; [reflexivity|].
  rewrite Forall_forall in Hrange. apply Hrange. apply nth_In. lia.
Qed.

Lemma grid_cells_length (gridID : string) :
  In gridID (activeGrids out) ->
  length (map (fun vr => defaulted_value dflt cvrt (fst vr) (snd vr))
              (combine (grid_values out vector gridID)
                       (region_numbers out gridID)))
  = numCells_of out gridID.
Proof.
  intros Hin. rewrite length_map, length_combine.
  rewrite grid_values_length by exact Hin.
  destruct Hcons as (_ & Hg). destruct (Hg gridID Hin) as (-> & _).
  lia.
Qed.

Lemma defaulted_length :
  length (defaulted out vector dflt cvrt) = numCells out.
Proof.
  destruct Hcons as (<- & _). unfold defaulted.
  assert (Hall : forall g, In g (activeGrids out) -> In g (activeGrids out))
    by auto.
  revert Hall. generalize (activeGrids out) at 1 3 4.
  intros grids. induction grids as [|g grids IH]; intros Hall;
    [reflexivity|].
  cbn [flat_map map list_sum fold_right]. rewrite length_app.
  rewrite grid_cells_length by (apply Hall; left; reflexivity).
  f_equal. apply IH. intros g' Hg'. apply Hall. right. exact Hg'.
Qed.

Lemma gridDefaultedVector_returns (NDEBUG : bool) :
  NDEBUG = true \/ dflt <> [] ->
  gridDefaultedVector NDEBUG out vector dflt cvrt
  = Returns (defaulted out vector dflt cvrt).
Proof.
  intros Hne. unfold gridDefaultedVector.
  rewrite assert_passes.
  2:{ destruct Hne as [->|Hne]; [left; reflexivity|right].
      destruct dflt; [contradiction|reflexivity]. }
  cbn [bind].
  assert (Hloop : forall grids pre suf,
    (forall g, In g grids -> In g (activeGrids out)) ->
    list_sum (map (numCells_of out) grids) <= length suf ->
    for_each
      (fun (st : list float * nat) (gridID : string) =>
         let nc := numCells_of out gridID in
         let snum :=
           if haveKeywordData out "SATNUM" gridID
           then rawLinearisedCellData_int_of out "SATNUM" gridID
           else repeat 1%Z nc in
         let val :=
           if haveKeywordData out vector gridID
           then rawLinearisedCellData_of out vector gridID
           else repeat (-1.0e21)%float nc in
         for_each
           (fun (st : list float * nat) (c : nat) =>
              let ret := fst st in
              let cellID := snd st in
              v <- index val c ;;
              x <- (if (abs v <? 1.0e20)%float then Returns (cvrt v)
                    else
                      r <- index snum c ;;
                      index_int dflt (r - 1)%Z) ;;
              ret <- store ret cellID x ;;
              Returns (ret, S cellID))
           (seq 0 nc) st)
      grids (pre ++ suf, length pre)
    = Returns
        (pre ++ flat_map
                  (fun gridID =>
                     map (fun vr => defaulted_value dflt cvrt (fst vr) (snd vr))
                         (combine (grid_values out vector gridID)
                                  (region_numbers out gridID)))
                  grids
             ++ skipn (list_sum (map (numCells_of out) grids)) suf,
         length pre + list_sum (map (numCells_of out) grids))).
  { intros grids. induction grids as [|g grids IH]; intros pre suf Hall Hsum.
    - cbn. rewrite Nat.add_0_r. reflexivity.
    - change (numCells_of out g + list_sum (map (numCells_of out) grids)
              <= length suf) in Hsum.
      cbn [for_each]. cbv zeta.
      assert (Hin : In g (activeGrids out)) by (apply Hall; left; reflexivity).
      pose proof (grid_values_length g Hin) as Hval.
      destruct Hcons as (_ & Hg). destruct (Hg g Hin) as (Hsnum & Hrange & _).
      unfold grid_values in Hval. unfold region_numbers in Hsnum, Hrange.
      rewrite gridDefaultedVector_cells by (assumption || lia).
      fold (region_numbers out g). fold (grid_values out vector g).
      cbn [bind].
      rewrite app_assoc.
      replace (length pre + numCells_of out g)
        with (length (pre ++ map (fun vr => defaulted_value dflt cvrt
                                               (fst vr) (snd vr))
                                 (combine (grid_values out vector g)
                                          (region_numbers out g))))
        by (rewrite length_app, grid_cells_length
              by (apply Hall; left; reflexivity); reflexivity).
      rewrite IH.
      + rewrite length_app, grid_cells_length
          by (apply Hall; left; reflexivity).
        cbn [flat_map map list_sum fold_right].
        rewrite skipn_skipn, <- !app_assoc.
        rewrite (Nat.add_comm (list_sum (map (numCells_of out) grids))).
        rewrite Nat.add_assoc. reflexivity.
      + intros g' Hg'. apply Hall. right. exact Hg'.
      + rewrite length_skipn. lia. }
  assert (Hrun := Hloop (activeGrids out) [] (repeat 0%float (numCells out))).
  cbn [app length] in Hrun. rewrite Hrun.
  - cbn [bind fst]. destruct Hcons as (-> & _).
    rewrite skipn_all2 by (rewrite repeat_length; lia).
    rewrite app_nil_r. reflexivity.
  - auto.
  - destruct Hcons as (-> & _). rewrite repeat_length. lia.
Qed.

End GridDefaultedVector.

(* ===================================================================== *)
(** * [std::transform] into an array of the same size                     *)
(* ===================================================================== *)

Lemma transform_returns (A B : Type) (a : list A) (dst : list B)
    (op : A -> B) :
  length dst = length a -> transform a dst op = Returns (map op a).
Proof.
  intros Hlen. unfold transform. rewrite <- Hlen.
  destruct a as [|a0 a].
  { destruct dst; [reflexivity|discriminate Hlen]. }
  destruct (@for_each_seq_store_all B
              (fun (dst : list B) (i : nat) =>
                 x <- index (a0 :: a) i ;; store dst i (op x))
              (fun i _ => op (nth i (a0 :: a) a0)) dst)
    as (out & Hrun & Hout & Hnth).
  { intros ret i y Hi Hret Hy.
    rewrite (index_nth (a0 :: a) a0) by lia. reflexivity. }
  rewrite Hrun. f_equal. apply nth_error_ext_eq.
  - rewrite length_map. congruence.
  - intros i x Hx. rewrite nth_error_map in Hx.
    destruct (nth_error (a0 :: a) i) as [z|] eqn:E; [|discriminate Hx].
    cbn in Hx. inversion Hx. subst x.
    destruct (@nth_error_below _ dst i) as [y Hy].
    { rewrite Hlen. apply nth_error_Some. congruence. }
    rewrite (Hnth i y Hy), (nth_error_nth _ _ _ E). reflexivity.
Qed.

Lemma transform2_returns (A B C : Type) (a : list A) (b : list B)
    (dst : list C) (op : A -> B -> C) :
  length b = length a -> length dst = length a ->
  transform2 a b dst op
  = Returns (map (fun p => op (fst p) (snd p)) (combine a b)).
Proof.
  intros Hb Hlen. unfold transform2. rewrite <- Hlen.
  destruct a as [|a0 a].
  { destruct dst; [reflexivity|discriminate Hlen]. }
  destruct b as [|b0 b]; [discriminate Hb|].
  destruct (@for_each_seq_store_all C
              (fun (dst : list C) (i : nat) =>
                 x <- index (a0 :: a) i ;;
                 y <- index (b0 :: b) i ;;
                 store dst i (op x y))
              (fun i _ => op (nth i (a0 :: a) a0) (nth i (b0 :: b) b0)) dst)
    as (out & Hrun & Hout & Hnth).
  { intros ret i y Hi Hret Hy.
    rewrite (index_nth (a0 :: a) a0), (index_nth (b0 :: b) b0) by lia.
    reflexivity. }
  rewrite Hrun. f_equal. apply nth_error_ext_eq.
  - rewrite length_map, length_combine. lia.
  - intros i x Hx. rewrite nth_error_map in Hx.
    destruct (nth_error (combine (a0 :: a) (b0 :: b)) i) as [[u v]|] eqn:E;
      [|discriminate Hx].
    cbn [option_map fst snd] in Hx. inversion Hx. subst x.
    apply nth_error_combine_Some in E. cbn [fst snd] in E.
    destruct E as [Eu Ev].
    destruct (@nth_error_below _ dst i) as [y Hy].
    { rewrite Hlen. apply nth_error_Some. congruence. }
    rewrite (Hnth i y Hy), (nth_error_nth _ _ _ Eu), (nth_error_nth _ _ _ Ev).
    reflexivity.
Qed.

(* ===================================================================== *)
(** * [CreateEPS::Vertical::fromECLOutput]: what it returns               *)
(* ===================================================================== *)

Lemma index_int_not_Throws (A : Type) (v : list A) (i : Z) (e : exception) :
  index_int v i <> Throws e.
Proof.
  unfold index_int. destruct (i <? 0)%Z; [discriminate|].
  apply index_not_Throws.
Qed.

Lemma transform_not_Throws (A B : Type) (a : list A) (dst : list B)
    (op : A -> B) (e : exception) :
  transform a dst op <> Throws e.
Proof.
  revert e. unfold transform.
  apply for_each_not_Throws. intros s x.
  apply bind_not_Throws; [intros; apply index_not_Throws|].
  intros; apply store_not_Throws.
Qed.

Lemma transform2_not_Throws (A B C : Type) (a : list A) (b : list B)
    (dst : list C) (op : A -> B -> C) (e : exception) :
  transform2 a b dst op <> Throws e.
Proof.
  revert e. unfold transform2.
  apply for_each_not_Throws. intros s x.
  apply bind_not_Throws; [intros; apply index_not_Throws|]. intros u.
  apply bind_not_Throws; [intros; apply index_not_Throws|].
  intros; apply store_not_Throws.
Qed.

Lemma gridDefaultedVector_not_Throws (NDEBUG : bool) (out : ECLOutput float)
    (vector : string) (dflt : list float) (cvrt : float -> float)
    (e : exception) :
  gridDefaultedVector NDEBUG out vector dflt cvrt <> Throws e.
Proof.
  revert e. unfold gridDefaultedVector.
  apply bind_not_Throws; [intros; apply assert_not_Throws|]. intros _.
  apply bind_not_Throws; [|discriminate].
  apply for_each_not_Throws. intros st gridID. cbv zeta.
  apply for_each_not_Throws. intros st' c.
  apply bind_not_Throws; [intros; apply index_not_Throws|]. intros v.
  apply bind_not_Throws.
  - destruct (abs v <? 1.0e20)%float; [discriminate|].
    apply bind_not_Throws; [intros; apply index_not_Throws|].
    intros; apply index_int_not_Throws.
  - intros x.
    apply bind_not_Throws; [intros; apply store_not_Throws|discriminate].
Qed.

(** A factory that does not throw and returns no null pointer. *)
Lemma new_after (A B C : Type) (c : outcome A) (mk : A -> B)
    (k : B -> C) :
  (forall e, c <> Throws e) ->
  (forall e, (a <- c ;; s <- Returns (mk a) ;; Returns (Some (k s)))
             <> Throws e) /\
  (forall o, (a <- c ;; s <- Returns (mk a) ;; Returns (Some (k s)))
             = Returns o -> o <> None).
Proof.
  intros Hc. destruct c as [a|e'| |]; cbn [bind]; split; intros;
    try discriminate; try congruence.
  exfalso. exact (Hc e' eq_refl).
Qed.

Lemma bind_keeps_shape (A B : Type) (c : outcome A)
    (k : A -> outcome (option B)) :
  (forall e, c <> Throws e) ->
  (forall a, (forall e, k a <> Throws e) /\
             (forall o, k a = Returns o -> o <> None)) ->
  (forall e, bind c k <> Throws e) /\
  (forall o, bind c k = Returns o -> o <> None).
Proof.
  intros Hc Hk. destruct c as [a|e'| |]; cbn [bind].
  - apply Hk.
  - exfalso. exact (Hc e' eq_refl).
  - split; intros; discriminate.
  - split; intros; discriminate.
Qed.

Lemma upcast_shape (A B : Type) (up : A -> B) (r : outcome (option A)) :
  (forall e, r <> Throws e) /\ (forall o, r = Returns o -> o <> None) ->
  (forall e, (p <- r ;; Returns (option_map up p)) <> Throws e) /\
  (forall o, (p <- r ;; Returns (option_map up p)) = Returns o ->
             exists a, o = Some (up a)).
Proof.
  intros [Hthrow Hnull]. destruct r as [[a|]|e'| |]; cbn [bind option_map].
  - split; [discriminate|]. intros o Ho. inversion Ho. eauto.
  - exfalso. exact (Hnull None eq_refl eq_refl).
  - exfalso. exact (Hthrow e' eq_refl).
  - split; intros; discriminate.
  - split; intros; discriminate.
Qed.

Section VerticalShape.

Variable convert_from : float -> float -> float.
Variable NDEBUG : bool.
Variable out : ECLOutput float.

Lemma pureVerticalRelpermScaling_shape (dflt : list float) (vector : string) :
  (forall e, Create.PureVertical.pureVerticalRelpermScaling
               NDEBUG out dflt vector <> Throws e) /\
  (forall o, Create.PureVertical.pureVerticalRelpermScaling
               NDEBUG out dflt vector = Returns o -> o <> None).
Proof.
  unfold Create.PureVertical.pureVerticalRelpermScaling,
    PureVerticalScaling.new.
  apply (@new_after _ _ _ (gridDefaultedVector NDEBUG out vector dflt (fun kr => kr))
           (fun v => {| PureVerticalScaling.fmax_ := v |}) (fun s => s)).
  intros e. apply gridDefaultedVector_not_Throws.
Qed.

Lemma pureVerticalCapPressScaling_shape (dflt : list float) (vector : string) :
  (forall e, Create.PureVertical.pureVerticalCapPressScaling convert_from
               NDEBUG out dflt vector <> Throws e) /\
  (forall o, Create.PureVertical.pureVerticalCapPressScaling convert_from
               NDEBUG out dflt vector = Returns o -> o <> None).
Proof.
  unfold Create.PureVertical.pureVerticalCapPressScaling,
    PureVerticalScaling.new. cbv zeta.
  apply (@new_after _ _ _
           (gridDefaultedVector NDEBUG out vector dflt
              (fun pc => convert_from pc (unitSystem_pressure out)))
           (fun v => {| PureVerticalScaling.fmax_ := v |}) (fun s => s)).
  intros e. apply gridDefaultedVector_not_Throws.
Qed.

Lemma CritSatVertical_scaling_shape (sdisp : list float)
    (fval : list (FunctionValues.t float)) (krr kr : string) :
  (forall e, Create.CritSatVertical.scaling NDEBUG out sdisp fval krr kr
             <> Throws e) /\
  (forall o, Create.CritSatVertical.scaling NDEBUG out sdisp fval krr kr
             = Returns o -> o <> None).
Proof.
  unfold Create.CritSatVertical.scaling, CritSatVerticalScaling.new.
  apply bind_keeps_shape; [intros e; apply transform_not_Throws|].
  intros dflt_fdisp.
  apply bind_keeps_shape; [intros e; apply gridDefaultedVector_not_Throws|].
  intros fdisp.
  apply bind_keeps_shape; [intros e; apply transform_not_Throws|].
  intros dflt_fmax.
  apply (@new_after _ _ _
           (gridDefaultedVector NDEBUG out kr dflt_fmax (fun kr => kr))
           (fun v => {| CritSatVerticalScaling.sdisp_ := sdisp;
                        CritSatVerticalScaling.fdisp_ := fdisp;
                        CritSatVerticalScaling.fmax_ := v |}) (fun s => s)).
  intros e. apply gridDefaultedVector_not_Throws.
Qed.

Lemma CritSatVertical_factories_shape
    (tep : CreateEPS.RawTableEndPoints.t float)
    (fval : list (FunctionValues.t float)) :
  let shape := fun r : outcome (Create.CritSatVertical.ScalPtr float) =>
    (forall e, r <> Throws e) /\ (forall o, r = Returns o -> o <> None) in
  shape (Create.CritSatVertical.Kr.G NDEBUG out tep fval) /\
  shape (Create.CritSatVertical.Kr.GO NDEBUG out tep fval) /\
  shape (Create.CritSatVertical.Kr.OW NDEBUG out tep fval) /\
  shape (Create.CritSatVertical.Kr.W NDEBUG out tep fval).
Proof.
  intros shape. unfold shape.
  unfold Create.CritSatVertical.Kr.G, Create.CritSatVertical.Kr.GO,
    Create.CritSatVertical.Kr.OW, Create.CritSatVertical.Kr.W.
  repeat split.
  all: try destruct (Create.CritSatVertical.oil_active out).
  all: repeat first
         [ apply CritSatVertical_scaling_shape
         | apply gridDefaultedVector_not_Throws
         | apply transform_not_Throws
         | apply transform2_not_Throws
         | apply bind_keeps_shape; [intros e|intros ?]
         | apply bind_not_Throws; [intros ?|intros ? ?] ].
Qed.

End VerticalShape.

(* ===================================================================== *)
(** * Arrays keep their size                                              *)
(* ===================================================================== *)

Ltac bind_returns H :=
  match type of H with
  | bind ?c _ = Returns _ =>
      let E := fresh "E" in
      destruct c eqn:E; cbn [bind] in H; try discriminate H
  end.

Lemma for_each_store_length (A B : Type)
    (body : list B -> A -> outcome (list B)) (n : nat) :
  (forall s x s', length s = n -> body s x = Returns s' -> length s' = n) ->
  forall xs s res,
    length s = n -> for_each body xs s = Returns res -> length res = n.
Proof.
  intros Hbody xs s res Hs Hrun.
  exact (@for_each_preserves _ _ body (fun s => length s = n) Hbody
           xs s res Hs Hrun).
Qed.

Lemma transform_length (A B : Type) (a : list A) (dst res : list B)
    (op : A -> B) :
  transform a dst op = Returns res -> length res = length dst.
Proof.
  unfold transform.
  apply for_each_store_length; [|reflexivity].
  intros s x s' Hs Hrun. bind_returns Hrun.
  rewrite (store_length _ _ _ Hrun). exact Hs.
Qed.

Lemma transform2_length (A B C : Type) (a : list A) (b : list B)
    (dst res : list C) (op : A -> B -> C) :
  transform2 a b dst op = Returns res -> length res = length dst.
Proof.
  unfold transform2.
  apply for_each_store_length; [|reflexivity].
  intros s x s' Hs Hrun. bind_returns Hrun. bind_returns Hrun.
  rewrite (store_length _ _ _ Hrun). exact Hs.
Qed.

(** Whatever the result set, an array that [gridDefaultedVector] returns
    has one entry per cell of the model. *)
Lemma gridDefaultedVector_length (NDEBUG : bool) (out : ECLOutput float)
    (vector : string) (dflt : list float) (cvrt : float -> float)
    (res : list float) :
  gridDefaultedVector NDEBUG out vector dflt cvrt = Returns res ->
  length res = numCells out.
Proof.
  unfold gridDefaultedVector. intros Hrun.
  bind_returns Hrun. bind_returns Hrun. inversion Hrun. subst res.
  refine (@for_each_preserves _ _ _
            (fun st : list float * nat => length (fst st) = numCells out)
            _ _ _ _ _ E0).
  - intros st gridID st' Hst Hgrid. cbv zeta in Hgrid.
    refine (@for_each_preserves _ _ _
              (fun st : list float * nat => length (fst st) = numCells out)
              _ _ _ _ Hst Hgrid).
    intros s c s' Hs Hcell. cbv zeta in Hcell.
    bind_returns Hcell. bind_returns Hcell. bind_returns Hcell.
    inversion Hcell. cbn [fst].
    match goal with
    | Hst : store _ _ _ = Returns _ |- _ => rewrite (store_length _ _ _ Hst)
    end.
    exact Hs.
  - cbn [fst]. apply repeat_length.
Qed.

(* ===================================================================== *)
(** * [gridDefaultedVector]: values and bounds                            *)
(* ===================================================================== *)

(** X21: [gridDefaultedVector] fills every cell.  For a result set that
    is consistent with the tables of [dflt], the call returns one value
    per cell of the model, grid after grid in the order of
    [G.activeGrids()]: the converted value [cvrt(v)] of the cell when
    [|v| < 1.0e20], and otherwise (a larger value, an infinity, a NaN,
    or a grid without the array) the default [dflt[r - 1]] of the
    cell's saturation region [r], with [r = 1] in a grid without
    SATNUM. *)
Theorem gridDefaultedVector_fills_every_cell
    (NDEBUG : bool) (out : ECLOutput float) (vector : string)
    (dflt : list float) (cvrt : float -> float) :
  consistent out (length dflt) ->
  NDEBUG = true \/ dflt <> [] ->
  gridDefaultedVector NDEBUG out vector dflt cvrt
  = Returns (defaulted out vector dflt cvrt) /\
  length (defaulted out vector dflt cvrt) = numCells out.
Proof.
  intros Hcons Hne. split.
  - apply gridDefaultedVector_returns; assumption.
  - apply defaulted_length. exact Hcons.
Qed.

Lemma combine_repeat_map (A B C : Type) (f : A * B -> C) (x : A)
    (l : list B) (n : nat) :
  length l = n ->
  map f (combine (repeat x n) l) = map (fun y => f (x, y)) l.
Proof.
  intros <-. induction l as [|y l IH]; [reflexivity|].
  cbn [length repeat combine map]. f_equal. exact IH.
Qed.

Lemma flat_map_ext_in (A B : Type) (f g : A -> list B) (l : list A) :
  (forall x, In x l -> f x = g x) -> flat_map f l = flat_map g l.
Proof.
  induction l as [|x l IH]; intros Hfg; [reflexivity|].
  cbn [flat_map]. rewrite (Hfg x (or_introl eq_refl)). f_equal.
  apply IH. intros y Hy. apply Hfg. right. exact Hy.
Qed.

(** X22: a keyword that no active grid has leaves every cell at the
    value of its table.  For a result set that is consistent with the
    tables of [dflt], [gridDefaultedVector] then returns, cell by cell,
    [dflt[r - 1]] for the cell's saturation region [r]: the value
    [-1.0e21] that stands for the missing array counts as unset, and
    [cvrt] is not applied. *)
Theorem gridDefaultedVector_absent_keyword
    (NDEBUG : bool) (out : ECLOutput float) (vector : string)
    (dflt : list float) (cvrt : float -> float) :
  consistent out (length dflt) ->
  NDEBUG = true \/ dflt <> [] ->
  (forall gridID, In gridID (activeGrids out) ->
                  haveKeywordData out vector gridID = false) ->
  gridDefaultedVector NDEBUG out vector dflt cvrt
  = Returns (flat_map
               (fun gridID =>
                  map (fun r => nth (Z.to_nat (r - 1)) dflt 0%float)
                      (region_numbers out gridID))
               (activeGrids out)).
Proof.
  intros Hcons Hne Habsent.
  rewrite gridDefaultedVector_returns by assumption.
  f_equal. unfold defaulted. apply flat_map_ext_in. intros g Hg.
  unfold grid_values. rewrite (Habsent g Hg).
  destruct Hcons as (_ & Hgrids). destruct (Hgrids g Hg) as (Hlen & _).
  rewrite combine_repeat_map by exact Hlen.
  apply map_ext. intros r. cbn [fst snd]. unfold defaulted_value.
  rewrite sentinel_is_unset. reflexivity.
Qed.

Lemma for_each_Returns_In (A S : Type) (body : S -> A -> outcome S)
    (xs : list A) :
  forall s s', for_each body xs s = Returns s' ->
  forall x, In x xs -> exists s1 s2, body s1 x = Returns s2.
Proof.
  induction xs as [|y xs IH]; intros s s' Hrun x Hx; [destruct Hx|].
  cbn [for_each] in Hrun.
  destruct (body s y) as [s1| | |] eqn:E; cbn [bind] in Hrun;
    try discriminate Hrun.
  destruct Hx as [->|Hx].
  - exists s, s1. exact E.
  - exact (IH s1 s' Hrun x Hx).
Qed.

Lemma index_int_Returns (A : Type) (v : list A) (i : Z) (x : A) :
  index_int v i = Returns x -> (0 <= i < Z.of_nat (length v))%Z.
Proof.
  unfold index_int. destruct (Z.ltb_spec i 0); [discriminate|].
  intros Hx. apply index_Returns in Hx.
  assert (Z.to_nat i < length v) by (apply nth_error_Some; congruence).
  lia.
Qed.

(** X23: [gridDefaultedVector] checks neither the arrays of the result
    set nor the region numbers: it never throws, and a call that returns
    has found, for every cell of every active grid, a value in the
    array and, where that value is unset, a region number [r] with
    [1 <= r <= dflt.size()].  A region number outside this range at an
    unset cell is an access outside [dflt].  The array returned has one
    entry per cell of the model, and in a build with assertions [dflt]
    is not empty. *)
Theorem gridDefaultedVector_reads_unchecked
    (NDEBUG : bool) (out : ECLOutput float) (vector : string)
    (dflt : list float) (cvrt : float -> float) :
  (forall e, gridDefaultedVector NDEBUG out vector dflt cvrt <> Throws e) /\
  (forall res,
     gridDefaultedVector NDEBUG out vector dflt cvrt = Returns res ->
     length res = numCells out /\
     (NDEBUG = false -> dflt <> []) /\
     forall (gridID : string) (c : nat),
       In gridID (activeGrids out) -> c < numCells_of out gridID ->
       exists v,
         nth_error (grid_values out vector gridID) c = Some v /\
         ((abs v <? 1.0e20)%float = true \/
          exists r,
            nth_error (region_numbers out gridID) c = Some r /\
            (1 <= r <= Z.of_nat (length dflt))%Z)).
Proof.
  split; [intros e; apply gridDefaultedVector_not_Throws|].
  intros res Hrun.
  split; [exact (gridDefaultedVector_length _ _ _ _ _ Hrun)|].
  unfold gridDefaultedVector in Hrun.
  bind_returns Hrun. bind_returns Hrun. split.
  - intros ->. unfold assert in E. destruct dflt; [discriminate E|discriminate].
  - intros gridID c Hg Hc.
    destruct (for_each_Returns_In _ _ _ E0 gridID Hg) as (s1 & s2 & Hgrid).
    cbv zeta in Hgrid.
    destruct (for_each_Returns_In _ _ _ Hgrid c) as (t1 & t2 & Hcell).
    { apply in_seq. lia. }
    cbv zeta in Hcell. fold (grid_values out vector gridID) in Hcell.
    fold (region_numbers out gridID) in Hcell.
    bind_returns Hcell. apply index_Returns in E1.
    exists a1. split; [exact E1|].
    destruct (abs a1 <? 1.0e20)%float; [left; reflexivity|right].
    bind_returns Hcell. bind_returns E2. apply index_Returns in E3.
    exists a3. split; [exact E3|].
    apply index_int_Returns in E2. lia.
Qed.

(* ===================================================================== *)
(** * [CreateEPS::Vertical::fromECLOutput]: the selection                 *)
(* ===================================================================== *)

(** X24: the result set has the scaled relative permeability at the
    critical saturation when at least one active grid has the keyword:
    KRWR for water, KRGR for gas, and for oil KROGR in an oil-gas and
    KROWR in an oil-water system. *)
Theorem haveScaledRelPermAtCritSat_some_grid (D : Type) (res : ECLOutput D)
    (phase : ECLPhaseIndex) (subSys : CreateEPS.SubSystem) :
  haveScaledRelPermAtCritSat res phase subSys = true <->
  exists grid : string,
    In grid (activeGrids res) /\
    haveKeywordData res
      match phase, subSys with
      | Aqua, _ => "KRWR"
      | Liquid, CreateEPS.OilGas => "KROGR"
      | Liquid, CreateEPS.OilWater => "KROWR"
      | Vapour, _ => "KRGR"
      end%string grid = true.
Proof.
  assert (Hkw : forall kw,
    haveScaledRelPermAtCritSatKeyword res kw = true <->
    exists grid, In grid (activeGrids res) /\
                 haveKeywordData res kw grid = true).
  { intros kw. unfold haveScaledRelPermAtCritSatKeyword.
    assert (Hfold : forall grids b,
      fold_left (fun (haveKW : bool) (grid : string) =>
                   haveKW || haveKeywordData res kw grid) grids b = true <->
      b = true \/ exists grid, In grid grids /\
                               haveKeywordData res kw grid = true).
    { induction grids as [|g grids IH]; intros b; cbn [fold_left].
      - split; [auto|]. intros [Hb|(g & [] & _)]. exact Hb.
      - rewrite IH, orb_true_iff. split.
        + intros [[Hb|Hg]|(g' & Hin & Hg')]; [left; exact Hb| |].
          * right. exists g. split; [left; reflexivity|exact Hg].
          * right. exists g'. split; [right; exact Hin|exact Hg'].
        + intros [Hb|(g' & [->|Hin] & Hg')].
          * left. left. exact Hb.
          * left. right. exact Hg'.
          * right. exists g'. split; assumption. }
    rewrite Hfold. split; [intros [Hb|Hex]; [discriminate Hb|exact Hex]|].
    intros Hex. right. exact Hex. }
  unfold haveScaledRelPermAtCritSat.
  destruct phase, subSys; cbv [equal SubSystem_equal]; apply Hkw.
Qed.

Section VerticalSelection.

Variable convert_from : float -> float -> float.
Variable NDEBUG : bool.
Variable out : ECLOutput float.

Lemma Throws_iff_True (A : Type) (e : exception) :
  (exists e', @Throws A e = Throws e') <-> True.
Proof. split; [auto|]. intros _. eexists. reflexivity. Qed.

Lemma shape_iff_False (A : Type) (r : outcome A) :
  (forall e, r <> Throws e) -> ((exists e, r = Throws e) <-> False).
Proof.
  intros Hr. split; [|contradiction]. intros [e He]. exact (Hr e He).
Qed.

Lemma PureVertical_scalingFunction_shape (opt : CreateEPS.EPSOptions)
    (fvals : list (FunctionValues.t float)) :
  ((exists e, Create.PureVertical.scalingFunction convert_from NDEBUG out
                opt fvals = Throws e) <-> meaningless opt) /\
  (forall o, Create.PureVertical.scalingFunction convert_from NDEBUG out
               opt fvals = Returns o -> o <> None).
Proof.
  unfold Create.PureVertical.scalingFunction.
  rewrite transform_returns by apply repeat_length. cbn [bind]. cbv zeta.
  destruct opt as [use3 curve subSys thisPh].
  unfold meaningless.
  cbn [CreateEPS.use3PtScaling CreateEPS.curve CreateEPS.subSys
       CreateEPS.thisPh].
  destruct curve, subSys, thisPh;
    cbv [equal FunctionCategory_equal SubSystem_equal ECLPhaseIndex_equal].
  all: try (split; [apply Throws_iff_True|discriminate]).
  all: unfold Create.PureVertical.Kr.G, Create.PureVertical.Kr.O,
         Create.PureVertical.Kr.W, Create.PureVertical.Pc.GO,
         Create.PureVertical.Pc.OW.
  all: match goal with
       | |- context [Create.PureVertical.pureVerticalRelpermScaling
                       ?n ?o ?d ?v] =>
           destruct (pureVerticalRelpermScaling_shape n o d v) as [Ht Hn]
       | |- context [Create.PureVertical.pureVerticalCapPressScaling
                       ?c ?n ?o ?d ?v] =>
           destruct (pureVerticalCapPressScaling_shape c n o d v) as [Ht Hn]
       end.
  all: split; [apply shape_iff_False; exact Ht|exact Hn].
Qed.

Lemma CritSatVertical_scalingFunction_shape (opt : CreateEPS.EPSOptions)
    (tep : CreateEPS.RawTableEndPoints.t float)
    (fvals : list (FunctionValues.t float)) :
  CreateEPS.curve opt = CreateEPS.Relperm ->
  ((exists e, Create.CritSatVertical.scalingFunction NDEBUG out opt tep fvals
              = Throws e) <-> meaningless opt) /\
  (forall o, Create.CritSatVertical.scalingFunction NDEBUG out opt tep fvals
             = Returns o -> o <> None).
Proof.
  destruct (CritSatVertical_factories_shape NDEBUG out tep fvals)
    as ([G1 G2] & [GO1 GO2] & [OW1 OW2] & [W1 W2]).
  unfold Create.CritSatVertical.scalingFunction. cbv zeta.
  destruct opt as [use3 curve subSys thisPh].
  unfold meaningless.
  cbn [CreateEPS.use3PtScaling CreateEPS.curve CreateEPS.subSys
       CreateEPS.thisPh].
  intros ->.
  destruct subSys, thisPh;
    cbv [equal FunctionCategory_equal SubSystem_equal ECLPhaseIndex_equal].
  all: try (split; [apply Throws_iff_True|discriminate]).
  all: split; [apply shape_iff_False; assumption|assumption].
Qed.

Lemma upcast_Throws_iff (A B : Type) (up : A -> B) (r : outcome (option A)) :
  (exists e, (p <- r ;; Returns (option_map up p)) = Throws e)
  <-> (exists e, r = Throws e).
Proof.
  destruct r as [o|e| |]; cbn [bind]; split; intros [e' He'];
    try discriminate He'; eexists; reflexivity.
Qed.

Lemma upcast_not_null (A B : Type) (up : A -> B) (r : outcome (option A)) :
  (forall o, r = Returns o -> o <> None) ->
  forall o, (p <- r ;; Returns (option_map up p)) = Returns o ->
            exists a, o = Some (up a).
Proof.
  intros Hnull o. destruct r as [[a|]|e'| |]; cbn [bind option_map];
    intros Ho; try discriminate Ho.
  - inversion Ho. eauto.
  - exfalso. exact (Hnull None eq_refl eq_refl).
Qed.

(** X25: [CreateEPS::Vertical::fromECLOutput] throws exactly for the
    combinations of options that name no saturation function, whatever
    the result set, the raw end points and the function values: unlike
    the horizontal factories it checks no array size.  A pointer it
    returns is never null: it is a [CritSatVerticalScaling] when the
    curve is the relative permeability and the result set has the
    scaled relative permeability at the critical saturation of the
    phase, and a [PureVerticalScaling] otherwise. *)
Theorem Vertical_fromECLOutput_selection (opt : CreateEPS.EPSOptions)
    (tep : CreateEPS.RawTableEndPoints.t float)
    (fvals : list (FunctionValues.t float)) :
  ((exists e, Vertical.fromECLOutput convert_from NDEBUG out opt tep fvals
              = Throws e) <-> meaningless opt) /\
  (forall o, Vertical.fromECLOutput convert_from NDEBUG out opt tep fvals
             = Returns o ->
     if ((CreateEPS.curve opt == CreateEPS.Relperm)%cxx &&
         haveScaledRelPermAtCritSat out (CreateEPS.thisPh opt)
                                    (CreateEPS.subSys opt))%bool
     then exists p, o = Some (VerticalScalingInterface.CritSatVertical p)
     else exists p, o = Some (VerticalScalingInterface.PureVertical p)).
Proof.
  destruct (PureVertical_scalingFunction_shape opt fvals) as [Pt Pn].
  unfold Vertical.fromECLOutput. cbv zeta.
  destruct (haveScaledRelPermAtCritSat out (CreateEPS.thisPh opt)
              (CreateEPS.subSys opt)) eqn:Ecrs;
    destruct (CreateEPS.curve opt) eqn:Ecurve;
    cbv [equal FunctionCategory_equal orb andb negb].
  all: try (split; [exact (iff_trans (upcast_Throws_iff _ _) Pt)
                   |apply upcast_not_null; exact Pn]).
  destruct (CritSatVertical_scalingFunction_shape opt tep fvals Ecurve)
    as [Ct Cn].
  split; [exact (iff_trans (upcast_Throws_iff _ _) Ct)
         |apply upcast_not_null; exact Cn].
Qed.

End VerticalSelection.

(* ===================================================================== *)
(** * [CreateEPS::Vertical::fromECLOutput]: the objects it builds         *)
(* ===================================================================== *)

Section VerticalObjects.

Variable convert_from : float -> float -> float.
Variable NDEBUG : bool.
Variable out : ECLOutput float.

Import CreateEPS CreateEPS.RawTableEndPoints.
Local Open Scope string_scope.

Lemma one_minus_sum_swap (a b : list float) :
  map (fun p : float * float => (1.0 - (snd p + fst p))%float) (combine a b)
  = one_minus_sum b a.
Proof.
  unfold one_minus_sum. revert b.
  induction a as [|x a IH]; intros [|y b]; try reflexivity.
  cbn [combine map fst snd]. f_equal. apply IH.
Qed.

(** X26: the pure vertical scaling that
    [CreateEPS::Vertical::fromECLOutput] builds.  For a meaningful
    combination of options, a result set that is consistent with the
    tables of [fvals], and the capillary pressure or no scaled relative
    permeability at the critical saturation, the factory returns the
    [PureVerticalScaling] whose maximum value in a cell is the value of
    KRG, KRO or KRW (relative permeability of gas, oil, water) or the
    value of PCG or PCW converted from the pressure unit of the result
    set (capillary pressure of gas, water), and where that value is
    unset ([|v| >= 1.0e20], a NaN, or no such array in the grid) the
    maximum function value [fvals[r - 1].max.val] of the table of the
    cell's saturation region [r]. *)
Theorem Vertical_fromECLOutput_pure_scaling (opt : EPSOptions)
    (tep : RawTableEndPoints.t float)
    (fvals : list (FunctionValues.t float)) :
  ~ meaningless opt ->
  consistent out (length fvals) ->
  NDEBUG = true \/ fvals <> [] ->
  curve opt = CapPress \/
  haveScaledRelPermAtCritSat out (thisPh opt) (subSys opt) = false ->
  let dflt :=
    map (fun fv => FunctionValues.val (FunctionValues.max fv)) fvals in
  let kr := fun kr : float => kr in
  let pc := fun pc : float => convert_from pc (unitSystem_pressure out) in
  let fmax :=
    match curve opt, thisPh opt with
    | Relperm, Vapour => defaulted out "KRG" dflt kr
    | Relperm, Liquid => defaulted out "KRO" dflt kr
    | Relperm, Aqua => defaulted out "KRW" dflt kr
    | CapPress, Vapour => defaulted out "PCG" dflt pc
    | CapPress, _ => defaulted out "PCW" dflt pc
    end in
  Vertical.fromECLOutput convert_from NDEBUG out opt tep fvals
  = Returns (Some (VerticalScalingInterface.PureVertical
                     {| PureVerticalScaling.fmax_ := fmax |})) /\
  length fmax = numCells out.
Proof.
  intros Hm Hcons Hne Hsel dflt kr pc fmax.
  assert (Hcons' : consistent out (length dflt))
    by (unfold dflt; rewrite length_map; exact Hcons).
  assert (Hne' : NDEBUG = true \/ dflt <> []).
  { destruct Hne as [Hn|Hn]; [left; exact Hn|right].
    unfold dflt. destruct fvals; [contradiction|discriminate]. }
  assert (Hrun := fun vector cvrt =>
            @gridDefaultedVector_returns out vector dflt cvrt Hcons'
              NDEBUG Hne').
  assert (Hlen := fun vector cvrt =>
            @defaulted_length out vector dflt cvrt Hcons').
  split.
  2:{ unfold fmax. destruct (curve opt), (thisPh opt); apply Hlen. }
  unfold Vertical.fromECLOutput. cbv zeta.
  replace ((curve opt == CapPress)%cxx
           || negb (haveScaledRelPermAtCritSat out (thisPh opt) (subSys opt)))
    with true.
  2:{ destruct Hsel as [->| ->]; [reflexivity|].
      cbn [negb]. rewrite orb_true_r. reflexivity. }
  unfold Create.PureVertical.scalingFunction.
  rewrite transform_returns by apply repeat_length.
  fold dflt. cbn [bind]. cbv zeta.
  clear Hsel. unfold fmax. clear fmax.
  destruct opt as [use3 curve subSys thisPh].
  unfold meaningless in Hm.
  cbn [CreateEPS.use3PtScaling CreateEPS.curve CreateEPS.subSys
       CreateEPS.thisPh] in *.
  destruct curve, subSys, thisPh;
    try (exfalso; apply Hm; exact I);
    cbv [equal FunctionCategory_equal SubSystem_equal ECLPhaseIndex_equal].
  all: unfold Create.PureVertical.Kr.G, Create.PureVertical.Kr.O,
         Create.PureVertical.Kr.W, Create.PureVertical.Pc.GO,
         Create.PureVertical.Pc.OW,
         Create.PureVertical.pureVerticalRelpermScaling,
         Create.PureVertical.pureVerticalCapPressScaling,
         PureVerticalScaling.new.
  all: cbv zeta; rewrite Hrun; reflexivity.
Qed.

(** X27: the vertical scaling at the critical saturation that
    [CreateEPS::Vertical::fromECLOutput] builds.  For the relative
    permeability, a meaningful combination of options, raw end points
    and function values of [ntab] tables, a result set that is
    consistent with them and has the scaled relative permeability at
    the critical saturation, the factory returns the
    [CritSatVerticalScaling] with, cell by cell and unset values
    replaced by those of the table of the cell's saturation region,
    - the displacing saturation [1 - (SOGCR + SWL)] for gas and
      [1 - (SOWCR + SGL)] for water, or [1 - SWCR] for gas and
      [1 - SGCR] for water when bit 0 (oil) of the phase indicator is
      clear; [1 - (SGCR + SWL)] for oil in an oil-gas and
      [1 - (SGL + SWCR)] for oil in an oil-water system;
    - the function value at the displacing saturation from KRGR, KRORG,
      KRORW or KRWR, with [fvals[r - 1].disp.val] as default;
    - the maximum function value from KRG, KRO or KRW, with
      [fvals[r - 1].max.val] as default. *)
Theorem Vertical_fromECLOutput_critical_saturation_scaling
    (opt : EPSOptions) (tep : RawTableEndPoints.t float)
    (fvals : list (FunctionValues.t float)) (ntab : nat) :
  ~ meaningless opt ->
  tables ntab tep -> length fvals = ntab ->
  consistent out ntab ->
  NDEBUG = true \/ 0 < ntab ->
  curve opt = Relperm ->
  haveScaledRelPermAtCritSat out (thisPh opt) (subSys opt) = true ->
  let s := fun s : float => s in
  let fdisp :=
    map (fun fv => FunctionValues.val (FunctionValues.disp fv)) fvals in
  let fmax :=
    map (fun fv => FunctionValues.val (FunctionValues.max fv)) fvals in
  Vertical.fromECLOutput convert_from NDEBUG out opt tep fvals
  = Returns (Some (VerticalScalingInterface.CritSatVertical
      match subSys opt, thisPh opt with
      | OilGas, Vapour =>
          {| CritSatVerticalScaling.sdisp_ :=
               if Create.CritSatVertical.oil_active out
               then one_minus_sum
                      (defaulted out "SOGCR" (Critical.oil_in_gas (crit tep)) s)
                      (defaulted out "SWL" (Connate.water (conn tep)) s)
               else map (fun sw => (1.0 - sw)%float)
                        (defaulted out "SWCR" (Critical.water (crit tep)) s);
             CritSatVerticalScaling.fdisp_ := defaulted out "KRGR" fdisp s;
             CritSatVerticalScaling.fmax_ := defaulted out "KRG" fmax s |}
      | OilGas, _ =>
          {| CritSatVerticalScaling.sdisp_ :=
               one_minus_sum
                 (defaulted out "SGCR" (Critical.gas (crit tep)) s)
                 (defaulted out "SWL" (Connate.water (conn tep)) s);
             CritSatVerticalScaling.fdisp_ := defaulted out "KRORG" fdisp s;
             CritSatVerticalScaling.fmax_ := defaulted out "KRO" fmax s |}
      | OilWater, Aqua =>
          {| CritSatVerticalScaling.sdisp_ :=
               if Create.CritSatVertical.oil_active out
               then one_minus_sum
                      (defaulted out "SOWCR"
                                 (Critical.oil_in_water (crit tep)) s)
                      (defaulted out "SGL" (Connate.gas (conn tep)) s)
               else map (fun sg => (1.0 - sg)%float)
                        (defaulted out "SGCR" (Critical.gas (crit tep)) s);
             CritSatVerticalScaling.fdisp_ := defaulted out "KRWR" fdisp s;
             CritSatVerticalScaling.fmax_ := defaulted out "KRW" fmax s |}
      | OilWater, _ =>
          {| CritSatVerticalScaling.sdisp_ :=
               one_minus_sum
                 (defaulted out "SGL" (Connate.gas (conn tep)) s)
                 (defaulted out "SWCR" (Critical.water (crit tep)) s);
             CritSatVerticalScaling.fdisp_ := defaulted out "KRORW" fdisp s;
             CritSatVerticalScaling.fmax_ := defaulted out "KRO" fmax s |}
      end)).
Proof.
  intros Hm (Hcg & Hcw & Hog & How & Hg & Hw & Hmg & Hmo & Hmw) Hfv Hcons
    Hne Hcurve Hcrs s fdisp fmax.
  assert (Hrun : forall vector dflt,
            length dflt = ntab ->
            gridDefaultedVector NDEBUG out vector dflt s
            = Returns (defaulted out vector dflt s)).
  { intros vector dflt Hd. apply gridDefaultedVector_returns.
    - rewrite Hd. exact Hcons.
    - destruct Hne as [Hn|Hn]; [left; exact Hn|right].
      destruct dflt; [cbn in Hd; lia|discriminate]. }
  assert (Hlen : forall vector dflt,
            length dflt = ntab ->
            length (defaulted out vector dflt s) = numCells out).
  { intros vector dflt Hd. apply defaulted_length.
    rewrite Hd. exact Hcons. }
  assert (Hfd : length fdisp = ntab)
    by (unfold fdisp; rewrite length_map; exact Hfv).
  assert (Hfm : length fmax = ntab)
    by (unfold fmax; rewrite length_map; exact Hfv).
  unfold Vertical.fromECLOutput. cbv zeta.
  rewrite Hcrs, Hcurve.
  cbv [equal FunctionCategory_equal orb andb negb].
  unfold Create.CritSatVertical.scalingFunction. cbv zeta.
  destruct opt as [use3 curve subSys thisPh].
  unfold meaningless in Hm.
  cbn [CreateEPS.use3PtScaling CreateEPS.curve CreateEPS.subSys
       CreateEPS.thisPh] in *.
  subst curve. clear Hcrs.
  destruct subSys, thisPh;
    try (exfalso; apply Hm; exact I);
    cbv [equal FunctionCategory_equal SubSystem_equal ECLPhaseIndex_equal].
  all: unfold Create.CritSatVertical.Kr.G, Create.CritSatVertical.Kr.GO,
         Create.CritSatVertical.Kr.OW, Create.CritSatVertical.Kr.W,
         Create.CritSatVertical.scaling, CritSatVerticalScaling.new.
  all: try destruct (Create.CritSatVertical.oil_active out).
  all: rewrite ?Hrun by assumption; cbn [bind].
  all: rewrite ?transform2_returns
         by (rewrite ?repeat_length, !Hlen by assumption; reflexivity).
  all: rewrite ?transform_returns
         by (rewrite ?repeat_length, ?Hlen by assumption; reflexivity).
  all: cbn [bind]; fold fdisp fmax.
  all: rewrite ?transform_returns by apply repeat_length; cbn [bind].
  all: fold fdisp fmax; rewrite ?Hrun by assumption; cbn [bind].
  all: rewrite ?transform_returns by apply repeat_length; cbn [bind].
  all: fold fdisp fmax; rewrite ?Hrun by assumption; cbn [bind].
  all: rewrite ?one_minus_sum_swap; reflexivity.
Qed.

End VerticalObjects.

(* ===================================================================== *)
(** * [CreateEPS::Vertical::unscaledFunctionValues]                       *)
(* ===================================================================== *)

Section FunctionValuesFacts.

Context {D : Type} `{Double D}.
Import CreateEPS CreateEPS.RawTableEndPoints.

Lemma Horizontal_unscaledEndPoints_returns (NDEBUG : bool)
    (ep : RawTableEndPoints.t D) (opt : EPSOptions) (n : nat) :
  tables n ep -> 0 < n -> ~ meaningless opt ->
  exists uep, Horizontal.unscaledEndPoints NDEBUG ep opt = Returns uep /\
              length uep = n.
Proof.
  intros (Hcg & Hcw & Hog & How & Hg & Hw & Hmg & Hmo & Hmw) Hn Hm.
  destruct opt as [use3 curve subSys thisPh].
  unfold meaningless in Hm.
  cbn [CreateEPS.use3PtScaling CreateEPS.curve CreateEPS.subSys
       CreateEPS.thisPh] in *.
  unfold Horizontal.unscaledEndPoints, Create.TwoPoint.unscaledEndPoints,
    Create.ThreePoint.unscaledEndPoints.
  cbn [CreateEPS.use3PtScaling CreateEPS.curve CreateEPS.subSys
       CreateEPS.thisPh].
  destruct use3, curve, subSys, thisPh;
    try (exfalso; apply Hm; exact I);
    cbv [equal FunctionCategory_equal SubSystem_equal ECLPhaseIndex_equal
         orb andb negb];
    rewrite ?assert_holds; cbn [bind].
  all: rewrite ?sdisp_returns by congruence; cbn [bind].
  all: first
         [ rewrite unscaledTwoPt_returns by (try (right; lia); congruence)
         | rewrite unscaledThreePt_returns
             by (rewrite ?one_minus_sum_length; try (right; lia);
                 congruence) ].
  all: eexists; split; [reflexivity|].
  all: rewrite end_points_of_length;
    rewrite ?one_minus_sum_length; congruence.
Qed.

Lemma set_max_stores (evalSF : Z -> D -> D) (ret : list (FunctionValues.t D))
    (i : nat) (s : D) (y : FunctionValues.t D) :
  nth_error ret i = Some y ->
  Vertical.set_max evalSF ret i s
  = store ret i
      {| FunctionValues.disp := FunctionValues.disp y;
         FunctionValues.max :=
           {| FunctionValues.sat := s;
              FunctionValues.val := evalSF (static_cast_int i) s |} |}.
Proof.
  intros Hy. destruct (nth_error_split ret i Hy) as (pre & suf & -> & <-).
  unfold Vertical.set_max, index.
  rewrite nth_error_middle. cbn [bind].
  rewrite store_middle. cbn [bind].
  rewrite nth_error_middle. cbn [bind].
  rewrite !store_middle. reflexivity.
Qed.

Lemma set_disp_stores (evalSF : Z -> D -> D)
    (ret : list (FunctionValues.t D)) (i : nat) (s : D)
    (y : FunctionValues.t D) :
  nth_error ret i = Some y ->
  Vertical.set_disp evalSF ret i s
  = store ret i
      {| FunctionValues.disp :=
           {| FunctionValues.sat := s;
              FunctionValues.val := evalSF (static_cast_int i) s |};
         FunctionValues.max := FunctionValues.max y |}.
Proof.
  intros Hy. destruct (nth_error_split ret i Hy) as (pre & suf & -> & <-).
  unfold Vertical.set_disp, index.
  rewrite nth_error_middle. cbn [bind].
  rewrite store_middle. cbn [bind].
  rewrite nth_error_middle. cbn [bind].
  rewrite !store_middle. reflexivity.
Qed.

Lemma set_disp_then_max (evalSF : Z -> D -> D)
    (ret : list (FunctionValues.t D)) (i : nat) (sd sm : D)
    (y : FunctionValues.t D) :
  nth_error ret i = Some y ->
  (ret' <- Vertical.set_disp evalSF ret i sd ;;
   Vertical.set_max evalSF ret' i sm)
  = store ret i
      {| FunctionValues.disp :=
           {| FunctionValues.sat := sd;
              FunctionValues.val := evalSF (static_cast_int i) sd |};
         FunctionValues.max :=
           {| FunctionValues.sat := sm;
              FunctionValues.val := evalSF (static_cast_int i) sm |} |}.
Proof.
  intros Hy. rewrite (set_disp_stores evalSF ret i sd Hy).
  destruct (nth_error_split ret i Hy) as (pre & suf & -> & <-).
  rewrite store_middle. cbn [bind].
  erewrite set_max_stores by apply nth_error_middle.
  rewrite !store_middle. reflexivity.
Qed.

Lemma resize_nil (A : Type) (n : nat) (zero : A) :
  resize [] n zero = repeat zero n.
Proof.
  unfold resize. rewrite firstn_nil, Nat.sub_0_r. reflexivity.
Qed.

Lemma nth_error_indexed (A : Type) (l : list A) (i : nat) (x : A) :
  nth_error l i = Some x ->
  nth_error (combine (seq 0 (length l)) l) i = Some (i, x).
Proof.
  intros Hx. apply nth_error_combine; [|exact Hx].
  rewrite nth_error_seq.
  destruct (Nat.ltb_spec i (length l)) as [_|Hge]; [reflexivity|].
  apply nth_error_None in Hge. congruence.
Qed.

(** The two loops of [unscaledFunctionValues]. *)
Lemma function_values_loop (evalSF : Z -> D -> D) (with_disp : bool)
    (uep : list (TableEndPoints D)) :
  for_each
    (fun (ret : list (FunctionValues.t D)) (i : nat) =>
       if with_disp then
         u <- index uep i ;;
         ret <- Vertical.set_disp evalSF ret i (disp u) ;;
         u <- index uep i ;;
         Vertical.set_max evalSF ret i (high u)
       else
         u <- index uep i ;;
         Vertical.set_max evalSF ret i (high u))
    (seq 0 (length uep)) (resize [] (length uep) Vertical.zero_values)
  = Returns (function_values evalSF with_disp uep).
Proof.
  rewrite resize_nil.
  destruct uep as [|u0 uep']; [destruct with_disp; reflexivity|].
  set (uep := u0 :: uep').
  set (h := fun (i : nat) (y : FunctionValues.t D) =>
         let u := nth i uep u0 in
         let k := static_cast_int i in
         {| FunctionValues.disp :=
              if with_disp
              then {| FunctionValues.sat := disp u;
                      FunctionValues.val := evalSF k (disp u) |}
              else FunctionValues.disp y;
            FunctionValues.max :=
              {| FunctionValues.sat := high u;
                 FunctionValues.val := evalSF k (high u) |} |}).
  assert (Hrep : length (repeat (Vertical.zero_values (D := D)) (length uep))
                 = length uep) by apply repeat_length.
  rewrite <- Hrep at 1.
  destruct (@for_each_seq_store_all _
              (fun (ret : list (FunctionValues.t D)) (i : nat) =>
                 if with_disp then
                   u <- index uep i ;;
                   ret <- Vertical.set_disp evalSF ret i (disp u) ;;
                   u <- index uep i ;;
                   Vertical.set_max evalSF ret i (high u)
                 else
                   u <- index uep i ;;
                   Vertical.set_max evalSF ret i (high u))
              h (repeat Vertical.zero_values (length uep)))
    as (res & Hrun & Hlen & Hnth).
  { intros ret i y Hi Hret Hy. rewrite Hrep in Hi.
    rewrite (index_nth uep u0) by exact Hi. unfold h.
    destruct with_disp; cbn [bind].
    - apply set_disp_then_max with (y := y). exact Hy.
    - apply set_max_stores. exact Hy. }
  rewrite Hrun. f_equal. apply nth_error_ext_eq.
  - unfold function_values.
    rewrite Hlen, Hrep, length_map, length_combine, length_seq. lia.
  - intros i x Hx. unfold function_values in Hx.
    rewrite nth_error_map in Hx.
    destruct (nth_error (combine (seq 0 (length uep)) uep) i)
      as [[j u]|] eqn:E; [|discriminate Hx].
    apply nth_error_combine_Some in E. cbn [fst snd] in E.
    destruct E as [Ej Eu].
    assert (Hi : i < length uep) by (apply nth_error_Some; congruence).
    rewrite nth_error_seq in Ej.
    destruct (Nat.ltb_spec i (length uep)); [|lia].
    cbn in Ej. inversion Ej. subst j.
    rewrite (Hnth i Vertical.zero_values)
      by (apply nth_error_repeat_lt; exact Hi).
    cbn [option_map fst snd] in Hx. inversion Hx. unfold h.
    rewrite (nth_error_nth _ _ _ Eu).
    destruct with_disp; reflexivity.
Qed.

(** X28: [CreateEPS::Vertical::unscaledFunctionValues] evaluates the
    saturation function of each table at the unscaled end points that
    [CreateEPS::Horizontal::unscaledEndPoints] gives for the same curve,
    sub-system and phase.  It takes the family by the data and not by
    [opt.use3PtScaling]: with a scaled relative permeability at the
    critical saturation it takes the three-point end points and
    evaluates at the displacing and at the high end point; with none,
    and for the capillary pressure, it takes the two-point end points,
    evaluates at the high end point only and leaves the displacing
    point at [(0, 0)].  The table index is passed as an [int]. *)
Theorem Vertical_unscaledFunctionValues_at_the_end_points
    (NDEBUG : bool) (out : ECLOutput D) (ep : RawTableEndPoints.t D)
    (opt : EPSOptions) (evalSF : Z -> D -> D) (n : nat) :
  tables n ep -> 0 < n -> ~ meaningless opt ->
  let crs :=
    ((curve opt == Relperm)%cxx &&
     haveScaledRelPermAtCritSat out (thisPh opt) (subSys opt))%bool in
  exists uep,
    Horizontal.unscaledEndPoints NDEBUG ep
      {| use3PtScaling := crs; curve := curve opt;
         subSys := subSys opt; thisPh := thisPh opt |}
    = Returns uep /\
    length uep = n /\
    Vertical.unscaledFunctionValues NDEBUG out ep opt evalSF
    = Returns (function_values evalSF crs uep).
Proof.
  intros Htab Hn Hm crs.
  destruct (@Horizontal_unscaledEndPoints_returns NDEBUG ep
              {| use3PtScaling := crs; curve := curve opt;
                 subSys := subSys opt; thisPh := thisPh opt |} n Htab Hn)
    as (uep & Huep & Hlen).
  { destruct opt as [use3 c s p]. exact Hm. }
  exists uep. split; [exact Huep|]. split; [exact Hlen|].
  unfold Vertical.unscaledFunctionValues. cbv zeta.
  unfold Horizontal.unscaledEndPoints in Huep.
  cbn [use3PtScaling curve subSys thisPh] in Huep.
  fold crs.
  destruct (curve opt) eqn:Ecurve;
    cbv [equal FunctionCategory_equal orb andb negb] in *.
  - (* Relperm *)
    fold crs.
    destruct (haveScaledRelPermAtCritSat out (thisPh opt) (subSys opt))
      eqn:Ecrs; subst crs; cbn [negb] in *.
    + rewrite Huep. cbn [bind].
      apply (function_values_loop evalSF true uep).
    + rewrite Huep. cbn [bind].
      apply (function_values_loop evalSF false uep).
  - (* CapPress *)
    subst crs. rewrite Huep. cbn [bind].
    apply (function_values_loop evalSF false uep).
Qed.

End FunctionValuesFacts.

(* ===================================================================== *)
(** * The object of [CreateEPS::Vertical::fromECLOutput] at work          *)
(* ===================================================================== *)

Section VerticalObject.

Variable convert_from : float -> float -> float.
Variable NDEBUG : bool.
Variable out : ECLOutput float.

Lemma PureVertical_scalingFunction_sizes (opt : CreateEPS.EPSOptions)
    (fvals : list (FunctionValues.t float))
    (p : PureVerticalScaling.Impl float) :
  Create.PureVertical.scalingFunction convert_from NDEBUG out opt fvals
  = Returns (Some p) ->
  length (PureVerticalScaling.fmax_ p) = numCells out.
Proof.
  unfold Create.PureVertical.scalingFunction.
  rewrite transform_returns by apply repeat_length. cbn [bind]. cbv zeta.
  destruct opt as [use3 curve subSys thisPh].
  cbn [CreateEPS.use3PtScaling CreateEPS.curve CreateEPS.subSys
       CreateEPS.thisPh].
  destruct curve, subSys, thisPh;
    cbv [equal FunctionCategory_equal SubSystem_equal ECLPhaseIndex_equal];
    try discriminate.
  all: unfold Create.PureVertical.Kr.G, Create.PureVertical.Kr.O,
         Create.PureVertical.Kr.W, Create.PureVertical.Pc.GO,
         Create.PureVertical.Pc.OW,
         Create.PureVertical.pureVerticalRelpermScaling,
         Create.PureVertical.pureVerticalCapPressScaling,
         PureVerticalScaling.new.
  all: cbv zeta; intros Hrun; bind_returns Hrun; inversion Hrun.
  all: cbn [PureVerticalScaling.fmax_].
  all: eapply gridDefaultedVector_length; eassumption.
Qed.

Lemma CritSatVertical_scaling_sizes (sdisp : list float)
    (fval : list (FunctionValues.t float)) (krr kr : string)
    (p : CritSatVerticalScaling.Impl float) :
  length sdisp = numCells out ->
  Create.CritSatVertical.scaling NDEBUG out sdisp fval krr kr
  = Returns (Some p) ->
  length (CritSatVerticalScaling.sdisp_ p) = numCells out /\
  length (CritSatVerticalScaling.fdisp_ p) = numCells out /\
  length (CritSatVerticalScaling.fmax_ p) = numCells out.
Proof.
  intros Hsd. unfold Create.CritSatVertical.scaling,
    CritSatVerticalScaling.new.
  intros Hrun. do 4 bind_returns Hrun. inversion Hrun.
  cbn [CritSatVerticalScaling.sdisp_ CritSatVerticalScaling.fdisp_
       CritSatVerticalScaling.fmax_].
  repeat split; [exact Hsd| |];
    eapply gridDefaultedVector_length; eassumption.
Qed.

Lemma CritSatVertical_scalingFunction_sizes (opt : CreateEPS.EPSOptions)
    (tep : CreateEPS.RawTableEndPoints.t float)
    (fvals : list (FunctionValues.t float))
    (p : CritSatVerticalScaling.Impl float) :
  Create.CritSatVertical.scalingFunction NDEBUG out opt tep fvals
  = Returns (Some p) ->
  length (CritSatVerticalScaling.sdisp_ p) = numCells out /\
  length (CritSatVerticalScaling.fdisp_ p) = numCells out /\
  length (CritSatVerticalScaling.fmax_ p) = numCells out.
Proof.
  unfold Create.CritSatVertical.scalingFunction. cbv zeta.
  destruct opt as [use3 curve subSys thisPh].
  cbn [CreateEPS.use3PtScaling CreateEPS.curve CreateEPS.subSys
       CreateEPS.thisPh].
  destruct subSys, thisPh;
    cbv [equal FunctionCategory_equal SubSystem_equal ECLPhaseIndex_equal];
    try discriminate.
  all: unfold Create.CritSatVertical.Kr.G, Create.CritSatVertical.Kr.GO,
         Create.CritSatVertical.Kr.OW, Create.CritSatVertical.Kr.W.
  all: intros Hrun; repeat bind_returns Hrun.
  all: refine (CritSatVertical_scaling_sizes _ _ _ _ _ Hrun).
  all: try destruct (Create.CritSatVertical.oil_active out).
  all: repeat match goal with
         | E : bind _ _ = Returns _ |- _ => bind_returns E
         end.
  all: match goal with
       | E : transform _ _ _ = Returns _ |- _ =>
           rewrite (transform_length _ _ _ E)
       | E : transform2 _ _ _ _ = Returns _ |- _ =>
           rewrite (transform2_length _ _ _ _ E)
       end.
  all: apply repeat_length.
Qed.

(** X29: the object that [CreateEPS::Vertical::fromECLOutput] returns
    serves every cell of the model, whatever the result set it was
    built from.  For points whose cells are below [G.numCells()] and as
    many values as points, [vertScale] of the object returns one value
    per point and reads no array outside its bounds; built with
    assertions, provided the table's function values are not inverted
    ([f.max.val < f.disp.val] or [f.max.sat < f.disp.sat]) when the
    object is a [CritSatVerticalScaling]. *)
Theorem Vertical_fromECLOutput_serves_every_cell
    (opt : CreateEPS.EPSOptions) (tep : CreateEPS.RawTableEndPoints.t float)
    (fvals : list (FunctionValues.t float))
    (obj : VerticalScalingInterface.t float) (f : FunctionValues.t float)
    (sp : SaturationPoints float) (val : list float) :
  Vertical.fromECLOutput convert_from NDEBUG out opt tep fvals
  = Returns (Some obj) ->
  cells_below (numCells out) sp ->
  length sp = length val ->
  NDEBUG = true \/
  ((FunctionValues.val (FunctionValues.max f)
    <? FunctionValues.val (FunctionValues.disp f))%float = false /\
   (FunctionValues.sat (FunctionValues.max f)
    <? FunctionValues.sat (FunctionValues.disp f))%float = false) ->
  exists res,
    VerticalScalingInterface.vertScale NDEBUG obj f sp val = Returns res /\
    length res = length val.
Proof.
  intros Hobj Hsp Hlen Hasserts.
  unfold Vertical.fromECLOutput in Hobj. cbv zeta in Hobj.
  destruct ((CreateEPS.curve opt == CreateEPS.CapPress)%cxx
            || negb (haveScaledRelPermAtCritSat out (CreateEPS.thisPh opt)
                       (CreateEPS.subSys opt))).
  - bind_returns Hobj. inversion Hobj as [Ho].
    destruct a as [p|]; [|discriminate Ho].
    cbn [option_map] in Ho. inversion Ho. subst obj.
    cbn [VerticalScalingInterface.vertScale].
    destruct (@PureVertical_vertScale_returns float binary64 NDEBUG p f sp val
                Hlen) as (res & Hres & Hout & _).
    { rewrite (PureVertical_scalingFunction_sizes _ _ E). exact Hsp. }
    exists res. split; assumption.
  - destruct ((CreateEPS.curve opt == CreateEPS.Relperm)%cxx
              && haveScaledRelPermAtCritSat out (CreateEPS.thisPh opt)
                   (CreateEPS.subSys opt)); [|discriminate Hobj].
    bind_returns Hobj. inversion Hobj as [Ho].
    destruct a as [p|]; [|discriminate Ho].
    cbn [option_map] in Ho. inversion Ho. subst obj.
    cbn [VerticalScalingInterface.vertScale].
    destruct (CritSatVertical_scalingFunction_sizes _ _ _ E)
      as (Hsd & Hfd & Hfm).
    destruct (@CritSat_vertScale_returns float binary64 NDEBUG p f sp val
                Hlen) as (res & Hres & Hout & _).
    { unfold CritSat_in_range. rewrite Hsd, Hfd, Hfm. auto. }
    { exact Hasserts. }
    exists res. split; assumption.
Qed.

End VerticalObject.

(* ===================================================================== *)
(** * The factories at work on small result sets                          *)
(* ===================================================================== *)

Section FactoryWitnesses.

Import CreateEPS CreateEPS.RawTableEndPoints.
Local Open Scope string_scope.

Lemma Horizontal_unscaledEndPoints_two_point_witness :
  let ep :=
    {| conn := {| Connate.gas := [0%float]; Connate.water := [0.125%float] |};
       crit := {| Critical.oil_in_gas := [0.25%float];
                  Critical.oil_in_water := [0.1875%float];
                  Critical.gas := [0.0625%float];
                  Critical.water := [0.25%float] |};
       smax := {| Maximum.gas := [0.875%float]; Maximum.oil := [0.875%float];
                  Maximum.water := [1%float] |} |} in
  let opt := {| use3PtScaling := false; curve := Relperm;
                subSys := OilWater; thisPh := Aqua |} in
  exists teps,
    Horizontal.unscaledEndPoints false ep opt = Returns teps /\
    length teps = 1 /\
    Forall (fun t => disp t = low t) teps /\
    teps = [{| low := 0.25%float; disp := 0.25%float; high := 1%float |}].
Proof.
  intros ep opt.
  apply (@Horizontal_unscaledEndPoints_two_point float binary64 false ep opt 1).
  - repeat split.
  - lia.
  - exact (fun Hm : False => Hm).
  - right. reflexivity.
Defined.

Lemma Horizontal_unscaledEndPoints_three_point_witness :
  let ep :=
    {| conn := {| Connate.gas := [0%float]; Connate.water := [0.125%float] |};
       crit := {| Critical.oil_in_gas := [0.25%float];
                  Critical.oil_in_water := [0.1875%float];
                  Critical.gas := [0.0625%float];
                  Critical.water := [0.25%float] |};
       smax := {| Maximum.gas := [0.875%float]; Maximum.oil := [0.875%float];
                  Maximum.water := [1%float] |} |} in
  let opt := {| use3PtScaling := true; curve := Relperm;
                subSys := OilGas; thisPh := Vapour |} in
  exists teps,
    Horizontal.unscaledEndPoints false ep opt = Returns teps /\
    length teps = 1 /\
    teps = [{| low := 0.0625%float; disp := 0.625%float;
               high := 0.875%float |}].
Proof.
  intros ep opt.
  apply (@Horizontal_unscaledEndPoints_three_point float binary64 false ep opt
           1).
  - repeat split.
  - lia.
  - exact (fun Hm : False => Hm).
  - reflexivity.
  - reflexivity.
Defined.

Lemma Horizontal_fromECLOutput_serves_every_cell_witness :
  let out :=
    {| numCells := 2;
       rawLinearisedCellData :=
         fun vector => if String.eqb vector "SGU"
                       then [0.75%float; 1%float]
                       else [0.25%float; 0.5%float];
       activeGrids := ["global"];
       numCells_of := fun _ => 2;
       haveKeywordData := fun _ _ => false;
       rawLinearisedCellData_int_of := fun _ _ => [];
       rawLinearisedCellData_of := fun _ _ => [];
       intehead_phase := 7;
       unitSystem_pressure := 1%float |} in
  let opt := {| use3PtScaling := false; curve := Relperm;
                subSys := OilGas; thisPh := Vapour |} in
  let eps := EPSEvalInterface.TwoPoint
               {| TwoPointScaling.smin_ := [0.25%float; 0.5%float];
                  TwoPointScaling.smax_ := [0.75%float; 1%float];
                  TwoPointScaling.handle_invalid_ := UseUnscaled |} in
  let tep := {| low := 0.125%float; disp := 0.5%float; high := 1%float |} in
  let sp := [{| cell := 1; sat := 0.75%float |};
             {| cell := 0; sat := 0.5%float |}] in
  Horizontal.fromECLOutput false out opt = Returns (Some eps) /\
  one_entry_per_point (EPSEvalInterface.eval eps tep) sp /\
  one_entry_per_point (EPSEvalInterface.reverse eps tep) sp.
Proof.
  intros out opt eps tep sp.
  split; [reflexivity|].
  apply (@Horizontal_fromECLOutput_serves_every_cell float binary64 false out
           opt eps tep sp).
  - reflexivity.
  - repeat constructor.
Defined.

Lemma gridDefaultedVector_fills_every_cell_witness :
  let out :=
    {| numCells := 3;
       rawLinearisedCellData := fun _ => [];
       activeGrids := ["global"; "lgr"];
       numCells_of := fun gridID => if String.eqb gridID "global" then 2 else 1;
       haveKeywordData :=
         fun vector gridID =>
           String.eqb gridID "global" &&
           (String.eqb vector "SATNUM" || String.eqb vector "KRW" ||
            String.eqb vector "KRWR");
       rawLinearisedCellData_int_of := fun _ _ => [2%Z; 1%Z];
       rawLinearisedCellData_of := fun _ _ => [0.5%float; 1.0e20%float];
       intehead_phase := 7;
       unitSystem_pressure := 1%float |} in
  gridDefaultedVector false out "KRW" [0.75%float; 0.875%float]
    (fun kr : float => kr)
  = Returns [0.5%float; 0.75%float; 0.75%float] /\
  length [0.5%float; 0.75%float; 0.75%float] = 3.
Proof.
  intros out.
  apply (@gridDefaultedVector_fills_every_cell false out "KRW"
           [0.75%float; 0.875%float] (fun kr : float => kr)).
  - split; [reflexivity|].
    intros gridID [<-|[<-|[]]];
      (split; [reflexivity|]; split; [simpl; repeat constructor; lia|]);
      intros vector Hv; first [reflexivity|discriminate Hv].
  - right. discriminate.
Defined.

Lemma gridDefaultedVector_absent_keyword_witness :
  let out :=
    {| numCells := 3;
       rawLinearisedCellData := fun _ => [];
       activeGrids := ["global"; "lgr"];
       numCells_of := fun gridID => if String.eqb gridID "global" then 2 else 1;
       haveKeywordData :=
         fun vector gridID =>
           String.eqb gridID "global" &&
           (String.eqb vector "SATNUM" || String.eqb vector "KRW" ||
            String.eqb vector "KRWR");
       rawLinearisedCellData_int_of := fun _ _ => [2%Z; 1%Z];
       rawLinearisedCellData_of := fun _ _ => [0.5%float; 1.0e20%float];
       intehead_phase := 7;
       unitSystem_pressure := 1%float |} in
  gridDefaultedVector false out "KRG" [0.75%float; 0.875%float]
    (fun kr : float => (kr * 2)%float)
  = Returns [0.875%float; 0.75%float; 0.75%float].
Proof.
  intros out.
  apply (@gridDefaultedVector_absent_keyword false out "KRG"
           [0.75%float; 0.875%float] (fun kr : float => (kr * 2)%float)).
  - split; [reflexivity|].
    intros gridID [<-|[<-|[]]];
      (split; [reflexivity|]; split; [simpl; repeat constructor; lia|]);
      intros vector Hv; first [reflexivity|discriminate Hv].
  - right. discriminate.
  - intros gridID [<-|[<-|[]]]; reflexivity.
Defined.

Lemma Vertical_fromECLOutput_pure_scaling_witness :
  let out :=
    {| numCells := 3;
       rawLinearisedCellData := fun _ => [];
       activeGrids := ["global"; "lgr"];
       numCells_of := fun gridID => if String.eqb gridID "global" then 2 else 1;
       haveKeywordData :=
         fun vector gridID =>
           String.eqb gridID "global" &&
           (String.eqb vector "SATNUM" || String.eqb vector "KRW" ||
            String.eqb vector "KRWR");
       rawLinearisedCellData_int_of := fun _ _ => [2%Z; 1%Z];
       rawLinearisedCellData_of := fun _ _ => [0.5%float; 1.0e20%float];
       intehead_phase := 7;
       unitSystem_pressure := 1%float |} in
  let tep :=
    {| conn := {| Connate.gas := [0%float; 0.0625%float];
                  Connate.water := [0.125%float; 0.125%float] |};
       crit := {| Critical.oil_in_gas := [0.25%float; 0.25%float];
                  Critical.oil_in_water := [0.25%float; 0.125%float];
                  Critical.gas := [0.0625%float; 0.0625%float];
                  Critical.water := [0.25%float; 0.25%float] |};
       smax := {| Maximum.gas := [0.875%float; 0.875%float];
                  Maximum.oil := [0.875%float; 0.875%float];
                  Maximum.water := [1%float; 1%float] |} |} in
  let fvals :=
    [{| FunctionValues.disp :=
          {| FunctionValues.sat := 0.5%float; FunctionValues.val := 0.25%float |};
        FunctionValues.max :=
          {| FunctionValues.sat := 1%float; FunctionValues.val := 0.75%float |} |};
     {| FunctionValues.disp :=
          {| FunctionValues.sat := 0.5%float;
             FunctionValues.val := 0.3125%float |};
        FunctionValues.max :=
          {| FunctionValues.sat := 1%float;
             FunctionValues.val := 0.875%float |} |}] in
  let opt := {| use3PtScaling := true; curve := Relperm;
                subSys := OilGas; thisPh := Vapour |} in
  Vertical.fromECLOutput PrimFloat.mul false out opt tep fvals
  = Returns (Some (VerticalScalingInterface.PureVertical
                     {| PureVerticalScaling.fmax_ :=
                          [0.875%float; 0.75%float; 0.75%float] |})) /\
  length [0.875%float; 0.75%float; 0.75%float] = 3.
Proof.
  intros out tep fvals opt.
  apply (@Vertical_fromECLOutput_pure_scaling PrimFloat.mul false out opt tep
           fvals).
  - exact (fun Hm : False => Hm).
  - split; [reflexivity|].
    intros gridID [<-|[<-|[]]];
      (split; [reflexivity|]; split; [simpl; repeat constructor; lia|]);
      intros vector Hv; first [reflexivity|discriminate Hv].
  - right. discriminate.
  - right. reflexivity.
Defined.

Lemma Vertical_fromECLOutput_critical_saturation_scaling_witness :
  let out :=
    {| numCells := 3;
       rawLinearisedCellData := fun _ => [];
       activeGrids := ["global"; "lgr"];
       numCells_of := fun gridID => if String.eqb gridID "global" then 2 else 1;
       haveKeywordData :=
         fun vector gridID =>
           String.eqb gridID "global" &&
           (String.eqb vector "SATNUM" || String.eqb vector "KRW" ||
            String.eqb vector "KRWR");
       rawLinearisedCellData_int_of := fun _ _ => [2%Z; 1%Z];
       rawLinearisedCellData_of := fun _ _ => [0.5%float; 1.0e20%float];
       intehead_phase := 7;
       unitSystem_pressure := 1%float |} in
  let tep :=
    {| conn := {| Connate.gas := [0%float; 0.0625%float];
                  Connate.water := [0.125%float; 0.125%float] |};
       crit := {| Critical.oil_in_gas := [0.25%float; 0.25%float];
                  Critical.oil_in_water := [0.25%float; 0.125%float];
                  Critical.gas := [0.0625%float; 0.0625%float];
                  Critical.water := [0.25%float; 0.25%float] |};
       smax := {| Maximum.gas := [0.875%float; 0.875%float];
                  Maximum.oil := [0.875%float; 0.875%float];
                  Maximum.water := [1%float; 1%float] |} |} in
  let fvals :=
    [{| FunctionValues.disp :=
          {| FunctionValues.sat := 0.5%float; FunctionValues.val := 0.25%float |};
        FunctionValues.max :=
          {| FunctionValues.sat := 1%float; FunctionValues.val := 0.75%float |} |};
     {| FunctionValues.disp :=
          {| FunctionValues.sat := 0.5%float;
             FunctionValues.val := 0.3125%float |};
        FunctionValues.max :=
          {| FunctionValues.sat := 1%float;
             FunctionValues.val := 0.875%float |} |}] in
  let opt := {| use3PtScaling := false; curve := Relperm;
                subSys := OilWater; thisPh := Aqua |} in
  Vertical.fromECLOutput PrimFloat.mul false out opt tep fvals
  = Returns (Some (VerticalScalingInterface.CritSatVertical
      {| CritSatVerticalScaling.sdisp_ :=
           [0.8125%float; 0.75%float; 0.75%float];
         CritSatVerticalScaling.fdisp_ := [0.5%float; 0.25%float; 0.25%float];
         CritSatVerticalScaling.fmax_ := [0.5%float; 0.75%float; 0.75%float]
      |})).
Proof.
  intros out tep fvals opt.
  apply (@Vertical_fromECLOutput_critical_saturation_scaling PrimFloat.mul
           false out opt tep fvals 2).
  - exact (fun Hm : False => Hm).
  - repeat split.
  - reflexivity.
  - split; [reflexivity|].
    intros gridID [<-|[<-|[]]];
      (split; [reflexivity|]; split; [simpl; repeat constructor; lia|]);
      intros vector Hv; first [reflexivity|discriminate Hv].
  - right. lia.
  - reflexivity.
  - reflexivity.
Defined.

Lemma Vertical_unscaledFunctionValues_at_the_end_points_witness :
  let out :=
    {| numCells := 3;
       rawLinearisedCellData := fun _ => [];
       activeGrids := ["global"; "lgr"];
       numCells_of := fun gridID => if String.eqb gridID "global" then 2 else 1;
       haveKeywordData :=
         fun vector gridID =>
           String.eqb gridID "global" &&
           (String.eqb vector "SATNUM" || String.eqb vector "KRW" ||
            String.eqb vector "KRWR");
       rawLinearisedCellData_int_of := fun _ _ => [2%Z; 1%Z];
       rawLinearisedCellData_of := fun _ _ => [0.5%float; 1.0e20%float];
       intehead_phase := 7;
       unitSystem_pressure := 1%float |} in
  let ep :=
    {| conn := {| Connate.gas := [0%float; 0.0625%float];
                  Connate.water := [0.125%float; 0.125%float] |};
       crit := {| Critical.oil_in_gas := [0.25%float; 0.25%float];
                  Critical.oil_in_water := [0.25%float; 0.125%float];
                  Critical.gas := [0.0625%float; 0.0625%float];
                  Critical.water := [0.25%float; 0.25%float] |};
       smax := {| Maximum.gas := [0.875%float; 0.875%float];
                  Maximum.oil := [0.875%float; 0.875%float];
                  Maximum.water := [1%float; 1%float] |} |} in
  let opt := {| use3PtScaling := false; curve := Relperm;
                subSys := OilWater; thisPh := Aqua |} in
  let evalSF := fun (i : Z) (s : float) =>
                  if (i =? 0)%Z then (s * s)%float else s in
  exists uep,
    Horizontal.unscaledEndPoints false ep
      {| use3PtScaling := true; curve := Relperm;
         subSys := OilWater; thisPh := Aqua |}
    = Returns uep /\
    length uep = 2 /\
    Vertical.unscaledFunctionValues false out ep opt evalSF
    = Returns (function_values evalSF true uep).
Proof.
  intros out ep opt evalSF.
  apply (@Vertical_unscaledFunctionValues_at_the_end_points float binary64
           false out ep opt evalSF 2).
  - repeat split.
  - lia.
  - exact (fun Hm : False => Hm).
Defined.

Lemma Vertical_fromECLOutput_serves_every_cell_witness :
  let out :=
    {| numCells := 3;
       rawLinearisedCellData := fun _ => [];
       activeGrids := ["global"; "lgr"];
       numCells_of := fun gridID => if String.eqb gridID "global" then 2 else 1;
       haveKeywordData :=
         fun vector gridID =>
           String.eqb gridID "global" &&
           (String.eqb vector "SATNUM" || String.eqb vector "KRW" ||
            String.eqb vector "KRWR");
       rawLinearisedCellData_int_of := fun _ _ => [2%Z; 1%Z];
       rawLinearisedCellData_of := fun _ _ => [0.5%float; 1.0e20%float];
       intehead_phase := 7;
       unitSystem_pressure := 1%float |} in
  let tep :=
    {| conn := {| Connate.gas := [0%float; 0.0625%float];
                  Connate.water := [0.125%float; 0.125%float] |};
       crit := {| Critical.oil_in_gas := [0.25%float; 0.25%float];
                  Critical.oil_in_water := [0.25%float; 0.125%float];
                  Critical.gas := [0.0625%float; 0.0625%float];
                  Critical.water := [0.25%float; 0.25%float] |};
       smax := {| Maximum.gas := [0.875%float; 0.875%float];
                  Maximum.oil := [0.875%float; 0.875%float];
                  Maximum.water := [1%float; 1%float] |} |} in
  let f :=
    {| FunctionValues.disp :=
         {| FunctionValues.sat := 0.5%float; FunctionValues.val := 0.25%float |};
       FunctionValues.max :=
         {| FunctionValues.sat := 1%float; FunctionValues.val := 0.75%float |} |} in
  let opt := {| use3PtScaling := false; curve := Relperm;
                subSys := OilWater; thisPh := Aqua |} in
  let obj := VerticalScalingInterface.CritSatVertical
      {| CritSatVerticalScaling.sdisp_ :=
           [0.8125%float; 0.75%float; 0.75%float];
         CritSatVerticalScaling.fdisp_ := [0.5%float; 0.25%float; 0.25%float];
         CritSatVerticalScaling.fmax_ := [0.5%float; 0.75%float; 0.75%float]
      |} in
  let sp := [{| cell := 2; sat := 0.5%float |};
             {| cell := 0; sat := 0.875%float |}] in
  exists res,
    VerticalScalingInterface.vertScale false obj f sp [0.25%float; 0.75%float]
    = Returns res /\
    length res = 2.
Proof.
  intros out tep f opt obj sp.
  apply (@Vertical_fromECLOutput_serves_every_cell PrimFloat.mul false out
           opt tep [f; f] obj f sp [0.25%float; 0.75%float]).
  - reflexivity.
  - repeat constructor.
  - reflexivity.
  - right. split; reflexivity.
Defined.

End FactoryWitnesses.
